(** * distdb: a shallow embedding of the LSM storage engine

    The development follows the Go packages of the repository:
    - [collections]: the skiplist ([SkipList.Get], [SkipList.Insert]) and the
      doubly linked list ([LinkedList.Insert], [LinkedList.Remove]);
    - [wal]: the write-ahead log ([LoadWAL], [WAL.Write]);
    - [sstable]: the builder, the reader and the iterator of sorted tables;
    - [lsmtree]: chunks, the k-way merge, [LsmTree.Set], [LsmTree.Get] and
      [LsmTree.mergeLayer].

    Go integers are integers of [Z] with the wrap-around of their width written
    out; byte slices are [list byte]; Go strings are [string].  A Go function
    that may panic, or whose loop needs fuel in the embedding, returns an
    [outcome]. *)

From Stdlib Require Import List ZArith Lia Bool NArith.
From Stdlib Require Import Strings.String Strings.Ascii Strings.Byte.
From Stdlib Require Import Sorting.Sorted DecimalString.
Import ListNotations.
Local Open Scope Z_scope.

(** ** Results of Go calls *)

Inductive error : Type :=
| ErrNotExist        (* os: file does not exist *)
| ErrIO              (* an injected I/O failure *)
| ErrEOF             (* io.EOF *)
| ErrMmapClosed      (* mmap: closed *)
| ErrInvalidOffset   (* mmap: invalid ReadAt offset *)
| ErrSyntax          (* encoding/json: malformed input *)
| ErrBuiltWrite      (* cannot write to a built SSTable *)
| ErrOrder           (* must add keys in ascending order to SSTable *)
| ErrAlreadyBuilt    (* sstable already built *)
| ErrUnsupported     (* write not supported for SSTable chunk *)
| ErrFileClosed.     (* os: file already closed *)

Inductive outcome (A : Type) : Type :=
| Ok (a : A)
| Err (e : error)
| Panic
| OutOfFuel.

Arguments Ok {A} a.
Arguments Err {A} e.
Arguments Panic {A}.
Arguments OutOfFuel {A}.

Definition bind {A B : Type} (c : outcome A) (k : A -> outcome B) : outcome B :=
  match c with
  | Ok a => k a
  | Err e => Err e
  | Panic => Panic
  | OutOfFuel => OutOfFuel
  end.

Declare Scope go_scope.
Notation "x <- c ;; k" := (bind c (fun x => k))
  (at level 61, c at next level, right associativity) : go_scope.
Notation "' p <- c ;; k" := (bind c (fun x => match x with p => k end))
  (at level 61, p pattern, c at next level, right associativity) : go_scope.
Local Open Scope go_scope.

(** A stateful call returns the state it leaves behind together with its
    outcome: Go keeps every effect that happened before an error return. *)
Definition M (S A : Type) : Type := S -> S * outcome A.

Definition ret {S A : Type} (a : A) : M S A := fun s => (s, Ok a).

Definition fail {S A : Type} (e : error) : M S A := fun s => (s, Err e).

Definition mbind {S A B : Type} (c : M S A) (k : A -> M S B) : M S B :=
  fun s =>
    match c s with
    | (s', Ok a) => k a s'
    | (s', Err e) => (s', Err e)
    | (s', Panic) => (s', Panic)
    | (s', OutOfFuel) => (s', OutOfFuel)
    end.

(** [lift] runs a call that only reads the state. *)
Definition lift {S A : Type} (c : S -> outcome A) : M S A := fun s => (s, c s).

(** A call whose returned error the caller drops ([tree.save()],
    [parallellMerge(...)]): a panic still unwinds. *)
Definition ignore_err {S A : Type} (c : M S A) : M S unit :=
  fun s =>
    match c s with
    | (s', Panic) => (s', Panic)
    | (s', OutOfFuel) => (s', OutOfFuel)
    | (s', _) => (s', Ok tt)
    end.

Declare Scope m_scope.
Notation "x <~ c ;; k" := (mbind c (fun x => k))
  (at level 61, c at next level, right associativity) : m_scope.
Notation "' p <~ c ;; k" := (mbind c (fun x => match x with p => k end))
  (at level 61, p pattern, c at next level, right associativity) : m_scope.
Local Open Scope m_scope.

(** ** Fixed-width integers and bytes *)

Definition uint64 (z : Z) : Z := z mod 2 ^ 64.

Definition int64 (z : Z) : Z := (z + 2 ^ 63) mod 2 ^ 64 - 2 ^ 63.

Definition len {A : Type} (l : list A) : Z := Z.of_nat (List.length l).

Definition byte_of_Z (z : Z) : byte :=
  match Byte.of_N (Z.to_N (z mod 256)) with
  | Some b => b
  | None => x00
  end.

Definition Z_of_byte (b : byte) : Z := Z.of_N (Byte.to_N b).

(** [binary.BigEndian.PutUint64] and [binary.BigEndian.Uint64]. *)
Fixpoint be_encode (n : nat) (v : Z) : list byte :=
  match n with
  | O => []
  | S n' => byte_of_Z (Z.shiftr v (8 * Z.of_nat n')) :: be_encode n' v
  end.

Definition PutUint64 (v : Z) : list byte := be_encode 8 v.

Definition Uint64 (b : list byte) : Z :=
  fold_left (fun acc x => Z.lor (Z.shiftl acc 8) (Z_of_byte x)) b 0.

(** [make([]byte, n)] panics on a negative length or one beyond [int]. *)
Definition make_ok (n : Z) : bool := (0 <=? n) && (n <? 2 ^ 63).

(** A slice expression [b[lo:hi]] panics when out of range. *)
Definition slice (b : list byte) (lo hi : Z) : outcome (list byte) :=
  if (0 <=? lo) && (lo <=? hi) && (hi <=? len b)
  then Ok (firstn (Z.to_nat (hi - lo)) (skipn (Z.to_nat lo) b))
  else Panic.

(** [path.Join] of a directory and a file name. *)
Definition path_Join (dir file : string) : string := (dir ++ "/" ++ file)%string.

Fixpoint bytes_eqb (a b : list byte) : bool :=
  match a, b with
  | [], [] => true
  | x :: a', y :: b' => Byte.eqb x y && bytes_eqb a' b'
  | _, _ => false
  end.

(** An index expression [l[i]] panics when out of range. *)
Definition at_ {A : Type} (l : list A) (i : Z) : outcome A :=
  if i <? 0 then Panic
  else match nth_error l (Z.to_nat i) with
       | Some x => Ok x
       | None => Panic
       end.

(** ** [math/rand]

    The global source is the sequence of its outcomes: [coin i] is the result
    of the [i]-th evaluation of [rand.Float32() < 0.5] and [pick i] that of
    the [i]-th [rand.Intn]. *)
Record Rand : Type := mkRand {
  coin : nat -> bool;
  coin_pos : nat;
  pick : nat -> nat;
  pick_pos : nat
}.

Definition rand_coin (r : Rand) : bool * Rand :=
  (coin r (coin_pos r), mkRand (coin r) (S (coin_pos r)) (pick r) (pick_pos r)).

Definition rand_Intn (n : nat) (r : Rand) : nat * Rand :=
  (Nat.modulo (pick r (pick_pos r)) n,
   mkRand (coin r) (coin_pos r) (pick r) (S (pick_pos r))).

(** ** Records that travel through files *)

(** [wal.WALEntry] *)
Record WALEntry : Type := mkWALEntry {
  Kind : Z;
  Key : string;
  Data : list byte
}.

(** [sstable.indexEntry] *)
Record indexEntry : Type := mkIndexEntry {
  ixKey : string;
  ixOffset : Z
}.

Definition sparseIndex : Type := list indexEntry.

(** [sstable.SSTableMetaData] *)
Record SSTableMetaData : Type := mkMeta {
  NumEntries : Z
}.

(** [lsmtree.chunkType] *)
Definition chunkType : Type := Z.
Definition chunkTypeSkiplist : chunkType := 1.
Definition chunkTypeSSTable : chunkType := 2.

(** [lsmtree.lsmChunkJson], [lsmLayerJson] and [lsmTreeJson] *)
Record lsmChunkJson : Type := mkChunkJson {
  cj_Name : string;
  cj_ChunkType : chunkType
}.

Record lsmLayerJson : Type := mkLayerJson {
  lj_Name : string;
  lj_MaxChunks : Z;
  lj_Chunks : list lsmChunkJson
}.

Record lsmTreeJson : Type := mkTreeJson {
  tj_Layers : list lsmLayerJson;
  tj_Root : lsmChunkJson;
  tj_MaxRootChunkSize : Z
}.

(** ** The libraries the repository imports

    [github.com/bits-and-blooms/bloom] and [encoding/json] are not part of the
    repository; the engine is stated over any implementation of the calls it
    makes to them. *)

Class BloomFilter : Type := {
  bloom : Type;
  NewWithEstimates : Z -> bloom;            (* the rate is the constant 0.01 *)
  bloom_Add : bloom -> list byte -> bloom;
  bloom_Test : bloom -> list byte -> bool
}.

(** [json.Marshal] and [json.Unmarshal] at [WALEntry]. *)
Class Json : Type := {
  Marshal : WALEntry -> list byte;
  Unmarshal : list byte -> option WALEntry
}.

(** ** The file system

    A file written through [encoding/json] or through the filter's [WriteTo]
    holds the value that was encoded; data, index and log files hold bytes.
    [faults] lists the calls that the environment makes fail. *)

Inductive ioOp : Type := IoOpen | IoCreate | IoRead | IoWrite | IoRemove.

Definition ioOp_eqb (a b : ioOp) : bool :=
  match a, b with
  | IoOpen, IoOpen | IoCreate, IoCreate | IoRead, IoRead
  | IoWrite, IoWrite | IoRemove, IoRemove => true
  | _, _ => false
  end.

Section Engine.

Context {BF : BloomFilter} {J : Json}.

Inductive file : Type :=
| FBytes (bs : list byte)
| FBloom (f : bloom)
| FSparseIndex (ix : sparseIndex)
| FMeta (m : SSTableMetaData)
| FManifest (m : lsmTreeJson).

Record FS : Type := mkFS {
  files : list (string * file);
  faults : list (ioOp * string)
}.

Definition faulty (fs : FS) (op : ioOp) (path : string) : bool :=
  existsb (fun x => ioOp_eqb (fst x) op && String.eqb (snd x) path) (faults fs).

Fixpoint lookup (path : string) (l : list (string * file)) : option file :=
  match l with
  | [] => None
  | (p, f) :: l' => if String.eqb p path then Some f else lookup path l'
  end.

Fixpoint store (path : string) (f : file) (l : list (string * file))
  : list (string * file) :=
  match l with
  | [] => [(path, f)]
  | (p, g) :: l' =>
      if String.eqb p path then (p, f) :: l' else (p, g) :: store path f l'
  end.

Fixpoint unlink (path : string) (l : list (string * file))
  : list (string * file) :=
  match l with
  | [] => []
  | (p, g) :: l' =>
      if String.eqb p path then unlink path l' else (p, g) :: unlink path l'
  end.

(** [os.Open] *)
Definition os_Open (path : string) (fs : FS) : outcome file :=
  if faulty fs IoOpen path then Err ErrIO
  else match lookup path (files fs) with
       | Some f => Ok f
       | None => Err ErrNotExist
       end.

(** [os.Create] followed by writing [f] through the handle. *)
Definition os_Create (path : string) (f : file) : M FS unit :=
  fun fs =>
    if faulty fs IoCreate path then (fs, Err ErrIO)
    else (mkFS (store path f (files fs)) (faults fs), Ok tt).

(** Writing the whole content of an open file. *)
Definition os_Write (path : string) (f : file) : M FS unit :=
  fun fs =>
    if faulty fs IoWrite path then (fs, Err ErrIO)
    else (mkFS (store path f (files fs)) (faults fs), Ok tt).

(** [os.Remove] *)
Definition os_Remove (path : string) : M FS unit :=
  fun fs =>
    if faulty fs IoRemove path then (fs, Err ErrIO)
    else match lookup path (files fs) with
         | Some _ => (mkFS (unlink path (files fs)) (faults fs), Ok tt)
         | None => (fs, Err ErrNotExist)
         end.

(** ** [golang.org/x/exp/mmap]: a read-only mapping; [None] is the closed
    reader, which is also what [mmap.Open] returns for an empty file. *)

Definition ReaderAt : Type := option (list byte).

Definition mmap_of (bs : list byte) : ReaderAt :=
  match bs with
  | [] => None
  | _ => Some bs
  end.

Definition mmap_Open (path : string) (fs : FS) : outcome ReaderAt :=
  f <- os_Open path fs ;;
  match f with
  | FBytes bs => Ok (mmap_of bs)
  | _ => Err ErrSyntax
  end.

Definition Len (r : ReaderAt) : Z :=
  match r with
  | None => 0
  | Some d => len d
  end.

(** [buf := make([]byte, n); _, err := r.ReadAt(buf, off)] *)
Definition ReadAt (r : ReaderAt) (n off : Z) : outcome (list byte) :=
  if negb (make_ok n) then Panic
  else match r with
       | None => Err ErrMmapClosed
       | Some d =>
           if (off <? 0) || (len d <? off) then Err ErrInvalidOffset
           else let p := firstn (Z.to_nat n) (skipn (Z.to_nat off) d) in
                if len p <? n then Err ErrEOF else Ok p
       end.

(** ** Package [sstable]: the reader *)

Definition dataFileExtension : string := ".data".
Definition indexFileExtension : string := ".index".
Definition metadataFileExtension : string := ".meta".
Definition bloomFilterFileExtension : string := ".bloom".
Definition sparseIndexFileExtension : string := ".spindex".

Definition artifact (root name ext : string) : string :=
  path_Join root (name ++ ext)%string.

Record SSTable : Type := mkSSTable {
  t_filter : bloom;
  t_data : ReaderAt;
  t_index : ReaderAt;
  t_sparseIndex : sparseIndex;
  t_root : string;
  t_name : string;
  t_meta : SSTableMetaData
}.

Definition loadBloomFilter (root name : string) (fs : FS) : outcome bloom :=
  f <- os_Open (artifact root name bloomFilterFileExtension) fs ;;
  match f with
  | FBloom b => Ok b
  | _ => Err ErrSyntax
  end.

Definition loadSparseIndex (root name : string) (fs : FS) : outcome sparseIndex :=
  f <- os_Open (artifact root name sparseIndexFileExtension) fs ;;
  match f with
  | FSparseIndex ix => Ok ix
  | _ => Err ErrSyntax
  end.

Definition loadMetadata (root name : string) (fs : FS) : outcome SSTableMetaData :=
  f <- os_Open (artifact root name metadataFileExtension) fs ;;
  match f with
  | FMeta m => Ok m
  | _ => Err ErrSyntax
  end.

Definition LoadSSTable (root name : string) (fs : FS) : outcome SSTable :=
  bloomFilter <- loadBloomFilter root name fs ;;
  sparseIndex <- loadSparseIndex root name fs ;;
  metadata <- loadMetadata root name fs ;;
  data <- mmap_Open (artifact root name dataFileExtension) fs ;;
  index <- mmap_Open (artifact root name indexFileExtension) fs ;;
  Ok (mkSSTable bloomFilter data index sparseIndex root name metadata).

(** The binary search of [getIndexRange]; [fuel] bounds the iterations. *)
Fixpoint searchIndex (fuel : nat) (sp : sparseIndex) (key : string) (min max : Z)
  : outcome (Z * Z) :=
  match fuel with
  | O => OutOfFuel
  | S fuel' =>
      if negb (max =? min) then
        let idx := Z.quot (min + max) 2 + Z.rem (min + max) 2 in
        v <- at_ sp idx ;;
        if String.ltb key (ixKey v) then searchIndex fuel' sp key min (idx - 1)
        else if String.ltb (ixKey v) key then searchIndex fuel' sp key idx max
        else
          a <- at_ sp idx ;;
          b <- at_ sp (idx + 1) ;;
          Ok (ixOffset a, ixOffset b)
      else
        a <- at_ sp min ;;
        b <- at_ sp (min + 1) ;;
        Ok (ixOffset a, ixOffset b)
  end.

Definition getIndexRange (s : SSTable) (key : string) : outcome (Z * Z) :=
  let min := 0 in
  let max := len (t_sparseIndex s) - 1 in
  last <- at_ (t_sparseIndex s) max ;;
  if String.leb (ixKey last) key then Ok (ixOffset last, Len (t_index s))
  else searchIndex (S (List.length (t_sparseIndex s))) (t_sparseIndex s) key min max.

(** The scanning loop of [scanIndex] over the loaded [buffer]. *)
Fixpoint scanLoop (fuel : nat) (buffer key : list byte) (i n : Z)
  : outcome (Z * Z * bool) :=
  match fuel with
  | O => OutOfFuel
  | S fuel' =>
      if i <? n then
        b1 <- slice buffer i (int64 (i + 8)) ;;
        let kind := Uint64 b1 in
        let i := int64 (i + 8) in
        b2 <- slice buffer i (int64 (i + 8)) ;;
        let keyLen := int64 (Uint64 b2) in
        let i := int64 (i + 8) in
        bufferKey <- slice buffer i (int64 (i + keyLen)) ;;
        if bytes_eqb bufferKey key then
          b3 <- slice buffer (int64 (i + keyLen)) (int64 (i + keyLen + 8)) ;;
          Ok (kind, int64 (Uint64 b3), true)
        else scanLoop fuel' buffer key (int64 (i + (int64 (keyLen + 8)))) n
      else Ok (0, 0, false)
  end.

Definition scanIndex (s : SSTable) (key : list byte) (start end_ : Z)
  : outcome (Z * Z * bool) :=
  buffer <- ReadAt (t_index s) (int64 (end_ - start)) start ;;
  scanLoop (S (List.length buffer)) buffer key 0 (int64 (end_ - start)).

Definition getDataEntry (s : SSTable) (offset : Z) : outcome (list byte) :=
  _ <- ReadAt (t_data s) 1 offset ;;
  numBuf <- ReadAt (t_data s) 8 (int64 (offset + 1)) ;;
  let dataLen := Uint64 numBuf in
  ReadAt (t_data s) dataLen (int64 (offset + 1 + 8)).

Definition SSTable_Read (s : SSTable) (key : string)
  : outcome (Z * list byte * bool) :=
  if negb (bloom_Test (t_filter s) (list_byte_of_string key)) then Ok (0, [], false)
  else
    let keyBytes := list_byte_of_string key in
    '(indexStart, indexEnd) <- getIndexRange s key ;;
    '(kind, dataOffset, exists_) <- scanIndex s keyBytes indexStart indexEnd ;;
    if negb exists_ then Ok (0, [], false)
    else
      data <- getDataEntry s dataOffset ;;
      Ok (kind, data, true).

Definition SSTable_Size (s : SSTable) : Z := Len (t_data s).

Definition SSTable_NumEntries (s : SSTable) : Z := NumEntries (t_meta s).

(** [Close] unmaps both files; [Delete] also removes the five artifacts,
    dropping what [os.Remove] returns. *)
Definition SSTable_Close (s : SSTable) : SSTable :=
  mkSSTable (t_filter s) None None (t_sparseIndex s) (t_root s) (t_name s) (t_meta s).

Definition SSTable_Delete (s : SSTable) : M FS SSTable :=
  _ <~ ignore_err (os_Remove (artifact (t_root s) (t_name s) bloomFilterFileExtension)) ;;
  _ <~ ignore_err (os_Remove (artifact (t_root s) (t_name s) dataFileExtension)) ;;
  _ <~ ignore_err (os_Remove (artifact (t_root s) (t_name s) indexFileExtension)) ;;
  _ <~ ignore_err (os_Remove (artifact (t_root s) (t_name s) sparseIndexFileExtension)) ;;
  _ <~ ignore_err (os_Remove (artifact (t_root s) (t_name s) metadataFileExtension)) ;;
  ret (SSTable_Close s).

(** ** Package [sstable]: the iterator *)

Record SSTableIterator : Type := mkSSTableIterator {
  it_tbl : SSTable;
  it_key : list byte;
  it_kind : Z;
  it_value : list byte;
  it_nextIndexOffset : Z
}.

(** [Next] returns [(nil, io.EOF)] at the end of the index: [Err ErrEOF]. *)
Definition SSTableIterator_Next (s : SSTableIterator) : outcome SSTableIterator :=
  let index := t_index (it_tbl s) in
  let off := it_nextIndexOffset s in
  if off =? Len index then Err ErrEOF
  else
    numBuf <- ReadAt index 8 off ;;
    let kind := Uint64 numBuf in
    numBuf <- ReadAt index 8 (int64 (off + 8)) ;;
    let keyLen := int64 (Uint64 numBuf) in
    keyBuffer <- ReadAt index keyLen (int64 (off + 8 + 8)) ;;
    numBuf <- ReadAt index 8 (int64 (off + 8 + 8 + keyLen)) ;;
    let dataOffset := int64 (Uint64 numBuf) in
    dataBuffer <- getDataEntry (it_tbl s) dataOffset ;;
    Ok (mkSSTableIterator (it_tbl s) keyBuffer kind dataBuffer
          (int64 (off + 8 + keyLen + 8))).

Definition SSTableIterator_Value (s : SSTableIterator) : Z * string * list byte :=
  (it_kind s, string_of_list_byte (it_key s), it_value s).

Definition SSTable_Iterator (s : SSTable) : outcome SSTableIterator :=
  SSTableIterator_Next (mkSSTableIterator s [] 0 [] 0).

(** ** Package [sstable]: the builder

    [b_data] and [b_index] are the bytes written so far through the two
    buffered writers; [Build] flushes them to the files. *)

Definition dataEntry : byte := x01.

Definition defaultSparseIndexBlockSize : Z := 8 * 1024.

Record SSTableBuilder : Type := mkSSTableBuilder {
  b_filter : bloom;
  b_data : list byte;
  b_dataPosition : Z;
  b_index : list byte;
  b_indexPosition : Z;
  b_sparseIndex : sparseIndex;
  b_sparseIndexBlockSize : Z;
  b_built : bool;
  b_previousKey : string;
  b_root : string;
  b_name : string;
  b_meta : SSTableMetaData
}.

Definition NewSSTable (numElements : Z) (root name : string) : M FS SSTableBuilder :=
  _ <~ os_Create (artifact root name dataFileExtension) (FBytes []) ;;
  _ <~ os_Create (artifact root name indexFileExtension) (FBytes []) ;;
  ret (mkSSTableBuilder (NewWithEstimates numElements) [] 0 [] 0 []
         defaultSparseIndexBlockSize false "" root name (mkMeta 0)).

(** [writeIndexEntry] and [writeDataEntry] return the bytes they append and
    the count [bytesWritten]. *)
Definition writeIndexEntry (s : SSTableBuilder) (key : list byte) (kind : Z)
  : list byte * Z :=
  let b1 := PutUint64 kind in
  let bytesWritten := int64 (0 + len b1) in
  let keyLen := len key in
  let b2 := PutUint64 (uint64 keyLen) in
  let bytesWritten := int64 (bytesWritten + len b2) in
  let bytesWritten := int64 (bytesWritten + len key) in
  let b3 := PutUint64 (uint64 (b_dataPosition s)) in
  let bytesWritten := int64 (bytesWritten + len b3) in
  (b1 ++ b2 ++ key ++ b3, bytesWritten).

Definition writeDataEntry (data : list byte) : list byte * Z :=
  let b1 := [dataEntry] in
  let bytesWritten := int64 (0 + len b1) in
  let dataLen := len data in
  let b2 := PutUint64 (uint64 dataLen) in
  let bytesWritten := int64 (bytesWritten + len b2) in
  let bytesWritten := int64 (bytesWritten + len data) in
  (b1 ++ b2 ++ data, bytesWritten).

Definition currentSparseIndexBlockSize (s : SSTableBuilder) : outcome Z :=
  if len (b_sparseIndex s) =? 0 then Ok (b_sparseIndexBlockSize s)
  else
    lastSparseIndex <- at_ (b_sparseIndex s) (len (b_sparseIndex s) - 1) ;;
    Ok (int64 (b_indexPosition s - ixOffset lastSparseIndex)).

Definition SSTableBuilder_Write (s : SSTableBuilder) (key : string) (kind : Z)
  (data : list byte) : outcome SSTableBuilder :=
  if b_built s then Err ErrBuiltWrite
  else if String.ltb key (b_previousKey s) then Err ErrOrder
  else
    let previousKey := key in
    cur <- currentSparseIndexBlockSize s ;;
    let sparseIndex :=
      if b_sparseIndexBlockSize s <=? cur
      then b_sparseIndex s ++ [mkIndexEntry key (b_indexPosition s)]
      else b_sparseIndex s in
    let keyBytes := list_byte_of_string key in
    let '(indexBytes, indexBytesWritten) := writeIndexEntry s keyBytes kind in
    let indexPosition := int64 (b_indexPosition s + indexBytesWritten) in
    let '(dataBytes, dataBytesWritten) := writeDataEntry data in
    let dataPosition := int64 (b_dataPosition s + dataBytesWritten) in
    Ok (mkSSTableBuilder (bloom_Add (b_filter s) keyBytes)
          (b_data s ++ dataBytes) dataPosition
          (b_index s ++ indexBytes) indexPosition
          sparseIndex (b_sparseIndexBlockSize s) (b_built s) previousKey
          (b_root s) (b_name s) (mkMeta (int64 (NumEntries (b_meta s) + 1)))).

Definition saveBloomFilter (s : SSTableBuilder) : M FS unit :=
  os_Create (artifact (b_root s) (b_name s) bloomFilterFileExtension)
    (FBloom (b_filter s)).

Definition saveSparseIndex (s : SSTableBuilder) : M FS unit :=
  os_Create (artifact (b_root s) (b_name s) sparseIndexFileExtension)
    (FSparseIndex (b_sparseIndex s)).

Definition saveMetadata (s : SSTableBuilder) : M FS unit :=
  os_Create (artifact (b_root s) (b_name s) metadataFileExtension)
    (FMeta (b_meta s)).

Definition set_built (s : SSTableBuilder) : SSTableBuilder :=
  mkSSTableBuilder (b_filter s) (b_data s) (b_dataPosition s) (b_index s)
    (b_indexPosition s) (b_sparseIndex s) (b_sparseIndexBlockSize s) true
    (b_previousKey s) (b_root s) (b_name s) (b_meta s).

(** [Build] returns the builder it leaves behind and the loaded table. *)
Definition SSTableBuilder_Build (s : SSTableBuilder) : M FS (SSTableBuilder * SSTable) :=
  if b_built s then fail ErrAlreadyBuilt
  else
    _ <~ saveBloomFilter s ;;
    _ <~ saveSparseIndex s ;;
    _ <~ saveMetadata s ;;
    _ <~ os_Write (artifact (b_root s) (b_name s) dataFileExtension) (FBytes (b_data s)) ;;
    _ <~ os_Write (artifact (b_root s) (b_name s) indexFileExtension) (FBytes (b_index s)) ;;
    tbl <~ lift (LoadSSTable (b_root s) (b_name s)) ;;
    ret (set_built s, tbl).

(** Driving a builder and an iterator the way their callers do: one [Write]
    per entry, and [Next] until it returns [io.EOF]. *)

Definition record : Type := (Z * string * list byte)%type.

Fixpoint writeAll (s : SSTableBuilder) (es : list record) : outcome SSTableBuilder :=
  match es with
  | [] => Ok s
  | (kind, key, data) :: es' =>
      s' <- SSTableBuilder_Write s key kind data ;;
      writeAll s' es'
  end.

Fixpoint drain (fuel : nat) (it : outcome SSTableIterator) : outcome (list record) :=
  match fuel with
  | O => OutOfFuel
  | S fuel' =>
      match it with
      | Ok i =>
          rest <- drain fuel' (SSTableIterator_Next i) ;;
          Ok (SSTableIterator_Value i :: rest)
      | Err ErrEOF => Ok []
      | Err e => Err e
      | Panic => Panic
      | OutOfFuel => OutOfFuel
      end
  end.

Definition iterateAll (tbl : SSTable) : outcome (list record) :=
  drain (S (Z.to_nat (Len (t_index tbl)))) (SSTable_Iterator tbl).

(** A whole table: [NewSSTable], one [Write] per entry, [Build]. *)
Definition buildTable (numElements : Z) (root name : string) (es : list record)
  : M FS SSTable :=
  b <~ NewSSTable numElements root name ;;
  b <~ lift (fun _ => writeAll b es) ;;
  '(_, tbl) <~ SSTableBuilder_Build b ;;
  ret tbl.

Definition rkind (e : record) : Z := fst (fst e).
Definition rkey (e : record) : string := snd (fst e).
Definition rdata (e : record) : list byte := snd e.

(** ** Package [collections]: the skiplist

    The elements live in a store, [nodes]; a pointer to an element is its
    address there and [nodes[0]] is the head.  [next[i]] is [None] for a nil
    pointer. *)

Section collections.

Context {TKey TValue : Type}.
Variable key_ltb : TKey -> TKey -> bool.   (* [<] of constraints.Ordered *)
Variable key_eqb : TKey -> TKey -> bool.   (* [==] *)

Record SkiplistElement : Type := mkElement {
  e_key : option TKey;
  e_value : option TValue;
  e_next : list (option nat)
}.

Record SkipList : Type := mkSkipList {
  nodes : list SkiplistElement;
  numLayers : nat;
  numEntries : Z
}.

Definition head : nat := 0%nat.

Definition NewSkipList (numLayers : nat) : SkipList :=
  mkSkipList [mkElement None None (repeat None numLayers)] numLayers 0.

(** Dereferencing a pointer, and the index expression [node.next[i]]. *)
Definition elem (ns : list SkiplistElement) (p : nat) : outcome SkiplistElement :=
  match nth_error ns p with
  | Some e => Ok e
  | None => Panic
  end.

Definition next_at (ns : list SkiplistElement) (p i : nat) : outcome (option nat) :=
  e <- elem ns p ;;
  match nth_error (e_next e) i with
  | Some q => Ok q
  | None => Panic
  end.

(** [for node.next[i] != nil && *node.next[i].key < key { node = node.next[i] }] *)
Fixpoint walk (fuel : nat) (ns : list SkiplistElement) (key : TKey) (i node : nat)
  : outcome nat :=
  match fuel with
  | O => OutOfFuel
  | S fuel' =>
      nx <- next_at ns node i ;;
      match nx with
      | None => Ok node
      | Some q =>
          e <- elem ns q ;;
          match e_key e with
          | None => Panic
          | Some k => if key_ltb k key then walk fuel' ns key i q else Ok node
          end
      end
  end.

(** [for i := l.numLayers - 1; i >= 0; i-- { ...; update[i] = node }]:
    [descend ns key n node] runs the levels [n-1 .. 0] and returns the last
    node with the slice [update[0..n-1]]. *)
Fixpoint descend (ns : list SkiplistElement) (key : TKey) (n node : nat)
  : outcome (nat * list nat) :=
  match n with
  | O => Ok (node, [])
  | S i =>
      node' <- walk (S (List.length ns)) ns key i node ;;
      '(final, update) <- descend ns key i node' ;;
      Ok (final, update ++ [node'])
  end.

Definition is_key (ns : list SkiplistElement) (final : option nat) (key : TKey)
  : outcome bool :=
  match final with
  | None => Ok false
  | Some f =>
      e <- elem ns f ;;
      match e_key e with
      | Some k => Ok (key_eqb k key)
      | None => Ok false
      end
  end.

Definition SkipList_Get (l : SkipList) (key : TKey) : outcome (option TValue * bool) :=
  '(node, _) <- descend (nodes l) key (numLayers l) head ;;
  final <- next_at (nodes l) node 0 ;;
  found <- is_key (nodes l) final key ;;
  if found then
    match final with
    | Some f => e <- elem (nodes l) f ;; Ok (e_value e, true)
    | None => Panic
    end
  else Ok (None, false).

Fixpoint randomLevels (fuel : nat) (numLayers levels : nat) (r : Rand)
  : outcome (nat * Rand) :=
  match fuel with
  | O => OutOfFuel
  | S fuel' =>
      let '(c, r') := rand_coin r in
      if c && (levels <? numLayers)%nat
      then randomLevels fuel' numLayers (S levels) r'
      else Ok (levels, r')
  end.

Definition randomNumLevels (l : SkipList) (r : Rand) : outcome (nat * Rand) :=
  randomLevels (S (numLayers l)) (numLayers l) 1 r.

Fixpoint set_nth {A : Type} (l : list A) (i : nat) (x : A) : list A :=
  match l, i with
  | [], _ => []
  | _ :: l', O => x :: l'
  | y :: l', S i' => y :: set_nth l' i' x
  end.

(** [ns[p].next[i] = q] *)
Definition set_next (ns : list SkiplistElement) (p i : nat) (q : option nat)
  : outcome (list SkiplistElement) :=
  e <- elem ns p ;;
  if (i <? List.length (e_next e))%nat
  then Ok (set_nth ns p (mkElement (e_key e) (e_value e) (set_nth (e_next e) i q)))
  else Panic.

(** [for i := 0; i < numLevels; i++ {
       newNode.next[i] = update[i].next[i]; update[i].next[i] = newNode }] *)
Fixpoint link (n i : nat) (ns : list SkiplistElement) (update : list nat)
  (newNode : nat) : outcome (list SkiplistElement) :=
  match n with
  | O => Ok ns
  | S n' =>
      u <- match nth_error update i with Some u => Ok u | None => Panic end ;;
      p <- next_at ns u i ;;
      ns <- set_next ns newNode i p ;;
      ns <- set_next ns u i (Some newNode) ;;
      link n' (S i) ns update newNode
  end.

Definition SkipList_Insert (l : SkipList) (key : TKey) (value : TValue) (r : Rand)
  : outcome (SkipList * option TValue * Rand) :=
  '(node, update) <- descend (nodes l) key (numLayers l) head ;;
  final <- next_at (nodes l) node 0 ;;
  found <- is_key (nodes l) final key ;;
  if found then
    n <- elem (nodes l) node ;;
    let oldValue := e_value n in
    let ns := set_nth (nodes l) node (mkElement (e_key n) (Some value) (e_next n)) in
    Ok (mkSkipList ns (numLayers l) (numEntries l), oldValue, r)
  else
    '(numLevels, r) <- randomNumLevels l r ;;
    let newNode := List.length (nodes l) in
    let ns := nodes l ++ [mkElement (Some key) (Some value) (repeat None numLevels)] in
    ns <- link numLevels 0 ns update newNode ;;
    Ok (mkSkipList ns (numLayers l) (int64 (numEntries l + 1)), None, r).

Definition SkipList_Iterate (l : SkipList) : outcome (option nat) :=
  next_at (nodes l) head 0.

Definition SkipList_Len (l : SkipList) : Z := numEntries l.

(** [Next] and [Value] of an element, and the walk its users make:
    [i := l.Iterate()], then [i = i.Next()] until [i] is nil. *)
Definition SkiplistElement_Next (ns : list SkiplistElement) (p : nat)
  : outcome (option nat) :=
  next_at ns p 0.

Definition SkiplistElement_Value (ns : list SkiplistElement) (p : nat)
  : outcome (option TKey * option TValue) :=
  e <- elem ns p ;;
  Ok (e_key e, e_value e).

Fixpoint iterate (fuel : nat) (ns : list SkiplistElement) (i : option nat)
  : outcome (list (option TKey * option TValue)) :=
  match i with
  | None => Ok []
  | Some p =>
      match fuel with
      | O => OutOfFuel
      | S fuel' =>
          kv <- SkiplistElement_Value ns p ;;
          next <- SkiplistElement_Next ns p ;;
          rest <- iterate fuel' ns next ;;
          Ok (kv :: rest)
      end
  end.

End collections.

(** ** Package [collections]: the linked list

    The nodes live in a store; a [*Node[T]] is an address into it, or nil.
    [&Node[T]{...}] allocates at the end of the store. *)

Section linkedlist.

Context {T : Type}.

Record Node : Type := mkNode {
  n_value : T;
  n_next : option nat;
  n_prev : option nat
}.

Record LinkedList : Type := mkLinkedList {
  ll_first : option nat
}.

(** The error of [Insert]: "invalid index". *)
Inductive listError : Type := ErrInvalidIndex.

Definition NewLinkedList : LinkedList := mkLinkedList None.

(** [*p] for a node pointer. *)
Definition node_at (ns : list Node) (p : nat) : outcome Node :=
  match nth_error ns p with
  | Some n => Ok n
  | None => Panic
  end.

Definition Node_Next (ns : list Node) (p : nat) : outcome (option nat) :=
  n <- node_at ns p ;; Ok (n_next n).

Definition Node_Prev (ns : list Node) (p : nat) : outcome (option nat) :=
  n <- node_at ns p ;; Ok (n_prev n).

Definition Node_Value (ns : list Node) (p : nat) : outcome T :=
  n <- node_at ns p ;; Ok (n_value n).

Definition LinkedList_First (l : LinkedList) : option nat := ll_first l.

(** [p.next = q] and [p.prev = q] *)
Definition set_node_next (ns : list Node) (p : nat) (q : option nat)
  : outcome (list Node) :=
  n <- node_at ns p ;;
  Ok (set_nth ns p (mkNode (n_value n) q (n_prev n))).

Definition set_node_prev (ns : list Node) (p : nat) (q : option nat)
  : outcome (list Node) :=
  n <- node_at ns p ;;
  Ok (set_nth ns p (mkNode (n_value n) (n_next n) q)).

(** [for i := 0; i < index; i++ { if node == nil { return error };
       prev = node; node = node.Next() }]: [None] is the early return. *)
Fixpoint seek (count : nat) (ns : list Node) (prev node : option nat)
  : outcome (option (option nat * option nat)) :=
  match count with
  | O => Ok (Some (prev, node))
  | S count' =>
      match node with
      | None => Ok None
      | Some p =>
          next <- Node_Next ns p ;;
          seek count' ns node next
      end
  end.

Definition LinkedList_Insert (ns : list Node) (l : LinkedList) (index : Z) (value : T)
  : outcome (list Node * LinkedList * option listError) :=
  found <- seek (Z.to_nat index) ns None (ll_first l) ;;
  match found with
  | None => Ok (ns, l, Some ErrInvalidIndex)
  | Some (prev, node) =>
      let newNode := List.length ns in
      let ns := ns ++ [mkNode value node prev] in
      ns <- match node with
            | Some p => set_node_prev ns p (Some newNode)
            | None => Ok ns
            end ;;
      match prev with
      | None => Ok (ns, mkLinkedList (Some newNode), None)
      | Some p =>
          ns <- set_node_next ns p (Some newNode) ;;
          Ok (ns, l, None)
      end
  end.

Definition LinkedList_InsertAfter (ns : list Node) (l : LinkedList)
  (node : option nat) (value : T) : outcome (list Node * LinkedList) :=
  match node with
  | None => Panic
  | Some p =>
      n <- node_at ns p ;;
      let newNode := List.length ns in
      let ns := ns ++ [mkNode value (n_next n) (Some p)] in
      ns <- set_node_next ns p (Some newNode) ;;
      next <- Node_Next ns newNode ;;
      ns <- match next with
            | Some q => set_node_prev ns q (Some newNode)
            | None => Ok ns
            end ;;
      Ok (ns, l)
  end.

Definition LinkedList_InsertBefore (ns : list Node) (l : LinkedList)
  (node : option nat) (value : T) : outcome (list Node * LinkedList) :=
  match node with
  | None => Panic
  | Some p =>
      n <- node_at ns p ;;
      let newNode := List.length ns in
      let ns := ns ++ [mkNode value (Some p) (n_prev n)] in
      prev <- Node_Prev ns p ;;
      '(ns, l) <- match prev with
                  | Some q =>
                      ns <- set_node_next ns q (Some newNode) ;;
                      Ok (ns, l)
                  | None => Ok (ns, mkLinkedList (Some newNode))
                  end ;;
      ns <- set_node_prev ns p (Some newNode) ;;
      Ok (ns, l)
  end.

Definition LinkedList_Remove (ns : list Node) (l : LinkedList) (node : option nat)
  : outcome (list Node * LinkedList) :=
  match node with
  | None => Panic
  | Some p =>
      n <- node_at ns p ;;
      ns <- match n_next n with
            | Some q => set_node_prev ns q (n_prev n)
            | None => Ok ns
            end ;;
      n <- node_at ns p ;;
      match n_prev n with
      | Some q =>
          ns <- set_node_next ns q (n_next n) ;;
          Ok (ns, l)
      | None =>
          next <- Node_Next ns p ;;
          Ok (ns, mkLinkedList next)
      end
  end.

(** [for node := l.First(); node != nil; node = node.Next() {
       a = append(a, node.Value()) }] *)
Fixpoint toArrayFrom (fuel : nat) (ns : list Node) (node : option nat)
  : outcome (list T) :=
  match node with
  | None => Ok []
  | Some p =>
      match fuel with
      | O => OutOfFuel
      | S fuel' =>
          v <- Node_Value ns p ;;
          next <- Node_Next ns p ;;
          rest <- toArrayFrom fuel' ns next ;;
          Ok (v :: rest)
      end
  end.

Definition LinkedList_toArray (ns : list Node) (l : LinkedList) : outcome (list T) :=
  toArrayFrom (List.length ns) ns (LinkedList_First l).

End linkedlist.

(** ** Package [wal] *)

Definition entrySeparator : byte := x0a.

(** The handle [file *os.File] is open or closed. *)
Record WAL : Type := mkWAL {
  w_open : bool;
  w_fileName : string
}.

(** [os.OpenFile(fileName, os.O_APPEND|os.O_CREATE, 0660)] *)
Definition NewWAL (fileName : string) : M FS WAL :=
  fun fs =>
    if faulty fs IoOpen fileName then (fs, Err ErrIO)
    else match lookup fileName (files fs) with
         | Some _ => (fs, Ok (mkWAL true fileName))
         | None =>
             (mkFS (store fileName (FBytes []) (files fs)) (faults fs),
              Ok (mkWAL true fileName))
         end.

(** [bufio.Reader.ReadBytes]: the bytes up to and including [delim] and the
    rest of the stream, or the bytes up to the end and [None] for [io.EOF]. *)
Fixpoint ReadBytes (delim : byte) (r : list byte) : list byte * option (list byte) :=
  match r with
  | [] => ([], None)
  | b :: r' =>
      if Byte.eqb b delim then ([b], Some r')
      else let '(data, rest) := ReadBytes delim r' in (b :: data, rest)
  end.

Fixpoint loadLoop (fuel : nat) (r : list byte) (entries : list WALEntry)
  : outcome (list WALEntry) :=
  match fuel with
  | O => OutOfFuel
  | S fuel' =>
      let '(data, rest) := ReadBytes entrySeparator r in
      entries <-
        (if 0 <? len data then
           match Unmarshal data with
           | Some entry => Ok (entries ++ [entry])
           | None => Err ErrSyntax
           end
         else Ok entries) ;;
      match rest with
      | None => Ok entries
      | Some r' => loadLoop fuel' r' entries
      end
  end.

Definition LoadWAL (fileName : string) (fs : FS) : outcome (list WALEntry) :=
  f <- os_Open fileName fs ;;
  if faulty fs IoRead fileName then Err ErrIO
  else match f with
       | FBytes bs => loadLoop (S (List.length bs)) bs []
       | _ => Err ErrSyntax
       end.

Definition WAL_Write (w : WAL) (kind : Z) (key : string) (data : list byte)
  : M FS unit :=
  fun fs =>
    let we := mkWALEntry kind key data in
    let bs := Marshal we ++ [entrySeparator] in
    if negb (w_open w) then (fs, Err ErrFileClosed)
    else if faulty fs IoWrite (w_fileName w) then (fs, Err ErrIO)
    else match lookup (w_fileName w) (files fs) with
         | Some (FBytes old) =>
             (mkFS (store (w_fileName w) (FBytes (old ++ bs)) (files fs)) (faults fs),
              Ok tt)
         | _ => (fs, Ok tt)
         end.

Definition WAL_Close (w : WAL) : WAL := mkWAL false (w_fileName w).

(** [Delete] closes the handle, whatever [os.Remove] returns afterwards. *)
Definition WAL_Delete (w : WAL) : WAL * M FS unit :=
  (WAL_Close w, os_Remove (w_fileName w)).

(** ** Package [lsmtree]: the memtable chunk *)

Definition RecordKindWrite : Z := 0x1000.
Definition RecordKindDelete : Z := 0x1001.

(** What the chunk code can touch: the files and the random source. *)
Record World : Type := mkWorld {
  w_fs : FS;
  w_rand : Rand
}.

Definition in_fs {A : Type} (c : M FS A) : M World A :=
  fun w => let '(fs, r) := c (w_fs w) in (mkWorld fs (w_rand w), r).

Record skiplistEntry : Type := mkSkiplistEntry {
  se_kind : Z;
  se_data : list byte
}.

Record skiplistChunk : Type := mkSkiplistChunk {
  sc_list : @SkipList string skiplistEntry;
  sc_wal : WAL;
  sc_dataSize : Z
}.

Definition list_Insert (l : @SkipList string skiplistEntry) (key : string)
  (value : skiplistEntry) : M World (@SkipList string skiplistEntry * option skiplistEntry) :=
  fun w =>
    match SkipList_Insert String.ltb String.eqb l key value (w_rand w) with
    | Ok (l', old, r) => (mkWorld (w_fs w) r, Ok (l', old))
    | Err e => (w, Err e)
    | Panic => (w, Panic)
    | OutOfFuel => (w, OutOfFuel)
    end.

(** [for _, e := range walEntries { sl.list.Insert(e.Key, ...) }] *)
Fixpoint replay (walEntries : list WALEntry) (l : @SkipList string skiplistEntry)
  : M World (@SkipList string skiplistEntry) :=
  match walEntries with
  | [] => ret l
  | e :: es =>
      '(l', _) <~ list_Insert l (Key e) (mkSkiplistEntry (Kind e) (Data e)) ;;
      replay es l'
  end.

(** [walEntries, err := wal.LoadWAL(fileName)]: the error is overwritten by
    the next assignment to [err], and [walEntries] is nil when there is one. *)
Definition newSkipListChunk (fileName : string) : M World skiplistChunk :=
  fun w =>
    match LoadWAL fileName (w_fs w) with
    | Panic => (w, Panic)
    | OutOfFuel => (w, OutOfFuel)
    | loaded =>
        let walEntries := match loaded with Ok es => es | _ => [] end in
        (wal <~ in_fs (NewWAL fileName) ;;
         l <~ replay walEntries (NewSkipList 16) ;;
         ret (mkSkiplistChunk l wal 0)) w
    end.

Definition skiplistChunk_get (l : skiplistChunk) (key : string)
  : outcome (Z * list byte * bool) :=
  '(v, exists_) <- SkipList_Get String.ltb String.eqb (sc_list l) key ;;
  match v with
  | Some v => if exists_ then Ok (se_kind v, se_data v, true) else Ok (0, [], false)
  | None => Ok (0, [], false)
  end.

Definition skiplistChunk_set (l : skiplistChunk) (key : string) (kind : Z)
  (data : list byte) : M World skiplistChunk :=
  _ <~ in_fs (WAL_Write (sc_wal l) kind key data) ;;
  '(list', oldValue) <~ list_Insert (sc_list l) key (mkSkiplistEntry kind data) ;;
  let dataSize :=
    match oldValue with
    | Some old => uint64 (sc_dataSize l + uint64 (int64 (len data - len (se_data old))))
    | None => uint64 (sc_dataSize l + uint64 (len data))
    end in
  ret (mkSkiplistChunk list' (sc_wal l) dataSize).

Definition skiplistChunk_size (l : skiplistChunk) : Z := sc_dataSize l.

Definition skiplistChunk_numEntries (l : skiplistChunk) : Z :=
  int64 (SkipList_Len (sc_list l)).

(** [delete] closes the log's handle and removes its file. *)
Definition skiplistChunk_delete (l : skiplistChunk) : skiplistChunk * M World unit :=
  let '(wal, rm) := WAL_Delete (sc_wal l) in
  (mkSkiplistChunk (sc_list l) wal (sc_dataSize l), in_fs rm).

(** The callers' loops over a list of records: one [WAL.Write] per record,
    and one [set] per record, stopping at the first error. *)
Fixpoint writeLog (w : WAL) (es : list WALEntry) : M FS unit :=
  match es with
  | [] => ret tt
  | e :: es' =>
      _ <~ WAL_Write w (Kind e) (Key e) (Data e) ;;
      writeLog w es'
  end.

Fixpoint setAll (l : skiplistChunk) (es : list WALEntry) : M World skiplistChunk :=
  match es with
  | [] => ret l
  | e :: es' =>
      l' <~ skiplistChunk_set l (Key e) (Kind e) (Data e) ;;
      setAll l' es'
  end.

(** ** Package [lsmtree]: chunk iterators and the k-way merge *)

(** The interface [chunkIterator]; a nil interface value is [None]. *)
Class ChunkIterator (I : Type) : Type := {
  ci_next : I -> outcome (option I);
  ci_value : I -> outcome (Z * string * list byte)
}.

Record entry : Type := mkEntry {
  en_key : string;
  en_kind : Z;
  en_data : list byte
}.

Section merge.

Context {I : Type} `{ChunkIterator I}.

Definition getEntry (it : option I) : outcome (option entry) :=
  match it with
  | None => Ok None
  | Some i =>
      '(kind, key, data) <- ci_value i ;;
      Ok (Some (mkEntry key kind data))
  end.

(** The loop of [getMin], from index [i] on, with the running
    [exists], [min] and [minKey]. *)
Fixpoint getMinFrom (e : list (option entry)) (i : Z) (exists_ : bool) (min : Z)
  (minKey : string) : Z * bool :=
  match e with
  | [] => (min, exists_)
  | None :: e' => getMinFrom e' (i + 1) exists_ min minKey
  | Some x :: e' =>
      if negb exists_ || String.ltb (en_key x) minKey
      then getMinFrom e' (i + 1) true i (en_key x)
      else getMinFrom e' (i + 1) true min minKey
  end.

Definition getMin (e : list (option entry)) : Z * bool :=
  getMinFrom e 0 false (-1) "".

Fixpoint getEntryAll (its : list (option I)) : outcome (list (option entry)) :=
  match its with
  | [] => Ok []
  | it :: its' =>
      e <- getEntry it ;;
      es <- getEntryAll its' ;;
      Ok (e :: es)
  end.

(** The goroutine of [getEntries]; the result is what it sends on the
    channel before closing it. *)
Fixpoint entriesLoop (fuel : nat) (its : list (option I))
  (entries : list (option entry)) : outcome (list entry) :=
  match fuel with
  | O => OutOfFuel
  | S fuel' =>
      let '(min, exists_) := getMin entries in
      if negb exists_ then Ok []
      else
        e <- at_ entries min ;;
        it <- at_ its min ;;
        it' <- match it with
               | Some i => ci_next i
               | None => Panic
               end ;;
        e' <- getEntry it' ;;
        rest <- entriesLoop fuel' (set_nth its (Z.to_nat min) it')
                  (set_nth entries (Z.to_nat min) e') ;;
        Ok match e with
           | Some x => x :: rest
           | None => rest
           end
  end.

Definition getEntries (fuel : nat) (its : list (option I)) : outcome (list entry) :=
  entries <- getEntryAll its ;;
  entriesLoop fuel its entries.

(** The consumer loop of [parallellMerge]: what [tbl.Write] returns is
    dropped. *)
Fixpoint mergeLoop (prevKey : string) (entries : list entry) (tbl : SSTableBuilder)
  : outcome SSTableBuilder :=
  match entries with
  | [] => Ok tbl
  | e :: entries' =>
      tbl' <-
        (if negb (String.eqb (en_key e) prevKey) then
           match SSTableBuilder_Write tbl (en_key e) RecordKindWrite (en_data e) with
           | Ok t => Ok t
           | Err _ => Ok tbl
           | Panic => Panic
           | OutOfFuel => OutOfFuel
           end
         else Ok tbl) ;;
      mergeLoop (en_key e) entries' tbl'
  end.

Definition parallellMerge (fuel : nat) (its : list (option I)) (tbl : SSTableBuilder)
  : outcome SSTableBuilder :=
  entries <- getEntries fuel its ;;
  mergeLoop "" entries tbl.

End merge.

(** ** Package [lsmtree]: the two kinds of chunk *)

Record skiplistChunkIterator : Type := mkSkiplistChunkIterator {
  sci_nodes : list (@SkiplistElement string skiplistEntry);
  sci_element : nat
}.

Record sstableChunkIterator : Type := mkSstableChunkIterator {
  sti_it : option SSTableIterator
}.

Inductive chunkIter : Type :=
| ItSkiplist (i : skiplistChunkIterator)
| ItSSTable (i : sstableChunkIterator).

Definition skiplistChunkIterator_next (i : skiplistChunkIterator)
  : outcome (option chunkIter) :=
  next <- next_at (sci_nodes i) (sci_element i) 0 ;;
  match next with
  | None => Ok None
  | Some n => Ok (Some (ItSkiplist (mkSkiplistChunkIterator (sci_nodes i) n)))
  end.

Definition skiplistChunkIterator_value (i : skiplistChunkIterator)
  : outcome (Z * string * list byte) :=
  e <- elem (sci_nodes i) (sci_element i) ;;
  match e_key e, e_value e with
  | Some k, Some d => Ok (se_kind d, k, se_data d)
  | _, _ => Panic
  end.

Definition sstableChunkIterator_value (s : sstableChunkIterator)
  : outcome (Z * string * list byte) :=
  match sti_it s with
  | Some it => Ok (SSTableIterator_Value it)
  | None => Panic
  end.

(** [it, _ := s.it.Next(); if it == nil { return nil }] *)
Definition sstableChunkIterator_next (s : sstableChunkIterator)
  : outcome (option chunkIter) :=
  match sti_it s with
  | None => Panic
  | Some it =>
      match SSTableIterator_Next it with
      | Ok it' => Ok (Some (ItSSTable (mkSstableChunkIterator (Some it'))))
      | Err _ => Ok None
      | Panic => Panic
      | OutOfFuel => OutOfFuel
      end
  end.

#[export] Instance chunkIter_ChunkIterator : ChunkIterator chunkIter := {
  ci_next i :=
    match i with
    | ItSkiplist i => skiplistChunkIterator_next i
    | ItSSTable i => sstableChunkIterator_next i
    end;
  ci_value i :=
    match i with
    | ItSkiplist i => skiplistChunkIterator_value i
    | ItSSTable i => sstableChunkIterator_value i
    end
}.

(** The interface [chunkData] with its two implementations. *)
Inductive chunkData : Type :=
| SkiplistData (c : skiplistChunk)
| SSTableData (c : SSTable).

Definition chunkData_get (d : chunkData) (key : string) : outcome (Z * list byte * bool) :=
  match d with
  | SkiplistData c => skiplistChunk_get c key
  | SSTableData tbl => SSTable_Read tbl key
  end.

Definition chunkData_set (d : chunkData) (key : string) (kind : Z) (data : list byte)
  : M World chunkData :=
  match d with
  | SkiplistData c => c' <~ skiplistChunk_set c key kind data ;; ret (SkiplistData c')
  | SSTableData _ => fail ErrUnsupported
  end.

Definition chunkData_size (d : chunkData) : Z :=
  match d with
  | SkiplistData c => skiplistChunk_size c
  | SSTableData tbl => uint64 (SSTable_Size tbl)
  end.

Definition chunkData_iterator (d : chunkData) : outcome (option chunkIter) :=
  match d with
  | SkiplistData c =>
      iterator <- SkipList_Iterate (sc_list c) ;;
      match iterator with
      | None => Ok None
      | Some n => Ok (Some (ItSkiplist (mkSkiplistChunkIterator (nodes (sc_list c)) n)))
      end
  | SSTableData tbl =>
      match SSTable_Iterator tbl with
      | Ok it => Ok (Some (ItSSTable (mkSstableChunkIterator (Some it))))
      | Err _ => Ok (Some (ItSSTable (mkSstableChunkIterator None)))
      | Panic => Panic
      | OutOfFuel => OutOfFuel
      end
  end.

Definition chunkData_numEntries (d : chunkData) : Z :=
  match d with
  | SkiplistData c => skiplistChunk_numEntries c
  | SSTableData tbl => SSTable_NumEntries tbl
  end.

Definition chunkData_delete (d : chunkData) : chunkData * M World unit :=
  match d with
  | SkiplistData c =>
      let '(c', rm) := skiplistChunk_delete c in (SkiplistData c', rm)
  | SSTableData tbl =>
      (SSTableData (SSTable_Close tbl),
       in_fs (_ <~ SSTable_Delete tbl ;; ret tt))
  end.

(** A bound on the entries an iterator over the chunk can yield. *)
Definition chunkData_bound (d : chunkData) : nat :=
  match d with
  | SkiplistData c => List.length (nodes (sc_list c))
  | SSTableData tbl => S (Z.to_nat (Len (t_index tbl)))
  end.

Record chunk : Type := mkChunk {
  c_name : string;
  c_data : chunkData;
  c_chunkType : chunkType
}.

Definition createChunkData (ct : chunkType) (rootDir : string) (name : string)
  : M World chunkData :=
  if ct =? chunkTypeSkiplist then
    c <~ newSkipListChunk (path_Join rootDir ("wal-" ++ name ++ ".log")%string) ;;
    ret (SkiplistData c)
  else if ct =? chunkTypeSSTable then
    tbl <~ in_fs (lift (LoadSSTable rootDir name)) ;;
    ret (SSTableData tbl)
  else fun w => (w, Panic).

(** ** Package [lsmtree]: the tree

    [chunks []*chunk] and [rootChunk *chunk] hold addresses into the store
    [st_heap] of chunk objects. *)

Record layer : Type := mkLayer {
  l_name : string;
  l_maxChunks : Z;
  l_chunks : list nat
}.

Record LsmTree : Type := mkLsmTree {
  layers : list layer;
  rootChunk : nat;
  maxRootChunkSize : Z;
  rootDir : string
}.

Record State : Type := mkState {
  st_world : World;
  st_heap : list chunk;
  st_tree : LsmTree
}.

Definition in_world {A : Type} (c : M World A) : M State A :=
  fun s => let '(w, r) := c (st_world s) in (mkState w (st_heap s) (st_tree s), r).

Definition get_tree : M State LsmTree := fun s => (s, Ok (st_tree s)).

Definition put_tree (t : LsmTree) : M State unit :=
  fun s => (mkState (st_world s) (st_heap s) t, Ok tt).

(** [*p] *)
Definition deref (p : nat) : M State chunk :=
  fun s => (s, match nth_error (st_heap s) p with Some c => Ok c | None => Panic end).

(** [*p = c] *)
Definition assign (p : nat) (c : chunk) : M State unit :=
  fun s => (mkState (st_world s) (set_nth (st_heap s) p c) (st_tree s), Ok tt).

(** [&chunk{...}] *)
Definition alloc (c : chunk) : M State nat :=
  fun s => (mkState (st_world s) (st_heap s ++ [c]) (st_tree s),
            Ok (List.length (st_heap s))).

Definition set_chunks (t : LsmTree) (i : nat) (cs : list nat) : outcome LsmTree :=
  match nth_error (layers t) i with
  | Some l =>
      Ok (mkLsmTree (set_nth (layers t) i (mkLayer (l_name l) (l_maxChunks l) cs))
            (rootChunk t) (maxRootChunkSize t) (rootDir t))
  | None => Panic
  end.

Definition randomFileChars : string := "abcdefghijklmnopqrstuvwxyz1234567890".

Fixpoint randomString (length : nat) (r : Rand) : string * Rand :=
  match length with
  | O => (EmptyString, r)
  | S n =>
      let '(i, r) := rand_Intn (String.length randomFileChars) r in
      let c := match String.get i randomFileChars with Some c => c | None => "a"%char end in
      let '(s, r) := randomString n r in
      (String c s, r)
  end.

Definition rand_string (length : nat) : M State string :=
  in_world (fun w => let '(s, r) := randomString length (w_rand w) in
                     (mkWorld (w_fs w) r, Ok s)).

Fixpoint anyName (cs : list nat) (name : string) : M State bool :=
  match cs with
  | [] => ret false
  | p :: cs' =>
      c <~ deref p ;;
      if String.eqb (c_name c) name then ret true else anyName cs' name
  end.

Definition hasChunkWithName (layer : nat) (name : string) : M State bool :=
  tree <~ get_tree ;;
  match nth_error (layers tree) layer with
  | Some l => anyName (l_chunks l) name
  | None => fun s => (s, Panic)
  end.

Definition decimal (n : nat) : string := NilZero.string_of_uint (Nat.to_uint n).

Fixpoint generateChunkName (fuel : nat) (layer : nat) : M State string :=
  match fuel with
  | O => fun s => (s, OutOfFuel)
  | S fuel' =>
      suffix <~ rand_string 6 ;;
      let name := ("layer-" ++ decimal layer ++ "-" ++ suffix)%string in
      used <~ hasChunkWithName layer name ;;
      if negb used then ret name else generateChunkName fuel' layer
  end.

Fixpoint chunksJson (cs : list nat) : M State (list lsmChunkJson) :=
  match cs with
  | [] => ret []
  | p :: cs' =>
      c <~ deref p ;;
      js <~ chunksJson cs' ;;
      ret (mkChunkJson (c_name c) (c_chunkType c) :: js)
  end.

Fixpoint layersJson (ls : list layer) : M State (list lsmLayerJson) :=
  match ls with
  | [] => ret []
  | l :: ls' =>
      chunks <~ chunksJson (l_chunks l) ;;
      js <~ layersJson ls' ;;
      ret (mkLayerJson (l_name l) (l_maxChunks l) chunks :: js)
  end.

(** [os.Create] truncates the manifest before anything is encoded. *)
Definition save : M State unit :=
  tree <~ get_tree ;;
  let fileName := path_Join (rootDir tree) "lsm.json" in
  _ <~ in_world (in_fs (os_Create fileName (FBytes []))) ;;
  layers <~ layersJson (layers tree) ;;
  root <~ deref (rootChunk tree) ;;
  let data := mkTreeJson layers (mkChunkJson (c_name root) (c_chunkType root))
                (maxRootChunkSize tree) in
  in_world (in_fs (os_Write fileName (FManifest data))).

(** The scan of one layer's chunks in [Get]. [None]: no chunk answered. *)
Fixpoint getChunks (cs : list nat) (key : string) : M State (option (list byte * bool)) :=
  match cs with
  | [] => ret None
  | p :: cs' =>
      c <~ deref p ;;
      '(kind, data, exists_) <~ lift (fun _ => chunkData_get (c_data c) key) ;;
      if kind =? RecordKindDelete then ret (Some ([], false))
      else if exists_ then ret (Some (data, true))
      else getChunks cs' key
  end.

Fixpoint getLayers (ls : list layer) (key : string) : M State (list byte * bool) :=
  match ls with
  | [] => ret ([], false)
  | layer :: ls' =>
      r <~ getChunks (l_chunks layer) key ;;
      match r with
      | Some answer => ret answer
      | None => getLayers ls' key
      end
  end.

Definition LsmTree_Get (key : string) : M State (list byte * bool) :=
  tree <~ get_tree ;;
  root <~ deref (rootChunk tree) ;;
  '(kind, data, exists_) <~ lift (fun _ => chunkData_get (c_data root) key) ;;
  if kind =? RecordKindDelete then ret ([], false)
  else if exists_ then ret (data, true)
  else getLayers (layers tree) key.

(** [tree.rootChunk.data.set(key, RecordKindWrite, data)] *)
Definition rootSet (key : string) (data : list byte) : M State unit :=
  tree <~ get_tree ;;
  root <~ deref (rootChunk tree) ;;
  d <~ in_world (chunkData_set (c_data root) key RecordKindWrite data) ;;
  assign (rootChunk tree) (mkChunk (c_name root) d (c_chunkType root)).

Definition LsmTree_Set (key : string) (data : list byte) : M State unit :=
  _ <~ ignore_err (rootSet key data) ;;
  tree <~ get_tree ;;
  root <~ deref (rootChunk tree) ;;
  if maxRootChunkSize tree <? chunkData_size (c_data root) then
    let root := rootChunk tree in
    layer0 <~ lift (fun _ => at_ (layers tree) 0) ;;
    tree <~ lift (fun _ => set_chunks tree 0 (root :: l_chunks layer0)) ;;
    _ <~ put_tree tree ;;
    chunkName <~ rand_string 6 ;;
    skiplistChunk <~ in_world (createChunkData chunkTypeSkiplist (rootDir tree) chunkName) ;;
    p <~ alloc (mkChunk chunkName skiplistChunk chunkTypeSkiplist) ;;
    _ <~ put_tree (mkLsmTree (layers tree) p (maxRootChunkSize tree) (rootDir tree)) ;;
    save
  else ret tt.

Fixpoint sumEntries (cs : list nat) (numEntries : Z) : M State Z :=
  match cs with
  | [] => ret numEntries
  | p :: cs' =>
      c <~ deref p ;;
      sumEntries cs' (int64 (numEntries + chunkData_numEntries (c_data c)))
  end.

Fixpoint iterators (cs : list nat) : M State (list (option chunkIter)) :=
  match cs with
  | [] => ret []
  | p :: cs' =>
      c <~ deref p ;;
      it <~ lift (fun _ => chunkData_iterator (c_data c)) ;;
      its <~ iterators cs' ;;
      ret (it :: its)
  end.

Fixpoint mergeFuel (cs : list nat) : M State nat :=
  match cs with
  | [] => ret 1%nat
  | p :: cs' =>
      c <~ deref p ;;
      n <~ mergeFuel cs' ;;
      ret (chunkData_bound (c_data c) + n)%nat
  end.

(** [for i := range chunks { chunks[i].data.delete() }] *)
Fixpoint deleteChunks (cs : list nat) : M State unit :=
  match cs with
  | [] => ret tt
  | p :: cs' =>
      c <~ deref p ;;
      let '(d, rm) := chunkData_delete (c_data c) in
      _ <~ assign p (mkChunk (c_name c) d (c_chunkType c)) ;;
      _ <~ ignore_err (in_world rm) ;;
      deleteChunks cs'
  end.

(** [mergeLayer]: [l] is a copy of [tree.layers[layerIdx]], [nextLayer] a
    pointer into [tree.layers]. *)
Definition mergeLayer (fuel : nat) (layerIdx : nat) : M State unit :=
  tree <~ get_tree ;;
  l <~ lift (fun _ => at_ (layers tree) (Z.of_nat layerIdx)) ;;
  let chunks := l_chunks l in
  numEntries <~ sumEntries chunks 0 ;;
  let nextLayerIdx :=
    if Z.of_nat layerIdx <? len (layers tree) - 1 then S layerIdx else layerIdx in
  chunkName <~ generateChunkName fuel nextLayerIdx ;;
  tblBuilder <~ in_world (in_fs (NewSSTable (uint64 numEntries) (rootDir tree) chunkName)) ;;
  chunkIts <~ iterators chunks ;;
  n <~ mergeFuel chunks ;;
  merged <~ lift (fun _ => parallellMerge n chunkIts tblBuilder) ;;
  '(_, sstable) <~ in_world (in_fs (SSTableBuilder_Build merged)) ;;
  let l := mkLayer (l_name l) (l_maxChunks l) [] in
  nextLayer <~ lift (fun _ => at_ (layers tree) (Z.of_nat nextLayerIdx)) ;;
  newChunk <~ alloc (mkChunk chunkName (SSTableData sstable) chunkTypeSSTable) ;;
  tree <~ lift (fun _ => set_chunks tree nextLayerIdx (newChunk :: l_chunks nextLayer)) ;;
  _ <~ put_tree tree ;;
  _ <~ ignore_err save ;;
  deleteChunks chunks.

(** [load] and [NewLsmTree]: chunk objects are allocated in a fresh store,
    the root first. *)
Fixpoint loadChunks (rootDir : string) (cs : list lsmChunkJson) (heap : list chunk)
  : M World (list nat * list chunk) :=
  match cs with
  | [] => ret ([], heap)
  | c :: cs' =>
      chunkData <~ createChunkData (cj_ChunkType c) rootDir (cj_Name c) ;;
      let p := List.length heap in
      let heap := heap ++ [mkChunk (cj_Name c) chunkData (cj_ChunkType c)] in
      '(ps, heap) <~ loadChunks rootDir cs' heap ;;
      ret (p :: ps, heap)
  end.

Fixpoint loadLayers (rootDir : string) (ls : list lsmLayerJson) (heap : list chunk)
  : M World (list layer * list chunk) :=
  match ls with
  | [] => ret ([], heap)
  | l :: ls' =>
      '(chunks, heap) <~ loadChunks rootDir (lj_Chunks l) heap ;;
      '(layers, heap) <~ loadLayers rootDir ls' heap ;;
      ret (mkLayer (lj_Name l) (lj_MaxChunks l) chunks :: layers, heap)
  end.

Definition load (rootDir : string) : M World State :=
  f <~ in_fs (lift (os_Open (path_Join rootDir "lsm.json"))) ;;
  match f with
  | FManifest m =>
      skiplist <~ createChunkData chunkTypeSkiplist rootDir (cj_Name (tj_Root m)) ;;
      let rootChunk := mkChunk (cj_Name (tj_Root m)) skiplist (cj_ChunkType (tj_Root m)) in
      '(layers, heap) <~ loadLayers rootDir (tj_Layers m) [rootChunk] ;;
      fun w => (w, Ok (mkState w heap
                         (mkLsmTree layers 0%nat (tj_MaxRootChunkSize m) rootDir)))
  | _ => fail ErrSyntax
  end.

Definition Megabyte : Z := 1024 * 1024.

Definition NewLsmTree (rootDir : string) : M World State :=
  fun w =>
    match load rootDir w with
    | (w', Ok existingTree) => (w', Ok existingTree)
    | (w', Err ErrNotExist) =>
        let '(rootChunkName, r) := randomString 6 (w_rand w') in
        (chunkData <~ createChunkData chunkTypeSkiplist rootDir rootChunkName ;;
         fun w => (w, Ok (mkState w
                            [mkChunk rootChunkName chunkData chunkTypeSkiplist]
                            (mkLsmTree
                               [mkLayer "layer-0" 4 []; mkLayer "layer-1" 8 [];
                                mkLayer "layer-2" 4 []; mkLayer "layer-3" 0 []]
                               0%nat (16 * Megabyte) rootDir))))
          (mkWorld (w_fs w') r)
    | other => other
    end.

(** What the merge is observed through: the entries an iterator yields until
    it becomes nil, and the sequence of [tbl.Write] calls that
    [parallellMerge] makes. *)
Inductive yields {I : Type} `{ChunkIterator I} : option I -> list entry -> Prop :=
| yields_nil : yields None []
| yields_cons (i : I) (kind : Z) (key : string) (data : list byte)
    (next : option I) (l : list entry) :
    ci_value i = Ok (kind, key, data) ->
    ci_next i = Ok next ->
    yields next l ->
    yields (Some i) (mkEntry key kind data :: l).

Fixpoint fedToBuilder (prevKey : string) (entries : list entry) : list record :=
  match entries with
  | [] => []
  | e :: entries' =>
      (if negb (String.eqb (en_key e) prevKey)
       then [(RecordKindWrite, en_key e, en_data e)]
       else [])
      ++ fedToBuilder (en_key e) entries'
  end.

(** One [Write] per record, dropping the error as [parallellMerge] does. *)
Fixpoint feed (tbl : SSTableBuilder) (rs : list record) : outcome SSTableBuilder :=
  match rs with
  | [] => Ok tbl
  | (kind, key, data) :: rs' =>
      tbl' <- match SSTableBuilder_Write tbl key kind data with
              | Ok t => Ok t
              | Err _ => Ok tbl
              | Panic => Panic
              | OutOfFuel => OutOfFuel
              end ;;
      feed tbl' rs'
  end.

(** An iterator over entries held in memory: the entries still to come, the
    first of them being the current one. *)
#[export] Instance listIterator : ChunkIterator (list entry) := {
  ci_next l :=
    match l with
    | _ :: (_ :: _) as l' => Ok (Some l')
    | _ => Ok None
    end;
  ci_value l :=
    match l with
    | e :: _ => Ok (en_kind e, en_key e, en_data e)
    | [] => Panic
    end
}.

(** The content of a log after one [WAL.Write] per entry of [es]. *)
Definition logOf (es : list WALEntry) : list byte :=
  flat_map (fun e => Marshal e ++ [entrySeparator]) es.

End Engine.

(** ** Implementations of the two libraries

    Two filters at the extremes of what a Bloom filter may answer, and the
    envelope [encoding/json] produces for a [WALEntry] whose key needs no
    escaping. *)

(** A filter without false positives: it remembers what was added. *)
Definition exactFilter : BloomFilter := {|
  bloom := list (list byte);
  NewWithEstimates _ := [];
  bloom_Add f k := k :: f;
  bloom_Test f k := existsb (bytes_eqb k) f
|}.

(** A filter whose bits are all set: it accepts every key. *)
Definition saturatedFilter : BloomFilter := {|
  bloom := unit;
  NewWithEstimates _ := tt;
  bloom_Add f _ := f;
  bloom_Test _ _ := true
|}.

Definition quote : byte := x22.

Definition quoted (bs : list byte) : list byte := [quote] ++ bs ++ [quote].

Definition decimalZ (z : Z) : list byte :=
  list_byte_of_string (NilZero.string_of_uint (N.to_uint (Z.to_N z))).

Definition base64Alphabet : list byte :=
  list_byte_of_string "ABCDEFGHIJKLMNOPQRSTUVWXYZabcdefghijklmnopqrstuvwxyz0123456789+/".

Definition sextet (n : N) : byte := nth (N.to_nat (N.modulo n 64)) base64Alphabet x3d.

Fixpoint base64 (bs : list byte) : list byte :=
  match bs with
  | [] => []
  | [a] =>
      let n := (Byte.to_N a * 16)%N in
      [sextet (n / 64); sextet n; x3d; x3d]
  | [a; b] =>
      let n := ((Byte.to_N a * 256 + Byte.to_N b) * 4)%N in
      [sextet (n / 4096); sextet (n / 64); sextet n; x3d]
  | a :: b :: c :: bs' =>
      let n := ((Byte.to_N a * 256 + Byte.to_N b) * 256 + Byte.to_N c)%N in
      sextet (n / 262144) :: sextet (n / 4096) :: sextet (n / 64) :: sextet n
      :: base64 bs'
  end.

Definition toByte (n : N) : byte :=
  match Byte.of_N (N.modulo n 256) with Some b => b | None => x00 end.

Fixpoint indexOf (b : byte) (l : list byte) (i : N) : option N :=
  match l with
  | [] => None
  | x :: l' => if Byte.eqb x b then Some i else indexOf b l' (i + 1)%N
  end.

Definition unsextet (b : byte) : option N := indexOf b base64Alphabet 0%N.

Fixpoint unbase64 (fuel : nat) (cs : list byte) : option (list byte) :=
  match fuel, cs with
  | _, [] => Some []
  | S fuel', a :: b :: c :: d :: cs' =>
      match unsextet a, unsextet b with
      | Some x, Some y =>
          if Byte.eqb c x3d && Byte.eqb d x3d then
            match cs' with [] => Some [toByte ((x * 64 + y) / 16)] | _ => None end
          else
            match unsextet c with
            | Some z =>
                if Byte.eqb d x3d then
                  match cs' with
                  | [] => let n := (((x * 64 + y) * 64 + z) / 4)%N in
                          Some [toByte (n / 256); toByte n]
                  | _ => None
                  end
                else
                  match unsextet d, unbase64 fuel' cs' with
                  | Some w, Some rest =>
                      let n := (((x * 64 + y) * 64 + z) * 64 + w)%N in
                      Some (toByte (n / 65536) :: toByte (n / 256) :: toByte n :: rest)
                  | _, _ => None
                  end
            | None => None
            end
      | _, _ => None
      end
  | _, _ => None
  end.

Fixpoint expect (p bs : list byte) : option (list byte) :=
  match p, bs with
  | [], _ => Some bs
  | x :: p', y :: bs' => if Byte.eqb x y then expect p' bs' else None
  | _ :: _, [] => None
  end.

Fixpoint span (stop : byte) (bs : list byte) : option (list byte * list byte) :=
  match bs with
  | [] => None
  | b :: bs' =>
      if Byte.eqb b stop then Some ([], bs')
      else match span stop bs' with
           | Some (a, r) => Some (b :: a, r)
           | None => None
           end
  end.

Definition digit (b : byte) : option N :=
  let n := Byte.to_N b in
  if (48 <=? n)%N && (n <=? 57)%N then Some (n - 48)%N else None.

Fixpoint number (bs : list byte) (acc : N) (seen : bool) : option (N * list byte) :=
  match bs with
  | [] => if seen then Some (acc, []) else None
  | b :: bs' =>
      match digit b with
      | Some d => number bs' (acc * 10 + d)%N true
      | None => if seen then Some (acc, bs) else None
      end
  end.

Definition isSpace (b : byte) : bool :=
  Byte.eqb b x20 || Byte.eqb b x0a || Byte.eqb b x0d || Byte.eqb b x09.

Definition obind {A B : Type} (o : option A) (k : A -> option B) : option B :=
  match o with
  | Some a => k a
  | None => None
  end.

Definition kindField : list byte := [x7b] ++ quoted (list_byte_of_string "Kind") ++ [x3a].
Definition keyField : list byte := [x2c] ++ quoted (list_byte_of_string "Key") ++ [x3a].
Definition dataField : list byte := [x2c] ++ quoted (list_byte_of_string "Data") ++ [x3a].

Definition goMarshal (e : WALEntry) : list byte :=
  kindField ++ decimalZ (Kind e)
  ++ keyField ++ quoted (list_byte_of_string (Key e))
  ++ dataField ++ quoted (base64 (Data e)) ++ [x7d].

Definition goUnmarshal (bs : list byte) : option WALEntry :=
  obind (expect kindField bs) (fun r =>
  obind (number r 0%N false) (fun '(kind, r) =>
  obind (expect (keyField ++ [quote]) r) (fun r =>
  obind (span quote r) (fun '(key, r) =>
  obind (expect (dataField ++ [quote]) r) (fun r =>
  obind (span quote r) (fun '(d64, r) =>
  obind (unbase64 (List.length d64) d64) (fun data =>
  obind (expect [x7d] r) (fun r =>
  if forallb isSpace r
  then Some (mkWALEntry (Z.of_N kind) (string_of_list_byte key) data)
  else None)))))))).

Definition goJson : Json := {|
  Marshal := goMarshal;
  Unmarshal := goUnmarshal
|}.

(** ** Inputs used to run the engine *)

(** A random source whose coin always falls on "stop" and whose [Intn] is
    always [0]: every skiplist node has one level and every generated name is
    [aaaaaa]. *)
Definition flatRand : Rand := mkRand (fun _ => false) 0 (fun _ => 0%nat) 0.

Definition bytes (s : string) : list byte := list_byte_of_string s.

(** The log of a memtable whose only record deletes ["k"]. *)
Definition tombstoneLog : list byte :=
  goMarshal (mkWALEntry RecordKindDelete "k" []) ++ [entrySeparator].

(** Three records, and a log cut in the middle of the third. *)
Definition record1 : WALEntry := mkWALEntry RecordKindWrite "key1" (bytes "data1").
Definition record2 : WALEntry := mkWALEntry RecordKindWrite "key2" (bytes "data2").
Definition record3 : WALEntry := mkWALEntry RecordKindDelete "key3" (bytes "data3").

Definition cutRecord : list byte := firstn 20 (goMarshal record3).

Definition cutLog : list byte := logOf (J := goJson) [record1; record2] ++ cutRecord.


Section Scenarios.

Context {BF : BloomFilter} {J : Json}.

(** A directory holding only the log of the memtable [root]. *)
Definition logWorld (logBytes : list byte) : World :=
  mkWorld (mkFS [("db/wal-root.log"%string, FBytes logBytes)] []) flatRand.

(** An empty directory, without injected failures. *)
Definition emptyWorld : World := mkWorld (mkFS [] []) flatRand.

(** The same directory where every write to the root chunk's log fails. *)
Definition brokenLogWorld : World :=
  mkWorld (mkFS [] [(IoWrite, "db/wal-aaaaaa.log"%string)]) flatRand.

(** A directory holding only a manifest: two layers and a rotation
    threshold of zero bytes. *)
Definition smallManifest : lsmTreeJson :=
  mkTreeJson [mkLayerJson "layer-0" 0 []; mkLayerJson "layer-1" 0 []]
    (mkChunkJson "root" chunkTypeSkiplist) 0.

Definition smallWorld : World :=
  mkWorld (mkFS [("db/lsm.json"%string, FManifest smallManifest)] []) flatRand.

(** A directory whose layer 0 holds one retired memtable, [old], with the
    log [logBytes]. *)
Definition retiredManifest : lsmTreeJson :=
  mkTreeJson
    [mkLayerJson "layer-0" 0 [mkChunkJson "old" chunkTypeSkiplist];
     mkLayerJson "layer-1" 0 []]
    (mkChunkJson "root" chunkTypeSkiplist) (16 * Megabyte).

Definition retiredWorld (logBytes : list byte) : World :=
  mkWorld (mkFS [("db/lsm.json"%string, FManifest retiredManifest);
                 ("db/wal-old.log"%string, FBytes logBytes)] []) flatRand.

(** Running a call on the tree that [NewLsmTree] opens in [w]. *)
Definition onTree {A : Type} (w : World) (c : M State A) : outcome (State * outcome A) :=
  match NewLsmTree "db" w with
  | (_, Ok s) => Ok (c s)
  | (_, Err e) => Err e
  | (_, Panic) => Panic
  | (_, OutOfFuel) => OutOfFuel
  end.

(** The chunk lists of the layers, as names. *)
Definition layerNames (s : State) : list (list string) :=
  map (fun l => map (fun p => match nth_error (st_heap s) p with
                              | Some c => c_name c
                              | None => EmptyString
                              end) (l_chunks l))
      (layers (st_tree s)).

Definition fileNames (s : State) : list string :=
  map fst (files (w_fs (st_world s))).

(** The chunk object at position [i] of layer [layer]. *)
Definition chunkAt (s : State) (layer i : nat) : option chunk :=
  match nth_error (layers (st_tree s)) layer with
  | Some l =>
      match nth_error (l_chunks l) i with
      | Some p => nth_error (st_heap s) p
      | None => None
      end
  | None => None
  end.

(** Reading an observation off the state. *)
Definition observe {A : Type} (f : State -> A) : M State A := fun s => (s, Ok (f s)).

(** What a run returned, and what it returns once the process has stopped
    and the directory is opened again. *)
Definition answer {A : Type} (r : outcome (State * outcome A)) : outcome A :=
  match r with
  | Ok (_, a) => a
  | Err e => Err e
  | Panic => Panic
  | OutOfFuel => OutOfFuel
  end.

Definition reopened {A B : Type} (r : outcome (State * outcome A)) (c : M State B)
  : outcome B :=
  match r with
  | Ok (s, _) => answer (onTree (st_world s) c)
  | Err e => Err e
  | Panic => Panic
  | OutOfFuel => OutOfFuel
  end.

(** Scenario 6 of the specification: the first input is the newer one. *)
Definition newerInput : list entry :=
  [mkEntry "a" RecordKindWrite (bytes "1"); mkEntry "c" RecordKindWrite (bytes "3")].

Definition olderInput : list entry :=
  [mkEntry "a" RecordKindWrite (bytes "9"); mkEntry "b" RecordKindWrite (bytes "2")].

(** The builder [NewSSTable(4, "db", "t")] returns. *)
Definition emptyBuilder : SSTableBuilder :=
  mkSSTableBuilder (NewWithEstimates 4) [] 0 [] 0 [] defaultSparseIndexBlockSize
    false "" "db" "t" (mkMeta 0).

End Scenarios.

(** The directory whose log ends in a truncated record. *)
Definition cutWorld : World := logWorld (BF := exactFilter) cutLog.

(** The tree that [NewLsmTree("db")] makes in an empty directory, and its
    memtable. *)
Definition newTree : State :=
  match NewLsmTree (BF := exactFilter) (J := goJson) "db" emptyWorld with
  | (_, Ok s) => s
  | (w, _) => mkState w [] (mkLsmTree [] 0 0 "")
  end.

Definition newRoot : skiplistChunk :=
  mkSkiplistChunk (NewSkipList 16) (mkWAL true "db/wal-aaaaaa.log") 0.

(** Two records with ascending keys, for a table. *)
Definition twoRecords : list record :=
  [(RecordKindWrite, "a"%string, bytes "1"); (RecordKindWrite, "b"%string, bytes "2")].

(** The memtable chunk of a new tree: an empty list over an open log. *)
Definition freshChunk : skiplistChunk :=
  mkSkiplistChunk (NewSkipList 16) (mkWAL true "db/wal-root.log") 0.

(** The memtable chunk after [set("k", RecordKindWrite, "1")]. *)
Definition keyedRun : outcome (@SkipList string skiplistEntry * option skiplistEntry * Rand) :=
  SkipList_Insert String.ltb String.eqb (NewSkipList 16) "k"%string
    (mkSkiplistEntry RecordKindWrite (bytes "1")) flatRand.

Definition keyedList : @SkipList string skiplistEntry :=
  match keyedRun with
  | Ok (l, _, _) => l
  | _ => NewSkipList 16
  end.

Definition keyedRand : Rand :=
  match keyedRun with
  | Ok (_, _, r) => r
  | _ => flatRand
  end.

Definition keyedChunk : skiplistChunk :=
  mkSkiplistChunk keyedList (mkWAL true "db/wal-root.log") 1.

(** A list with integer keys, as in the tests of package [collections]:
    [NewSkipList[int, int](4)], then [Insert(1, 10)]. *)
Definition oneKeyRun : outcome (@SkipList Z Z * option Z * Rand) :=
  SkipList_Insert Z.ltb Z.eqb (NewSkipList 4) 1 10 flatRand.

Definition oneKeyList : @SkipList Z Z :=
  match oneKeyRun with
  | Ok (l, _, _) => l
  | _ => NewSkipList 4
  end.

Definition oneKeyRand : Rand :=
  match oneKeyRun with
  | Ok (_, _, r) => r
  | _ => flatRand
  end.

(** [Insert(1, 20)] on that list. *)
Definition sameKeyRun : outcome (@SkipList Z Z * option Z * Rand) :=
  SkipList_Insert Z.ltb Z.eqb oneKeyList 1 20 oneKeyRand.

Definition sameKeyList : @SkipList Z Z :=
  match sameKeyRun with
  | Ok (l, _, _) => l
  | _ => NewSkipList 4
  end.

Definition sameKeyOld : option Z :=
  match sameKeyRun with
  | Ok (_, old, _) => old
  | _ => None
  end.

(** A linked list as in the tests of package [collections]:
    [NewLinkedList[int]()], then [Insert(0, 1)], [Insert(1, 2)] and
    [Insert(2, 3)]. *)
Definition threeRun : outcome (list (@Node Z) * LinkedList * option listError) :=
  '(ns, l, _) <- LinkedList_Insert [] NewLinkedList 0 1 ;;
  '(ns, l, _) <- LinkedList_Insert ns l 1 2 ;;
  LinkedList_Insert ns l 2 3.

Definition threeNodes : list (@Node Z) :=
  match threeRun with
  | Ok (ns, _, _) => ns
  | _ => []
  end.

Definition threeList : LinkedList :=
  match threeRun with
  | Ok (_, l, _) => l
  | _ => NewLinkedList
  end.

(** The tree that [NewLsmTree("db")] loads from a manifest with two empty
    layers and a rotation threshold of zero bytes. *)
Definition smallTree : State :=
  match NewLsmTree (BF := exactFilter) (J := goJson) "db" smallWorld with
  | (_, Ok s) => s
  | (w, _) => mkState w [] (mkLsmTree [] 0 0 "")
  end.

(** The table that [NewSSTable(2, "db", "t")], two [Write]s and [Build] leave
    behind, with the directory holding its files. *)
Definition builtRun : FS * outcome SSTable :=
  buildTable (BF := exactFilter) 2 "db" "t" twoRecords (mkFS [] []).

Definition builtFiles : FS := fst builtRun.

Definition builtTable : SSTable :=
  match snd builtRun with
  | Ok tbl => tbl
  | _ => mkSSTable (NewWithEstimates 0) None None [] "" "" (mkMeta 0)
  end.

(** Two records whose keys descend. *)
Definition descendingRecords : list record :=
  [(RecordKindWrite, "b"%string, bytes "2"); (RecordKindWrite, "a"%string, bytes "1")].

(** The builder after [Write("a", ...)] and [Write("b", ...)], and after
    [Build]. *)
Definition filledBuilder : SSTableBuilder :=
  match writeAll (emptyBuilder (BF := exactFilter)) twoRecords with
  | Ok b => b
  | _ => emptyBuilder
  end.

Definition builtBuilder : SSTableBuilder :=
  match snd (SSTableBuilder_Build filledBuilder (mkFS [] [])) with
  | Ok (b, _) => b
  | _ => emptyBuilder
  end.

(** The stream that the merge of scenario 6 reads from its two inputs. *)
Definition mergedStream : list entry :=
  match getEntries 5 [Some newerInput; Some olderInput] with
  | Ok stream => stream
  | _ => []
  end.

(** A tree whose layer 0 holds a retired memtable with [key1 -> data1], after
    [Set("key1", "new")] on the memtable. *)
Definition shadowTree : State :=
  match onTree (BF := exactFilter) (J := goJson)
          (retiredWorld (logOf (J := goJson) [record1]))
          (LsmTree_Set (J := goJson) "key1" (bytes "new")) with
  | Ok (s, _) => s
  | _ => newTree
  end.

(** * Properties *)

(** ** Bytes and big-endian words *)

Lemma Z_of_byte_range (b : byte) : 0 <= Z_of_byte b < 256.
Proof.
  unfold Z_of_byte. pose proof (Byte.to_N_bounded b) as H. lia.
Qed.

Lemma Z_of_byte_of_Z (z : Z) : Z_of_byte (byte_of_Z z) = z mod 256.
Proof.
  unfold Z_of_byte, byte_of_Z.
  assert (Hr : 0 <= z mod 256 < 256) by (apply Z.mod_pos_bound; lia).
  destruct (Byte.of_N (Z.to_N (z mod 256))) as [b|] eqn:E.
  - apply Byte.to_of_N in E. lia.
  - apply Byte.of_N_None_iff in E. lia.
Qed.

Lemma lor_shiftl_byte (acc b : Z) :
  0 <= acc -> 0 <= b < 256 -> Z.lor (Z.shiftl acc 8) b = acc * 256 + b.
Proof.
  intros Ha Hb.
  rewrite Z.shiftl_mul_pow2 by lia. change (2 ^ 8) with 256.
  rewrite <- Z.lxor_lor, <- Z.add_nocarry_lxor; try reflexivity.
  all: apply Z.bits_inj'; intros n Hn; rewrite Z.land_spec, Z.bits_0.
  all: destruct (Z.ltb_spec n 8).
  all: try (replace (acc * 256) with (acc * 2 ^ 8) by reflexivity;
            rewrite Z.mul_pow2_bits_low by lia; reflexivity).
  all: rewrite (Z.bits_above_log2 b n), andb_false_r; try reflexivity; try lia.
  all: destruct (Z.eq_dec b 0) as [->|]; [simpl; lia|].
  all: assert (Z.log2 b < 8) by (apply Z.log2_lt_pow2; simpl; lia); lia.
Qed.

Lemma Uint64_acc (bs : list byte) (acc : Z) :
  0 <= acc ->
  fold_left (fun a x => Z.lor (Z.shiftl a 8) (Z_of_byte x)) bs acc
  = acc * 256 ^ len bs + fold_left (fun a x => a * 256 + Z_of_byte x) bs 0
    /\ 0 <= fold_left (fun a x => a * 256 + Z_of_byte x) bs 0 < 256 ^ len bs.
Proof.
  revert acc. induction bs as [|b bs IH] using rev_ind; intros acc Ha.
  - simpl. unfold len. simpl. lia.
  - rewrite !fold_left_app. cbn [fold_left].
    destruct (IH acc Ha) as [E R]. rewrite E.
    pose proof (Z_of_byte_range b) as Hb.
    assert (Hp : 0 < 256 ^ len bs) by (apply Z.pow_pos_nonneg; unfold len; lia).
    rewrite lor_shiftl_byte by nia.
    unfold len in *. rewrite length_app. simpl List.length.
    replace (Z.of_nat (List.length bs + 1)) with (Z.of_nat (List.length bs) + 1) by lia.
    rewrite Z.pow_add_r by lia. change (256 ^ 1) with 256.
    split; nia.
Qed.

Lemma be_encode_length (n : nat) (v : Z) : List.length (be_encode n v) = n.
Proof. induction n; simpl; congruence. Qed.

Lemma be_decode_encode (n : nat) (v : Z) :
  fold_left (fun a x => a * 256 + Z_of_byte x) (be_encode n v) 0 = v mod 256 ^ Z.of_nat n.
Proof.
  assert (G : forall acc,
    fold_left (fun a x => a * 256 + Z_of_byte x) (be_encode n v) acc
    = acc * 256 ^ Z.of_nat n + v mod 256 ^ Z.of_nat n).
  { induction n as [|n IH]; intros acc.
    - simpl. rewrite Z.mod_1_r. lia.
    - cbn [be_encode fold_left]. rewrite IH, Z_of_byte_of_Z.
      rewrite Z.shiftr_div_pow2 by lia.
      replace (2 ^ (8 * Z.of_nat n)) with (256 ^ Z.of_nat n)
        by (rewrite Z.pow_mul_r by lia; reflexivity).
      replace (Z.of_nat (S n)) with (Z.of_nat n + 1) by lia.
      rewrite Z.pow_add_r by lia. change (256 ^ 1) with 256.
      assert (Hp : 0 < 256 ^ Z.of_nat n) by (apply Z.pow_pos_nonneg; lia).
      rewrite (Z.rem_mul_r v (256 ^ Z.of_nat n) 256) by lia. lia. }
  rewrite G. lia.
Qed.

Lemma Uint64_PutUint64 (v : Z) : Uint64 (PutUint64 v) = uint64 v.
Proof.
  unfold Uint64, PutUint64, uint64.
  destruct (Uint64_acc (be_encode 8 v) 0) as [E _]; [lia|].
  rewrite E, be_decode_encode. reflexivity.
Qed.

Lemma PutUint64_length (v : Z) : len (PutUint64 v) = 8.
Proof. unfold len, PutUint64. rewrite be_encode_length. reflexivity. Qed.

Lemma int64_small (z : Z) : 0 <= z < 2 ^ 63 -> int64 z = z.
Proof.
  intros H. unfold int64. rewrite Z.mod_small; lia.
Qed.

Lemma uint64_small (z : Z) : 0 <= z < 2 ^ 64 -> uint64 z = z.
Proof. intros H. unfold uint64. apply Z.mod_small. lia. Qed.

(** Removes the wrap-around of innermost in-range [int64] and [uint64]. *)
Ltac unwrap64 :=
  repeat match goal with
    | |- context [int64 ?z] =>
        lazymatch z with
        | context [int64 _] => fail
        | context [uint64 _] => fail
        | _ => rewrite (int64_small z) by lia
        end
    | |- context [uint64 ?z] =>
        lazymatch z with
        | context [int64 _] => fail
        | context [uint64 _] => fail
        | _ => rewrite (uint64_small z) by lia
        end
    end.

(** ** The byte-wise order of Go strings *)

Lemma ltb_irrefl (a : string) : String.ltb a a = false.
Proof.
  unfold String.ltb. pose proof (String.compare_antisym a a) as H.
  destruct (String.compare a a); simpl in *; congruence.
Qed.

Lemma ltb_asym (a b : string) : String.ltb a b = true -> String.ltb b a = false.
Proof.
  unfold String.ltb. rewrite (String.compare_antisym a b).
  destruct (String.compare b a); simpl; congruence.
Qed.

Lemma ltb_empty (a : string) : String.ltb a "" = false.
Proof. destruct a; reflexivity. Qed.

Lemma ascii_compare_trans (a b c : ascii) :
  Ascii.compare a b = Lt -> Ascii.compare b c = Lt -> Ascii.compare a c = Lt.
Proof.
  unfold Ascii.compare. rewrite !N.compare_lt_iff. lia.
Qed.

Lemma ascii_compare_eq (a b : ascii) : Ascii.compare a b = Eq -> a = b.
Proof. apply Ascii.compare_eq_iff. Qed.

Lemma ltb_trans (a b c : string) :
  String.ltb a b = true -> String.ltb b c = true -> String.ltb a c = true.
Proof.
  unfold String.ltb. revert b c.
  induction a as [|x a IH]; intros [|y b] [|z c]; simpl; try congruence.
  destruct (Ascii.compare x y) eqn:Exy; try congruence;
    destruct (Ascii.compare y z) eqn:Eyz; try congruence; intros H1 H2.
  - apply ascii_compare_eq in Exy, Eyz. subst.
    replace (Ascii.compare z z) with Eq
      by (unfold Ascii.compare; symmetry; apply N.compare_refl).
    eapply IH; eassumption.
  - apply ascii_compare_eq in Exy. subst. rewrite Eyz. reflexivity.
  - apply ascii_compare_eq in Eyz. subst. rewrite Exy. reflexivity.
  - rewrite (ascii_compare_trans _ _ _ Exy Eyz). reflexivity.
Qed.

Lemma ltb_total (a b : string) :
  String.ltb a b = false -> String.ltb b a = false -> a = b.
Proof.
  unfold String.ltb. rewrite (String.compare_antisym b a).
  destruct (String.compare a b) eqn:E; simpl; try congruence.
  intros _ _. apply String.compare_eq_iff. exact E.
Qed.

Lemma leb_ltb (a b : string) : String.leb a b = negb (String.ltb b a).
Proof.
  unfold String.leb, String.ltb. rewrite (String.compare_antisym a b).
  destruct (String.compare b a); reflexivity.
Qed.

(** Strictly ascending lists of keys. *)
Definition key_lt (a b : string) : Prop := String.ltb a b = true.

Definition ascending (ks : list string) : Prop := StronglySorted key_lt ks.

(** ** The file system *)

Lemma string_append_inj (s a b : string) : (s ++ a = s ++ b)%string -> a = b.
Proof.
  induction s as [|c s IH]; simpl; intros H; [exact H|].
  injection H as H. exact (IH H).
Qed.

Lemma artifact_inj (root name e1 e2 : string) :
  artifact root name e1 = artifact root name e2 -> e1 = e2.
Proof.
  unfold artifact, path_Join. intros H.
  apply string_append_inj in H. apply string_append_inj in H.
  apply string_append_inj in H. exact H.
Qed.

Lemma artifact_eqb (root name e1 e2 : string) :
  e1 <> e2 -> String.eqb (artifact root name e1) (artifact root name e2) = false.
Proof.
  intros H. apply String.eqb_neq. intros E. apply H.
  eapply artifact_inj; eassumption.
Qed.

Section FileSystem.

Context {BF : BloomFilter}.

Lemma lookup_store_same (p : string) (f : file) (l : list (string * file)) :
  lookup p (store p f l) = Some f.
Proof.
  induction l as [|[q g] l IH]; simpl.
  - rewrite String.eqb_refl. reflexivity.
  - destruct (String.eqb q p) eqn:E; simpl; rewrite E; auto.
Qed.

Lemma lookup_store_other (p q : string) (f : file) (l : list (string * file)) :
  String.eqb p q = false -> lookup q (store p f l) = lookup q l.
Proof.
  intros Hpq. induction l as [|[r g] l IH]; simpl.
  - rewrite Hpq. reflexivity.
  - destruct (String.eqb r p) eqn:E; simpl.
    + apply String.eqb_eq in E. subst r. rewrite Hpq. reflexivity.
    + rewrite IH. reflexivity.
Qed.

Lemma faulty_none (fs : FS) (op : ioOp) (p : string) :
  faults fs = [] -> faulty fs op p = false.
Proof. unfold faulty. intros ->. reflexivity. Qed.

Lemma os_Create_ok (p : string) (f : file) (fs : FS) :
  faults fs = [] -> os_Create p f fs = (mkFS (store p f (files fs)) [], Ok tt).
Proof.
  intros H. unfold os_Create. rewrite faulty_none by exact H. rewrite H. reflexivity.
Qed.

Lemma os_Write_ok (p : string) (f : file) (fs : FS) :
  faults fs = [] -> os_Write p f fs = (mkFS (store p f (files fs)) [], Ok tt).
Proof.
  intros H. unfold os_Write. rewrite faulty_none by exact H. rewrite H. reflexivity.
Qed.

Lemma os_Open_ok (p : string) (f : file) (fs : FS) :
  faults fs = [] -> lookup p (files fs) = Some f -> os_Open p fs = Ok f.
Proof.
  intros H L. unfold os_Open. rewrite faulty_none by exact H. rewrite L. reflexivity.
Qed.

End FileSystem.

(** ** The builder and the iterator *)

Section SSTableProofs.

Context {BF : BloomFilter} {J : Json}.

Definition loaded (s : SSTableBuilder) : SSTable :=
  mkSSTable (b_filter s) (mmap_of (b_data s)) (mmap_of (b_index s))
    (b_sparseIndex s) (b_root s) (b_name s) (b_meta s).

Lemma Build_ok (s : SSTableBuilder) (fs : FS) :
  faults fs = [] -> b_built s = false ->
  exists fs', faults fs' = [] /\
    SSTableBuilder_Build s fs = (fs', Ok (set_built s, loaded s)).
Proof.
  intros Hf Hb. unfold SSTableBuilder_Build. rewrite Hb.
  unfold mbind, saveBloomFilter, saveSparseIndex, saveMetadata.
  rewrite os_Create_ok by exact Hf.
  rewrite os_Create_ok by reflexivity.
  rewrite os_Create_ok by reflexivity.
  rewrite os_Write_ok by reflexivity.
  rewrite os_Write_ok by reflexivity.
  cbn [files]. unfold lift.
  match goal with |- context [LoadSSTable _ _ ?fs0] => set (fs1 := fs0) end.
  assert (Hf1 : faults fs1 = []) by reflexivity.
  assert (E : LoadSSTable (b_root s) (b_name s) fs1 = Ok (loaded s)).
  { unfold LoadSSTable, loadBloomFilter, loadSparseIndex, loadMetadata, mmap_Open.
    rewrite (os_Open_ok _ (FBloom (b_filter s)) fs1 Hf1).
    2:{ subst fs1; cbn [files].
        repeat (rewrite lookup_store_other by (apply artifact_eqb; discriminate)).
        apply lookup_store_same. }
    cbn [bind].
    rewrite (os_Open_ok _ (FSparseIndex (b_sparseIndex s)) fs1 Hf1).
    2:{ subst fs1; cbn [files].
        repeat (rewrite lookup_store_other by (apply artifact_eqb; discriminate)).
        apply lookup_store_same. }
    cbn [bind].
    rewrite (os_Open_ok _ (FMeta (b_meta s)) fs1 Hf1).
    2:{ subst fs1; cbn [files].
        repeat (rewrite lookup_store_other by (apply artifact_eqb; discriminate)).
        apply lookup_store_same. }
    cbn [bind].
    rewrite (os_Open_ok _ (FBytes (b_data s)) fs1 Hf1).
    2:{ subst fs1; cbn [files].
        repeat (rewrite lookup_store_other by (apply artifact_eqb; discriminate)).
        apply lookup_store_same. }
    cbn [bind].
    rewrite (os_Open_ok _ (FBytes (b_index s)) fs1 Hf1).
    2:{ subst fs1; cbn [files]. apply lookup_store_same. }
    reflexivity. }
  rewrite E. exists fs1. split; [exact Hf1|reflexivity].
Qed.

(** What [Write] appends to the two streams. *)
Definition encI (kind : Z) (key : list byte) (doff : Z) : list byte :=
  PutUint64 kind ++ PutUint64 (uint64 (len key)) ++ key ++ PutUint64 (uint64 doff).

Definition encD (data : list byte) : list byte :=
  [dataEntry] ++ PutUint64 (uint64 (len data)) ++ data.

Fixpoint indexBytes (es : list record) (doff : Z) : list byte :=
  match es with
  | [] => []
  | (kind, key, data) :: es' =>
      encI kind (list_byte_of_string key) doff
      ++ indexBytes es' (doff + len (encD data))
  end.

Fixpoint dataBytes (es : list record) : list byte :=
  match es with
  | [] => []
  | (_, _, data) :: es' => encD data ++ dataBytes es'
  end.

Fixpoint accepted (prev : string) (ks : list string) : Prop :=
  match ks with
  | [] => True
  | k :: ks' => String.ltb k prev = false /\ accepted k ks'
  end.

Lemma len_app {A : Type} (a b : list A) : len (a ++ b) = len a + len b.
Proof. unfold len. rewrite length_app. lia. Qed.

Lemma len_nonneg {A : Type} (a : list A) : 0 <= len a.
Proof. unfold len. lia. Qed.

Lemma len_encI (kind : Z) (key : list byte) (doff : Z) :
  len (encI kind key doff) = 24 + len key.
Proof. unfold encI. rewrite !len_app, !PutUint64_length. lia. Qed.

Lemma len_encD (data : list byte) : len (encD data) = 9 + len data.
Proof.
  unfold encD. rewrite !len_app, !PutUint64_length.
  change (len [dataEntry]) with 1. lia.
Qed.

Lemma ascending_accepted (ks : list string) : ascending ks -> accepted "" ks.
Proof.
  intros H. assert (G : forall p, String.ltb (hd p ks) p = false -> accepted p ks).
  { induction H as [|k ks Hs IH Hk]; intros p Hp; simpl; [exact I|].
    split; [exact Hp|]. apply IH. destruct ks as [|k' ks']; simpl.
    - apply ltb_irrefl.
    - apply ltb_asym. inversion Hk; assumption. }
  apply G. apply ltb_empty.
Qed.

Lemma at_last {A : Type} (l : list A) :
  len l <> 0 -> exists x, at_ l (len l - 1) = Ok x.
Proof.
  intros H. unfold at_. destruct (Z.ltb_spec (len l - 1) 0); [unfold len in *; lia|].
  destruct (nth_error l (Z.to_nat (len l - 1))) as [x|] eqn:E; [eauto|].
  apply nth_error_None in E. unfold len in *. lia.
Qed.

Lemma writeIndexEntry_eq (s : SSTableBuilder) (key : list byte) (kind : Z) :
  24 + len key < 2 ^ 63 ->
  writeIndexEntry s key kind = (encI kind key (b_dataPosition s), 24 + len key).
Proof.
  intros H. pose proof (len_nonneg key). unfold writeIndexEntry, encI.
  rewrite !PutUint64_length. f_equal. unwrap64. lia.
Qed.

Lemma writeDataEntry_eq (data : list byte) :
  9 + len data < 2 ^ 63 ->
  writeDataEntry data = (encD data, 9 + len data).
Proof.
  intros H. pose proof (len_nonneg data). unfold writeDataEntry, encD.
  rewrite !PutUint64_length. change (len [dataEntry]) with 1.
  f_equal. unwrap64. lia.
Qed.

Lemma Write_ok (s : SSTableBuilder) (key : string) (kind : Z) (data : list byte) :
  b_built s = false ->
  String.ltb key (b_previousKey s) = false ->
  0 <= b_indexPosition s ->
  b_indexPosition s + 24 + len (list_byte_of_string key) < 2 ^ 63 ->
  0 <= b_dataPosition s ->
  b_dataPosition s + 9 + len data < 2 ^ 63 ->
  exists s',
    SSTableBuilder_Write s key kind data = Ok s'
    /\ b_index s' = b_index s ++ encI kind (list_byte_of_string key) (b_dataPosition s)
    /\ b_data s' = b_data s ++ encD data
    /\ b_indexPosition s' = b_indexPosition s + 24 + len (list_byte_of_string key)
    /\ b_dataPosition s' = b_dataPosition s + 9 + len data
    /\ b_built s' = false
    /\ b_previousKey s' = key
    /\ b_root s' = b_root s /\ b_name s' = b_name s
    /\ b_filter s' = bloom_Add (b_filter s) (list_byte_of_string key)
    /\ b_sparseIndexBlockSize s' = b_sparseIndexBlockSize s.
Proof.
  intros Hb Hk Hi0 Hi1 Hd0 Hd1. unfold SSTableBuilder_Write. rewrite Hb, Hk.
  assert (Hc : exists cur, currentSparseIndexBlockSize s = Ok cur).
  { unfold currentSparseIndexBlockSize.
    destruct (Z.eqb_spec (len (b_sparseIndex s)) 0); [eauto|].
    destruct (at_last (b_sparseIndex s)) as [x ->]; [assumption|].
    simpl. eauto. }
  destruct Hc as [cur ->]. cbn [bind].
  pose proof (len_nonneg (list_byte_of_string key)) as Hkl.
  pose proof (len_nonneg data) as Hdl.
  rewrite writeIndexEntry_eq, writeDataEntry_eq by lia.
  eexists. split; [reflexivity|].
  cbn [b_index b_data b_indexPosition b_dataPosition b_built b_previousKey
       b_root b_name b_filter b_sparseIndexBlockSize].
  unwrap64. repeat split; try reflexivity; try assumption; lia.
Qed.

Lemma writeAll_ok (es : list record) : forall s,
  b_built s = false ->
  accepted (b_previousKey s) (map rkey es) ->
  b_indexPosition s = len (b_index s) ->
  b_dataPosition s = len (b_data s) ->
  len (b_index s) + len (indexBytes es (b_dataPosition s)) < 2 ^ 63 ->
  len (b_data s) + len (dataBytes es) < 2 ^ 63 ->
  exists s',
    writeAll s es = Ok s'
    /\ b_index s' = b_index s ++ indexBytes es (b_dataPosition s)
    /\ b_data s' = b_data s ++ dataBytes es
    /\ b_built s' = false
    /\ b_root s' = b_root s /\ b_name s' = b_name s.
Proof.
  induction es as [|[[kind key] data] es IH]; intros s Hb Ha Hi Hd Bi Bd.
  - exists s. cbn [writeAll indexBytes dataBytes]. rewrite !app_nil_r.
    repeat split; try reflexivity; assumption.
  - cbn [indexBytes dataBytes] in *. cbn [map] in Ha. destruct Ha as [Hk Ha].
    rewrite len_app in Bi, Bd. rewrite len_encI in Bi. rewrite len_encD in Bd, Bi.
    pose proof (len_nonneg (b_index s)). pose proof (len_nonneg (b_data s)).
    pose proof (len_nonneg (dataBytes es)).
    pose proof (len_nonneg (indexBytes es (b_dataPosition s + (9 + len data)))).
    pose proof (len_nonneg (list_byte_of_string key)). pose proof (len_nonneg data).
    destruct (Write_ok s key kind data) as
      (s1 & E & Ei & Ed & Pi & Pd & Hb1 & Hp1 & Hr1 & Hn1 & _); try assumption; try lia.
    cbn [writeAll]. rewrite E. cbn [bind].
    destruct (IH s1) as (s2 & E2 & Ei2 & Ed2 & Hb2 & Hr2 & Hn2); try assumption.
    + rewrite Hp1. exact Ha.
    + rewrite Pi, Ei, len_app, len_encI. lia.
    + rewrite Pd, Ed, len_app, len_encD. lia.
    + rewrite Ei, Pd, len_app, len_encI.
      replace (b_dataPosition s + 9 + len data)
        with (b_dataPosition s + (9 + len data)) by lia. lia.
    + rewrite Ed, len_app, len_encD. lia.
    + exists s2. rewrite E2, Ei2, Ed2, Ei, Ed, Pd, len_encD, <- !app_assoc.
      replace (b_dataPosition s + 9 + len data)
        with (b_dataPosition s + (9 + len data)) by lia.
      repeat split; congruence.
Qed.

Lemma skipn_len_app {A : Type} (a r : list A) : skipn (Z.to_nat (len a)) (a ++ r) = r.
Proof.
  unfold len. rewrite Nat2Z.id. induction a; simpl; auto.
Qed.

Lemma firstn_len_app {A : Type} (b c : list A) : firstn (Z.to_nat (len b)) (b ++ c) = b.
Proof.
  unfold len. rewrite Nat2Z.id. induction b; simpl; congruence.
Qed.

Lemma ReadAt_mid (d a b c : list byte) (n off : Z) :
  d = a ++ b ++ c -> d <> [] -> off = len a -> n = len b -> n < 2 ^ 63 ->
  ReadAt (mmap_of d) n off = Ok b.
Proof.
  intros Hd Hne -> -> Hn. unfold ReadAt, make_ok.
  pose proof (len_nonneg a). pose proof (len_nonneg b). pose proof (len_nonneg c).
  destruct (Z.leb_spec 0 (len b)); [|lia].
  destruct (Z.ltb_spec (len b) (2 ^ 63)); [|lia]. cbn [andb negb].
  destruct d as [|x d]; [congruence|]. cbn [mmap_of]. rewrite Hd.
  rewrite !len_app.
  destruct (Z.ltb_spec (len a) 0); [lia|].
  destruct (Z.ltb_spec (len a + (len b + len c)) (len a)); [lia|]. cbn [orb].
  rewrite skipn_len_app, firstn_len_app.
  destruct (Z.ltb_spec (len b) (len b)); [lia|reflexivity].
Qed.

Lemma getDataEntry_ok (tbl : SSTable) (dpre data dpost : list byte) :
  t_data tbl = mmap_of (dpre ++ encD data ++ dpost) ->
  len (dpre ++ encD data ++ dpost) < 2 ^ 63 ->
  getDataEntry tbl (len dpre) = Ok data.
Proof.
  intros Ht Hb. unfold getDataEntry. rewrite Ht.
  rewrite !len_app, len_encD in Hb.
  pose proof (len_nonneg dpre). pose proof (len_nonneg data). pose proof (len_nonneg dpost).
  assert (Hne : dpre ++ encD data ++ dpost <> []).
  { unfold encD. destruct dpre; simpl; discriminate. }
  rewrite (ReadAt_mid _ dpre [dataEntry]
             (PutUint64 (uint64 (len data)) ++ data ++ dpost) 1 (len dpre));
    [|unfold encD; now rewrite <- !app_assoc|assumption|reflexivity|reflexivity|lia].
  cbn [bind]. unwrap64.
  rewrite (ReadAt_mid _ (dpre ++ [dataEntry]) (PutUint64 (len data)) (data ++ dpost));
    [|unfold encD; unwrap64; now rewrite <- !app_assoc|assumption
     |rewrite len_app; reflexivity|now rewrite PutUint64_length|lia].
  cbn [bind]. rewrite Uint64_PutUint64. unwrap64.
  apply (ReadAt_mid _ (dpre ++ [dataEntry] ++ PutUint64 (len data)) data dpost);
    [unfold encD; unwrap64; now rewrite <- !app_assoc|assumption
    |rewrite !len_app, PutUint64_length; change (len [dataEntry]) with 1; lia
    |reflexivity|lia].
Qed.

Lemma Len_mmap_of (d : list byte) : Len (mmap_of d) = len d.
Proof. destruct d; reflexivity. Qed.

Lemma Next_ok (it : SSTableIterator) (ipre irest dpre dpost : list byte)
  (kind : Z) (key data : list byte) :
  t_index (it_tbl it) = mmap_of (ipre ++ encI kind key (len dpre) ++ irest) ->
  t_data (it_tbl it) = mmap_of (dpre ++ encD data ++ dpost) ->
  it_nextIndexOffset it = len ipre ->
  0 <= kind < 2 ^ 64 ->
  len (ipre ++ encI kind key (len dpre) ++ irest) < 2 ^ 63 ->
  len (dpre ++ encD data ++ dpost) < 2 ^ 63 ->
  SSTableIterator_Next it
  = Ok (mkSSTableIterator (it_tbl it) key kind data (len ipre + 8 + len key + 8)).
Proof.
  intros Hi Hd Ho Hk Bi Bd. unfold SSTableIterator_Next.
  rewrite Hi, Ho, Len_mmap_of.
  set (d := ipre ++ encI kind key (len dpre) ++ irest) in *.
  assert (Hlen : len d = len ipre + (24 + len key) + len irest).
  { subst d. rewrite !len_app, len_encI. lia. }
  pose proof (len_nonneg ipre). pose proof (len_nonneg key).
  pose proof (len_nonneg irest). pose proof (len_nonneg dpre).
  assert (Hdp : len dpre < 2 ^ 63).
  { rewrite !len_app in Bd. pose proof (len_nonneg (encD data)).
    pose proof (len_nonneg dpost). lia. }
  assert (Hne : d <> []).
  { intros E. rewrite E in Hlen. change (len (@nil byte)) with 0 in Hlen. lia. }
  destruct (Z.eqb_spec (len ipre) (len d)); [lia|].
  rewrite (ReadAt_mid d ipre (PutUint64 kind)
             (PutUint64 (uint64 (len key)) ++ key ++ PutUint64 (uint64 (len dpre)) ++ irest));
    [|subst d; unfold encI; now rewrite <- !app_assoc|assumption|reflexivity
     |now rewrite PutUint64_length|lia].
  cbn [bind]. rewrite Uint64_PutUint64. unwrap64.
  rewrite (ReadAt_mid d (ipre ++ PutUint64 kind) (PutUint64 (len key))
             (key ++ PutUint64 (len dpre) ++ irest));
    [|subst d; unfold encI; unwrap64; now rewrite <- !app_assoc|assumption
     |now rewrite len_app, PutUint64_length|now rewrite PutUint64_length|lia].
  cbn [bind]. rewrite Uint64_PutUint64. unwrap64.
  rewrite (ReadAt_mid d (ipre ++ PutUint64 kind ++ PutUint64 (len key)) key
             (PutUint64 (len dpre) ++ irest));
    [|subst d; unfold encI; unwrap64; now rewrite <- !app_assoc|assumption
     |rewrite !len_app, !PutUint64_length; lia|reflexivity|lia].
  cbn [bind].
  rewrite (ReadAt_mid d (ipre ++ PutUint64 kind ++ PutUint64 (len key) ++ key)
             (PutUint64 (len dpre)) irest);
    [|subst d; unfold encI; unwrap64; now rewrite <- !app_assoc|assumption
     |rewrite !len_app, !PutUint64_length; lia|now rewrite PutUint64_length|lia].
  cbn [bind]. rewrite Uint64_PutUint64. unwrap64.
  rewrite (getDataEntry_ok (it_tbl it) dpre data dpost Hd Bd).
  reflexivity.
Qed.

End SSTableProofs.

(** * The k-way merge (C6) *)

Lemma ltb_le_trans (a b c : string) :
  String.ltb a b = true -> String.ltb c b = false -> String.ltb a c = true.
Proof.
  intros Hab Hcb. destruct (String.ltb a c) eqn:Hac; [reflexivity|].
  destruct (String.ltb c a) eqn:Hca.
  - rewrite (ltb_trans c a b Hca Hab) in Hcb. discriminate.
  - rewrite (ltb_total a c Hac Hca) in Hab. congruence.
Qed.

Lemma nth_error_set_nth_same {A : Type} (l : list A) (i : nat) (x y : A) :
  nth_error l i = Some y -> nth_error (set_nth l i x) i = Some x.
Proof.
  revert i. induction l as [|a l IH]; intros [|i]; simpl; try discriminate; auto.
Qed.

Lemma nth_error_set_nth_other {A : Type} (l : list A) (i j : nat) (x : A) :
  i <> j -> nth_error (set_nth l i x) j = nth_error l j.
Proof.
  revert i j. induction l as [|a l IH]; intros [|i] [|j] H; simpl; auto.
  congruence.
Qed.

Lemma set_nth_length {A : Type} (l : list A) (i : nat) (x : A) :
  List.length (set_nth l i x) = List.length l.
Proof.
  revert i. induction l as [|a l IH]; intros [|i]; simpl; auto.
Qed.

Lemma set_nth_app {A : Type} (pre post : list A) (y x : A) :
  set_nth (pre ++ y :: post) (List.length pre) x = pre ++ x :: post.
Proof. induction pre as [|a pre IH]; simpl; congruence. Qed.

Lemma map_set_nth {A B : Type} (f : A -> B) (l : list A) (i : nat) (x : A) :
  map f (set_nth l i x) = set_nth (map f l) i (f x).
Proof.
  revert i. induction l as [|a l IH]; intros [|i]; simpl; try reflexivity.
  rewrite IH. reflexivity.
Qed.

Lemma nth_error_Some_lt {A : Type} (l : list A) (i : nat) (x : A) :
  nth_error l i = Some x -> (i < List.length l)%nat.
Proof. intros H. apply nth_error_Some. congruence. Qed.

Lemma at_nth {A : Type} (l : list A) (i : nat) (x : A) :
  nth_error l i = Some x -> at_ l (Z.of_nat i) = Ok x.
Proof.
  intros H. unfold at_. destruct (Z.ltb_spec (Z.of_nat i) 0); [lia|].
  rewrite Nat2Z.id, H. reflexivity.
Qed.

Section MergeProofs.

Definition heads (ls : list (list entry)) : list (option entry) :=
  map (@hd_error entry) ls.

Definition has_key (k : string) (e : entry) : bool := String.eqb (en_key e) k.

Definition le_key (a b : entry) : Prop := String.ltb (en_key b) (en_key a) = false.

(** [e], at index [m], has the smallest key of [es] and is the first to
    have it. *)
Definition minimal_at (es : list (option entry)) (m : nat) (e : entry) : Prop :=
  nth_error es m = Some (Some e)
  /\ forall j e', nth_error es j = Some (Some e') ->
       String.ltb (en_key e') (en_key e) = false
       /\ ((j < m)%nat -> String.ltb (en_key e) (en_key e') = true).

Definition min_post (es : list (option entry)) (r : Z * bool) : Prop :=
  if snd r
  then 0 <= fst r /\ exists e, minimal_at es (Z.to_nat (fst r)) e
  else Forall (eq None) es.

Lemma getMinFrom_spec (es : list (option entry)) :
  forall (pre : list (option entry)) (ex : bool) (m : Z) (mk : string),
    (if ex
     then 0 <= m /\ exists e, en_key e = mk /\ minimal_at pre (Z.to_nat m) e
     else Forall (eq None) pre) ->
    min_post (pre ++ es) (getMinFrom es (len pre) ex m mk).
Proof.
  induction es as [|x es IH]; intros pre ex m mk Hinv.
  - rewrite app_nil_r. unfold min_post. cbn [getMinFrom fst snd].
    destruct ex; [|exact Hinv].
    destruct Hinv as (Hm & e & _ & He). eauto.
  - replace (pre ++ x :: es) with ((pre ++ [x]) ++ es) by (rewrite <- app_assoc; reflexivity).
    assert (Hl : len pre + 1 = len (pre ++ [x])) by (rewrite len_app; reflexivity).
    cbn [getMinFrom]. destruct x as [x|].
    + destruct (negb ex || String.ltb (en_key x) mk) eqn:Hc; rewrite Hl; apply IH.
      * split; [apply len_nonneg|]. exists x. split; [reflexivity|].
        unfold len. rewrite Nat2Z.id. split.
        { rewrite nth_error_app2, Nat.sub_diag by lia. reflexivity. }
        intros j e' Hj. destruct (Nat.lt_ge_cases j (List.length pre)) as [Hlt|Hge].
        { rewrite nth_error_app1 in Hj by exact Hlt.
          destruct ex.
          - destruct Hinv as (_ & e & Hk & _ & Hmin). simpl in Hc.
            destruct (Hmin j e' Hj) as [Hle _]. subst mk.
            pose proof (ltb_le_trans _ _ _ Hc Hle) as Hlt'.
            split; [apply ltb_asym; exact Hlt'|intros _; exact Hlt'].
          - apply nth_error_In in Hj. rewrite Forall_forall in Hinv.
            specialize (Hinv _ Hj). discriminate. }
        { assert (j = List.length pre).
          { apply nth_error_Some_lt in Hj as Hb. rewrite length_app in Hb.
            simpl in Hb. lia. }
          subst j. rewrite nth_error_app2, Nat.sub_diag in Hj by lia.
          injection Hj as <-. split; [apply ltb_irrefl|lia]. }
      * destruct ex; [|discriminate]. simpl in Hc.
        destruct Hinv as (Hm & e & Hk & Hn & Hmin).
        split; [exact Hm|]. exists e. split; [exact Hk|]. split.
        { rewrite nth_error_app1; [exact Hn|]. eapply nth_error_Some_lt; eassumption. }
        intros j e' Hj. destruct (Nat.lt_ge_cases j (List.length pre)) as [Hlt|Hge].
        { rewrite nth_error_app1 in Hj by exact Hlt. apply Hmin. exact Hj. }
        { assert (j = List.length pre).
          { apply nth_error_Some_lt in Hj as Hb. rewrite length_app in Hb.
            simpl in Hb. lia. }
          subst j. rewrite nth_error_app2, Nat.sub_diag in Hj by lia.
          injection Hj as <-. subst mk. split; [exact Hc|].
          apply nth_error_Some_lt in Hn. lia. }
    + rewrite Hl. apply IH. destruct ex.
      * destruct Hinv as (Hm & e & Hk & Hn & Hmin).
        split; [exact Hm|]. exists e. split; [exact Hk|]. split.
        { rewrite nth_error_app1; [exact Hn|]. eapply nth_error_Some_lt; eassumption. }
        intros j e' Hj. destruct (Nat.lt_ge_cases j (List.length pre)) as [Hlt|Hge].
        { rewrite nth_error_app1 in Hj by exact Hlt. apply Hmin. exact Hj. }
        { assert (j = List.length pre).
          { apply nth_error_Some_lt in Hj as Hb. rewrite length_app in Hb.
            simpl in Hb. lia. }
          subst j. rewrite nth_error_app2, Nat.sub_diag in Hj by lia. discriminate. }
      * apply Forall_app. split; [exact Hinv|]. constructor; [reflexivity|constructor].
Qed.

Lemma getMin_spec (es : list (option entry)) : min_post es (getMin es).
Proof.
  unfold getMin. change 0 with (len (@nil (option entry))).
  apply (getMinFrom_spec es [] false). constructor.
Qed.

Context {I : Type} {CI : ChunkIterator I}.

Definition sorted_entries (l : list entry) : Prop := ascending (map en_key l).

Lemma yields_head (it : option I) (l : list entry) :
  yields it l -> getEntry it = Ok (hd_error l).
Proof.
  intros H. destruct H as [|i kind key data next l Hv Hn Hy]; [reflexivity|].
  unfold getEntry. rewrite Hv. reflexivity.
Qed.

Lemma getEntryAll_yields (its : list (option I)) (ls : list (list entry)) :
  Forall2 yields its ls -> getEntryAll its = Ok (heads ls).
Proof.
  induction 1 as [|it l its ls Hy _ IH]; [reflexivity|].
  cbn [getEntryAll heads map]. rewrite (yields_head _ _ Hy). cbn [bind].
  rewrite IH. reflexivity.
Qed.

Lemma sorted_entries_cons (e : entry) (l : list entry) :
  sorted_entries (e :: l) ->
  sorted_entries l /\ Forall (fun x => String.ltb (en_key e) (en_key x) = true) l.
Proof.
  unfold sorted_entries, ascending. cbn [map]. intros H.
  apply StronglySorted_inv in H. destruct H as [Hs Hf]. split; [exact Hs|].
  rewrite Forall_map in Hf. exact Hf.
Qed.

Lemma heads_none (ls : list (list entry)) :
  Forall (eq None) (heads ls) -> Forall (eq []) ls.
Proof.
  unfold heads. rewrite Forall_map. apply Forall_impl.
  intros [|e l] H; [reflexivity|discriminate].
Qed.

Lemma flat_map_empties {B : Type} (f : list entry -> list B) (ls : list (list entry)) :
  f [] = [] -> Forall (eq []) ls -> flat_map f ls = [].
Proof.
  intros Hf. induction 1 as [|l ls <- _ IH]; [reflexivity|].
  cbn [flat_map]. rewrite Hf, IH. reflexivity.
Qed.

(** Lists before the chosen one hold no entry with the chosen key. *)
Lemma earlier_lists_lack_key (ls pre post : list (list entry)) (e : entry)
  (l' : list entry) (k : string) :
  ls = pre ++ (e :: l') :: post ->
  Forall sorted_entries ls ->
  minimal_at (heads ls) (List.length pre) e ->
  has_key k e = true ->
  flat_map (filter (has_key k)) pre = [].
Proof.
  intros -> Hs [_ Hmin] Hk. apply String.eqb_eq in Hk. subst k.
  apply Forall_app in Hs. destruct Hs as [Hpre _].
  assert (G : forall j l, nth_error pre j = Some l -> filter (has_key (en_key e)) l = []).
  { intros j l Hj. destruct l as [|h t]; [reflexivity|].
    assert (Hlt : (j < List.length pre)%nat) by (eapply nth_error_Some_lt; eassumption).
    destruct (Hmin j h) as [_ Hh].
    { unfold heads. rewrite map_app, nth_error_app1 by (rewrite length_map; exact Hlt).
      rewrite nth_error_map, Hj. reflexivity. }
    specialize (Hh Hlt).
    rewrite Forall_forall in Hpre. apply nth_error_In in Hj.
    destruct (sorted_entries_cons h t (Hpre _ Hj)) as [_ Ht].
    cbn [filter]. unfold has_key at 1.
    replace (String.eqb (en_key h) (en_key e)) with false.
    2:{ symmetry. apply String.eqb_neq. intros E. rewrite E, ltb_irrefl in Hh. discriminate. }
    clear - Ht Hh. induction Ht as [|x t Hx _ IH]; [reflexivity|].
    cbn [filter]. unfold has_key at 1.
    replace (String.eqb (en_key x) (en_key e)) with false; [exact IH|].
    symmetry. apply String.eqb_neq. intros E.
    rewrite E in Hx. rewrite (ltb_asym _ _ Hh) in Hx. discriminate. }
  clear - G. induction pre as [|l pre IH]; [reflexivity|].
  cbn [flat_map]. rewrite (G 0%nat l eq_refl). apply IH.
  intros j l0 Hj. apply (G (S j)). exact Hj.
Qed.

Lemma length_concat_pop (pre post : list (list entry)) (e : entry) (l' : list entry) :
  List.length (List.concat (pre ++ (e :: l') :: post))
  = S (List.length (List.concat (pre ++ l' :: post))).
Proof.
  rewrite !concat_app. cbn [List.concat]. rewrite !length_app. cbn [List.length]. lia.
Qed.

Lemma in_flat_map_filter (k : string) (x : entry) (ls : list (list entry)) :
  In x (flat_map (filter (has_key k)) ls) -> exists l, In l ls /\ In x l.
Proof.
  rewrite in_flat_map. intros (l & Hl & Hx). apply filter_In in Hx. exists l. tauto.
Qed.

(** The goroutine of [getEntries]: its stream is ascending (not strictly),
    and the entries of a key come out in the order of the inputs. *)
Lemma entriesLoop_spec (n : nat) :
  forall (fuel : nat) (its : list (option I)) (ls : list (list entry)),
    List.length (List.concat ls) = n -> (n < fuel)%nat ->
    Forall2 yields its ls -> Forall sorted_entries ls ->
    exists stream,
      entriesLoop fuel its (heads ls) = Ok stream
      /\ (forall k, filter (has_key k) stream = flat_map (filter (has_key k)) ls)
      /\ StronglySorted le_key stream.
Proof.
  induction n as [|n IH]; intros fuel its ls Hn Hfuel Hy Hs;
    (destruct fuel as [|fuel]; [lia|]); cbn [entriesLoop];
    pose proof (getMin_spec (heads ls)) as Hmin;
    destruct (getMin (heads ls)) as [m ex]; unfold min_post in Hmin;
    cbn [fst snd] in Hmin; destruct ex; cbn [negb].
  - (* no entry is left, yet a head exists *)
    destruct Hmin as (_ & e & Hnth & _). exfalso.
    unfold heads in Hnth. rewrite nth_error_map in Hnth.
    destruct (nth_error ls (Z.to_nat m)) as [l|] eqn:El; [|discriminate].
    destruct l as [|h t]; [discriminate|].
    apply nth_error_split in El. destruct El as (pre & post & -> & _).
    rewrite length_concat_pop in Hn. discriminate.
  - exists []. split; [reflexivity|]. split; [|constructor].
    intros k. symmetry. apply flat_map_empties; [reflexivity|].
    apply heads_none. exact Hmin.
  - destruct Hmin as (Hm & e & Hmin). pose proof Hmin as [Hnth _].
    set (i := Z.to_nat m) in *.
    assert (Em : m = Z.of_nat i) by (subst i; lia).
    clearbody i. rewrite Em. rewrite (at_nth _ _ _ Hnth). cbn [bind].
    unfold heads in Hnth. rewrite nth_error_map in Hnth.
    destruct (nth_error ls i) as [l|] eqn:El; [|discriminate].
    destruct l as [|h l']; [discriminate|]. injection Hnth as ->.
    apply nth_error_split in El. destruct El as (pre & post & Els & Hlen).
    rewrite Els in Hy. apply Forall2_app_inv_r in Hy.
    destruct Hy as (ipre & irest & Hpre & Hrest & Eits).
    inversion Hrest as [|it l0 ipost post0 Hit Hpost]; subst l0 post0 irest.
    assert (Hilen : List.length ipre = i)
      by (rewrite (Forall2_length Hpre); exact Hlen).
    assert (Hitn : nth_error its i = Some it).
    { rewrite Eits, nth_error_app2, Hilen, Nat.sub_diag by lia. reflexivity. }
    rewrite (at_nth _ _ _ Hitn). cbn [bind].
    inversion Hit as [|i0 kind key data next l0 Hv Hnx Hyn]; subst.
    rewrite Hnx. cbn [bind]. rewrite (yields_head _ _ Hyn). cbn [bind].
    replace (set_nth (ipre ++ Some i0 :: ipost) (List.length pre) next)
      with (ipre ++ next :: ipost)
      by (rewrite <- Hilen; symmetry; apply set_nth_app).
    replace (set_nth (heads (pre ++ (mkEntry key kind data :: l') :: post))
               (List.length pre) (hd_error l'))
      with (heads (pre ++ l' :: post))
      by (unfold heads; rewrite !map_app; cbn [map];
          rewrite <- (length_map (@hd_error entry) pre), set_nth_app; reflexivity).
    rewrite length_concat_pop in Hn. apply eq_add_S in Hn.
    pose proof Hs as Hs0. apply Forall_app in Hs. destruct Hs as [Hspre Hsrest].
    inversion Hsrest as [|? ? Hse Hspost]; subst.
    destruct (sorted_entries_cons _ _ Hse) as [Hsl' Hgt].
    destruct (IH fuel (ipre ++ next :: ipost) (pre ++ l' :: post)) as
      (rest & Er & Hfilter & Hsorted); [first [exact Hn|reflexivity]|lia| | |].
    { apply Forall2_app; [exact Hpre|]. constructor; assumption. }
    { apply Forall_app. split; [exact Hspre|]. constructor; assumption. }
    rewrite Er. cbn [bind]. eexists. split; [reflexivity|]. split.
    + intros k. cbn [filter]. rewrite Hfilter, !flat_map_app. cbn [flat_map filter].
      destruct (has_key k (mkEntry key kind data)) eqn:Hk; [|reflexivity].
      rewrite (earlier_lists_lack_key _ pre post _ l' k eq_refl Hs0); try assumption.
      reflexivity.
    + constructor; [exact Hsorted|]. apply Forall_forall. intros x Hx.
      assert (Hx' : In x (filter (has_key (en_key x)) rest)).
      { apply filter_In. split; [exact Hx|]. apply String.eqb_refl. }
      rewrite Hfilter in Hx'. apply in_flat_map_filter in Hx'.
      destruct Hx' as (l & Hl & Hxl). unfold le_key.
      assert (Hcase : exists j h t, nth_error (pre ++ (mkEntry key kind data :: l') :: post) j
                                    = Some (h :: t)
                                    /\ (x = h \/ String.ltb (en_key h) (en_key x) = true)).
      { apply in_app_or in Hl. destruct Hl as [Hl|[Hl|Hl]].
        - apply In_nth_error in Hl. destruct Hl as [j Hj].
          destruct l as [|h t]; [contradiction|]. exists j, h, t. split.
          + rewrite nth_error_app1; [exact Hj|]. eapply nth_error_Some_lt; eassumption.
          + destruct Hxl as [<-|Hxt]; [left; reflexivity|right].
            rewrite Forall_forall in Hspre.
            destruct (sorted_entries_cons h t (Hspre _ (nth_error_In _ _ Hj))) as [_ Hf].
            rewrite Forall_forall in Hf. apply Hf. exact Hxt.
        - subst l. exists (List.length pre), (mkEntry key kind data), l'. split.
          + rewrite nth_error_app2, Nat.sub_diag by lia. reflexivity.
          + right. rewrite Forall_forall in Hgt. apply Hgt. exact Hxl.
        - apply In_nth_error in Hl. destruct Hl as [j Hj].
          destruct l as [|h t]; [contradiction|].
          exists (List.length pre + S j)%nat, h, t. split.
          + rewrite nth_error_app2 by lia.
            replace (List.length pre + S j - List.length pre)%nat with (S j) by lia.
            exact Hj.
          + destruct Hxl as [<-|Hxt]; [left; reflexivity|right].
            rewrite Forall_forall in Hspost.
            destruct (sorted_entries_cons h t (Hspost _ (nth_error_In _ _ Hj))) as [_ Hf].
            rewrite Forall_forall in Hf. apply Hf. exact Hxt. }
      destruct Hcase as (j & h & t & Hj & Hhx).
      destruct Hmin as [_ Hmin]. destruct (Hmin j h) as [Hle _].
      { unfold heads. rewrite nth_error_map, Hj. reflexivity. }
      destruct Hhx as [->|Hlt]; [exact Hle|].
      destruct (String.ltb (en_key x) (en_key (mkEntry key kind data))) eqn:Hc;
        [|reflexivity].
      rewrite (ltb_trans _ _ _ Hlt Hc) in Hle. discriminate.
  - exists []. split; [reflexivity|]. split; [|constructor].
    intros k. symmetry. apply flat_map_empties; [reflexivity|].
    apply heads_none. exact Hmin.
Qed.

(** What the consumer loop passes to the builder. *)
Lemma fed_sorted (stream : list entry) : forall prev,
  StronglySorted le_key stream ->
  Forall (fun x => String.ltb (en_key x) prev = false) stream ->
  ascending (map rkey (fedToBuilder prev stream))
  /\ Forall (fun r => String.ltb prev (rkey r) = true) (fedToBuilder prev stream).
Proof.
  induction stream as [|e es IH]; intros prev Hs Hp; cbn [fedToBuilder].
  - split; constructor.
  - apply StronglySorted_inv in Hs. destruct Hs as [Hs He].
    inversion Hp as [|? ? Hpe Hpes]; subst.
    destruct (IH (en_key e) Hs He) as [IHa IHf].
    destruct (String.eqb (en_key e) prev) eqn:E; cbn [negb app].
    + apply String.eqb_eq in E. rewrite <- E. split; assumption.
    + assert (Hlt : String.ltb prev (en_key e) = true).
      { destruct (String.ltb prev (en_key e)) eqn:Hc; [reflexivity|].
        apply String.eqb_neq in E. exfalso. apply E. symmetry.
        apply ltb_total; assumption. }
      split.
      * cbn [map]. constructor; [exact IHa|].
        rewrite Forall_map. exact IHf.
      * constructor; [exact Hlt|].
        eapply Forall_impl; [|exact IHf]. intros r Hr.
        eapply ltb_trans; eassumption.
Qed.

Lemma fed_first (stream : list entry) : forall prev kind k d,
  StronglySorted le_key stream ->
  Forall (fun x => String.ltb (en_key x) prev = false) stream ->
  In (kind, k, d) (fedToBuilder prev stream) ->
  kind = RecordKindWrite
  /\ exists e, hd_error (filter (has_key k) stream) = Some e
               /\ en_key e = k /\ en_data e = d.
Proof.
  induction stream as [|e es IH]; intros prev kind k d Hs Hp Hin;
    cbn [fedToBuilder] in Hin; [contradiction|].
  apply StronglySorted_inv in Hs. destruct Hs as [Hs He].
  inversion Hp as [|? ? Hpe Hpes]; subst.
  apply in_app_or in Hin. destruct Hin as [Hin|Hin].
  - destruct (negb (String.eqb (en_key e) prev)); [|contradiction].
    destruct Hin as [Hin|[]]. injection Hin as <- <- <-.
    split; [reflexivity|]. exists e. cbn [filter]. unfold has_key at 1.
    rewrite String.eqb_refl. auto.
  - destruct (IH (en_key e) kind k d Hs He Hin) as (Hk & e' & Hhd & Hk' & Hd').
    split; [exact Hk|]. exists e'. split; [|auto].
    destruct (fed_sorted es (en_key e) Hs He) as [_ Hf].
    rewrite Forall_forall in Hf. specialize (Hf _ Hin). unfold rkey in Hf. cbn in Hf.
    cbn [filter]. unfold has_key at 1.
    replace (String.eqb (en_key e) k) with false; [exact Hhd|].
    symmetry. apply String.eqb_neq. intros E. rewrite E, ltb_irrefl in Hf. discriminate.
Qed.

Lemma hd_flat_map_filter (p : entry -> bool) (ls : list (list entry)) (e : entry) :
  hd_error (flat_map (filter p) ls) = Some e ->
  exists i l, nth_error ls i = Some l /\ In e l /\ p e = true
    /\ forall j l', (j < i)%nat -> nth_error ls j = Some l' -> filter p l' = [].
Proof.
  induction ls as [|l ls IH]; cbn [flat_map]; intros H; [discriminate|].
  destruct (filter p l) as [|x t] eqn:E.
  - destruct (IH H) as (i & l0 & Hn & Hin & Hp & Hj).
    exists (S i), l0. repeat split; try assumption.
    intros [|j] l' Hlt Hl'; cbn in Hl'.
    + injection Hl' as <-. exact E.
    + apply (Hj j); [lia|exact Hl'].
  - cbn in H. injection H as ->.
    assert (Hx : In e (filter p l)) by (rewrite E; left; reflexivity).
    apply filter_In in Hx. exists 0%nat, l. repeat split; try tauto.
    intros j l' Hlt. lia.
Qed.

Lemma filter_nil_no_key (k : string) (l : list entry) :
  filter (has_key k) l = [] -> ~ In k (map en_key l).
Proof.
  intros E Hin. apply in_map_iff in Hin. destruct Hin as (x & Hx & Hin).
  assert (H : In x (filter (has_key k) l)).
  { apply filter_In. split; [exact Hin|]. apply String.eqb_eq. exact Hx. }
  rewrite E in H. exact H.
Qed.

Lemma ascending_NoDup (ks : list string) : ascending ks -> NoDup ks.
Proof.
  induction 1 as [|k ks _ IH Hk]; constructor; [|exact IH].
  intros Hin. rewrite Forall_forall in Hk. specialize (Hk _ Hin).
  unfold key_lt in Hk. rewrite ltb_irrefl in Hk. discriminate.
Qed.

Context {BF : BloomFilter}.

Lemma mergeLoop_feed (entries : list entry) : forall prev tbl,
  mergeLoop prev entries tbl = feed tbl (fedToBuilder prev entries).
Proof.
  induction entries as [|e es IH]; intros prev tbl; [reflexivity|].
  cbn [mergeLoop fedToBuilder].
  destruct (negb (String.eqb (en_key e) prev)); cbn [app feed bind].
  - destruct (SSTableBuilder_Write tbl (en_key e) RecordKindWrite (en_data e));
      cbn [bind]; auto.
  - apply IH.
Qed.

(** C6.  For input iterators that each yield their entries [ls[i]] in
    strictly ascending key order, [getEntries] returns a stream (with fuel
    above the number of entries), and the [Write] calls of [parallellMerge]
    are made for strictly ascending keys, so without a duplicate; each call
    carries the key and data of an entry of the smallest-indexed input that
    contains the key. *)
Theorem merge_feeds_ascending_keys_from_the_first_input
  (its : list (option I)) (ls : list (list entry)) (tbl : SSTableBuilder) (fuel : nat) :
  Forall2 yields its ls ->
  Forall (fun l => ascending (map en_key l)) ls ->
  (List.length (List.concat ls) < fuel)%nat ->
  exists stream,
    getEntries fuel its = Ok stream
    /\ parallellMerge fuel its tbl = feed tbl (fedToBuilder "" stream)
    /\ ascending (map rkey (fedToBuilder "" stream))
    /\ NoDup (map rkey (fedToBuilder "" stream))
    /\ forall kind key data,
         In (kind, key, data) (fedToBuilder "" stream) ->
         exists i l e,
           nth_error ls i = Some l /\ In e l /\ en_key e = key /\ en_data e = data
           /\ forall j l', (j < i)%nat -> nth_error ls j = Some l' ->
                ~ In key (map en_key l').
Proof.
  intros Hy Hs Hfuel.
  destruct (entriesLoop_spec _ fuel its ls eq_refl Hfuel Hy Hs)
    as (stream & Es & Hfilter & Hsorted).
  assert (Hprev : Forall (fun x => String.ltb (en_key x) "" = false) stream).
  { apply Forall_forall. intros x _. apply ltb_empty. }
  destruct (fed_sorted stream "" Hsorted Hprev) as [Hasc _].
  exists stream. unfold parallellMerge, getEntries.
  rewrite (getEntryAll_yields _ _ Hy). cbn [bind]. rewrite Es. cbn [bind].
  repeat split.
  - apply mergeLoop_feed.
  - exact Hasc.
  - apply ascending_NoDup. exact Hasc.
  - intros kind key data Hin.
    destruct (fed_first stream "" kind key data Hsorted Hprev Hin)
      as (_ & e & Hhd & Hk & Hd).
    rewrite Hfilter in Hhd.
    destruct (hd_flat_map_filter _ _ _ Hhd) as (i & l & Hn & Hl & _ & Hj).
    exists i, l, e. repeat split; try assumption.
    intros j l' Hlt Hl'. apply filter_nil_no_key. eapply Hj; eassumption.
Qed.

End MergeProofs.

(** The theorem at scenario 6 of the specification. *)
Lemma merge_feeds_ascending_keys_witness :
  Forall2 yields [Some newerInput; Some olderInput] [newerInput; olderInput]
  /\ exists stream,
       getEntries 5 [Some newerInput; Some olderInput] = Ok stream
       /\ parallellMerge (BF := exactFilter) 5 [Some newerInput; Some olderInput]
            emptyBuilder
          = feed emptyBuilder (fedToBuilder "" stream)
       /\ ascending (map rkey (fedToBuilder "" stream))
       /\ NoDup (map rkey (fedToBuilder "" stream))
       /\ forall kind key data,
            In (kind, key, data) (fedToBuilder "" stream) ->
            exists i l e,
              nth_error [newerInput; olderInput] i = Some l /\ In e l
              /\ en_key e = key /\ en_data e = data
              /\ forall j l', (j < i)%nat ->
                   nth_error [newerInput; olderInput] j = Some l' ->
                   ~ In key (map en_key l').
Proof.
  assert (Hy : Forall2 yields [Some newerInput; Some olderInput]
                 [newerInput; olderInput]).
  { repeat constructor;
      (eapply yields_cons; [reflexivity|reflexivity|];
       eapply yields_cons; [reflexivity|reflexivity|]; constructor). }
  split; [exact Hy|].
  apply (merge_feeds_ascending_keys_from_the_first_input (BF := exactFilter)
           [Some newerInput; Some olderInput] [newerInput; olderInput]
           emptyBuilder 5 Hy).
  - repeat constructor.
  - simpl. lia.
Defined.

(** Scenario 6 itself: the merge feeds [(a,1)], [(b,2)], [(c,3)]. *)
Lemma merge_of_scenario_6 :
  (stream <- getEntries 5 [Some newerInput; Some olderInput] ;;
   Ok (fedToBuilder "" stream))
  = Ok [(RecordKindWrite, "a"%string, bytes "1");
        (RecordKindWrite, "b"%string, bytes "2");
        (RecordKindWrite, "c"%string, bytes "3")].
Proof. vm_compute. reflexivity. Qed.

(** An entry whose key is the empty string is never fed when it comes
    first: [prevKey] starts as the empty string. *)
Lemma merge_drops_a_leading_empty_key :
  (stream <- getEntries 3 [Some [mkEntry "" RecordKindWrite (bytes "1");
                                 mkEntry "b" RecordKindWrite (bytes "2")]] ;;
   Ok (fedToBuilder "" stream))
  = Ok [(RecordKindWrite, "b"%string, bytes "2")].
Proof. vm_compute. reflexivity. Qed.

(** * The write-ahead log (C7) *)

Section WALProofs.

Context {BF : BloomFilter} {J : Json}.

Lemma ReadBytes_record (m rest : list byte) :
  ~ In entrySeparator m ->
  ReadBytes entrySeparator (m ++ entrySeparator :: rest)
  = (m ++ [entrySeparator], Some rest).
Proof.
  induction m as [|b m IH]; intros Hm; cbn [app ReadBytes].
  - reflexivity.
  - destruct (Byte.eqb b entrySeparator) eqn:E.
    + apply Byte.byte_dec_bl in E. exfalso. apply Hm. left. exact E.
    + rewrite IH; [reflexivity|]. intros H. apply Hm. right. exact H.
Qed.

Lemma ReadBytes_tail (tail : list byte) :
  ~ In entrySeparator tail -> ReadBytes entrySeparator tail = (tail, None).
Proof.
  induction tail as [|b t IH]; intros Ht; cbn [ReadBytes]; [reflexivity|].
  destruct (Byte.eqb b entrySeparator) eqn:E.
  - apply Byte.byte_dec_bl in E. exfalso. apply Ht. left. exact E.
  - rewrite IH; [reflexivity|]. intros H. apply Ht. right. exact H.
Qed.

(** A record that [WAL.Write] appended and that [json.Unmarshal] reads
    back. *)
Definition well_formed (e : WALEntry) : Prop :=
  Unmarshal (Marshal e ++ [entrySeparator]) = Some e
  /\ ~ In entrySeparator (Marshal e).

(** What the loop makes of the bytes after the last separator. *)
Definition loadTail (entries : list WALEntry) (tail : list byte)
  : outcome (list WALEntry) :=
  match tail with
  | [] => Ok entries
  | _ => match Unmarshal tail with
         | Some e => Ok (entries ++ [e])
         | None => Err ErrSyntax
         end
  end.

Lemma loadLoop_records (es : list WALEntry) :
  forall (tail : list byte) (acc : list WALEntry) (fuel : nat),
    Forall well_formed es ->
    ~ In entrySeparator tail ->
    (List.length es < fuel)%nat ->
    loadLoop fuel (logOf es ++ tail) acc = loadTail (acc ++ es) tail.
Proof.
  induction es as [|e es IH]; intros tail acc fuel Hes Htail Hfuel;
    (destruct fuel as [|fuel]; [cbn in Hfuel; lia|]); cbn [loadLoop logOf flat_map app].
  - rewrite ReadBytes_tail by exact Htail. rewrite app_nil_r.
    destruct tail as [|b t]; [reflexivity|].
    replace (0 <? len (b :: t)) with true
      by (symmetry; apply Z.ltb_lt; unfold len; cbn [List.length]; lia).
    cbn [loadTail]. destruct (Unmarshal (b :: t)); reflexivity.
  - inversion Hes as [|? ? [Hrt Hnl] Hes']; subst.
    rewrite <- !app_assoc. cbn [app].
    rewrite ReadBytes_record by exact Hnl.
    replace (0 <? len (Marshal e ++ [entrySeparator])) with true
      by (symmetry; apply Z.ltb_lt; rewrite len_app; pose proof (len_nonneg (Marshal e));
          change (len [entrySeparator]) with 1; lia).
    rewrite Hrt. cbn [bind]. fold (logOf es).
    rewrite IH; [|assumption|assumption|cbn in Hfuel; lia].
    rewrite <- app_assoc. reflexivity.
Qed.

Lemma logOf_length (es : list WALEntry) : (List.length es <= List.length (logOf es))%nat.
Proof.
  induction es as [|e es IH]; cbn [logOf flat_map List.length]; [lia|].
  fold (logOf es). rewrite !length_app. cbn [List.length]. lia.
Qed.

(** C7, as the code has it.  For a log made of K records that [WAL.Write]
    appended, followed by bytes [tail] without a separator: [LoadWAL] returns
    the K records in append order when [tail] is empty; when [tail] is not
    empty it fails with the error of [json.Unmarshal], returning no record at
    all, unless [tail] parses (a record cut just before its separator), in
    which case it is returned as one more record. *)
Theorem LoadWAL_returns_all_records_or_fails
  (es : list WALEntry) (tail : list byte) (fileName : string) (fs : FS) :
  Forall well_formed es ->
  ~ In entrySeparator tail ->
  os_Open fileName fs = Ok (FBytes (logOf es ++ tail)) ->
  faulty fs IoRead fileName = false ->
  LoadWAL fileName fs
  = match tail with
    | [] => Ok es
    | _ => match Unmarshal tail with
           | Some e => Ok (es ++ [e])
           | None => Err ErrSyntax
           end
    end.
Proof.
  intros Hes Htail Hopen Hread. unfold LoadWAL. rewrite Hopen. cbn [bind].
  rewrite Hread. rewrite loadLoop_records; try assumption.
  - reflexivity.
  - rewrite length_app. pose proof (logOf_length es). lia.
Qed.

End WALProofs.

(** The theorem at a log of two records followed by the first 20 bytes of a
    third. *)
Lemma LoadWAL_returns_all_records_or_fails_witness :
  Forall (well_formed (J := goJson)) [record1; record2]
  /\ ~ In entrySeparator cutRecord
  /\ LoadWAL (BF := exactFilter) (J := goJson) "db/wal-root.log" (w_fs (logWorld cutLog))
     = Err ErrSyntax.
Proof.
  assert (H1 : Forall (well_formed (J := goJson)) [record1; record2]).
  { repeat constructor; try (vm_compute; reflexivity);
      vm_compute; intros H; repeat (destruct H as [H|H]; [discriminate|]); exact H. }
  assert (H2 : ~ In entrySeparator cutRecord).
  { vm_compute; intros H; repeat (destruct H as [H|H]; [discriminate|]); exact H. }
  split; [exact H1|]. split; [exact H2|].
  exact (LoadWAL_returns_all_records_or_fails (BF := exactFilter) (J := goJson)
           [record1; record2] cutRecord "db/wal-root.log" (w_fs (logWorld cutLog))
           H1 H2 eq_refl eq_refl).
Defined.

(** C7 (as stated, fails on the code).  The log holds two fully formed
    records and a truncated third one: [LoadWAL] does not return the two
    records, it fails; without the truncated record it returns them. *)
Lemma LoadWAL_fails_on_a_truncated_record :
  LoadWAL (BF := exactFilter) (J := goJson) "db/wal-root.log" (w_fs (logWorld cutLog))
  <> Ok [record1; record2]
  /\ LoadWAL (BF := exactFilter) (J := goJson) "db/wal-root.log"
       (w_fs (logWorld (logOf (J := goJson) [record1; record2])))
     = Ok [record1; record2].
Proof. split; vm_compute; [discriminate|reflexivity]. Qed.

(** * The skiplist as a store of linked elements (for C10) *)

Lemma filter_length_le {A : Type} (p : A -> bool) (l : list A) :
  (List.length (filter p l) <= List.length l)%nat.
Proof.
  induction l as [|x l IH]; cbn [filter List.length]; [lia|].
  destruct (p x); cbn [List.length]; lia.
Qed.

Lemma filter_length_lt {A : Type} (p q : A -> bool) (l : list A) (y : A) :
  (forall x, In x l -> q x = true -> p x = true) ->
  In y l -> p y = true -> q y = false ->
  (List.length (filter q l) < List.length (filter p l))%nat.
Proof.
  induction l as [|x l IH]; intros Hsub Hin Hp Hq; [contradiction|].
  cbn [filter]. destruct Hin as [->|Hin].
  - rewrite Hp, Hq. cbn [List.length].
    assert (H : (List.length (filter q l) <= List.length (filter p l))%nat).
    { clear - Hsub. induction l as [|z l IH]; cbn [filter List.length]; [lia|].
      assert (Hl : forall x, In x (y :: l) -> q x = true -> p x = true).
      { intros x [->|Hx]; apply Hsub; [left|right; right]; auto. }
      specialize (IH Hl).
      destruct (q z) eqn:Eq.
      - rewrite (Hsub z (or_intror (or_introl eq_refl)) Eq). cbn [List.length]. lia.
      - destruct (p z); cbn [List.length]; lia. }
    lia.
  - assert (IH' : (List.length (filter q l) < List.length (filter p l))%nat).
    { apply IH; try assumption. intros z Hz. apply Hsub. right. exact Hz. }
    destruct (q x) eqn:Eq.
    + rewrite (Hsub x (or_introl eq_refl) Eq). cbn [List.length]. lia.
    + destruct (p x); cbn [List.length]; lia.
Qed.

Section SkipListProofs.

Context {TKey TValue : Type}.
Variable key_ltb : TKey -> TKey -> bool.
Variable key_eqb : TKey -> TKey -> bool.

Hypothesis key_irrefl : forall a, key_ltb a a = false.
Hypothesis key_trans :
  forall a b c, key_ltb a b = true -> key_ltb b c = true -> key_ltb a c = true.
Hypothesis key_total :
  forall a b, key_ltb a b = false -> key_ltb b a = false -> key_eqb a b = true.

(** Reading the store: [nxt ns a i] is [ns[a].next[i]], [keyo ns a] the key
    field and [lev ns a] the number of levels of [ns[a]]. *)
Definition nxt (ns : list (@SkiplistElement TKey TValue)) (a i : nat) : option (option nat) :=
  match nth_error ns a with
  | Some e => nth_error (e_next e) i
  | None => None
  end.

Definition keyo (ns : list (@SkiplistElement TKey TValue)) (a : nat) : option (option TKey) :=
  option_map e_key (nth_error ns a).

Definition lev (ns : list (@SkiplistElement TKey TValue)) (a : nat) : nat :=
  match nth_error ns a with
  | Some e => List.length (e_next e)
  | None => 0%nat
  end.

Lemma nxt_lev (ns : list (@SkiplistElement TKey TValue)) (a i : nat) :
  (i < lev ns a)%nat -> exists q, nxt ns a i = Some q.
Proof.
  unfold lev, nxt. destruct (nth_error ns a) as [e|]; [|intros; lia].
  intros H. destruct (nth_error (e_next e) i) as [q|] eqn:E; [eauto|].
  apply nth_error_None in E. lia.
Qed.

Lemma nxt_Some_lev (ns : list (@SkiplistElement TKey TValue)) (a i : nat) (q : option nat) :
  nxt ns a i = Some q -> (i < lev ns a)%nat.
Proof.
  unfold lev, nxt. destruct (nth_error ns a) as [e|]; [|discriminate].
  apply nth_error_Some_lt.
Qed.

Lemma keyo_valid (ns : list (@SkiplistElement TKey TValue)) (a : nat) (k : option TKey) :
  keyo ns a = Some k -> (a < List.length ns)%nat.
Proof.
  unfold keyo. destruct (nth_error ns a) eqn:E; [|discriminate].
  intros _. eapply nth_error_Some_lt; eassumption.
Qed.

Lemma lev_valid (ns : list (@SkiplistElement TKey TValue)) (a i : nat) :
  (i < lev ns a)%nat -> exists k, keyo ns a = Some k.
Proof.
  unfold lev, keyo. destruct (nth_error ns a);
    [intros _; eexists; reflexivity|intros; lia].
Qed.

Lemma next_at_nxt (ns : list (@SkiplistElement TKey TValue)) (a i : nat) (q : option nat) :
  nxt ns a i = Some q -> next_at ns a i = Ok q.
Proof.
  unfold nxt, next_at, elem. destruct (nth_error ns a); [|discriminate].
  cbn. intros ->. reflexivity.
Qed.

Lemma elem_keyo (ns : list (@SkiplistElement TKey TValue)) (a : nat) (k : option TKey) :
  keyo ns a = Some k -> exists e, elem ns a = Ok e /\ e_key e = k
                                  /\ nth_error ns a = Some e.
Proof.
  unfold keyo, elem. destruct (nth_error ns a) as [e|]; [|discriminate].
  cbn. intros H. injection H as <-. eauto.
Qed.

Implicit Types ns h : list (@SkiplistElement TKey TValue).

(** [reach ns a b]: following [next[0]] from [a] arrives at [b]. *)
Inductive reach ns : nat -> nat -> Prop :=
| reach_refl (a : nat) : reach ns a a
| reach_step (a a' b : nat) :
    nxt ns a 0 = Some (Some a') -> reach ns a' b -> reach ns a b.

Lemma reach_snoc ns (a b c : nat) :
  reach ns a b -> nxt ns b 0 = Some (Some c) -> reach ns a c.
Proof.
  induction 1 as [a|a a' b Hn _ IH]; intros Hc.
  - eapply reach_step; [exact Hc|apply reach_refl].
  - eapply reach_step; [exact Hn|apply IH; exact Hc].
Qed.

Lemma reach_linear ns (p a b : nat) :
  reach ns p a -> reach ns p b -> reach ns a b \/ reach ns b a.
Proof.
  induction 1 as [p|p p' a Hn Hr IH]; intros Hb.
  - left. exact Hb.
  - inversion Hb as [|? p'' ? Hn' Hr']; subst.
    + right. eapply reach_step; eassumption.
    + rewrite Hn in Hn'. injection Hn' as <-. apply IH. exact Hr'.
Qed.

(** The well-formedness of a skiplist with [L] levels. *)
Record Inv ns (L : nat) : Prop := {
  inv_head_key : keyo ns 0 = Some None;
  inv_head_lev : lev ns 0 = L;
  inv_levels : (1 <= L)%nat;
  inv_keys : forall a, (0 < a < List.length ns)%nat ->
             exists k, keyo ns a = Some (Some k);
  inv_ptr : forall a i b, nxt ns a i = Some (Some b) ->
            exists kb, keyo ns b = Some (Some kb) /\ (i < lev ns b)%nat
                       /\ forall ka, keyo ns a = Some (Some ka) -> key_ltb ka kb = true;
  inv_reach : forall b, (0 < b < List.length ns)%nat -> reach ns 0 b
}.

(** [a] holds a key below [key], or is the head. *)
Definition below ns (a : nat) (key : TKey) : Prop :=
  forall k, keyo ns a = Some (Some k) -> key_ltb k key = true.

(** The pointer [q] is nil or leads to a key that is not below [key]. *)
Definition above ns (q : option nat) (key : TKey) : Prop :=
  match q with
  | None => True
  | Some b => exists kb, keyo ns b = Some (Some kb) /\ key_ltb kb key = false
  end.

(** The number of elements whose key is above that of [ko]. *)
Definition is_above (ko : option TKey) (e : @SkiplistElement TKey TValue) : bool :=
  match e_key e, ko with
  | Some k', Some k => key_ltb k k'
  | Some _, None => true
  | None, _ => false
  end.

Definition rank ns (ko : option TKey) : nat := List.length (filter (is_above ko) ns).

Lemma rank_le ns (ko : option TKey) : (rank ns ko <= List.length ns)%nat.
Proof. apply filter_length_le. Qed.

Lemma rank_next ns (L : nat) (a i b : nat) (ka : option TKey) (kb : TKey) :
  Inv ns L -> nxt ns a i = Some (Some b) -> keyo ns a = Some ka ->
  keyo ns b = Some (Some kb) ->
  (rank ns (Some kb) < rank ns ka)%nat.
Proof.
  intros HI Hn Ha Hb. destruct (inv_ptr _ _ HI a i b Hn) as (kb' & Hb' & _ & Hord).
  rewrite Hb in Hb'. injection Hb' as <-.
  destruct (elem_keyo ns b _ Hb) as (eb & _ & Hkb & Hnb).
  unfold rank. apply (filter_length_lt _ _ ns eb).
  - intros x _. unfold is_above. destruct (e_key x) as [kx|]; [|discriminate].
    intros Hx. destruct ka as [ka|]; [|reflexivity].
    eapply key_trans; [|exact Hx]. apply Hord. exact Ha.
  - eapply nth_error_In. exact Hnb.
  - unfold is_above. rewrite Hkb. destruct ka as [ka|]; [|reflexivity].
    apply Hord. exact Ha.
  - unfold is_above. rewrite Hkb. apply key_irrefl.
Qed.

(** One level of the search. *)
Lemma walk_ok ns (L : nat) (key : TKey) (i : nat) :
  Inv ns L ->
  forall (fuel node : nat) (ko : option TKey),
    (i < lev ns node)%nat -> keyo ns node = Some ko ->
    (rank ns ko < fuel)%nat -> below ns node key ->
    exists u q,
      walk key_ltb fuel ns key i node = Ok u
      /\ (i < lev ns u)%nat /\ below ns u key
      /\ nxt ns u i = Some q /\ above ns q key.
Proof.
  intros HI. induction fuel as [|fuel IH]; intros node ko Hlev Hk Hr Hb; [lia|].
  cbn [walk]. destruct (nxt_lev ns node i Hlev) as [q Hq].
  rewrite (next_at_nxt _ _ _ _ Hq). cbn [bind].
  destruct q as [b|].
  - destruct (inv_ptr _ _ HI node i b Hq) as (kb & Hkb & Hlb & Hord).
    destruct (elem_keyo ns b _ Hkb) as (eb & Hel & Hke & _).
    rewrite Hel. cbn [bind]. rewrite Hke.
    destruct (key_ltb kb key) eqn:E.
    + apply (IH b (Some kb)); try assumption.
      * pose proof (rank_next ns L node i b ko kb HI Hq Hk Hkb). lia.
      * intros k Hk'. rewrite Hkb in Hk'. injection Hk' as <-. exact E.
    + exists node, (Some b). repeat split; try assumption.
      exists kb. split; assumption.
  - exists node, None. repeat split; assumption || exact I.
Qed.

(** All the levels of the search, from [n - 1] down to [0]. *)
Lemma descend_ok ns (L : nat) (key : TKey) :
  Inv ns L ->
  forall (n node : nat),
    (n <= lev ns node)%nat -> (exists ko, keyo ns node = Some ko) -> below ns node key ->
    exists final update,
      descend key_ltb ns key n node = Ok (final, update)
      /\ List.length update = n
      /\ (forall i, (i < n)%nat ->
            exists u q, nth_error update i = Some u
                        /\ (i < lev ns u)%nat /\ below ns u key
                        /\ nxt ns u i = Some q /\ above ns q key)
      /\ nth_error (update ++ [node]) 0 = Some final.
Proof.
  intros HI. induction n as [|i IH]; intros node Hlev [ko Hk] Hb.
  - exists node, []. cbn [descend]. repeat split; try reflexivity. intros i Hi. lia.
  - cbn [descend].
    destruct (walk_ok ns L key i HI (S (List.length ns)) node ko) as
      (u & q & -> & Hlu & Hbu & Hq & Ha); try assumption; try lia.
    { pose proof (rank_le ns ko). lia. }
    cbn [bind].
    destruct (IH u) as (final & update & -> & Hlen & Hall & Hfinal);
      [lia|apply (lev_valid ns u i Hlu)|exact Hbu|].
    cbn [bind]. exists final, (update ++ [u]). repeat split.
    + rewrite length_app. cbn [List.length]. lia.
    + intros j Hj. destruct (Nat.eq_dec j i) as [->|Hne].
      * exists u, q. rewrite nth_error_app2, Hlen, Nat.sub_diag by lia.
        repeat split; assumption.
      * destruct (Hall j) as (u' & q' & Hn & H'); [lia|].
        exists u', q'. rewrite nth_error_app1 by lia. split; assumption.
    + destruct update as [|u0 update]; cbn in Hfinal |- *; exact Hfinal.
Qed.

Lemma nth_error_set_nth {A : Type} (l : list A) (i j : nat) (x : A) :
  (i < List.length l)%nat ->
  nth_error (set_nth l i x) j = if (j =? i)%nat then Some x else nth_error l j.
Proof.
  intros Hi. destruct (Nat.eqb_spec j i) as [->|Hne].
  - destruct (nth_error l i) as [y|] eqn:E.
    + eapply nth_error_set_nth_same. exact E.
    + apply nth_error_None in E. lia.
  - apply nth_error_set_nth_other. congruence.
Qed.

(** [ns[p].next[i] = q] changes that pointer and nothing else. *)
Lemma set_next_ok h (p i : nat) (q : option nat) :
  (i < lev h p)%nat ->
  exists h',
    set_next h p i q = Ok h'
    /\ List.length h' = List.length h
    /\ (forall a, keyo h' a = keyo h a)
    /\ (forall a, lev h' a = lev h a)
    /\ (forall a j, nxt h' a j
                    = if ((a =? p) && (j =? i))%nat then Some q else nxt h a j).
Proof.
  intros Hlev. unfold set_next, elem. unfold lev in Hlev.
  destruct (nth_error h p) as [e|] eqn:E; [|lia]. cbn [bind].
  replace (i <? List.length (e_next e))%nat with true
    by (symmetry; apply Nat.ltb_lt; exact Hlev).
  eexists. split; [reflexivity|].
  assert (Hp : (p < List.length h)%nat) by (eapply nth_error_Some_lt; exact E).
  split; [apply set_nth_length|].
  split; [|split].
  - intros a. unfold keyo. rewrite nth_error_set_nth by exact Hp.
    destruct (Nat.eqb_spec a p) as [->|]; [rewrite E|]; reflexivity.
  - intros a. unfold lev. rewrite nth_error_set_nth by exact Hp.
    destruct (Nat.eqb_spec a p) as [->|]; [rewrite E|reflexivity].
    cbn [e_next]. apply set_nth_length.
  - intros a j. unfold nxt. rewrite nth_error_set_nth by exact Hp.
    destruct (Nat.eqb_spec a p) as [->|]; cbn [andb]; [|reflexivity].
    cbn [e_next]. rewrite E, nth_error_set_nth by exact Hlev.
    destruct (j =? i)%nat; reflexivity.
Qed.

(** [randomNumLevels] returns between 1 and [numLayers] levels. *)
Lemma randomLevels_ok (L : nat) :
  forall (fuel levels : nat) (r : Rand),
    (levels <= L)%nat -> (L - levels < fuel)%nat ->
    exists n r', randomLevels fuel L levels r = Ok (n, r')
                 /\ (levels <= n <= L)%nat.
Proof.
  induction fuel as [|fuel IH]; intros levels r Hl Hf; [lia|].
  cbn [randomLevels]. destruct (rand_coin r) as [c r'].
  destruct (c && (levels <? L)%nat) eqn:E.
  - apply andb_true_iff in E. destruct E as [_ E]. apply Nat.ltb_lt in E.
    destruct (IH (S levels) r') as (n & r'' & -> & Hn); [lia|lia|].
    exists n, r''. split; [reflexivity|lia].
  - exists levels, r'. split; [reflexivity|lia].
Qed.

Section Linking.

Variable ns : list (@SkiplistElement TKey TValue).
Variable key : TKey.
Variable value : TValue.
Variable numLevels : nat.
Variable update : list nat.

Let n : nat := List.length ns.
Let ns0 : list (@SkiplistElement TKey TValue) :=
  ns ++ [mkElement (Some key) (Some value) (repeat None numLevels)].

Definition upd (i : nat) : option nat := nth_error update i.

(** The store once the levels below [j] of the new element are linked. *)
Definition linked (j : nat) h : Prop :=
  List.length h = S n
  /\ (forall a, keyo h a = keyo ns0 a)
  /\ (forall a, lev h a = lev ns0 a)
  /\ forall a i,
       nxt h a i
       = if (a =? n)%nat then
           if (i <? j)%nat
           then match upd i with Some u => nxt ns u i | None => None end
           else nxt ns0 n i
         else if ((i <? j)%nat
                  && match upd i with Some u => (u =? a)%nat | None => false end)
              then Some (Some n)
              else nxt ns a i.

Hypothesis update_ok :
  forall i, (i < numLevels)%nat -> exists u, upd i = Some u /\ (i < lev ns u)%nat.

Lemma nxt_ns0_old (a i : nat) : a <> n -> nxt ns0 a i = nxt ns a i.
Proof.
  intros Ha. unfold nxt, ns0. destruct (Nat.lt_ge_cases a n) as [Hlt|Hge].
  - rewrite nth_error_app1 by exact Hlt. reflexivity.
  - replace (nth_error (ns ++ _) a) with (@None (@SkiplistElement TKey TValue)).
    + replace (nth_error ns a) with (@None (@SkiplistElement TKey TValue)); [reflexivity|].
      symmetry. apply nth_error_None. exact Hge.
    + symmetry. apply nth_error_None. rewrite length_app. cbn [List.length].
      fold n. lia.
Qed.

Lemma lev_ns0_old (a : nat) : a <> n -> lev ns0 a = lev ns a.
Proof.
  intros Ha. unfold lev, ns0. destruct (Nat.lt_ge_cases a n) as [Hlt|Hge].
  - rewrite nth_error_app1 by exact Hlt. reflexivity.
  - replace (nth_error (ns ++ _) a) with (@None (@SkiplistElement TKey TValue)).
    + replace (nth_error ns a) with (@None (@SkiplistElement TKey TValue)); [reflexivity|].
      symmetry. apply nth_error_None. exact Hge.
    + symmetry. apply nth_error_None. rewrite length_app. cbn [List.length].
      fold n. lia.
Qed.

Lemma lev_ns0_new : lev ns0 n = numLevels.
Proof.
  unfold lev, ns0. rewrite nth_error_app2, Nat.sub_diag by (fold n; lia).
  cbn. apply repeat_length.
Qed.

Lemma linked_start : linked 0 ns0.
Proof.
  unfold linked. split; [|split; [|split]]; try reflexivity.
  - unfold ns0. rewrite length_app. cbn [List.length]. fold n. lia.
  - intros a i. destruct (Nat.eqb_spec a n) as [->|Hne]; cbn [Nat.ltb Nat.leb andb].
    + reflexivity.
    + apply nxt_ns0_old. exact Hne.
Qed.

Lemma link_ok (count : nat) :
  forall (j : nat) h,
    linked j h -> (j + count <= numLevels)%nat ->
    exists h', link count j h update n = Ok h' /\ linked (j + count) h'.
Proof.
  induction count as [|count IH]; intros j h Hl Hj.
  - exists h. rewrite Nat.add_0_r. split; [reflexivity|exact Hl].
  - cbn [link]. destruct (update_ok j) as (u & Hu & Hlu); [lia|].
    unfold upd in Hu. rewrite Hu. cbn [bind].
    destruct Hl as (Hlen & Hkey & Hlev & Hnxt).
    assert (Hun : u <> n).
    { intros ->. unfold lev in Hlu. fold n in Hlu.
      replace (nth_error ns n) with (@None (@SkiplistElement TKey TValue)) in Hlu; [lia|].
      symmetry. apply nth_error_None. unfold n. lia. }
    destruct (nxt_lev ns u j Hlu) as [p Hp].
    assert (Hhp : nxt h u j = Some p).
    { rewrite Hnxt. destruct (Nat.eqb_spec u n); [contradiction|].
      rewrite Nat.ltb_irrefl. cbn [andb]. exact Hp. }
    rewrite (next_at_nxt _ _ _ _ Hhp). cbn [bind].
    destruct (set_next_ok h n j p) as (h1 & -> & Hlen1 & Hkey1 & Hlev1 & Hnxt1).
    { rewrite Hlev, lev_ns0_new. lia. }
    cbn [bind].
    destruct (set_next_ok h1 u j (Some n)) as (h2 & -> & Hlen2 & Hkey2 & Hlev2 & Hnxt2).
    { rewrite Hlev1, Hlev, lev_ns0_old by exact Hun. exact Hlu. }
    cbn [bind].
    destruct (IH (S j) h2) as (h' & Hlink & Hl'); [|lia|].
    + unfold linked. split; [congruence|]. split; [intros a; rewrite Hkey2, Hkey1; apply Hkey|].
      split; [intros a; rewrite Hlev2, Hlev1; apply Hlev|].
      intros a i. rewrite Hnxt2, Hnxt1, Hnxt. unfold upd.
      destruct (Nat.eqb_spec a u) as [->|Hau];
        destruct (Nat.eqb_spec i j) as [->|Hij]; cbn [andb].
      * destruct (Nat.eqb_spec u n); [contradiction|].
        replace (j <? S j)%nat with true by (symmetry; apply Nat.ltb_lt; lia).
        rewrite Hu, Nat.eqb_refl. reflexivity.
      * destruct (Nat.eqb_spec u n); [contradiction|]. cbn [andb].
        destruct (Nat.ltb_spec i j); destruct (Nat.ltb_spec i (S j)); try lia; reflexivity.
      * destruct (Nat.eqb_spec a n) as [->|Han]; cbn [andb].
        { rewrite ?Nat.ltb_irrefl.
          replace (j <? S j)%nat with true by (symmetry; apply Nat.ltb_lt; lia).
          rewrite Hu, Hp. reflexivity. }
        { rewrite ?Nat.ltb_irrefl.
          replace (j <? S j)%nat with true by (symmetry; apply Nat.ltb_lt; lia).
          rewrite Hu. cbn [andb].
          destruct (Nat.eqb_spec u a); [congruence|]. reflexivity. }
      * destruct (Nat.eqb_spec a n) as [->|Han]; cbn [andb];
          destruct (Nat.ltb_spec i j); destruct (Nat.ltb_spec i (S j)); try lia;
          reflexivity.
    + exists h'. replace (j + S count)%nat with (S j + count)%nat by lia.
      split; assumption.
Qed.

Variable L : nat.
Hypothesis ns_inv : Inv ns L.
Hypothesis numLevels_ok : (1 <= numLevels <= L)%nat.

(** What the search found at every level that gets linked. *)
Hypothesis search_ok :
  forall i, (i < numLevels)%nat ->
    exists u q, upd i = Some u /\ (i < lev ns u)%nat /\ below ns u key
                /\ nxt ns u i = Some q
                /\ match q with
                   | None => True
                   | Some b => exists kb, keyo ns b = Some (Some kb)
                                          /\ key_ltb key kb = true
                   end.

Lemma n_pos : (0 < n)%nat.
Proof. unfold n. eapply keyo_valid. exact (inv_head_key _ _ ns_inv). Qed.

Lemma keyo_ns0_old (a : nat) : a <> n -> keyo ns0 a = keyo ns a.
Proof.
  intros Ha. unfold keyo, ns0. destruct (Nat.lt_ge_cases a n) as [Hlt|Hge].
  - rewrite nth_error_app1 by exact Hlt. reflexivity.
  - replace (nth_error (ns ++ _) a) with (@None (@SkiplistElement TKey TValue)).
    + replace (nth_error ns a) with (@None (@SkiplistElement TKey TValue)); [reflexivity|].
      symmetry. apply nth_error_None. exact Hge.
    + symmetry. apply nth_error_None. rewrite length_app. cbn [List.length].
      fold n. lia.
Qed.

Lemma keyo_ns0_new : keyo ns0 n = Some (Some key).
Proof.
  unfold keyo, ns0. rewrite nth_error_app2, Nat.sub_diag by (fold n; lia). reflexivity.
Qed.

Lemma nxt_ns0_new (i b : nat) : nxt ns0 n i <> Some (Some b).
Proof.
  unfold nxt, ns0. rewrite nth_error_app2, Nat.sub_diag by (fold n; lia).
  cbn [nth_error e_next]. intros H. apply nth_error_In in H.
  apply repeat_spec in H. discriminate.
Qed.

Lemma old_valid (b : nat) (k : option TKey) : keyo ns b = Some k -> b <> n.
Proof. intros H. apply keyo_valid in H. fold n in H. lia. Qed.

Lemma linked_reach h (a b : nat) :
  linked numLevels h -> reach ns a b -> reach h a b.
Proof.
  intros (_ & _ & _ & Hnxt). induction 1 as [a|a a' b Hn _ IH]; [apply reach_refl|].
  assert (Han : a <> n).
  { apply nxt_Some_lev in Hn. destruct (lev_valid ns a 0 Hn) as [k Hk].
    eapply old_valid. exact Hk. }
  destruct (search_ok 0) as (u & q & Hu & _); [lia|].
  destruct (Nat.eq_dec u a) as [->|Hne].
  - eapply reach_step.
    { rewrite Hnxt. destruct (Nat.eqb_spec a n); [contradiction|].
      replace (0 <? numLevels)%nat with true by (symmetry; apply Nat.ltb_lt; lia).
      rewrite Hu, Nat.eqb_refl. reflexivity. }
    eapply reach_step; [|exact IH].
    rewrite Hnxt, Nat.eqb_refl.
    replace (0 <? numLevels)%nat with true by (symmetry; apply Nat.ltb_lt; lia).
    rewrite Hu. exact Hn.
  - eapply reach_step; [|exact IH].
    rewrite Hnxt. destruct (Nat.eqb_spec a n); [contradiction|].
    rewrite Hu. destruct (Nat.eqb_spec u a); [contradiction|].
    rewrite andb_false_r. exact Hn.
Qed.

Lemma linked_Inv h : linked numLevels h -> Inv h L.
Proof.
  intros Hl. pose proof Hl as (Hlen & Hkey & Hlev & Hnxt).
  pose proof n_pos as Hn0.
  constructor.
  - rewrite Hkey, keyo_ns0_old by lia. exact (inv_head_key _ _ ns_inv).
  - rewrite Hlev, lev_ns0_old by lia. exact (inv_head_lev _ _ ns_inv).
  - exact (inv_levels _ _ ns_inv).
  - intros a Ha. rewrite Hkey. destruct (Nat.eq_dec a n) as [->|Hne].
    + exists key. apply keyo_ns0_new.
    + rewrite keyo_ns0_old by exact Hne. apply (inv_keys _ _ ns_inv). fold n. lia.
  - intros a i b Hp. rewrite Hnxt in Hp.
    destruct (Nat.eqb_spec a n) as [->|Han].
    + destruct (Nat.ltb_spec i numLevels) as [Hi|Hi].
      * destruct (search_ok i Hi) as (u & q & Hu & Hlu & Hbu & Hq & Hs).
        rewrite Hu, Hq in Hp. injection Hp as ->.
        destruct Hs as (kb & Hkb & Hlt).
        destruct (inv_ptr _ _ ns_inv u i b Hq) as (kb' & Hkb' & Hlb & _).
        pose proof (old_valid b _ Hkb) as Hbn.
        exists kb. rewrite Hkey, Hlev, keyo_ns0_old, lev_ns0_old by exact Hbn.
        repeat split; try assumption.
        intros ka Hka. rewrite Hkey, keyo_ns0_new in Hka. injection Hka as <-. exact Hlt.
      * exfalso. eapply nxt_ns0_new. exact Hp.
    + destruct (Nat.ltb_spec i numLevels) as [Hi|Hi]; cbn [andb] in Hp.
      * destruct (search_ok i Hi) as (u & q & Hu & Hlu & Hbu & Hq & Hs).
        rewrite Hu in Hp. destruct (Nat.eqb_spec u a) as [Hua|Hua].
        { subst a. injection Hp as <-. exists key.
          rewrite Hkey, Hlev, keyo_ns0_new, lev_ns0_new. repeat split; try assumption.
          intros ka Hka. rewrite Hkey, keyo_ns0_old in Hka by exact Han.
          apply Hbu. exact Hka. }
        { destruct (inv_ptr _ _ ns_inv a i b Hp) as (kb & Hkb & Hlb & Hord).
          pose proof (old_valid b _ Hkb) as Hbn.
          exists kb. rewrite Hkey, Hlev, keyo_ns0_old, lev_ns0_old by exact Hbn.
          repeat split; try assumption.
          intros ka Hka. rewrite Hkey, keyo_ns0_old in Hka by exact Han.
          apply Hord. exact Hka. }
      * destruct (inv_ptr _ _ ns_inv a i b Hp) as (kb & Hkb & Hlb & Hord).
        pose proof (old_valid b _ Hkb) as Hbn.
        exists kb. rewrite Hkey, Hlev, keyo_ns0_old, lev_ns0_old by exact Hbn.
        repeat split; try assumption.
        intros ka Hka. rewrite Hkey, keyo_ns0_old in Hka by exact Han.
        apply Hord. exact Hka.
  - intros b Hb. rewrite Hlen in Hb.
    destruct (Nat.eq_dec b n) as [->|Hne].
    + destruct (search_ok 0) as (u & q & Hu & Hlu & _); [lia|].
      assert (Hun : u <> n).
      { destruct (lev_valid ns u 0 Hlu) as [k Hk]. eapply old_valid. exact Hk. }
      eapply (reach_snoc h 0 u n).
      * destruct (Nat.eq_dec u 0) as [->|Hu0]; [apply reach_refl|].
        apply linked_reach; [exact Hl|]. apply (inv_reach _ _ ns_inv).
        destruct (lev_valid ns u 0 Hlu) as [k Hk]. apply keyo_valid in Hk. lia.
      * rewrite Hnxt. destruct (Nat.eqb_spec u n); [contradiction|].
        replace (0 <? numLevels)%nat with true by (symmetry; apply Nat.ltb_lt; lia).
        rewrite Hu, Nat.eqb_refl. reflexivity.
    + apply linked_reach; [exact Hl|]. apply (inv_reach _ _ ns_inv). fold n. lia.
Qed.

End Linking.

(** Along level 0 the keys grow. *)
Lemma reach_order ns L (a b : nat) :
  Inv ns L -> reach ns a b ->
  a = b \/ exists kb, keyo ns b = Some (Some kb)
                      /\ forall ka, keyo ns a = Some (Some ka) -> key_ltb ka kb = true.
Proof.
  intros HI. induction 1 as [a|a a' b Hn _ IH]; [left; reflexivity|right].
  destruct (inv_ptr _ _ HI a 0 a' Hn) as (ka' & Hka' & _ & Hord).
  destruct IH as [<-|(kb & Hkb & Hb)].
  - exists ka'. split; assumption.
  - exists kb. split; [exact Hkb|]. intros ka Hka.
    eapply key_trans; [apply Hord; exact Hka|apply Hb; exact Hka'].
Qed.

(** When the search stops in front of an element that does not hold [key],
    no element holds it: every key that is not below [key] is above it. *)
Lemma search_strict ns L key (u0 : nat) (q0 : option nat) :
  Inv ns L -> (exists ko, keyo ns u0 = Some ko) -> below ns u0 key ->
  nxt ns u0 0 = Some q0 -> above ns q0 key ->
  is_key key_eqb ns q0 key = Ok false ->
  forall b kb, keyo ns b = Some (Some kb) -> key_ltb kb key = false ->
               key_ltb key kb = true.
Proof.
  intros HI [ko Hko] Hbelow Hq Hab Hnot b kb Hkb Hge.
  assert (Hb0 : (0 < b < List.length ns)%nat).
  { split; [|eapply keyo_valid; exact Hkb].
    destruct b; [|lia]. rewrite (inv_head_key _ _ HI) in Hkb. discriminate. }
  assert (Hu : reach ns 0 u0).
  { destruct u0; [apply reach_refl|]. apply (inv_reach _ _ HI).
    split; [lia|eapply keyo_valid; exact Hko]. }
  pose proof (inv_reach _ _ HI b Hb0) as Hb.
  destruct (reach_linear ns 0 u0 b Hu Hb) as [Hub|Hbu].
  - (* [b] comes after [u0]: at or after [q0] *)
    inversion Hub as [x|x a' y Hn Hr]; subst.
    + rewrite (Hbelow kb Hkb) in Hge. discriminate.
    + rewrite Hq in Hn. injection Hn as ->. cbn [above] in Hab.
      destruct Hab as (kq & Hkq & Hq_ge).
      assert (Hstrict : key_ltb key kq = true).
      { destruct (key_ltb key kq) eqn:E; [reflexivity|].
        pose proof (key_total kq key Hq_ge E) as Heq.
        cbn [is_key] in Hnot.
        destruct (elem_keyo ns a' _ Hkq) as (e & He & Hek & _).
        rewrite He in Hnot. cbn [bind] in Hnot. rewrite Hek in Hnot.
        congruence. }
      destruct (reach_order ns L a' b HI Hr) as [<-|(kb' & Hkb' & Hord)].
      * rewrite Hkq in Hkb. injection Hkb as <-. exact Hstrict.
      * rewrite Hkb in Hkb'. injection Hkb' as <-.
        eapply key_trans; [exact Hstrict|apply Hord; exact Hkq].
  - (* [b] comes at or before [u0]: its key is below [key] *)
    destruct (reach_order ns L b u0 HI Hbu) as [<-|(ku & Hku & Hord)].
    + rewrite (Hbelow kb Hkb) in Hge. discriminate.
    + pose proof (Hbelow ku Hku) as H1. pose proof (Hord kb Hkb) as H2.
      rewrite (key_trans _ _ _ H2 H1) in Hge. discriminate.
Qed.

(** A store that reads the same is as good. *)
Lemma Inv_same ns h L :
  List.length h = List.length ns ->
  (forall a, keyo h a = keyo ns a) -> (forall a, lev h a = lev ns a) ->
  (forall a i, nxt h a i = nxt ns a i) ->
  Inv ns L -> Inv h L.
Proof.
  intros Hlen Hkey Hlev Hnxt HI. constructor.
  - rewrite Hkey. exact (inv_head_key _ _ HI).
  - rewrite Hlev. exact (inv_head_lev _ _ HI).
  - exact (inv_levels _ _ HI).
  - intros a Ha. rewrite Hkey. apply (inv_keys _ _ HI). lia.
  - intros a i b Hp. rewrite Hnxt in Hp.
    destruct (inv_ptr _ _ HI a i b Hp) as (kb & Hkb & Hlb & Hord).
    exists kb. rewrite !Hkey, Hlev. repeat split; assumption.
  - intros b Hb. rewrite Hlen in Hb. pose proof (inv_reach _ _ HI b Hb) as Hr.
    clear Hb. induction Hr as [a|a a' b Hn _ IH]; [apply reach_refl|].
    eapply reach_step; [rewrite Hnxt; exact Hn|exact IH].
Qed.

Lemma NewSkipList_Inv (L : nat) :
  (1 <= L)%nat -> Inv (nodes (@NewSkipList TKey TValue L)) L.
Proof.
  intros HL. constructor; cbn [nodes NewSkipList].
  - reflexivity.
  - unfold lev. cbn. apply repeat_length.
  - exact HL.
  - cbn. intros a Ha. lia.
  - intros a i b Hp. exfalso. unfold nxt in Hp.
    destruct a as [|a]; cbn in Hp; [|destruct a; discriminate].
    apply nth_error_In, repeat_spec in Hp. discriminate.
  - cbn. intros b Hb. lia.
Qed.

Lemma is_key_ok ns key (q : option nat) :
  above ns q key -> exists found, is_key key_eqb ns q key = Ok found.
Proof.
  destruct q as [f|]; cbn [above is_key]; [|eexists; reflexivity].
  intros (kf & Hkf & _). destruct (elem_keyo ns f _ Hkf) as (e & He & Hek & _).
  rewrite He. cbn [bind]. rewrite Hek. eexists. reflexivity.
Qed.

(** [Insert] returns on every well-formed list, and leaves it well formed. *)
Lemma Insert_ok (l : SkipList) (key : TKey) (value : TValue) (r : Rand) :
  Inv (nodes l) (numLayers l) ->
  exists l' old r',
    SkipList_Insert key_ltb key_eqb l key value r = Ok (l', old, r')
    /\ Inv (nodes l') (numLayers l') /\ numLayers l' = numLayers l.
Proof.
  intros HI. set (ns := nodes l) in *. set (L := numLayers l) in *.
  pose proof (inv_levels _ _ HI) as HL.
  destruct (descend_ok ns L key HI L 0) as (final & update & Hd & Hlen & Hall & Hfin).
  { rewrite (inv_head_lev _ _ HI). lia. }
  { eexists. exact (inv_head_key _ _ HI). }
  { intros k Hk. rewrite (inv_head_key _ _ HI) in Hk. discriminate. }
  destruct (Hall 0%nat) as (u0 & q0 & Hu0 & Hl0 & Hb0 & Hq0 & Ha0); [lia|].
  rewrite nth_error_app1, Hu0 in Hfin by lia. injection Hfin as ->.
  destruct (is_key_ok ns key q0 Ha0) as [found Hfound].
  destruct (lev_valid ns final 0 Hl0) as [kf Hkf].
  unfold SkipList_Insert, head. fold ns L. rewrite Hd. cbn [bind].
  rewrite (next_at_nxt _ _ _ _ Hq0). cbn [bind]. rewrite Hfound. cbn [bind].
  destruct found.
  - destruct (elem_keyo ns final _ Hkf) as (e & He & Hek & Hnth).
    rewrite He. cbn [bind]. do 3 eexists. split; [reflexivity|].
    cbn [nodes numLayers]. split; [|reflexivity].
    pose proof (keyo_valid _ _ _ Hkf) as Hv.
    eapply Inv_same; [apply set_nth_length| | | |exact HI].
    + intros a. unfold keyo. rewrite nth_error_set_nth by exact Hv.
      destruct (Nat.eqb_spec a final) as [->|_]; [rewrite Hnth|]; reflexivity.
    + intros a. unfold lev. rewrite nth_error_set_nth by exact Hv.
      destruct (Nat.eqb_spec a final) as [->|_]; [rewrite Hnth|]; reflexivity.
    + intros a i. unfold nxt. rewrite nth_error_set_nth by exact Hv.
      destruct (Nat.eqb_spec a final) as [->|_]; [rewrite Hnth|]; reflexivity.
  - unfold randomNumLevels. fold L.
    destruct (randomLevels_ok L (S L) 1 r) as (n & r' & Hr & Hn); [lia|lia|].
    rewrite Hr. cbn [bind].
    assert (Hupd : forall i, (i < n)%nat ->
                     exists u, upd update i = Some u /\ (i < lev ns u)%nat).
    { intros i Hi. destruct (Hall i) as (u & q & Hu & Hlu & _); [lia|].
      exists u. split; assumption. }
    destruct (link_ok ns key value n update Hupd n 0 _
                (linked_start ns key value n update)) as (h' & Hlink & Hlinked);
      [lia|].
    rewrite Hlink. cbn [bind]. do 3 eexists. split; [reflexivity|].
    cbn [nodes numLayers]. split; [|reflexivity].
    eapply (linked_Inv ns key value n update L HI Hn); [|exact Hlinked].
    intros i Hi. destruct (Hall i) as (u & q & Hu & Hlu & Hbu & Hq & Ha); [lia|].
    exists u, q. repeat split; try assumption.
    destruct q as [b|]; [|exact I]. destruct Ha as (kb & Hkb & Hge).
    exists kb. split; [exact Hkb|].
    eapply (search_strict ns L key final q0 HI); eauto.
Qed.

(** ** What a well-formed list answers *)

Hypothesis key_eqb_eq : forall a b, key_eqb a b = true <-> a = b.

(** [valo ns a] is the value field of [ns[a]]. *)
Definition valo ns (a : nat) : option (option TValue) :=
  option_map e_value (nth_error ns a).

Lemma keyed_pos ns (L a : nat) (k : TKey) :
  Inv ns L -> keyo ns a = Some (Some k) -> (0 < a < List.length ns)%nat.
Proof.
  intros HI Ha. split; [|eapply keyo_valid; exact Ha].
  destruct a; [|lia]. rewrite (inv_head_key _ _ HI) in Ha. discriminate.
Qed.

(** No two elements hold the same key. *)
Lemma key_unique ns (L a b : nat) (k : TKey) :
  Inv ns L -> keyo ns a = Some (Some k) -> keyo ns b = Some (Some k) -> a = b.
Proof.
  intros HI Ha Hb.
  pose proof (inv_reach _ _ HI a (keyed_pos ns L a k HI Ha)) as Ra.
  pose proof (inv_reach _ _ HI b (keyed_pos ns L b k HI Hb)) as Rb.
  destruct (reach_linear ns 0 a b Ra Rb) as [R|R].
  - destruct (reach_order ns L a b HI R) as [E|(kb & Hkb & Hord)]; [exact E|].
    rewrite Hb in Hkb. injection Hkb as <-.
    pose proof (Hord k Ha) as Hc. rewrite key_irrefl in Hc. discriminate.
  - destruct (reach_order ns L b a HI R) as [E|(ka & Hka & Hord)]; [symmetry; exact E|].
    rewrite Ha in Hka. injection Hka as <-.
    pose proof (Hord k Hb) as Hc. rewrite key_irrefl in Hc. discriminate.
Qed.

(** The search that [Get] and [Insert] share, and what its answer means. *)
Lemma search_found ns (L : nat) (key : TKey) :
  Inv ns L ->
  exists final update q0 found,
    descend key_ltb ns key L 0 = Ok (final, update)
    /\ List.length update = L
    /\ (forall i, (i < L)%nat ->
          exists u q, nth_error update i = Some u
                      /\ (i < lev ns u)%nat /\ below ns u key
                      /\ nxt ns u i = Some q /\ above ns q key)
    /\ nth_error update 0 = Some final
    /\ nxt ns final 0 = Some q0
    /\ is_key key_eqb ns q0 key = Ok found
    /\ (found = true -> exists a, q0 = Some a /\ keyo ns a = Some (Some key))
    /\ (found = false ->
        forall b kb, keyo ns b = Some (Some kb) -> key_ltb kb key = false ->
                     key_ltb key kb = true).
Proof.
  intros HI. pose proof (inv_levels _ _ HI) as HL.
  destruct (descend_ok ns L key HI L 0) as (final & update & Hd & Hlen & Hall & Hfin).
  { rewrite (inv_head_lev _ _ HI). lia. }
  { eexists. exact (inv_head_key _ _ HI). }
  { intros k Hk. rewrite (inv_head_key _ _ HI) in Hk. discriminate. }
  destruct (Hall 0%nat) as (u0 & q0 & Hu0 & Hl0 & Hb0 & Hq0 & Ha0); [lia|].
  rewrite nth_error_app1, Hu0 in Hfin by lia. injection Hfin as ->.
  destruct (is_key_ok ns key q0 Ha0) as [found Hfound].
  exists final, update, q0, found. repeat split; try assumption.
  - intros ->. destruct q0 as [f|]; [|discriminate].
    cbn [above] in Ha0. destruct Ha0 as (kf & Hkf & _).
    cbn [is_key] in Hfound.
    destruct (elem_keyo ns f _ Hkf) as (e & He & Hek & _).
    rewrite He in Hfound. cbn [bind] in Hfound. rewrite Hek in Hfound.
    injection Hfound as Hfound. apply key_eqb_eq in Hfound. subst kf.
    exists f. split; [reflexivity|exact Hkf].
  - intros ->. apply (search_strict ns L key final q0 HI); try assumption.
    apply (lev_valid ns final 0 Hl0).
Qed.

(** [Get] of a key that an element holds returns that element's value. *)
Lemma Get_present (l : SkipList) (key : TKey) (a : nat) :
  Inv (nodes l) (numLayers l) -> keyo (nodes l) a = Some (Some key) ->
  exists v, valo (nodes l) a = Some v
            /\ SkipList_Get key_ltb key_eqb l key = Ok (v, true).
Proof.
  intros HI Ha.
  destruct (search_found _ _ key HI)
    as (final & update & q0 & found & Hd & _ & _ & _ & Hq0 & Hfound & Ht & Hf).
  unfold SkipList_Get, head. rewrite Hd. cbn [bind].
  rewrite (next_at_nxt _ _ _ _ Hq0). cbn [bind]. rewrite Hfound. cbn [bind].
  destruct found.
  - destruct (Ht eq_refl) as (a' & -> & Ha').
    rewrite (key_unique _ _ a' a key HI Ha' Ha).
    destruct (elem_keyo _ a _ Ha) as (e & He & _ & Hnth).
    rewrite He. cbn [bind]. exists (e_value e). split; [|reflexivity].
    unfold valo. rewrite Hnth. reflexivity.
  - specialize (Hf eq_refl a key Ha (key_irrefl key)).
    rewrite key_irrefl in Hf. discriminate.
Qed.

(** [Get] of a key that no element holds returns [(nil, false)]. *)
Lemma Get_absent (l : SkipList) (key : TKey) :
  Inv (nodes l) (numLayers l) ->
  (forall a, keyo (nodes l) a <> Some (Some key)) ->
  SkipList_Get key_ltb key_eqb l key = Ok (None, false).
Proof.
  intros HI Hno.
  destruct (search_found _ _ key HI)
    as (final & update & q0 & found & Hd & _ & _ & _ & Hq0 & Hfound & Ht & _).
  unfold SkipList_Get, head. rewrite Hd. cbn [bind].
  rewrite (next_at_nxt _ _ _ _ Hq0). cbn [bind]. rewrite Hfound. cbn [bind].
  destruct found; [|reflexivity].
  destruct (Ht eq_refl) as (a & _ & Ha). exfalso. exact (Hno a Ha).
Qed.

(** What [Get] says decides whether an element holds the key. *)
Lemma Get_not_found (l : SkipList) (key : TKey) (v : option TValue) :
  Inv (nodes l) (numLayers l) ->
  SkipList_Get key_ltb key_eqb l key = Ok (v, false) ->
  forall a, keyo (nodes l) a <> Some (Some key).
Proof.
  intros HI HG a Ha. destruct (Get_present l key a HI Ha) as (v' & _ & E).
  rewrite E in HG. discriminate.
Qed.

Lemma Get_found (l : SkipList) (key : TKey) (v : option TValue) :
  Inv (nodes l) (numLayers l) ->
  SkipList_Get key_ltb key_eqb l key = Ok (v, true) ->
  exists a, keyo (nodes l) a = Some (Some key) /\ valo (nodes l) a = Some v.
Proof.
  intros HI HG.
  destruct (search_found _ _ key HI)
    as (final & update & q0 & found & Hd & _ & _ & _ & Hq0 & Hfound & Ht & _).
  unfold SkipList_Get, head in HG. rewrite Hd in HG. cbn [bind] in HG.
  rewrite (next_at_nxt _ _ _ _ Hq0) in HG. cbn [bind] in HG.
  rewrite Hfound in HG. cbn [bind] in HG.
  destruct found; [|discriminate].
  destruct (Ht eq_refl) as (a & -> & Ha). exists a. split; [exact Ha|].
  destruct (elem_keyo _ a _ Ha) as (e & He & _ & Hnth).
  rewrite He in HG. cbn [bind] in HG. injection HG as <-.
  unfold valo. rewrite Hnth. reflexivity.
Qed.

Lemma nth_error_snoc {A : Type} (l : list A) (x : A) (a : nat) :
  nth_error (l ++ [x]) a = if (a =? List.length l)%nat then Some x else nth_error l a.
Proof.
  destruct (Nat.eqb_spec a (List.length l)) as [->|Hne].
  - rewrite nth_error_app2, Nat.sub_diag by lia. reflexivity.
  - destruct (Nat.lt_ge_cases a (List.length l)) as [Hlt|Hge].
    + apply nth_error_app1. exact Hlt.
    + transitivity (@None A); [|symmetry]; apply nth_error_None;
        [rewrite length_app; cbn [List.length]; lia|exact Hge].
Qed.

Lemma set_next_valo h h' (p i : nat) (q : option nat) :
  set_next h p i q = Ok h' -> forall a, valo h' a = valo h a.
Proof.
  unfold set_next, elem. destruct (nth_error h p) as [e|] eqn:E; [|discriminate].
  cbn [bind]. destruct (i <? List.length (e_next e))%nat; [|discriminate].
  intros H a. injection H as <-. unfold valo.
  rewrite nth_error_set_nth by (eapply nth_error_Some_lt; exact E).
  destruct (Nat.eqb_spec a p) as [->|_]; [rewrite E|]; reflexivity.
Qed.

(** Linking the new element changes no value. *)
Lemma link_valo (update : list nat) (n : nat) :
  forall (count j : nat) h h',
    link count j h update n = Ok h' -> forall a, valo h' a = valo h a.
Proof.
  induction count as [|count IH]; intros j h h' H a; cbn [link] in H.
  - injection H as <-. reflexivity.
  - destruct (nth_error update j) as [u|]; [|discriminate]. cbn [bind] in H.
    destruct (next_at h u j) as [p| | |]; try discriminate. cbn [bind] in H.
    destruct (set_next h n j p) as [h1| | |] eqn:E1; try discriminate.
    cbn [bind] in H.
    destruct (set_next h1 u j (Some n)) as [h2| | |] eqn:E2; try discriminate.
    cbn [bind] in H.
    rewrite (IH _ _ _ H a), (set_next_valo _ _ _ _ _ E2 a).
    apply (set_next_valo _ _ _ _ _ E1 a).
Qed.

(** [Insert] of a key that no element holds appends an element for it and
    changes no other key or value. *)
Lemma Insert_new (l : SkipList) (key : TKey) (value : TValue) (r : Rand) :
  Inv (nodes l) (numLayers l) ->
  (forall a, keyo (nodes l) a <> Some (Some key)) ->
  exists l' r',
    SkipList_Insert key_ltb key_eqb l key value r = Ok (l', None, r')
    /\ Inv (nodes l') (numLayers l')
    /\ numLayers l' = numLayers l
    /\ numEntries l' = int64 (numEntries l + 1)
    /\ List.length (nodes l') = S (List.length (nodes l))
    /\ (forall a, keyo (nodes l') a
                  = if (a =? List.length (nodes l))%nat then Some (Some key)
                    else keyo (nodes l) a)
    /\ (forall a, valo (nodes l') a
                  = if (a =? List.length (nodes l))%nat then Some (Some value)
                    else valo (nodes l) a).
Proof.
  intros HI Hno. set (ns := nodes l) in *. set (L := numLayers l) in *.
  pose proof (inv_levels _ _ HI) as HL.
  destruct (search_found ns L key HI)
    as (final & update & q0 & found & Hd & Hlen & Hall & Hfin & Hq0 & Hfound & Ht & Hf).
  destruct found.
  { destruct (Ht eq_refl) as (a & _ & Ha). exfalso. exact (Hno a Ha). }
  specialize (Hf eq_refl).
  unfold SkipList_Insert, head. fold ns L. rewrite Hd. cbn [bind].
  rewrite (next_at_nxt _ _ _ _ Hq0). cbn [bind]. rewrite Hfound. cbn [bind].
  unfold randomNumLevels. fold L.
  destruct (randomLevels_ok L (S L) 1 r) as (n & r' & Hr & Hn); [lia|lia|].
  rewrite Hr. cbn [bind].
  assert (Hupd : forall i, (i < n)%nat ->
                   exists u, upd update i = Some u /\ (i < lev ns u)%nat).
  { intros i Hi. destruct (Hall i) as (u & q & Hu & Hlu & _); [lia|].
    exists u. split; assumption. }
  destruct (link_ok ns key value n update Hupd n 0 _
              (linked_start ns key value n update)) as (h' & Hlink & Hlinked);
    [lia|].
  rewrite Hlink. cbn [bind]. do 2 eexists. split; [reflexivity|].
  cbn [nodes numLayers numEntries].
  assert (HI' : Inv h' L).
  { eapply (linked_Inv ns key value n update L HI Hn); [|exact Hlinked].
    intros i Hi. destruct (Hall i) as (u & q & Hu & Hlu & Hbu & Hq & Ha); [lia|].
    exists u, q. repeat split; try assumption.
    destruct q as [b|]; [|exact I]. destruct Ha as (kb & Hkb & Hge).
    exists kb. split; [exact Hkb|]. apply (Hf b kb Hkb Hge). }
  destruct Hlinked as (Hlen' & Hkey' & _ & _).
  split; [exact HI'|]. split; [reflexivity|]. split; [reflexivity|].
  split; [exact Hlen'|]. split.
  - intros a. rewrite Hkey'. unfold keyo. rewrite nth_error_snoc.
    destruct (a =? List.length ns)%nat; reflexivity.
  - intros a. rewrite (link_valo _ _ _ _ _ _ Hlink a). unfold valo.
    rewrite nth_error_snoc. destruct (a =? List.length ns)%nat; reflexivity.
Qed.

(** [Insert] of a key that an element holds writes the value into the
    element before it, and returns what that element held. *)
Lemma Insert_present (l : SkipList) (key : TKey) (value : TValue) (r : Rand) (a : nat) :
  Inv (nodes l) (numLayers l) -> keyo (nodes l) a = Some (Some key) ->
  exists p old l',
    SkipList_Insert key_ltb key_eqb l key value r = Ok (l', old, r)
    /\ nxt (nodes l) p 0 = Some (Some a)
    /\ valo (nodes l) p = Some old
    /\ Inv (nodes l') (numLayers l')
    /\ numLayers l' = numLayers l
    /\ numEntries l' = numEntries l
    /\ List.length (nodes l') = List.length (nodes l)
    /\ (forall b, keyo (nodes l') b = keyo (nodes l) b)
    /\ (forall b, valo (nodes l') b
                  = if (b =? p)%nat then Some (Some value) else valo (nodes l) b).
Proof.
  intros HI Ha. set (ns := nodes l) in *. set (L := numLayers l) in *.
  destruct (search_found ns L key HI)
    as (final & update & q0 & found & Hd & Hlen & Hall & Hfin & Hq0 & Hfound & Ht & Hf).
  destruct found.
  2:{ specialize (Hf eq_refl a key Ha (key_irrefl key)).
      rewrite key_irrefl in Hf. discriminate. }
  destruct (Ht eq_refl) as (a' & -> & Ha').
  rewrite (key_unique _ _ a' a key HI Ha' Ha) in *.
  destruct (lev_valid ns final 0 (nxt_Some_lev _ _ _ _ Hq0)) as [kf Hkf].
  destruct (elem_keyo ns final _ Hkf) as (e & He & Hek & Hnth).
  pose proof (keyo_valid _ _ _ Hkf) as Hv.
  unfold SkipList_Insert, head. fold ns L. rewrite Hd. cbn [bind].
  rewrite (next_at_nxt _ _ _ _ Hq0). cbn [bind]. rewrite Hfound. cbn [bind].
  rewrite He. cbn [bind].
  assert (Hk : forall b, keyo (set_nth ns final
                                 (mkElement (e_key e) (Some value) (e_next e))) b
                         = keyo ns b).
  { intros b. unfold keyo. rewrite nth_error_set_nth by exact Hv.
    destruct (Nat.eqb_spec b final) as [->|_]; [rewrite Hnth|]; reflexivity. }
  exists final, (e_value e). eexists. split; [reflexivity|].
  cbn [nodes numLayers numEntries].
  split; [exact Hq0|].
  split; [unfold valo; rewrite Hnth; reflexivity|].
  split.
  { eapply Inv_same; [apply set_nth_length|exact Hk| | |exact HI].
    - intros b. unfold lev. rewrite nth_error_set_nth by exact Hv.
      destruct (Nat.eqb_spec b final) as [->|_]; [rewrite Hnth|]; reflexivity.
    - intros b i. unfold nxt. rewrite nth_error_set_nth by exact Hv.
      destruct (Nat.eqb_spec b final) as [->|_]; [rewrite Hnth|]; reflexivity. }
  split; [reflexivity|]. split; [reflexivity|].
  split; [apply set_nth_length|]. split; [exact Hk|].
  intros b. unfold valo. rewrite nth_error_set_nth by exact Hv.
  destruct (b =? final)%nat; reflexivity.
Qed.

Lemma Get_returns (l : SkipList) (key : TKey) :
  Inv (nodes l) (numLayers l) ->
  exists v found, SkipList_Get key_ltb key_eqb l key = Ok (v, found).
Proof.
  intros HI.
  destruct (search_found _ _ key HI)
    as (final & update & q0 & found & Hd & _ & _ & _ & Hq0 & Hfound & Ht & _).
  unfold SkipList_Get, head. rewrite Hd. cbn [bind].
  rewrite (next_at_nxt _ _ _ _ Hq0). cbn [bind]. rewrite Hfound. cbn [bind].
  destruct found; [|eauto].
  destruct (Ht eq_refl) as (a & -> & Ha).
  destruct (elem_keyo _ a _ Ha) as (e & He & _ & _).
  rewrite He. cbn [bind]. eauto.
Qed.

(** The lists a program can hold: [NewSkipList] followed by [Insert]s. *)
Inductive built : @SkipList TKey TValue -> Prop :=
| built_new (numLayers : nat) : (1 <= numLayers)%nat -> built (NewSkipList numLayers)
| built_Insert (l : SkipList) (key : TKey) (value : TValue) (r : Rand)
    (l' : SkipList) (old : option TValue) (r' : Rand) :
    built l ->
    SkipList_Insert key_ltb key_eqb l key value r = Ok (l', old, r') ->
    built l'.

(** Every element but the head holds a value. *)
Definition valued ns : Prop :=
  forall a, (0 < a < List.length ns)%nat -> exists v, valo ns a = Some (Some v).

(** [Len] counts the elements but the head. *)
Definition counted (l : @SkipList TKey TValue) : Prop :=
  numEntries l = int64 (len (nodes l) - 1).

Lemma int64_succ (z : Z) : int64 (int64 z + 1) = int64 (z + 1).
Proof.
  unfold int64.
  replace (((z + 2 ^ 63) mod 2 ^ 64 - 2 ^ 63 + 1 + 2 ^ 63) mod 2 ^ 64)
    with (((z + 2 ^ 63) mod 2 ^ 64 + 1) mod 2 ^ 64) by (f_equal; lia).
  replace (z + 1 + 2 ^ 63) with ((z + 2 ^ 63) + 1) by lia.
  rewrite Zplus_mod_idemp_l. reflexivity.
Qed.

Lemma built_facts (l : SkipList) :
  built l -> Inv (nodes l) (numLayers l) /\ valued (nodes l) /\ counted l.
Proof.
  induction 1 as [L HL|l key value r l' old r' _ (HI & Hv & Hc) E].
  - split; [apply NewSkipList_Inv; exact HL|]. split.
    + intros a Ha. cbn in Ha. lia.
    + reflexivity.
  - destruct (Get_returns l key HI) as (v & [|] & HG).
    + destruct (Get_found l key v HI HG) as (a & Ha & _).
      destruct (Insert_present l key value r a HI Ha)
        as (p & old' & l1 & E1 & _ & _ & HI1 & _ & Hn1 & Hlen1 & _ & Hval1).
      rewrite E1 in E. injection E as <- _ _.
      split; [exact HI1|]. split.
      * intros b Hb. rewrite Hlen1 in Hb. rewrite Hval1.
        destruct (b =? p)%nat; [eauto|]. apply Hv. exact Hb.
      * unfold counted, len in *. rewrite Hn1, Hlen1. exact Hc.
    + pose proof (Get_not_found l key v HI HG) as Hno.
      destruct (Insert_new l key value r HI Hno)
        as (l1 & r1 & E1 & HI1 & _ & Hn1 & Hlen1 & _ & Hval1).
      rewrite E1 in E. injection E as <- _ _.
      split; [exact HI1|]. split.
      * intros b Hb. rewrite Hlen1 in Hb. rewrite Hval1.
        destruct (Nat.eqb_spec b (List.length (nodes l))); [eauto|].
        apply Hv. lia.
      * unfold counted, len in *. rewrite Hn1, Hlen1, Hc, int64_succ.
        f_equal. lia.
Qed.

(** ** The walk along level 0 *)

(** [path ns q addrs]: following [Next] from [q] to nil visits [addrs]. *)
Inductive path ns : option nat -> list nat -> Prop :=
| path_nil : path ns None []
| path_cons (a : nat) (q : option nat) (rest : list nat) :
    nxt ns a 0 = Some q -> path ns q rest -> path ns (Some a) (a :: rest).

Definition kv ns (a : nat) : option TKey * option TValue :=
  match nth_error ns a with
  | Some e => (e_key e, e_value e)
  | None => (None, None)
  end.

Lemma path_exists ns (L : nat) :
  Inv ns L ->
  forall (n u : nat) (ko : option TKey) (q : option nat),
    keyo ns u = Some ko -> (rank ns ko < n)%nat -> nxt ns u 0 = Some q ->
    exists addrs, path ns q addrs /\ (List.length addrs <= rank ns ko)%nat.
Proof.
  intros HI. induction n as [|n IH]; intros u ko q Hk Hr Hq; [lia|].
  destruct q as [b|].
  - destruct (inv_ptr _ _ HI u 0 b Hq) as (kb & Hkb & Hlb & _).
    destruct (nxt_lev ns b 0 Hlb) as [q' Hq'].
    pose proof (rank_next ns L u 0 b ko kb HI Hq Hk Hkb) as Hlt.
    destruct (IH b (Some kb) q' Hkb ltac:(lia) Hq') as (addrs & Hp & Hlen).
    exists (b :: addrs). split; [econstructor; eassumption|cbn [List.length]; lia].
  - exists []. split; [constructor|cbn [List.length]; lia].
Qed.

Lemma iterate_path ns :
  forall (addrs : list nat) (q : option nat) (fuel : nat),
    path ns q addrs -> (List.length addrs <= fuel)%nat ->
    iterate fuel ns q = Ok (map (kv ns) addrs).
Proof.
  induction addrs as [|a addrs IH]; intros q fuel Hp Hf; inversion Hp; subst.
  - destruct fuel; reflexivity.
  - destruct fuel as [|fuel]; [cbn [List.length] in Hf; lia|].
    cbn [iterate]. unfold SkiplistElement_Value, SkiplistElement_Next.
    match goal with H : nxt ns a 0 = Some _ |- _ => rename H into Hn end.
    rewrite (next_at_nxt _ _ _ _ Hn).
    destruct (lev_valid ns a 0 (nxt_Some_lev _ _ _ _ Hn)) as [k Hk].
    destruct (elem_keyo ns a _ Hk) as (e & He & _ & Hnth).
    rewrite He. cbn [bind].
    rewrite (IH _ fuel) by (try eassumption; cbn [List.length] in Hf; lia).
    cbn [bind map]. unfold kv at 2. rewrite Hnth. reflexivity.
Qed.

(** The keys along a path grow. *)
Lemma path_sorted ns (L : nat) :
  Inv ns L ->
  forall (addrs : list nat) (q : option nat) (u : nat),
    nxt ns u 0 = Some q -> path ns q addrs ->
    exists ks, map (keyo ns) addrs = map (fun k => Some (Some k)) ks
               /\ StronglySorted (fun a b => key_ltb a b = true) ks
               /\ forall ku k, keyo ns u = Some (Some ku) ->
                               In k ks -> key_ltb ku k = true.
Proof.
  intros HI. induction addrs as [|a addrs IH]; intros q u Hu Hp; inversion Hp; subst.
  - exists []. split; [reflexivity|]. split; [constructor|]. intros ku k _ [].
  - match goal with H : nxt ns a 0 = Some _ |- _ => rename H into Hn end.
    match goal with H : path ns _ addrs |- _ => rename H into Hr end.
    destruct (inv_ptr _ _ HI u 0 a Hu) as (ka & Hka & _ & Hord).
    destruct (IH _ a Hn Hr) as (ks & Hks & Hs & Hlow).
    exists (ka :: ks). split; [cbn [map]; rewrite Hka, Hks; reflexivity|]. split.
    + constructor; [exact Hs|]. apply Forall_forall. intros k Hk.
      apply (Hlow ka k Hka Hk).
    + intros ku k Hku [<-|Hk]; [apply Hord; exact Hku|].
      eapply key_trans; [apply Hord; exact Hku|]. apply (Hlow ka k Hka Hk).
Qed.

Lemma sorted_NoDup (ks : list TKey) :
  StronglySorted (fun a b => key_ltb a b = true) ks -> NoDup ks.
Proof.
  induction 1 as [|k ks _ IH Hk]; constructor; [|exact IH].
  intros Hin. rewrite Forall_forall in Hk. specialize (Hk k Hin).
  rewrite key_irrefl in Hk. discriminate.
Qed.

Lemma path_In_pos ns (L : nat) :
  Inv ns L ->
  forall (addrs : list nat) (q : option nat) (u a : nat),
    nxt ns u 0 = Some q -> path ns q addrs -> In a addrs ->
    (0 < a < List.length ns)%nat.
Proof.
  intros HI. induction addrs as [|b addrs IH]; intros q u a Hu Hp Hin;
    [contradiction|].
  inversion Hp; subst. destruct Hin as [<-|Hin].
  - destruct (inv_ptr _ _ HI u 0 b Hu) as (kb & Hkb & _).
    apply (keyed_pos ns L b kb HI Hkb).
  - eapply (IH _ b a); eassumption.
Qed.

Lemma path_covers ns (u b : nat) :
  reach ns u b ->
  forall (q : option nat) (addrs : list nat),
    nxt ns u 0 = Some q -> path ns q addrs -> b = u \/ In b addrs.
Proof.
  induction 1 as [u|u a' b Hn _ IH]; intros q addrs Hq Hp; [left; reflexivity|].
  rewrite Hn in Hq. injection Hq as <-. inversion Hp; subst.
  right. destruct (IH _ _ ltac:(eassumption) ltac:(eassumption)) as [->|Hin];
    [left; reflexivity|right; exact Hin].
Qed.

Lemma map_keyo_fst ns :
  forall (addrs : list nat) (ks : list TKey),
    map (keyo ns) addrs = map (fun k => Some (Some k)) ks ->
    map fst (map (kv ns) addrs) = map Some ks.
Proof.
  induction addrs as [|a addrs IH]; intros [|k ks] H; try discriminate;
    [reflexivity|].
  cbn [map] in *. injection H as Ha H. rewrite (IH _ H). f_equal.
  unfold keyo in Ha. unfold kv. destruct (nth_error ns a) as [e|]; [|discriminate].
  cbn in Ha. injection Ha as ->. reflexivity.
Qed.

(** The walk from the head: every element once, by ascending key. *)
Lemma level0 ns (L : nat) :
  Inv ns L ->
  exists (first : option nat) (addrs : list nat) (ks : list TKey),
    nxt ns 0 0 = Some first
    /\ path ns first addrs
    /\ S (List.length addrs) = List.length ns
    /\ map (keyo ns) addrs = map (fun k => Some (Some k)) ks
    /\ StronglySorted (fun a b => key_ltb a b = true) ks
    /\ forall a, In a addrs <-> (0 < a < List.length ns)%nat.
Proof.
  intros HI.
  destruct (nxt_lev ns 0 0) as [first Hfirst].
  { rewrite (inv_head_lev _ _ HI). exact (inv_levels _ _ HI). }
  destruct (path_exists ns L HI (S (rank ns None)) 0 None first
              (inv_head_key _ _ HI) ltac:(lia) Hfirst) as (addrs & Hp & _).
  destruct (path_sorted ns L HI addrs first 0 Hfirst Hp) as (ks & Hks & Hs & _).
  assert (Hin : forall a, In a addrs <-> (0 < a < List.length ns)%nat).
  { intros a. split.
    - apply (path_In_pos ns L HI addrs first 0 a Hfirst Hp).
    - intros Ha. destruct (path_covers ns 0 a (inv_reach _ _ HI a Ha) _ _ Hfirst Hp);
        [lia|assumption]. }
  exists first, addrs, ks. repeat split; try assumption; try (apply Hin; assumption).
  assert (Hnd : NoDup addrs).
  { apply (NoDup_map_inv (keyo ns)). rewrite Hks.
    pose proof (sorted_NoDup ks Hs) as Hk. clear - Hk.
    induction Hk as [|k ks Hn _ IH]; cbn [map]; constructor; [|exact IH].
    intros Hin. apply in_map_iff in Hin. destruct Hin as (k' & E & Hin).
    injection E as ->. contradiction. }
  assert (H1 : (List.length addrs <= List.length (seq 1 (List.length ns - 1)))%nat).
  { apply NoDup_incl_length; [exact Hnd|]. intros a Ha. apply in_seq.
    apply Hin in Ha. lia. }
  assert (H2 : (List.length (seq 1 (List.length ns - 1)) <= List.length addrs)%nat).
  { apply NoDup_incl_length; [apply seq_NoDup|]. intros a Ha. apply in_seq in Ha.
    apply Hin. lia. }
  rewrite length_seq in H1, H2.
  pose proof (keyo_valid _ _ _ (inv_head_key _ _ HI)). lia.
Qed.

(** ** The list as its users see it *)

(** On every list made by [NewSkipList] (with at least one layer) and
    [Insert]s, [Insert] and [Get] return: neither of them panics on a nil
    pointer or an index, and their loops end. *)
Theorem Insert_and_Get_return_on_built_lists
  (l : SkipList) (key : TKey) (value : TValue) (r : Rand) :
  built l ->
  (exists l' old r', SkipList_Insert key_ltb key_eqb l key value r = Ok (l', old, r'))
  /\ (exists v found, SkipList_Get key_ltb key_eqb l key = Ok (v, found)).
Proof.
  intros Hb. destruct (built_facts l Hb) as (HI & _ & _). split.
  - destruct (Insert_ok l key value r HI) as (l' & old & r' & E & _).
    exists l', old, r'. exact E.
  - apply Get_returns. exact HI.
Qed.

(** [Insert] of a key that [Get] does not find returns nil, after which
    [Get] finds the key with the inserted value and [Len] is one more. *)
Theorem Get_finds_a_newly_inserted_key
  (l : SkipList) (key : TKey) (value : TValue) (r : Rand) (v0 : option TValue) :
  built l ->
  SkipList_Get key_ltb key_eqb l key = Ok (v0, false) ->
  exists l' r',
    SkipList_Insert key_ltb key_eqb l key value r = Ok (l', None, r')
    /\ SkipList_Get key_ltb key_eqb l' key = Ok (Some value, true)
    /\ SkipList_Len l' = int64 (SkipList_Len l + 1).
Proof.
  intros Hb HG. destruct (built_facts l Hb) as (HI & _ & _).
  pose proof (Get_not_found l key v0 HI HG) as Hno.
  destruct (Insert_new l key value r HI Hno)
    as (l' & r' & E & HI' & _ & Hn & _ & Hkey & Hval).
  exists l', r'. split; [exact E|]. split; [|exact Hn].
  destruct (Get_present l' key (List.length (nodes l)) HI') as (v & Hv & HG').
  { rewrite Hkey, Nat.eqb_refl. reflexivity. }
  rewrite Hval, Nat.eqb_refl in Hv. injection Hv as <-. exact HG'.
Qed.


(** [Insert] of a key that [Get] finds leaves the value that [Get] returns
    for that key as it was, and [Len] too: the new value is not stored
    under the key. *)
Theorem Insert_of_a_present_key_keeps_its_value
  (l l' : SkipList) (key : TKey) (value : TValue) (r r' : Rand)
  (v old : option TValue) :
  built l ->
  SkipList_Get key_ltb key_eqb l key = Ok (v, true) ->
  SkipList_Insert key_ltb key_eqb l key value r = Ok (l', old, r') ->
  SkipList_Get key_ltb key_eqb l' key = Ok (v, true)
  /\ SkipList_Len l' = SkipList_Len l.
Proof.
  intros Hb HG E. destruct (built_facts l Hb) as (HI & _ & _).
  destruct (Get_found l key v HI HG) as (a & Ha & Hva).
  destruct (Insert_present l key value r a HI Ha)
    as (p & old1 & l1 & E1 & Hp & _ & HI' & _ & Hn & _ & Hkey & Hval).
  rewrite E1 in E. injection E as <- _ _. split; [|exact Hn].
  destruct (Get_present l1 key a HI') as (v' & Hv' & HG').
  { rewrite Hkey. exact Ha. }
  rewrite Hval in Hv'. destruct (Nat.eqb_spec a p) as [->|_].
  - destruct (inv_ptr _ _ HI p 0 p Hp) as (kb & Hkb & _ & Hord).
    rewrite Ha in Hkb. injection Hkb as <-.
    pose proof (Hord key Ha) as Hc. rewrite key_irrefl in Hc. discriminate.
  - rewrite Hva in Hv'. injection Hv' as <-. exact HG'.
Qed.


(** The facts about one [Insert] of a new key, for the callers' proofs. *)
Lemma Insert_new_spec (l : SkipList) (key : TKey) (value : TValue) (r : Rand)
  (v0 : option TValue) :
  built l ->
  SkipList_Get key_ltb key_eqb l key = Ok (v0, false) ->
  exists l' r',
    SkipList_Insert key_ltb key_eqb l key value r = Ok (l', None, r')
    /\ built l'
    /\ SkipList_Get key_ltb key_eqb l' key = Ok (Some value, true)
    /\ (forall k, k <> key ->
          SkipList_Get key_ltb key_eqb l' k = SkipList_Get key_ltb key_eqb l k)
    /\ numEntries l' = int64 (numEntries l + 1).
Proof.
  intros Hb HG. destruct (built_facts l Hb) as (HI & _ & _).
  pose proof (Get_not_found l key v0 HI HG) as Hno.
  destruct (Insert_new l key value r HI Hno)
    as (l' & r' & E & HI' & _ & Hn & _ & Hkey & Hval).
  exists l', r'. split; [exact E|].
  split; [eapply built_Insert; eassumption|]. split; [|split; [|exact Hn]].
  - destruct (Get_present l' key (List.length (nodes l)) HI') as (v & Hv & HG').
    { rewrite Hkey, Nat.eqb_refl. reflexivity. }
    rewrite Hval, Nat.eqb_refl in Hv. injection Hv as <-. exact HG'.
  - intros k Hk.
    destruct (Get_returns l k HI) as (v & [|] & HGk); rewrite HGk.
    + destruct (Get_found l k v HI HGk) as (a & Ha & Hva).
      pose proof (keyo_valid _ _ _ Ha) as Hlt.
      destruct (Get_present l' k a HI') as (v' & Hv' & HG').
      { rewrite Hkey. destruct (Nat.eqb_spec a (List.length (nodes l))); [lia|exact Ha]. }
      rewrite Hval in Hv'.
      destruct (Nat.eqb_spec a (List.length (nodes l))); [lia|].
      rewrite Hva in Hv'. injection Hv' as <-. exact HG'.
    + pose proof (Get_not_found l k v HI HGk) as Hnok.
      rewrite (Get_absent l k HI Hnok) in HGk. injection HGk as <-.
      apply Get_absent; [exact HI'|]. intros a. rewrite Hkey.
      destruct (a =? List.length (nodes l))%nat; [congruence|apply Hnok].
Qed.

(** What [Get] returns on a built list: a value with [true], or nil with
    [false]. *)
Lemma Get_shape (l : SkipList) (key : TKey) :
  built l ->
  (exists v, SkipList_Get key_ltb key_eqb l key = Ok (Some v, true))
  \/ SkipList_Get key_ltb key_eqb l key = Ok (None, false).
Proof.
  intros Hb. destruct (built_facts l Hb) as (HI & Hv & _).
  destruct (Get_returns l key HI) as (v & [|] & HG).
  - left. destruct (Get_found l key v HI HG) as (a & Ha & Hva).
    destruct (Hv a (keyed_pos _ _ a key HI Ha)) as [x Hx].
    rewrite Hva in Hx. injection Hx as ->. eauto.
  - right. rewrite HG. f_equal. f_equal.
    pose proof (Get_absent l key HI (Get_not_found l key v HI HG)) as E.
    rewrite E in HG. congruence.
Qed.

End SkipListProofs.


(** The order of Go's [int] keys. *)
Lemma Zltb_trans (a b c : Z) : (a <? b) = true -> (b <? c) = true -> (a <? c) = true.
Proof. rewrite !Z.ltb_lt. lia. Qed.

Lemma Zltb_total (a b : Z) : (a <? b) = false -> (b <? a) = false -> (a =? b) = true.
Proof. rewrite !Z.ltb_ge, Z.eqb_eq. lia. Qed.

Lemma oneKeyList_built : built Z.ltb Z.eqb oneKeyList.
Proof.
  apply (built_Insert Z.ltb Z.eqb (NewSkipList 4) 1 10 flatRand oneKeyList None
           oneKeyRand).
  - constructor. lia.
  - vm_compute. reflexivity.
Qed.

Lemma Insert_and_Get_return_witness :
  built Z.ltb Z.eqb oneKeyList
  /\ (exists l' old r',
        SkipList_Insert Z.ltb Z.eqb oneKeyList 2 20 oneKeyRand = Ok (l', old, r'))
  /\ (exists v found, SkipList_Get Z.ltb Z.eqb oneKeyList 2 = Ok (v, found)).
Proof.
  split; [exact oneKeyList_built|].
  apply (Insert_and_Get_return_on_built_lists Z.ltb Z.eqb Z.ltb_irrefl Zltb_trans
           Zltb_total Z.eqb_eq oneKeyList 2 20 oneKeyRand oneKeyList_built).
Defined.

Lemma Get_finds_a_newly_inserted_key_witness :
  SkipList_Get Z.ltb Z.eqb oneKeyList 2 = Ok (None, false)
  /\ exists l' r',
       SkipList_Insert Z.ltb Z.eqb oneKeyList 2 20 oneKeyRand = Ok (l', None, r')
       /\ SkipList_Get Z.ltb Z.eqb l' 2 = Ok (Some 20, true)
       /\ SkipList_Len l' = int64 (SkipList_Len oneKeyList + 1).
Proof.
  split; [reflexivity|].
  apply (Get_finds_a_newly_inserted_key Z.ltb Z.eqb Z.ltb_irrefl Zltb_trans
           Zltb_total Z.eqb_eq oneKeyList 2 20 oneKeyRand None oneKeyList_built).
  reflexivity.
Defined.


Lemma Insert_of_a_present_key_keeps_its_value_witness :
  SkipList_Get Z.ltb Z.eqb oneKeyList 1 = Ok (Some 10, true)
  /\ SkipList_Insert Z.ltb Z.eqb oneKeyList 1 20 oneKeyRand
     = Ok (sameKeyList, sameKeyOld, oneKeyRand)
  /\ SkipList_Get Z.ltb Z.eqb sameKeyList 1 = Ok (Some 10, true)
  /\ SkipList_Len sameKeyList = SkipList_Len oneKeyList.
Proof.
  split; [reflexivity|]. split; [vm_compute; reflexivity|].
  apply (Insert_of_a_present_key_keeps_its_value Z.ltb Z.eqb Z.ltb_irrefl
           Zltb_trans Zltb_total Z.eqb_eq oneKeyList sameKeyList 1 20 oneKeyRand
           oneKeyRand (Some 10) sameKeyOld oneKeyList_built).
  - reflexivity.
  - vm_compute. reflexivity.
Defined.


(** * The memtable chunk over an existing log (C10) *)

(** A call that comes back to its caller, with a value or with an error. *)
Definition returns {A : Type} (o : outcome A) : Prop :=
  match o with
  | Ok _ | Err _ => True
  | Panic | OutOfFuel => False
  end.

Section ChunkProofs.

Context {BF : BloomFilter} {J : Json}.

Lemma ReadBytes_shorter (d : byte) :
  forall (r data r' : list byte),
    ReadBytes d r = (data, Some r') -> (List.length r' < List.length r)%nat.
Proof.
  induction r as [|b r IH]; intros data r'; cbn [ReadBytes]; [discriminate|].
  destruct (Byte.eqb b d).
  - intros H. injection H as _ <-. cbn. lia.
  - destruct (ReadBytes d r) as [data0 rest] eqn:E. intros H. injection H as _ ->.
    specialize (IH _ _ eq_refl). cbn. lia.
Qed.

Lemma loadLoop_returns :
  forall (fuel : nat) (r : list byte) (entries : list WALEntry),
    (List.length r < fuel)%nat -> returns (loadLoop fuel r entries).
Proof.
  induction fuel as [|fuel IH]; intros r entries Hf; [lia|].
  cbn [loadLoop]. destruct (ReadBytes entrySeparator r) as [data rest] eqn:E.
  assert (Hrest : forall es, returns match rest with
                                     | Some r' => loadLoop fuel r' es
                                     | None => Ok es
                                     end).
  { intros es. destruct rest as [r'|]; [|exact I].
    apply IH. apply ReadBytes_shorter in E. lia. }
  destruct (0 <? len data); [|cbn [bind]; apply Hrest].
  destruct (Unmarshal data); cbn [bind]; [apply Hrest|exact I].
Qed.

Lemma LoadWAL_returns (fileName : string) (fs : FS) : returns (LoadWAL fileName fs).
Proof.
  unfold LoadWAL, os_Open. destruct (faulty fs IoOpen fileName); [exact I|].
  destruct (lookup fileName (files fs)) as [f|]; cbn [bind]; [|exact I].
  destruct (faulty fs IoRead fileName); [exact I|].
  destruct f; try exact I. apply loadLoop_returns. lia.
Qed.

Definition well_linked (l : @SkipList string skiplistEntry) : Prop :=
  Inv String.ltb (nodes l) (numLayers l).

Lemma string_total (a b : string) :
  String.ltb a b = false -> String.ltb b a = false -> String.eqb a b = true.
Proof. intros H1 H2. rewrite (ltb_total a b H1 H2). apply String.eqb_refl. Qed.

Lemma list_Insert_ok (l : SkipList) (key : string) (value : skiplistEntry) (w : World) :
  well_linked l ->
  exists l' old r,
    list_Insert l key value w = (mkWorld (w_fs w) r, Ok (l', old)) /\ well_linked l'.
Proof.
  intros HI. unfold list_Insert.
  destruct (Insert_ok String.ltb String.eqb ltb_irrefl ltb_trans string_total
              l key value (w_rand w) HI) as (l' & old & r & -> & HI' & Hn).
  exists l', old, r. split; [reflexivity|exact HI'].
Qed.

(** Replaying a log never stops half way, whatever its records are. *)
Lemma replay_ok (walEntries : list WALEntry) :
  forall (l : SkipList) (w : World),
    well_linked l ->
    exists w' l', replay walEntries l w = (w', Ok l')
                  /\ w_fs w' = w_fs w /\ well_linked l'.
Proof.
  induction walEntries as [|e es IH]; intros l w HI; cbn [replay].
  - exists w, l. split; [reflexivity|]. split; [reflexivity|exact HI].
  - destruct (list_Insert_ok l (Key e) (mkSkiplistEntry (Kind e) (Data e)) w HI)
      as (l1 & old & r & Hins & HI1).
    unfold mbind. rewrite Hins.
    destruct (IH l1 (mkWorld (w_fs w) r) HI1) as (w' & l' & -> & Hfs & HI').
    exists w', l'. split; [reflexivity|]. split; [exact Hfs|exact HI'].
Qed.

Lemma NewWAL_ok (fileName : string) (fs : FS) :
  faulty fs IoOpen fileName = false ->
  exists fs', NewWAL fileName fs = (fs', Ok (mkWAL true fileName)).
Proof.
  intros H. unfold NewWAL. rewrite H.
  destruct (lookup fileName (files fs)); eexists; reflexivity.
Qed.

(** C10, as the code has it.  When the log can be opened for appending,
    [newSkipListChunk] returns a chunk whatever the log holds: the error of
    [LoadWAL] is dropped.  The chunk's [dataSize] is 0 whatever was
    replayed.  When [LoadWAL] returns its records, all of them are replayed
    in order into a new list; when it returns an error (a record that does
    not parse, a failed read, no file) the list is the new, empty one: the
    records parsed before the error are not replayed. *)
Theorem newSkipListChunk_returns_and_is_empty_on_a_load_error
  (fileName : string) (w : World) :
  faulty (w_fs w) IoOpen fileName = false ->
  exists w' c,
    newSkipListChunk fileName w = (w', Ok c)
    /\ sc_dataSize c = 0
    /\ match LoadWAL fileName (w_fs w) with
       | Ok walEntries =>
           replay walEntries (NewSkipList 16) (fst (in_fs (NewWAL fileName) w))
           = (w', Ok (sc_list c))
       | _ => sc_list c = NewSkipList 16
       end.
Proof.
  intros Hopen. unfold newSkipListChunk.
  pose proof (LoadWAL_returns fileName (w_fs w)) as Hret.
  destruct (NewWAL_ok fileName (w_fs w) Hopen) as [fs' Hwal].
  assert (Hrun : forall es,
            exists w' l,
              (wal <~ in_fs (NewWAL fileName) ;;
               l <~ replay es (NewSkipList 16) ;;
               ret (mkSkiplistChunk l wal 0)) w
              = (w', Ok (mkSkiplistChunk l (mkWAL true fileName) 0))
              /\ replay es (NewSkipList 16) (fst (in_fs (NewWAL fileName) w))
                 = (w', Ok l)).
  { intros es. unfold mbind at 1. unfold in_fs. rewrite Hwal. cbn [fst].
    destruct (replay_ok es (NewSkipList 16) (mkWorld fs' (w_rand w)))
      as (w' & l & Hrep & _ & _).
    { apply (NewSkipList_Inv String.ltb 16). lia. }
    exists w', l. unfold mbind, ret. rewrite Hrep. split; reflexivity. }
  destruct (LoadWAL fileName (w_fs w)) as [es|e| |]; try contradiction.
  - destruct (Hrun es) as (w' & l & -> & Hrep).
    exists w', (mkSkiplistChunk l (mkWAL true fileName) 0).
    repeat split. exact Hrep.
  - destruct (Hrun []) as (w' & l & -> & Hrep).
    exists w', (mkSkiplistChunk l (mkWAL true fileName) 0).
    repeat split. cbn [replay] in Hrep. unfold ret in Hrep.
    injection Hrep as _ <-. reflexivity.
Qed.

End ChunkProofs.

Lemma newSkipListChunk_returns_witness :
  faulty (w_fs cutWorld) IoOpen "db/wal-root.log" = false
  /\ exists w' c,
       newSkipListChunk (BF := exactFilter) (J := goJson) "db/wal-root.log"
         cutWorld = (w', Ok c)
       /\ sc_dataSize c = 0
       /\ match LoadWAL (BF := exactFilter) (J := goJson) "db/wal-root.log"
                  (w_fs cutWorld) with
          | Ok walEntries =>
              replay walEntries (NewSkipList 16)
                (fst (in_fs (NewWAL "db/wal-root.log") cutWorld))
              = (w', Ok (sc_list c))
          | _ => sc_list c = NewSkipList 16
          end.
Proof.
  split; [reflexivity|].
  apply (newSkipListChunk_returns_and_is_empty_on_a_load_error
           (BF := exactFilter) (J := goJson) "db/wal-root.log" cutWorld).
  reflexivity.
Defined.

(** C10 (as stated, fails on the code).  The log holds two fully formed
    records and a truncated third one.  The first record parses, the load
    then fails, and the chunk that [newSkipListChunk] returns holds no entry
    at all: the records parsed before the error are not in the memtable. *)
Lemma newSkipListChunk_drops_the_records_parsed_before_the_error :
  Unmarshal (Json := goJson) (fst (ReadBytes entrySeparator cutLog)) = Some record1
  /\ LoadWAL (BF := exactFilter) (J := goJson) "db/wal-root.log" (w_fs cutWorld)
     = Err ErrSyntax
  /\ match snd (newSkipListChunk (BF := exactFilter) (J := goJson)
                  "db/wal-root.log" cutWorld) with
     | Ok c => skiplistChunk_numEntries c = 0
               /\ skiplistChunk_get c "key1" = Ok (0, [], false)
               /\ sc_dataSize c = 0
     | _ => False
     end.
Proof. vm_compute. repeat split. Qed.

(** * The smallest entry *)

Lemma getMinFrom_exists (es : list (option entry)) :
  forall (i m : Z) (mk : string), snd (getMinFrom es i true m mk) = true.
Proof.
  induction es as [|[x|] es IH]; intros i m mk; cbn [getMinFrom negb orb];
    [reflexivity| |apply IH].
  destruct (String.ltb (en_key x) mk); apply IH.
Qed.

Lemma getMinFrom_none (es : list (option entry)) :
  forall (i m : Z) (mk : string),
    snd (getMinFrom es i false m mk) = false ->
    fst (getMinFrom es i false m mk) = m.
Proof.
  induction es as [|[x|] es IH]; intros i m mk H; cbn [getMinFrom negb orb] in *.
  - reflexivity.
  - rewrite getMinFrom_exists in H. discriminate.
  - apply IH. exact H.
Qed.

(** [getMin] returns [(-1, false)] when every entry is nil, and otherwise the
    index of an entry with the smallest key, the first such index when
    several entries share that key. *)
Theorem getMin_finds_the_first_smallest_key (es : list (option entry)) :
  match getMin es with
  | (i, true) =>
      0 <= i
      /\ exists e,
           nth_error es (Z.to_nat i) = Some (Some e)
           /\ forall j e', nth_error es j = Some (Some e') ->
                String.ltb (en_key e') (en_key e) = false
                /\ ((j < Z.to_nat i)%nat -> String.ltb (en_key e) (en_key e') = true)
  | (i, false) => i = -1 /\ Forall (eq None) es
  end.
Proof.
  pose proof (getMin_spec es) as H. unfold min_post in H.
  pose proof (getMinFrom_none es 0 (-1) "") as Hn. fold (getMin es) in Hn.
  destruct (getMin es) as [i [|]]; cbn [fst snd] in *.
  - destruct H as (Hi & e & He). split; [exact Hi|]. exists e. exact He.
  - split; [apply Hn; reflexivity|exact H].
Qed.

(** * The log and the memtable chunk in use *)

Section MemtableProofs.

Context {BF : BloomFilter} {J : Json}.

Lemma entry_eta (e : WALEntry) : mkWALEntry (Kind e) (Key e) (Data e) = e.
Proof. destruct e. reflexivity. Qed.

(** [Write] on an open log appends the record and its separator. *)
Lemma WAL_Write_ok (w : WAL) (kind : Z) (key : string) (data : list byte) (fs : FS) :
  w_open w = true -> faulty fs IoWrite (w_fileName w) = false ->
  exists fs',
    WAL_Write w kind key data fs = (fs', Ok tt)
    /\ faults fs' = faults fs
    /\ forall old,
         lookup (w_fileName w) (files fs) = Some (FBytes old) ->
         lookup (w_fileName w) (files fs')
         = Some (FBytes (old ++ Marshal (mkWALEntry kind key data) ++ [entrySeparator])).
Proof.
  intros Ho Hf. unfold WAL_Write. rewrite Ho, Hf. cbn [negb].
  destruct (lookup (w_fileName w) (files fs)) as [[old| | | |]|] eqn:E;
    eexists; (split; [reflexivity|]); (split; [reflexivity|]);
    intros old' H; try discriminate.
  injection H as <-. cbn [files]. apply lookup_store_same.
Qed.

Lemma writeLog_ok (w : WAL) (es : list WALEntry) :
  forall (fs : FS) (old : list byte),
    w_open w = true -> faulty fs IoWrite (w_fileName w) = false ->
    lookup (w_fileName w) (files fs) = Some (FBytes old) ->
    exists fs',
      writeLog w es fs = (fs', Ok tt)
      /\ faults fs' = faults fs
      /\ lookup (w_fileName w) (files fs') = Some (FBytes (old ++ logOf es)).
Proof.
  induction es as [|e es IH]; intros fs old Ho Hf Hl; cbn [writeLog logOf flat_map].
  - exists fs. rewrite app_nil_r. repeat split. exact Hl.
  - destruct (WAL_Write_ok w (Kind e) (Key e) (Data e) fs Ho Hf)
      as (fs1 & E1 & Hf1 & Hl1).
    specialize (Hl1 old Hl). rewrite entry_eta in Hl1.
    unfold mbind. rewrite E1.
    destruct (IH fs1 (old ++ Marshal e ++ [entrySeparator]) Ho)
      as (fs' & E & Hf' & Hl'); [|exact Hl1|].
    { unfold faulty in *. rewrite Hf1. exact Hf. }
    exists fs'. split; [exact E|]. split; [congruence|].
    rewrite Hl'. fold (logOf es). rewrite <- !app_assoc. reflexivity.
Qed.

Lemma LoadWAL_logOf (es : list WALEntry) (fileName : string) (fs : FS) :
  Forall well_formed es ->
  faulty fs IoOpen fileName = false -> faulty fs IoRead fileName = false ->
  lookup fileName (files fs) = Some (FBytes (logOf es)) ->
  LoadWAL fileName fs = Ok es.
Proof.
  intros Hes Ho Hr Hl. unfold LoadWAL, os_Open. rewrite Ho, Hl. cbn [bind].
  rewrite Hr. rewrite <- (app_nil_r (logOf es)) at 2.
  rewrite loadLoop_records; [reflexivity|exact Hes|intros []|].
  pose proof (logOf_length es). lia.
Qed.

(** The test of package [wal], for any records: on a new file, [NewWAL],
    one [Write] per record and [LoadWAL] give back the records, oldest
    first, when [json.Unmarshal] reads back what [json.Marshal] wrote and
    the encoding holds no line feed. *)
Theorem LoadWAL_returns_what_Write_appended
  (es : list WALEntry) (fileName : string) (fs : FS) :
  Forall well_formed es ->
  lookup fileName (files fs) = None ->
  (forall op, faulty fs op fileName = false) ->
  exists fs1 w fs2,
    NewWAL fileName fs = (fs1, Ok w)
    /\ writeLog w es fs1 = (fs2, Ok tt)
    /\ LoadWAL fileName fs2 = Ok es.
Proof.
  intros Hes Hnew Hf. unfold NewWAL. rewrite (Hf IoOpen), Hnew.
  set (fs1 := mkFS (store fileName (FBytes []) (files fs)) (faults fs)).
  destruct (writeLog_ok (mkWAL true fileName) es fs1 [] eq_refl (Hf IoWrite))
    as (fs2 & E & Hf2 & Hl2).
  { subst fs1. cbn [files w_fileName]. apply lookup_store_same. }
  exists fs1, (mkWAL true fileName), fs2. split; [reflexivity|]. split; [exact E|].
  cbn [app] in Hl2. apply LoadWAL_logOf; try assumption.
  - unfold faulty. rewrite Hf2. apply (Hf IoOpen).
  - unfold faulty. rewrite Hf2. apply (Hf IoRead).
Qed.

(** ** The memtable chunk *)

(** A chunk whose list was made by [NewSkipList] and [Insert]s. *)
Definition sound (c : skiplistChunk) : Prop :=
  built String.ltb String.eqb (sc_list c).

Definition entryOf (e : WALEntry) : skiplistEntry := mkSkiplistEntry (Kind e) (Data e).

Definition listGet (l : @SkipList string skiplistEntry) (key : string)
  : outcome (option skiplistEntry * bool) :=
  SkipList_Get String.ltb String.eqb l key.

(** The list answers for the records [es], and as [base] for other keys. *)
Definition answers (l : @SkipList string skiplistEntry) (es : list WALEntry)
  (base : string -> outcome (option skiplistEntry * bool)) : Prop :=
  forall k, listGet l k
            = match find (fun e => String.eqb (Key e) k) es with
              | Some e => Ok (Some (entryOf e), true)
              | None => base k
              end.

Lemma find_absent (es : list WALEntry) (k : string) :
  ~ In k (map Key es) -> find (fun e => String.eqb (Key e) k) es = None.
Proof.
  induction es as [|e es IH]; intros H; cbn [find]; [reflexivity|].
  destruct (String.eqb_spec (Key e) k) as [<-|_].
  - exfalso. apply H. left. reflexivity.
  - apply IH. intros Hin. apply H. right. exact Hin.
Qed.

Lemma answers_cons (l l1 l' : @SkipList string skiplistEntry) (e : WALEntry)
  (es : list WALEntry) :
  listGet l1 (Key e) = Ok (Some (entryOf e), true) ->
  (forall k, k <> Key e -> listGet l1 k = listGet l k) ->
  ~ In (Key e) (map Key es) ->
  answers l' es (listGet l1) ->
  answers l' (e :: es) (listGet l).
Proof.
  intros Hk Hframe Hnew Ha k. rewrite (Ha k). cbn [find].
  destruct (String.eqb_spec (Key e) k) as [<-|Hne].
  - rewrite (find_absent es (Key e) Hnew). exact Hk.
  - destruct (find (fun e0 => String.eqb (Key e0) k) es); [reflexivity|].
    apply Hframe. congruence.
Qed.

Lemma list_Insert_new (l : SkipList) (key : string) (value : skiplistEntry)
  (w : World) :
  built String.ltb String.eqb l -> listGet l key = Ok (None, false) ->
  exists l' r,
    list_Insert l key value w = (mkWorld (w_fs w) r, Ok (l', None))
    /\ built String.ltb String.eqb l'
    /\ listGet l' key = Ok (Some value, true)
    /\ (forall k, k <> key -> listGet l' k = listGet l k)
    /\ numEntries l' = int64 (numEntries l + 1).
Proof.
  intros Hb HG.
  destruct (Insert_new_spec String.ltb String.eqb ltb_irrefl ltb_trans string_total
              String.eqb_eq l key value (w_rand w) None Hb HG)
    as (l' & r & E & H).
  exists l', r. unfold list_Insert. rewrite E. split; [reflexivity|exact H].
Qed.

Lemma listGet_new (L : nat) (key : string) :
  (1 <= L)%nat -> listGet (NewSkipList L) key = Ok (None, false).
Proof.
  intros HL. apply (Get_absent String.ltb String.eqb ltb_irrefl ltb_trans string_total
                      String.eqb_eq).
  - apply NewSkipList_Inv. exact HL.
  - intros [|[|a]]; cbn; discriminate.
Qed.

(** Replaying records with distinct new keys stores each of them. *)
Lemma replay_answers (es : list WALEntry) :
  forall (l : SkipList) (w : World),
    built String.ltb String.eqb l ->
    NoDup (map Key es) ->
    (forall e, In e es -> listGet l (Key e) = Ok (None, false)) ->
    exists w' l',
      replay es l w = (w', Ok l')
      /\ w_fs w' = w_fs w
      /\ built String.ltb String.eqb l'
      /\ answers l' es (listGet l)
      /\ numEntries l' = int64 (numEntries l + len es).
Proof.
  induction es as [|e es IH]; intros l w Hb Hnd Hnew; cbn [replay].
  - exists w, l. split; [reflexivity|]. split; [reflexivity|]. split; [exact Hb|].
    split; [intros k; reflexivity|].
    destruct (built_facts String.ltb String.eqb ltb_irrefl ltb_trans string_total
                String.eqb_eq l Hb) as (_ & _ & Hc).
    change (len (@nil WALEntry)) with 0. rewrite Z.add_0_r, Hc.
    unfold int64. rewrite Z.sub_add, Z.mod_mod by lia. reflexivity.
  - inversion Hnd as [|? ? Hk Hnd']; subst.
    destruct (list_Insert_new l (Key e) (entryOf e) w Hb (Hnew e (or_introl eq_refl)))
      as (l1 & r & E1 & Hb1 & Hg1 & Hframe & Hn1).
    unfold mbind. unfold entryOf in E1. rewrite E1.
    destruct (IH l1 (mkWorld (w_fs w) r) Hb1 Hnd') as (w' & l' & E & Hfs & Hb' & Ha & Hn).
    { intros e' He'. rewrite Hframe; [apply Hnew; right; exact He'|].
      intros Heq. apply Hk. rewrite <- Heq. apply in_map. exact He'. }
    exists w', l'. split; [exact E|]. split; [exact Hfs|]. split; [exact Hb'|].
    split; [eapply answers_cons; eassumption|].
    rewrite Hn, Hn1.
    replace (len (e :: es)) with (len es + 1) by (unfold len; cbn [List.length]; lia).
    unfold int64.
    replace ((numEntries l + 1 + 2 ^ 63) mod 2 ^ 64 - 2 ^ 63 + len es + 2 ^ 63)
      with ((numEntries l + 1 + 2 ^ 63) mod 2 ^ 64 + len es) by lia.
    rewrite Zplus_mod_idemp_l. f_equal. f_equal. lia.
Qed.

(** What [get] makes of the list's answer. *)
Lemma get_of_listGet (c : skiplistChunk) (key : string) :
  skiplistChunk_get c key
  = ('(v, exists_) <- listGet (sc_list c) key ;;
     match v with
     | Some v => if exists_ then Ok (se_kind v, se_data v, true) else Ok (0, [], false)
     | None => Ok (0, [], false)
     end).
Proof. reflexivity. Qed.

Lemma get_absent_listGet (c : skiplistChunk) (key : string) :
  sound c -> skiplistChunk_get c key = Ok (0, [], false) ->
  listGet (sc_list c) key = Ok (None, false).
Proof.
  intros Hs HG. rewrite get_of_listGet in HG.
  destruct (Get_shape String.ltb String.eqb ltb_irrefl ltb_trans string_total
              String.eqb_eq (sc_list c) key Hs) as [[v E]|E]; [|exact E].
  unfold listGet in HG. rewrite E in HG. discriminate.
Qed.

(** One [set] of a key the chunk does not hold. *)
Lemma set_new (c : skiplistChunk) (key : string) (kind : Z) (data : list byte)
  (w : World) :
  sound c -> w_open (sc_wal c) = true ->
  faulty (w_fs w) IoWrite (w_fileName (sc_wal c)) = false ->
  listGet (sc_list c) key = Ok (None, false) ->
  exists w' c',
    skiplistChunk_set c key kind data w = (w', Ok c')
    /\ sound c' /\ sc_wal c' = sc_wal c
    /\ faults (w_fs w') = faults (w_fs w)
    /\ (forall old,
          lookup (w_fileName (sc_wal c)) (files (w_fs w)) = Some (FBytes old) ->
          lookup (w_fileName (sc_wal c)) (files (w_fs w'))
          = Some (FBytes (old ++ Marshal (mkWALEntry kind key data)
                              ++ [entrySeparator])))
    /\ listGet (sc_list c') key = Ok (Some (mkSkiplistEntry kind data), true)
    /\ (forall k, k <> key -> listGet (sc_list c') k = listGet (sc_list c) k)
    /\ sc_dataSize c' = uint64 (sc_dataSize c + uint64 (len data))
    /\ numEntries (sc_list c') = int64 (numEntries (sc_list c) + 1).
Proof.
  intros Hs Ho Hf HG.
  destruct (WAL_Write_ok (sc_wal c) kind key data (w_fs w) Ho Hf)
    as (fs1 & E1 & Hf1 & Hl1).
  destruct (list_Insert_new (sc_list c) key (mkSkiplistEntry kind data)
              (mkWorld fs1 (w_rand w)) Hs HG)
    as (l' & r & E2 & Hb' & Hg' & Hframe & Hn).
  unfold skiplistChunk_set, mbind, in_fs. rewrite E1, E2. unfold ret.
  eexists. eexists. split; [reflexivity|].
  cbn [sc_list sc_wal sc_dataSize w_fs].
  split; [exact Hb'|]. split; [reflexivity|]. split; [exact Hf1|].
  split; [exact Hl1|]. split; [exact Hg'|]. split; [exact Hframe|].
  split; [reflexivity|exact Hn].
Qed.

Fixpoint sumData (es : list WALEntry) : Z :=
  match es with
  | [] => 0
  | e :: es' => len (Data e) + sumData es'
  end.

Lemma uint64_add (a b : Z) : uint64 (uint64 a + b) = uint64 (a + b).
Proof. unfold uint64. apply Zplus_mod_idemp_l. Qed.

Lemma int64_idem (z : Z) : int64 (int64 z) = int64 z.
Proof.
  unfold int64. rewrite Z.sub_add, Z.mod_mod by lia. reflexivity.
Qed.

Lemma int64_add (a b : Z) : int64 (int64 a + b) = int64 (a + b).
Proof.
  unfold int64.
  replace ((a + 2 ^ 63) mod 2 ^ 64 - 2 ^ 63 + b + 2 ^ 63)
    with ((a + 2 ^ 63) mod 2 ^ 64 + b) by lia.
  rewrite Zplus_mod_idemp_l. f_equal. f_equal. lia.
Qed.

(** One [set] per record, for records with distinct new keys. *)
Lemma setAll_answers (es : list WALEntry) :
  forall (c : skiplistChunk) (w : World) (old : list byte),
    sound c -> w_open (sc_wal c) = true ->
    faulty (w_fs w) IoWrite (w_fileName (sc_wal c)) = false ->
    lookup (w_fileName (sc_wal c)) (files (w_fs w)) = Some (FBytes old) ->
    0 <= sc_dataSize c < 2 ^ 64 ->
    NoDup (map Key es) ->
    (forall e, In e es -> listGet (sc_list c) (Key e) = Ok (None, false)) ->
    exists w' c',
      setAll c es w = (w', Ok c')
      /\ sound c' /\ sc_wal c' = sc_wal c
      /\ faults (w_fs w') = faults (w_fs w)
      /\ lookup (w_fileName (sc_wal c)) (files (w_fs w'))
         = Some (FBytes (old ++ logOf es))
      /\ answers (sc_list c') es (listGet (sc_list c))
      /\ sc_dataSize c' = uint64 (sc_dataSize c + sumData es)
      /\ numEntries (sc_list c') = int64 (numEntries (sc_list c) + len es).
Proof.
  induction es as [|e es IH]; intros c w old Hs Ho Hf Hl Hr Hnd Hnew;
    cbn [setAll logOf flat_map sumData].
  - exists w, c. rewrite app_nil_r. split; [reflexivity|]. split; [exact Hs|].
    split; [reflexivity|]. split; [reflexivity|]. split; [exact Hl|].
    split; [intros k; reflexivity|].
    destruct (built_facts String.ltb String.eqb ltb_irrefl ltb_trans string_total
                String.eqb_eq (sc_list c) Hs) as (_ & _ & Hc).
    split.
    + unfold uint64. rewrite Z.add_0_r, Z.mod_small by lia. reflexivity.
    + change (len (@nil WALEntry)) with 0. rewrite Z.add_0_r, Hc, int64_idem.
      reflexivity.
  - inversion Hnd as [|? ? Hk Hnd']; subst.
    destruct (set_new c (Key e) (Kind e) (Data e) w Hs Ho Hf
                (Hnew e (or_introl eq_refl)))
      as (w1 & c1 & E1 & Hs1 & Hw1 & Hf1 & Hl1 & Hg1 & Hframe & Hd1 & Hn1).
    specialize (Hl1 old Hl). rewrite entry_eta in Hl1.
    unfold mbind. rewrite E1.
    destruct (IH c1 w1 (old ++ Marshal e ++ [entrySeparator]) Hs1)
      as (w' & c' & E & Hs' & Hw' & Hf' & Hl' & Ha & Hd & Hn).
    { rewrite Hw1. exact Ho. }
    { rewrite Hw1. unfold faulty in *. rewrite Hf1. exact Hf. }
    { rewrite Hw1. exact Hl1. }
    { rewrite Hd1. unfold uint64. apply Z.mod_pos_bound. lia. }
    { exact Hnd'. }
    { intros e' He'. rewrite Hframe; [apply Hnew; right; exact He'|].
      intros Heq. apply Hk. rewrite <- Heq. apply in_map. exact He'. }
    exists w', c'. split; [exact E|]. split; [exact Hs'|].
    split; [congruence|]. split; [congruence|]. split.
    { rewrite Hw1 in Hl'. rewrite Hl'. fold (logOf es).
      rewrite <- !app_assoc. reflexivity. }
    split; [eapply answers_cons; eassumption|]. split.
    + rewrite Hd, Hd1, uint64_add.
      replace (sc_dataSize c + uint64 (len (Data e)) + sumData es)
        with (uint64 (len (Data e)) + (sc_dataSize c + sumData es)) by lia.
      rewrite uint64_add. f_equal. lia.
    + rewrite Hn, Hn1, int64_add. f_equal.
      unfold len. cbn [List.length]. lia.
Qed.

Lemma get_answers (c : skiplistChunk) (e : WALEntry) :
  listGet (sc_list c) (Key e) = Ok (Some (entryOf e), true) ->
  skiplistChunk_get c (Key e) = Ok (Kind e, Data e, true).
Proof. intros H. rewrite get_of_listGet, H. reflexivity. Qed.

(** [set] of a key that the chunk does not hold, on an open log that
    accepts the write: [get] then returns the kind and data that were set,
    other keys are not affected, [size] grows by the length of the
    data and [numEntries] by one. *)
Theorem set_then_get_on_a_memtable_chunk
  (c : skiplistChunk) (key : string) (kind : Z) (data : list byte) (w : World) :
  sound c -> w_open (sc_wal c) = true ->
  faulty (w_fs w) IoWrite (w_fileName (sc_wal c)) = false ->
  skiplistChunk_get c key = Ok (0, [], false) ->
  exists w' c',
    skiplistChunk_set c key kind data w = (w', Ok c')
    /\ skiplistChunk_get c' key = Ok (kind, data, true)
    /\ (forall k, k <> key -> skiplistChunk_get c' k = skiplistChunk_get c k)
    /\ skiplistChunk_size c' = uint64 (skiplistChunk_size c + uint64 (len data))
    /\ skiplistChunk_numEntries c' = int64 (skiplistChunk_numEntries c + 1).
Proof.
  intros Hs Ho Hf HG.
  destruct (set_new c key kind data w Hs Ho Hf (get_absent_listGet c key Hs HG))
    as (w' & c' & E & _ & _ & _ & _ & Hg & Hframe & Hd & Hn).
  exists w', c'. split; [exact E|]. split; [|split; [|split; [exact Hd|]]].
  - rewrite get_of_listGet, Hg. reflexivity.
  - intros k Hk. rewrite !get_of_listGet, (Hframe k Hk). reflexivity.
  - unfold skiplistChunk_numEntries, SkipList_Len. rewrite Hn, int64_idem, int64_add.
    reflexivity.
Qed.


(** ** The chunk's iterator *)

Lemma sound_facts (c : skiplistChunk) :
  sound c ->
  Inv String.ltb (nodes (sc_list c)) (numLayers (sc_list c))
  /\ valued (nodes (sc_list c)) /\ counted (sc_list c).
Proof.
  apply (built_facts String.ltb String.eqb ltb_irrefl ltb_trans string_total
           String.eqb_eq).
Qed.

(** The entry that the iterator returns at the element [a]. *)
Definition entryAt (ns : list (@SkiplistElement string skiplistEntry)) (a : nat)
  : entry :=
  match nth_error ns a with
  | Some e =>
      match e_key e, e_value e with
      | Some k, Some d => mkEntry k (se_kind d) (se_data d)
      | _, _ => mkEntry "" 0 []
      end
  | None => mkEntry "" 0 []
  end.

Lemma entryAt_eq (ns : list (@SkiplistElement string skiplistEntry)) (a : nat)
  (k : string) (d : skiplistEntry) :
  keyo ns a = Some (Some k) -> valo ns a = Some (Some d) ->
  entryAt ns a = mkEntry k (se_kind d) (se_data d).
Proof.
  unfold keyo, valo, entryAt. destruct (nth_error ns a) as [e|]; [|discriminate].
  cbn. intros Hk Hd. injection Hk as ->. injection Hd as ->. reflexivity.
Qed.

Lemma yields_path (ns : list (@SkiplistElement string skiplistEntry)) :
  forall (addrs : list nat) (q : option nat),
    path ns q addrs ->
    (forall a, In a addrs ->
       exists k d, keyo ns a = Some (Some k) /\ valo ns a = Some (Some d)) ->
    yields (option_map (fun n => ItSkiplist (mkSkiplistChunkIterator ns n)) q)
      (map (entryAt ns) addrs).
Proof.
  induction addrs as [|a addrs IH]; intros q Hp Hall; inversion Hp; subst;
    cbn [option_map map]; [constructor|].
  destruct (Hall a (or_introl eq_refl)) as (k & d & Hk & Hd).
  rewrite (entryAt_eq ns a k d Hk Hd).
  match goal with H : nxt ns a 0 = Some ?q |- _ =>
    apply (yields_cons _ (se_kind d) k (se_data d)
             (option_map (fun n => ItSkiplist (mkSkiplistChunkIterator ns n)) q))
  end.
  - cbn [ci_value chunkIter_ChunkIterator]. unfold skiplistChunkIterator_value.
    cbn [sci_nodes sci_element].
    destruct (elem_keyo ns a _ Hk) as (e & He & Hek & Hnth).
    rewrite He. cbn [bind]. rewrite Hek.
    unfold valo in Hd. rewrite Hnth in Hd. cbn in Hd. injection Hd as ->.
    reflexivity.
  - cbn [ci_next chunkIter_ChunkIterator]. unfold skiplistChunkIterator_next.
    cbn [sci_nodes sci_element].
    match goal with H : nxt ns a 0 = Some _ |- _ =>
      rewrite (next_at_nxt _ _ _ _ H) end.
    cbn [bind]. match goal with |- context [match ?q with _ => _ end] =>
      destruct q end; reflexivity.
  - apply IH; [assumption|]. intros b Hb. apply Hall. right. exact Hb.
Qed.


End MemtableProofs.

Lemma goJson_records_well_formed :
  Forall (well_formed (J := goJson)) [record1; record2; record3].
Proof.
  repeat constructor; try (vm_compute; reflexivity);
    intros H; vm_compute in H; intuition discriminate.
Qed.

Lemma LoadWAL_returns_what_Write_appended_witness :
  Forall (well_formed (J := goJson)) [record1; record2; record3]
  /\ exists fs1 w fs2,
       NewWAL (BF := exactFilter) "wal_test.log" (mkFS [] []) = (fs1, Ok w)
       /\ writeLog (J := goJson) w [record1; record2; record3] fs1 = (fs2, Ok tt)
       /\ LoadWAL (J := goJson) "wal_test.log" fs2 = Ok [record1; record2; record3].
Proof.
  split; [exact goJson_records_well_formed|].
  apply (LoadWAL_returns_what_Write_appended (BF := exactFilter) (J := goJson)
           [record1; record2; record3] "wal_test.log" (mkFS [] [])
           goJson_records_well_formed).
  - reflexivity.
  - intros op. reflexivity.
Defined.


Lemma set_then_get_witness :
  sound freshChunk
  /\ skiplistChunk_get freshChunk "k" = Ok (0, [], false)
  /\ exists w' c',
       skiplistChunk_set (J := goJson) freshChunk "k" RecordKindWrite (bytes "1")
         (emptyWorld (BF := exactFilter)) = (w', Ok c')
       /\ skiplistChunk_get c' "k" = Ok (RecordKindWrite, bytes "1", true)
       /\ (forall k, k <> "k"%string ->
             skiplistChunk_get c' k = skiplistChunk_get freshChunk k)
       /\ skiplistChunk_size c'
          = uint64 (skiplistChunk_size freshChunk + uint64 (len (bytes "1")))
       /\ skiplistChunk_numEntries c'
          = int64 (skiplistChunk_numEntries freshChunk + 1).
Proof.
  assert (Hs : sound freshChunk) by (constructor; lia).
  split; [exact Hs|]. split; [vm_compute; reflexivity|].
  apply (set_then_get_on_a_memtable_chunk (BF := exactFilter) (J := goJson)
           freshChunk "k" RecordKindWrite (bytes "1") emptyWorld Hs).
  - reflexivity.
  - reflexivity.
  - vm_compute. reflexivity.
Defined.



Lemma keyedChunk_sound : sound keyedChunk.
Proof.
  apply (built_Insert String.ltb String.eqb (NewSkipList 16) "k"%string
           (mkSkiplistEntry RecordKindWrite (bytes "1")) flatRand keyedList None
           keyedRand).
  - constructor. lia.
  - vm_compute. reflexivity.
Qed.


(** * The table in use *)

Section TableProofs.

Context {BF : BloomFilter} {J : Json}.

(** The sizes of the index and data encodings of a list of records. *)
Fixpoint ilen (es : list record) : Z :=
  match es with
  | [] => 0
  | e :: es' => 24 + len (list_byte_of_string (rkey e)) + ilen es'
  end.

Fixpoint dlen (es : list record) : Z :=
  match es with
  | [] => 0
  | e :: es' => 9 + len (rdata e) + dlen es'
  end.

Lemma ilen_nonneg (es : list record) : 0 <= ilen es.
Proof.
  induction es as [|e es IH]; cbn [ilen]; [lia|].
  pose proof (len_nonneg (list_byte_of_string (rkey e))). lia.
Qed.

Lemma dlen_nonneg (es : list record) : 0 <= dlen es.
Proof.
  induction es as [|e es IH]; cbn [dlen]; [lia|].
  pose proof (len_nonneg (rdata e)). lia.
Qed.

Lemma ilen_app (a b : list record) : ilen (a ++ b) = ilen a + ilen b.
Proof. induction a as [|e a IH]; cbn [ilen app]; lia. Qed.

Lemma dlen_app (a b : list record) : dlen (a ++ b) = dlen a + dlen b.
Proof. induction a as [|e a IH]; cbn [dlen app]; lia. Qed.

Lemma len_indexBytes (es : list record) : forall d, len (indexBytes es d) = ilen es.
Proof.
  induction es as [|[[kind key] data] es IH]; intros d; cbn [indexBytes ilen rkey fst snd].
  - reflexivity.
  - rewrite len_app, len_encI, IH. lia.
Qed.

Lemma len_dataBytes (es : list record) : len (dataBytes es) = dlen es.
Proof.
  induction es as [|[[kind key] data] es IH]; cbn [dataBytes dlen rdata snd].
  - reflexivity.
  - rewrite len_app, len_encD, IH. lia.
Qed.

Lemma indexBytes_app (a b : list record) :
  forall d, indexBytes (a ++ b) d = indexBytes a d ++ indexBytes b (d + dlen a).
Proof.
  induction a as [|[[kind key] data] a IH]; intros d;
    cbn [indexBytes app dlen rdata snd].
  - f_equal. lia.
  - rewrite IH, len_encD, <- app_assoc. do 3 f_equal. lia.
Qed.

Lemma dataBytes_app (a b : list record) :
  dataBytes (a ++ b) = dataBytes a ++ dataBytes b.
Proof.
  induction a as [|[[kind key] data] a IH]; cbn [dataBytes app]; [reflexivity|].
  rewrite IH, <- app_assoc. reflexivity.
Qed.

(** ** The sparse index as the builder grows it *)

Definition seg_key (seg : list record) : string :=
  match seg with
  | e :: _ => rkey e
  | [] => EmptyString
  end.

(** One anchor per block of records, at the offset where the block starts. *)
Fixpoint anchors (segs : list (list record)) (off : Z) : sparseIndex :=
  match segs with
  | [] => []
  | seg :: segs' => mkIndexEntry (seg_key seg) off :: anchors segs' (off + ilen seg)
  end.

Lemma anchors_app (a b : list (list record)) :
  forall off, anchors (a ++ b) off
              = anchors a off ++ anchors b (off + ilen (List.concat a)).
Proof.
  induction a as [|seg a IH]; intros off; cbn [anchors app List.concat].
  - f_equal. cbn [ilen]. lia.
  - rewrite IH, ilen_app. do 3 f_equal. lia.
Qed.

(** The sparse index [sp] after the records [es] with block size [bs]: the
    records split into non-empty blocks, all but the last one at least [bs]
    bytes of index long, with one anchor per block. *)
Definition blocked (bs : Z) (sp : sparseIndex) (es : list record) : Prop :=
  (es = [] /\ sp = [])
  \/ exists segs last,
       es = List.concat segs ++ last /\ last <> []
       /\ Forall (fun seg => seg <> [] /\ bs <= ilen seg) segs
       /\ sp = anchors (segs ++ [last]) 0.

Lemma at_snoc_last {A : Type} (l : list A) (x : A) :
  at_ (l ++ [x]) (len (l ++ [x]) - 1) = Ok x.
Proof.
  unfold at_, len. rewrite length_app. cbn [List.length].
  destruct (Z.ltb_spec (Z.of_nat (List.length l + 1) - 1) 0); [lia|].
  replace (Z.to_nat (Z.of_nat (List.length l + 1) - 1)) with (List.length l) by lia.
  rewrite nth_error_app2, Nat.sub_diag by lia. reflexivity.
Qed.

(** What [Write] does to the sparse index and to the count of entries. *)
Lemma Write_sparse (s s' : SSTableBuilder) (key : string) (kind : Z) (data : list byte) :
  SSTableBuilder_Write s key kind data = Ok s' ->
  exists cur,
    currentSparseIndexBlockSize s = Ok cur
    /\ b_sparseIndex s'
       = (if b_sparseIndexBlockSize s <=? cur
          then b_sparseIndex s ++ [mkIndexEntry key (b_indexPosition s)]
          else b_sparseIndex s)
    /\ b_meta s' = mkMeta (int64 (NumEntries (b_meta s) + 1)).
Proof.
  unfold SSTableBuilder_Write. destruct (b_built s); [discriminate|].
  destruct (String.ltb key (b_previousKey s)); [discriminate|].
  destruct (currentSparseIndexBlockSize s) as [cur| | |]; try discriminate.
  cbn [bind]. destruct (writeIndexEntry s (list_byte_of_string key) kind).
  destruct (writeDataEntry data). intros H. injection H as <-.
  exists cur. repeat split.
Qed.

Lemma blocked_step (bs : Z) (s s' : SSTableBuilder) (es : list record)
  (key : string) (kind : Z) (data : list byte) :
  b_sparseIndexBlockSize s = bs ->
  b_indexPosition s = ilen es -> ilen es < 2 ^ 63 ->
  blocked bs (b_sparseIndex s) es ->
  SSTableBuilder_Write s key kind data = Ok s' ->
  blocked bs (b_sparseIndex s') (es ++ [(kind, key, data)]).
Proof.
  intros Hbs Hpos Hbound Hb HW.
  destruct (Write_sparse s s' key kind data HW) as (cur & Hcur & Hsp & _).
  rewrite Hbs in Hsp. unfold currentSparseIndexBlockSize in Hcur.
  pose proof (ilen_nonneg es) as Hnn.
  destruct Hb as [[-> Hnil]|(segs & last & -> & Hlast & Hfull & Hanch)].
  - rewrite Hnil in Hcur, Hsp. cbn in Hcur. injection Hcur as <-.
    rewrite Hbs, Z.leb_refl in Hsp. right. exists [], [(kind, key, data)].
    split; [reflexivity|]. split; [discriminate|]. split; [constructor|].
    rewrite Hsp, Hpos. reflexivity.
  - rewrite anchors_app in Hanch. cbn [anchors] in Hanch. rewrite Z.add_0_l in Hanch.
    rewrite Hanch in Hcur.
    match type of Hcur with context [?x =? 0] =>
      replace (x =? 0) with false in Hcur
    end.
    2:{ symmetry. apply Z.eqb_neq. rewrite len_app.
        pose proof (len_nonneg (anchors segs 0)). unfold len at 2.
        cbn [List.length]. lia. }
    rewrite at_snoc_last in Hcur. cbn [bind ixOffset] in Hcur.
    rewrite Hpos, ilen_app in Hcur.
    pose proof (ilen_nonneg (List.concat segs)). pose proof (ilen_nonneg last).
    rewrite ilen_app in Hbound.
    rewrite int64_small in Hcur by lia. injection Hcur as <-.
    right. destruct (Z.leb_spec bs (ilen (List.concat segs) + ilen last - ilen (List.concat segs)))
      as [Hle|Hgt].
    + exists (segs ++ [last]), [(kind, key, data)].
      rewrite List.concat_app. cbn [List.concat]. rewrite app_nil_r.
      split; [reflexivity|]. split; [discriminate|]. split.
      * apply Forall_app. split; [exact Hfull|]. constructor; [|constructor].
        split; [exact Hlast|lia].
      * rewrite Hsp, Hanch, Hpos, (anchors_app (segs ++ [last])), anchors_app.
        cbn [anchors seg_key rkey fst snd]. rewrite List.concat_app. cbn [List.concat].
        rewrite app_nil_r, !ilen_app, !Z.add_0_l. reflexivity.
    + exists segs, (last ++ [(kind, key, data)]).
      split; [rewrite app_assoc; reflexivity|]. split.
      { destruct last; discriminate. }
      split; [exact Hfull|].
      rewrite Hsp, Hanch, anchors_app. cbn [anchors]. rewrite Z.add_0_l.
      destruct last as [|e last]; [contradiction|]. reflexivity.
Qed.

(** ** The builder after a sequence of writes *)

Definition keyBytes (e : record) : list byte := list_byte_of_string (rkey e).

(** The state of a builder that started with the filter [f0] and the block
    size [bs] and has accepted the records [es]. *)
Record wrote (f0 : bloom) (bs : Z) (s : SSTableBuilder) (es : list record) : Prop := {
  wr_index : b_index s = indexBytes es 0;
  wr_data : b_data s = dataBytes es;
  wr_ipos : b_indexPosition s = ilen es;
  wr_dpos : b_dataPosition s = dlen es;
  wr_built : b_built s = false;
  wr_prev : b_previousKey s = last (map rkey es) EmptyString;
  wr_filter : b_filter s = fold_left bloom_Add (map keyBytes es) f0;
  wr_bs : b_sparseIndexBlockSize s = bs;
  wr_sparse : blocked bs (b_sparseIndex s) es;
  wr_meta : b_meta s = mkMeta (int64 (len es))
}.

Lemma sorted_app_lt (a b : list string) :
  ascending (a ++ b) -> forall x y, In x a -> In y b -> String.ltb x y = true.
Proof.
  induction a as [|k a IH]; intros H x y Hx Hy; [contradiction|].
  cbn [app] in H. apply StronglySorted_inv in H. destruct H as [Hs Hk].
  destruct Hx as [<-|Hx].
  - rewrite Forall_forall in Hk. apply Hk. apply in_or_app. right. exact Hy.
  - apply IH; assumption.
Qed.

Lemma sorted_app_l (a b : list string) : ascending (a ++ b) -> ascending a.
Proof.
  induction a as [|k a IH]; intros H; [constructor|].
  cbn [app] in H. apply StronglySorted_inv in H. destruct H as [Hs Hk].
  constructor; [apply IH; exact Hs|].
  rewrite Forall_forall in *. intros x Hx. apply Hk. apply in_or_app. left. exact Hx.
Qed.

Lemma sorted_app_r (a b : list string) : ascending (a ++ b) -> ascending b.
Proof.
  induction a as [|k a IH]; intros H; [exact H|].
  cbn [app] in H. apply StronglySorted_inv in H. apply IH. apply H.
Qed.

Lemma last_accepts (ks : list string) (k : string) (rest : list string) :
  ascending (ks ++ k :: rest) -> String.ltb k (last ks EmptyString) = false.
Proof.
  intros H. destruct ks as [|k0 ks0]; [apply ltb_empty|].
  destruct (@exists_last _ (k0 :: ks0)) as (ks' & x & E); [discriminate|].
  rewrite E in *. rewrite last_last. apply ltb_asym.
  eapply sorted_app_lt; [exact H| |left; reflexivity].
  apply in_or_app. right. left. reflexivity.
Qed.

Lemma wrote_step (f0 : bloom) (bs : Z) (s : SSTableBuilder) (es : list record)
  (key : string) (kind : Z) (data : list byte) :
  wrote f0 bs s es ->
  String.ltb key (last (map rkey es) EmptyString) = false ->
  ilen (es ++ [(kind, key, data)]) < 2 ^ 63 ->
  dlen (es ++ [(kind, key, data)]) < 2 ^ 63 ->
  exists s',
    SSTableBuilder_Write s key kind data = Ok s'
    /\ wrote f0 bs s' (es ++ [(kind, key, data)])
    /\ b_root s' = b_root s /\ b_name s' = b_name s.
Proof.
  intros W Hk Bi Bd. destruct W.
  rewrite ilen_app in Bi. rewrite dlen_app in Bd.
  cbn [ilen dlen rkey rdata fst snd] in Bi, Bd.
  pose proof (ilen_nonneg es). pose proof (dlen_nonneg es).
  pose proof (len_nonneg (list_byte_of_string key)). pose proof (len_nonneg data).
  destruct (Write_ok s key kind data) as
    (s' & E & Ei & Ed & Pi & Pd & Hb & Hp & Hr & Hn & Hf & Hbs);
    try assumption; try lia.
  { rewrite wr_prev0. exact Hk. }
  destruct (Write_sparse s s' key kind data E) as (_ & _ & _ & Hm).
  exists s'. split; [exact E|]. split; [|split; assumption].
  constructor.
  - rewrite Ei, wr_index0, wr_dpos0, indexBytes_app. cbn [indexBytes].
    rewrite app_nil_r, Z.add_0_l. reflexivity.
  - rewrite Ed, wr_data0, dataBytes_app. cbn [dataBytes]. rewrite app_nil_r.
    reflexivity.
  - rewrite Pi, wr_ipos0, ilen_app. cbn [ilen rkey fst snd]. lia.
  - rewrite Pd, wr_dpos0, dlen_app. cbn [dlen rdata snd]. lia.
  - exact Hb.
  - rewrite Hp, map_app. cbn [map rkey fst snd]. rewrite last_last. reflexivity.
  - rewrite Hf, wr_filter0, map_app, fold_left_app. reflexivity.
  - congruence.
  - apply (blocked_step bs s s'); try assumption. lia.
  - rewrite Hm, wr_meta0. cbn [NumEntries]. rewrite int64_succ. do 2 f_equal.
    rewrite len_app. reflexivity.
Qed.

(** One [Write] per record, for records with ascending keys. *)
Lemma writeAll_wrote (f0 : bloom) (bs : Z) (es : list record) :
  forall (done : list record) (s : SSTableBuilder),
    wrote f0 bs s done ->
    ascending (map rkey (done ++ es)) ->
    ilen (done ++ es) < 2 ^ 63 -> dlen (done ++ es) < 2 ^ 63 ->
    exists s',
      writeAll s es = Ok s'
      /\ wrote f0 bs s' (done ++ es)
      /\ b_root s' = b_root s /\ b_name s' = b_name s.
Proof.
  induction es as [|[[kind key] data] es IH]; intros done s W Hs Bi Bd.
  - exists s. rewrite app_nil_r. split; [reflexivity|].
    split; [exact W|]. split; reflexivity.
  - cbn [writeAll].
    assert (Hs' : ascending (map rkey ((done ++ [(kind, key, data)]) ++ es)))
      by (rewrite <- app_assoc; exact Hs).
    assert (Bi' : ilen ((done ++ [(kind, key, data)]) ++ es) < 2 ^ 63)
      by (rewrite <- app_assoc; exact Bi).
    assert (Bd' : dlen ((done ++ [(kind, key, data)]) ++ es) < 2 ^ 63)
      by (rewrite <- app_assoc; exact Bd).
    pose proof (ilen_nonneg es). pose proof (dlen_nonneg es).
    destruct (wrote_step f0 bs s done key kind data W) as (s1 & E & W1 & Hr1 & Hn1).
    + rewrite map_app in Hs. cbn [map rkey fst snd] in Hs.
      eapply last_accepts. exact Hs.
    + rewrite ilen_app in Bi'. lia.
    + rewrite dlen_app in Bd'. lia.
    + rewrite E. cbn [bind].
      destruct (IH _ s1 W1 Hs' Bi' Bd') as (s' & E' & W' & Hr & Hn).
      exists s'. split; [exact E'|]. split.
      * rewrite <- app_assoc in W'. exact W'.
      * split; congruence.
Qed.

(** ** The search in the sparse index *)

Lemma at_inv {A : Type} (l : list A) (i : Z) (x : A) :
  at_ l i = Ok x -> 0 <= i /\ nth_error l (Z.to_nat i) = Some x.
Proof.
  unfold at_. destruct (Z.ltb_spec i 0); [discriminate|].
  destruct (nth_error l (Z.to_nat i)); [|discriminate].
  intros Hx. injection Hx as ->. split; [lia|reflexivity].
Qed.

Lemma at_ok {A : Type} (l : list A) (i : Z) :
  0 <= i < len l -> exists x, at_ l i = Ok x.
Proof.
  intros Hi. unfold at_. destruct (Z.ltb_spec i 0); [lia|].
  destruct (nth_error l (Z.to_nat i)) as [x|] eqn:E; [eauto|].
  apply nth_error_None in E. unfold len in Hi. lia.
Qed.

Lemma sorted_next (ks : list string) :
  ascending ks ->
  forall j x y, nth_error ks j = Some x -> nth_error ks (S j) = Some y ->
                String.ltb x y = true.
Proof.
  induction 1 as [|k ks Hs IH Hk]; intros j x y Hx Hy; [destruct j; discriminate|].
  destruct j as [|j].
  - cbn [nth_error] in Hx. injection Hx as <-. rewrite Forall_forall in Hk.
    apply Hk. apply (nth_error_In ks 0). exact Hy.
  - eapply IH; eassumption.
Qed.

Lemma ceil_half (min max : Z) :
  0 <= min -> min < max ->
  min < Z.quot (min + max) 2 + Z.rem (min + max) 2 <= max.
Proof.
  intros H0 H1. rewrite Z.quot_div_nonneg, Z.rem_mod_nonneg by lia.
  pose proof (Z.div_mod (min + max) 2 ltac:(lia)).
  pose proof (Z.mod_pos_bound (min + max) 2 ltac:(lia)). lia.
Qed.

Lemma searchIndex_ok (sp : sparseIndex) (key : string) :
  ascending (map ixKey sp) ->
  forall (fuel : nat) (min max hi : Z) (a h : indexEntry),
    0 <= min <= max -> max <= hi <= max + 1 ->
    at_ sp min = Ok a -> String.ltb key (ixKey a) = false ->
    at_ sp hi = Ok h -> String.ltb key (ixKey h) = true ->
    (Z.to_nat (max - min) < fuel)%nat ->
    exists j x y,
      searchIndex fuel sp key min max = Ok (ixOffset x, ixOffset y)
      /\ nth_error sp j = Some x /\ nth_error sp (S j) = Some y
      /\ String.ltb key (ixKey x) = false /\ String.ltb key (ixKey y) = true.
Proof.
  intros Hs. induction fuel as [|fuel IH];
    intros min max hi a h Hmin Hhi Ha Hka Hh Hkh Hf; [lia|].
  cbn [searchIndex].
  destruct (at_inv _ _ _ Ha) as [_ Hna]. destruct (at_inv _ _ _ Hh) as [_ Hnh].
  assert (Hlen : hi < len sp).
  { apply nth_error_Some_lt in Hnh. unfold len. lia. }
  destruct (Z.eqb_spec max min) as [->|Hne]; cbn [negb].
  - (* the loop is over *)
    rewrite Ha. cbn [bind].
    assert (hi = min + 1).
    { destruct (Z.eq_dec hi min) as [->|]; [|lia].
      rewrite Ha in Hh. injection Hh as <-. congruence. }
    subst hi. rewrite Hh. cbn [bind].
    exists (Z.to_nat min), a, h. split; [reflexivity|]. split; [exact Hna|].
    split; [|split; assumption].
    replace (S (Z.to_nat min)) with (Z.to_nat (min + 1)) by lia. exact Hnh.
  - pose proof (ceil_half min max ltac:(lia) ltac:(lia)) as Hidx.
    set (idx := Z.quot (min + max) 2 + Z.rem (min + max) 2) in *.
    destruct (at_ok sp idx ltac:(lia)) as [v Hv]. rewrite Hv. cbn [bind].
    destruct (String.ltb key (ixKey v)) eqn:E1.
    + apply (IH min (idx - 1) idx a v); try assumption; lia.
    + destruct (String.ltb (ixKey v) key) eqn:E2.
      * apply (IH idx max hi v h); try assumption; lia.
      * assert (idx < hi).
        { destruct (Z.eq_dec idx hi) as [E|]; [|lia].
          rewrite E, Hh in Hv. injection Hv as <-. congruence. }
        destruct (at_ok sp (idx + 1) ltac:(lia)) as [y Hy]. rewrite Hy. cbn [bind].
        destruct (at_inv _ _ _ Hv) as [_ Hnv]. destruct (at_inv _ _ _ Hy) as [_ Hny].
        replace (Z.to_nat (idx + 1)) with (S (Z.to_nat idx)) in Hny by lia.
        exists (Z.to_nat idx), v, y. split; [reflexivity|].
        split; [exact Hnv|]. split; [exact Hny|]. split; [exact E1|].
        rewrite (ltb_total _ _ E1 E2).
        apply (sorted_next _ Hs (Z.to_nat idx)); rewrite nth_error_map;
          [rewrite Hnv|rewrite Hny]; reflexivity.
Qed.

(** [getIndexRange] for a key that is not below the first anchor: the block
    whose anchor is the last one not above the key. *)
Lemma getIndexRange_ok (s : SSTable) (key : string) (first : indexEntry) :
  ascending (map ixKey (t_sparseIndex s)) ->
  nth_error (t_sparseIndex s) 0 = Some first ->
  String.ltb key (ixKey first) = false ->
  exists j x,
    nth_error (t_sparseIndex s) j = Some x
    /\ String.ltb key (ixKey x) = false
    /\ ((nth_error (t_sparseIndex s) (S j) = None
         /\ getIndexRange s key = Ok (ixOffset x, Len (t_index s)))
        \/ exists y,
             nth_error (t_sparseIndex s) (S j) = Some y
             /\ String.ltb key (ixKey y) = true
             /\ getIndexRange s key = Ok (ixOffset x, ixOffset y)).
Proof.
  intros Hs Hfirst Hk. unfold getIndexRange. set (sp := t_sparseIndex s) in *.
  assert (Hpos : 0 < len sp).
  { apply nth_error_Some_lt in Hfirst. unfold len. lia. }
  destruct (at_ok sp (len sp - 1) ltac:(lia)) as [lst Hlst].
  rewrite Hlst. cbn [bind]. rewrite leb_ltb.
  destruct (at_inv _ _ _ Hlst) as [_ Hnl].
  destruct (String.ltb key (ixKey lst)) eqn:E; cbn [negb].
  - destruct (searchIndex_ok sp key Hs (S (List.length sp)) 0 (len sp - 1)
                (len sp - 1) first lst) as (j & x & y & Hr & Hx & Hy & Hkx & Hky);
      try assumption; try lia.
    { apply (at_nth sp 0 first Hfirst). }
    { unfold len. lia. }
    exists j, x. split; [exact Hx|]. split; [exact Hkx|]. right.
    exists y. split; [exact Hy|]. split; [exact Hky|exact Hr].
  - exists (Z.to_nat (len sp - 1)), lst. split; [exact Hnl|]. split; [exact E|].
    left. split; [|reflexivity]. apply nth_error_None. unfold len. lia.
Qed.

(** ** The scan of one block of the index *)

Lemma slice_mid (a b c : list byte) (lo hi : Z) :
  lo = len a -> hi = len a + len b -> slice (a ++ b ++ c) lo hi = Ok b.
Proof.
  intros -> ->. unfold slice. rewrite !len_app.
  pose proof (len_nonneg a). pose proof (len_nonneg b). pose proof (len_nonneg c).
  destruct (Z.leb_spec 0 (len a)); [|lia].
  destruct (Z.leb_spec (len a) (len a + len b)); [|lia].
  destruct (Z.leb_spec (len a + len b) (len a + (len b + len c))); [|lia].
  cbn [andb]. rewrite skipn_len_app.
  replace (len a + len b - len a) with (len b) by lia.
  rewrite firstn_len_app. reflexivity.
Qed.

Lemma bytes_eqb_eq (a b : list byte) : bytes_eqb a b = true <-> a = b.
Proof.
  revert b. induction a as [|x a IH]; intros [|y b]; cbn [bytes_eqb];
    try (split; [discriminate|discriminate]); [split; reflexivity|].
  rewrite andb_true_iff, IH. split.
  - intros [E ->]. apply Byte.byte_dec_bl in E. subst. reflexivity.
  - intros E. injection E as -> ->. split; [apply Byte.byte_dec_lb|]; reflexivity.
Qed.

Lemma keyBytes_inj (a b : string) :
  list_byte_of_string a = list_byte_of_string b -> a = b.
Proof.
  intros E. rewrite <- (string_of_list_byte_of_string a),
    <- (string_of_list_byte_of_string b), E. reflexivity.
Qed.

(** What the scan of the records [rest], the first of which has its data at
    offset [d], returns for the key [kb]. *)
Fixpoint scanResult (rest : list record) (d : Z) (kb : list byte) : Z * Z * bool :=
  match rest with
  | [] => (0, 0, false)
  | e :: rest' =>
      if bytes_eqb (keyBytes e) kb then (uint64 (rkind e), d, true)
      else scanResult rest' (d + (9 + len (rdata e))) kb
  end.

Lemma scanLoop_spec (kb : list byte) (rest : list record) :
  forall (A : list byte) (d : Z) (fuel : nat),
    len (A ++ indexBytes rest d) < 2 ^ 63 ->
    0 <= d -> d + dlen rest < 2 ^ 63 ->
    (List.length rest < fuel)%nat ->
    scanLoop fuel (A ++ indexBytes rest d) kb (len A) (len (A ++ indexBytes rest d))
    = Ok (scanResult rest d kb).
Proof.
  induction rest as [|[[kind key] data] rest IH]; intros A d fuel Hb Hd Hdl Hf;
    (destruct fuel as [|fuel]; [cbn [List.length] in Hf; lia|]);
    cbn [scanLoop indexBytes scanResult].
  - rewrite app_nil_r, Z.ltb_irrefl. reflexivity.
  - set (k := list_byte_of_string key) in *.
    set (d' := d + len (encD data)) in *.
    set (buffer := A ++ encI kind k d ++ indexBytes rest d') in *.
    assert (Hlen : len buffer = len A + (24 + len k) + ilen rest).
    { subst buffer. rewrite !len_app, len_encI, len_indexBytes. lia. }
    assert (Hb' : len buffer < 2 ^ 63) by exact Hb.
    pose proof (len_nonneg A). pose proof (len_nonneg k).
    pose proof (ilen_nonneg rest). pose proof (dlen_nonneg rest).
    pose proof (len_nonneg data).
    cbn [dlen rdata snd] in Hdl.
    destruct (Z.ltb_spec (len A) (len buffer)); [|lia].
    assert (E1 : buffer = A ++ PutUint64 kind
                   ++ (PutUint64 (uint64 (len k)) ++ k ++ PutUint64 (uint64 d)
                       ++ indexBytes rest d')).
    { subst buffer. unfold encI. rewrite <- !app_assoc. reflexivity. }
    rewrite (int64_small (len A + 8)) by lia.
    rewrite E1 at 1. rewrite (slice_mid A (PutUint64 kind));
      [|reflexivity|rewrite PutUint64_length; reflexivity].
    cbn [bind]. rewrite (int64_small (len A + 8 + 8)) by lia.
    assert (E2 : buffer = (A ++ PutUint64 kind) ++ PutUint64 (uint64 (len k))
                   ++ (k ++ PutUint64 (uint64 d) ++ indexBytes rest d')).
    { rewrite E1, <- !app_assoc. reflexivity. }
    rewrite E2 at 1. rewrite (slice_mid (A ++ PutUint64 kind));
      [|rewrite len_app, PutUint64_length; reflexivity
       |rewrite len_app, !PutUint64_length; lia].
    cbn [bind]. rewrite Uint64_PutUint64.
    rewrite (uint64_small (len k)) by lia.
    rewrite (uint64_small (len k)) by lia.
    rewrite (int64_small (len k)) by lia.
    rewrite (int64_small (len A + 8 + 8 + len k)) by lia.
    assert (E3 : buffer = (A ++ PutUint64 kind ++ PutUint64 (len k)) ++ k
                   ++ (PutUint64 (uint64 d) ++ indexBytes rest d')).
    { rewrite E1, (uint64_small (len k)), <- !app_assoc by lia. reflexivity. }
    rewrite E3 at 1. rewrite (slice_mid (A ++ PutUint64 kind ++ PutUint64 (len k)));
      [|rewrite !len_app, !PutUint64_length; lia
       |rewrite !len_app, !PutUint64_length; lia].
    cbn [bind]. unfold keyBytes. cbn [rkey rkind rdata fst snd]. fold k.
    destruct (bytes_eqb k kb).
    + rewrite (int64_small (len A + 8 + 8 + len k + 8)) by lia.
      assert (E4 : buffer = (A ++ PutUint64 kind ++ PutUint64 (len k) ++ k)
                     ++ PutUint64 (uint64 d) ++ indexBytes rest d').
      { rewrite E3, <- !app_assoc. reflexivity. }
      rewrite E4. rewrite (slice_mid (A ++ PutUint64 kind ++ PutUint64 (len k) ++ k));
        [|rewrite !len_app, !PutUint64_length; lia
         |rewrite !len_app, !PutUint64_length; lia].
      cbn [bind]. rewrite !Uint64_PutUint64.
      rewrite (uint64_small d) by lia. rewrite (uint64_small d) by lia.
      rewrite (int64_small d) by lia. reflexivity.
    + rewrite (int64_small (len k + 8)) by lia.
      rewrite (int64_small (len A + 8 + 8 + (len k + 8))) by lia.
      replace (len A + 8 + 8 + (len k + 8)) with (len (A ++ encI kind k d))
        by (rewrite len_app, len_encI; lia).
      replace buffer with ((A ++ encI kind k d) ++ indexBytes rest d')
        by (subst buffer; rewrite <- app_assoc; reflexivity).
      replace (d + (9 + len data)) with d' by (subst d'; rewrite len_encD; lia).
      apply IH.
      * rewrite <- app_assoc. exact Hb.
      * subst d'. rewrite len_encD. lia.
      * subst d'. rewrite len_encD. lia.
      * cbn [List.length] in Hf. lia.
Qed.

(** ** Blocks and anchors *)

Lemma seg_key_app (seg rest : list record) :
  seg <> [] -> seg_key (seg ++ rest) = seg_key seg.
Proof. destruct seg; [contradiction|reflexivity]. Qed.

Lemma seg_key_in (seg : list record) : seg <> [] -> In (seg_key seg) (map rkey seg).
Proof. destruct seg; [contradiction|]. intros _. left. reflexivity. Qed.

(** The block behind the [j]-th anchor, and what the next anchor is. *)
Lemma anchors_nth (all : list (list record)) :
  Forall (fun seg => seg <> []) all ->
  forall (off : Z) (j : nat) (x : indexEntry),
    nth_error (anchors all off) j = Some x ->
    exists pre seg post,
      List.concat all = pre ++ seg ++ post /\ seg <> []
      /\ x = mkIndexEntry (seg_key seg) (off + ilen pre)
      /\ match nth_error (anchors all off) (S j) with
         | None => post = []
         | Some y => post <> []
                     /\ y = mkIndexEntry (seg_key post) (off + ilen pre + ilen seg)
         end.
Proof.
  induction 1 as [|seg0 rest Hne Hall IH]; intros off j x Hx;
    [destruct j; discriminate|].
  destruct j as [|j]; cbn [anchors nth_error] in Hx.
  - injection Hx as <-. exists [], seg0, (List.concat rest).
    split; [reflexivity|]. split; [exact Hne|].
    split; [cbn [ilen]; f_equal; lia|].
    destruct rest as [|seg1 rest]; cbn [anchors nth_error List.concat];
      [reflexivity|].
    inversion Hall as [|? ? Hne1 _]; subst.
    split; [destruct seg1; [contradiction|discriminate]|].
    rewrite seg_key_app by exact Hne1. cbn [ilen]. f_equal. lia.
  - destruct (IH (off + ilen seg0) j x Hx) as (pre & seg & post & E & Hseg & -> & Hn).
    exists (seg0 ++ pre), seg, post. cbn [List.concat].
    split; [rewrite E, <- app_assoc; reflexivity|]. split; [exact Hseg|].
    rewrite ilen_app. split; [f_equal; lia|].
    change (nth_error (anchors (seg0 :: rest) off) (S (S j)))
      with (nth_error (anchors rest (off + ilen seg0)) (S j)).
    destruct (nth_error (anchors rest (off + ilen seg0)) (S j)) as [y|];
      [|exact Hn].
    destruct Hn as [Hp ->]. split; [exact Hp|]. f_equal. lia.
Qed.

Lemma anchors_keys (all : list (list record)) :
  Forall (fun seg => seg <> []) all ->
  forall off k, In k (map ixKey (anchors all off)) ->
                In k (map rkey (List.concat all)).
Proof.
  induction 1 as [|seg rest Hne _ IH]; intros off k Hk; [contradiction|].
  cbn [anchors map List.concat] in *. rewrite map_app. apply in_or_app.
  destruct Hk as [<-|Hk]; [left; apply seg_key_in; exact Hne|right; eapply IH; exact Hk].
Qed.

Lemma anchors_sorted (all : list (list record)) :
  Forall (fun seg => seg <> []) all ->
  ascending (map rkey (List.concat all)) ->
  forall off, ascending (map ixKey (anchors all off)).
Proof.
  induction 1 as [|seg rest Hne Hall IH]; intros Hs off; [constructor|].
  cbn [anchors map List.concat] in *. rewrite map_app in Hs.
  constructor; [apply IH; eapply sorted_app_r; exact Hs|].
  apply Forall_forall. intros k Hk.
  apply (sorted_app_lt _ _ Hs); [apply seg_key_in; exact Hne|].
  eapply anchors_keys; eassumption.
Qed.

(** A key between two anchors lives in the block between them. *)
Lemma block_holds (pre seg post : list record) (key : string) :
  ascending (map rkey (pre ++ seg ++ post)) ->
  seg <> [] ->
  String.ltb key (seg_key seg) = false ->
  (post = [] \/ String.ltb key (seg_key post) = true) ->
  forall e, In e (pre ++ seg ++ post) -> rkey e = key ->
    exists s1 s2, seg = s1 ++ e :: s2 /\ ~ In key (map rkey s1).
Proof.
  intros Hs Hne Hlo Hhi e He Hk. rewrite !map_app in Hs.
  pose proof (sorted_app_r _ _ Hs) as Hs1.
  assert (Hin : In e seg).
  { apply in_app_or in He. destruct He as [He|He].
    - exfalso.
      assert (Hlt : String.ltb (rkey e) (seg_key seg) = true).
      { apply (sorted_app_lt _ _ Hs); [apply in_map; exact He|].
        apply in_or_app. left. apply seg_key_in. exact Hne. }
      rewrite Hk in Hlt. congruence.
    - apply in_app_or in He. destruct He as [He|He]; [exact He|]. exfalso.
      destruct Hhi as [->|Hhi]; [contradiction|].
      pose proof (sorted_app_r _ _ Hs1) as Hs2.
      destruct post as [|p0 post]; [contradiction|]. cbn [seg_key map] in *.
      apply StronglySorted_inv in Hs2. destruct Hs2 as [_ Hall].
      destruct He as [->|He].
      + rewrite Hk, ltb_irrefl in Hhi. discriminate.
      + rewrite Forall_forall in Hall.
        pose proof (Hall _ (in_map rkey _ _ He)) as Hlt. unfold key_lt in Hlt.
        rewrite Hk in Hlt. rewrite (ltb_asym _ _ Hlt) in Hhi. discriminate. }
  destruct (in_split _ _ Hin) as (s1 & s2 & ->). exists s1, s2.
  split; [reflexivity|]. intros Hs1k.
  rewrite map_app in Hs1. pose proof (sorted_app_l _ _ Hs1) as Hseg.
  pose proof (sorted_app_lt _ _ Hseg key (rkey e) Hs1k (or_introl eq_refl)) as Hlt.
  rewrite Hk, ltb_irrefl in Hlt. discriminate.
Qed.

Lemma scanResult_found (s1 s2 : list record) (e : record) (d : Z) :
  ~ In (rkey e) (map rkey s1) ->
  scanResult (s1 ++ e :: s2) d (keyBytes e) = (uint64 (rkind e), d + dlen s1, true).
Proof.
  revert d. induction s1 as [|x s1 IH]; intros d Hno; cbn [app scanResult dlen].
  - replace (bytes_eqb (keyBytes e) (keyBytes e)) with true
      by (symmetry; apply bytes_eqb_eq; reflexivity).
    f_equal. f_equal. lia.
  - destruct (bytes_eqb (keyBytes x) (keyBytes e)) eqn:E.
    + exfalso. apply Hno. left. apply bytes_eqb_eq in E.
      apply keyBytes_inj. exact E.
    + rewrite IH by (intros H; apply Hno; right; exact H).
      f_equal. f_equal. lia.
Qed.

Lemma scanResult_absent (seg : list record) (key : string) (d : Z) :
  ~ In key (map rkey seg) ->
  scanResult seg d (list_byte_of_string key) = (0, 0, false).
Proof.
  revert d. induction seg as [|x seg IH]; intros d Hno; cbn [scanResult];
    [reflexivity|].
  destruct (bytes_eqb (keyBytes x) (list_byte_of_string key)) eqn:E.
  - exfalso. apply Hno. left. apply bytes_eqb_eq in E. apply keyBytes_inj. exact E.
  - apply IH. intros H. apply Hno. right. exact H.
Qed.

Lemma length_le_ilen (es : list record) : Z.of_nat (List.length es) <= ilen es.
Proof.
  induction es as [|e es IH]; cbn [List.length ilen]; [lia|].
  pose proof (len_nonneg (list_byte_of_string (rkey e))). lia.
Qed.

(** ** [Read] on a table that holds the records [es] *)

(** The table that [Build] loads after the records [es] were written. *)
Record holds (bs : Z) (tbl : SSTable) (es : list record) : Prop := {
  ho_index : t_index tbl = mmap_of (indexBytes es 0);
  ho_data : t_data tbl = mmap_of (dataBytes es);
  ho_sparse : blocked bs (t_sparseIndex tbl) es;
  ho_sorted : ascending (map rkey es);
  ho_ilen : ilen es < 2 ^ 63;
  ho_dlen : dlen es < 2 ^ 63
}.

Lemma blocked_all (bs : Z) (sp : sparseIndex) (es : list record) :
  blocked bs sp es -> es <> [] ->
  exists all, List.concat all = es /\ Forall (fun seg => seg <> []) all
              /\ sp = anchors all 0.
Proof.
  intros [[-> _]|(segs & last & -> & Hlast & Hfull & ->)] Hne; [contradiction|].
  exists (segs ++ [last]). rewrite List.concat_app. cbn [List.concat].
  rewrite app_nil_r. split; [reflexivity|]. split; [|reflexivity].
  apply Forall_app. split; [|constructor; [exact Hlast|constructor]].
  eapply Forall_impl; [|exact Hfull]. intros seg [H _]. exact H.
Qed.

Lemma range_ok (bs : Z) (tbl : SSTable) (es : list record) (key : string) :
  holds bs tbl es -> es <> [] ->
  String.ltb key (seg_key es) = false ->
  exists pre seg post,
    es = pre ++ seg ++ post /\ seg <> []
    /\ String.ltb key (seg_key seg) = false
    /\ (post = [] \/ String.ltb key (seg_key post) = true)
    /\ getIndexRange tbl key = Ok (ilen pre, ilen pre + ilen seg).
Proof.
  intros [Hi Hd Hb Hs Bi Bd] Hne Hk.
  destruct (blocked_all bs _ es Hb Hne) as (all & Hall & Hnes & Hsp).
  assert (Hsorted : ascending (map ixKey (t_sparseIndex tbl))).
  { rewrite Hsp. apply anchors_sorted; [exact Hnes|]. rewrite Hall. exact Hs. }
  assert (Hfirst : exists first,
             nth_error (t_sparseIndex tbl) 0 = Some first
             /\ ixKey first = seg_key es).
  { rewrite Hsp. destruct all as [|seg0 all].
    - cbn in Hall. congruence.
    - inversion Hnes as [|? ? H0 _]; subst. eexists. split; [reflexivity|].
      cbn [ixKey List.concat]. rewrite seg_key_app by exact H0. reflexivity. }
  destruct Hfirst as (first & Hfirst & Hfk).
  destruct (getIndexRange_ok tbl key first Hsorted Hfirst)
    as (j & x & Hx & Hkx & Hnext); [rewrite Hfk; exact Hk|].
  rewrite Hsp in Hx, Hnext.
  destruct (anchors_nth all Hnes 0 j x Hx) as (pre & seg & post & E & Hseg & -> & Hn).
  rewrite Hall in E. exists pre, seg, post.
  split; [exact E|]. split; [exact Hseg|]. split; [exact Hkx|].
  cbn [ixOffset] in Hnext. rewrite Z.add_0_l in Hnext.
  destruct Hnext as [[Hnone ->]|(y & Hy & Hky & ->)].
  - rewrite Hnone in Hn. subst post. split; [left; reflexivity|].
    rewrite Hi, Len_mmap_of, len_indexBytes, E, !ilen_app. cbn [ilen].
    do 2 f_equal. lia.
  - rewrite Hy in Hn. destruct Hn as [Hp ->]. cbn [ixKey ixOffset] in *.
    split; [right; exact Hky|]. rewrite Z.add_0_l. reflexivity.
Qed.

Lemma scanIndex_ok (bs : Z) (tbl : SSTable) (pre seg post : list record)
  (kb : list byte) :
  holds bs tbl (pre ++ seg ++ post) -> seg <> [] ->
  scanIndex tbl kb (ilen pre) (ilen pre + ilen seg)
  = Ok (scanResult seg (dlen pre) kb).
Proof.
  intros [Hi Hd Hb Hs Bi Bd] Hne. unfold scanIndex. rewrite Hi.
  rewrite !ilen_app in Bi. rewrite !dlen_app in Bd.
  pose proof (ilen_nonneg pre). pose proof (ilen_nonneg seg).
  pose proof (ilen_nonneg post). pose proof (dlen_nonneg pre).
  pose proof (dlen_nonneg seg). pose proof (dlen_nonneg post).
  replace (ilen pre + ilen seg - ilen pre) with (ilen seg) by lia.
  rewrite (int64_small (ilen seg)) by lia.
  assert (Hpos : 0 < ilen seg).
  { destruct seg as [|e seg]; [contradiction|]. cbn [ilen].
    pose proof (len_nonneg (list_byte_of_string (rkey e))).
    pose proof (ilen_nonneg seg). lia. }
  rewrite (ReadAt_mid _ (indexBytes pre 0) (indexBytes seg (dlen pre))
             (indexBytes post (dlen pre + dlen seg)) (ilen seg) (ilen pre)).
  - cbn [bind].
    pose proof (scanLoop_spec kb seg [] (dlen pre)
                  (S (List.length (indexBytes seg (dlen pre))))) as Hscan.
    cbn [app] in Hscan. change (len (@nil byte)) with 0 in Hscan.
    rewrite len_indexBytes in Hscan. apply Hscan; try lia.
    pose proof (length_le_ilen seg).
    pose proof (len_indexBytes seg (dlen pre)) as Hl. unfold len in Hl. lia.
  - rewrite !indexBytes_app. reflexivity.
  - intros E. apply (f_equal len) in E. rewrite len_indexBytes, !ilen_app in E.
    change (len (@nil byte)) with 0 in E. lia.
  - rewrite len_indexBytes. reflexivity.
  - rewrite len_indexBytes. reflexivity.
  - lia.
Qed.

Lemma first_key_le (es : list record) (e : record) :
  ascending (map rkey es) -> In e es -> String.ltb (rkey e) (seg_key es) = false.
Proof.
  intros Hs He. destruct es as [|e0 es]; [contradiction|]. cbn [seg_key map] in *.
  destruct He as [->|He]; [apply ltb_irrefl|].
  apply StronglySorted_inv in Hs. destruct Hs as [_ Hall].
  rewrite Forall_forall in Hall. apply ltb_asym. apply Hall. apply in_map. exact He.
Qed.

(** [Read] of a key that was written, when the filter accepts it. *)
Lemma Read_present (bs : Z) (tbl : SSTable) (es : list record) (e : record) :
  holds bs tbl es -> In e es ->
  bloom_Test (t_filter tbl) (keyBytes e) = true ->
  SSTable_Read tbl (rkey e) = Ok (uint64 (rkind e), rdata e, true).
Proof.
  intros Hh He Hf. pose proof Hh as [Hi Hd Hb Hs Bi Bd].
  assert (Hne : es <> []) by (destruct es; [contradiction|discriminate]).
  destruct (range_ok bs tbl es (rkey e) Hh Hne (first_key_le es e Hs He))
    as (pre & seg & post & E & Hseg & Hlo & Hhi & Hrange).
  subst es.
  destruct (block_holds pre seg post (rkey e) Hs Hseg Hlo Hhi e He eq_refl)
    as (s1 & s2 & -> & Hno).
  unfold SSTable_Read. unfold keyBytes in Hf. rewrite Hf. cbn [negb].
  rewrite Hrange. cbn [bind].
  rewrite (scanIndex_ok bs tbl pre (s1 ++ e :: s2) post _ Hh Hseg).
  change (list_byte_of_string (rkey e)) with (keyBytes e).
  rewrite scanResult_found by exact Hno. cbn [bind negb].
  replace (dlen pre + dlen s1) with (len (dataBytes (pre ++ s1)))
    by (rewrite len_dataBytes, dlen_app; reflexivity).
  rewrite (getDataEntry_ok tbl (dataBytes (pre ++ s1)) (rdata e)
             (dataBytes (s2 ++ post))).
  - reflexivity.
  - rewrite Hd. f_equal. rewrite !dataBytes_app.
    destruct e as [[kind key] data]. cbn [dataBytes rdata snd].
    rewrite <- !app_assoc. reflexivity.
  - rewrite !len_app, len_encD, !len_dataBytes.
    rewrite !dlen_app in Bd. cbn [dlen] in Bd. rewrite !dlen_app. lia.
Qed.

(** [Read] of a key that was not written and is not below the first key,
    whatever the filter answers. *)
Lemma Read_absent (bs : Z) (tbl : SSTable) (es : list record) (key : string) :
  holds bs tbl es -> es <> [] ->
  String.ltb key (seg_key es) = false ->
  ~ In key (map rkey es) ->
  SSTable_Read tbl key = Ok (0, [], false).
Proof.
  intros Hh Hne Hk Hno. unfold SSTable_Read.
  destruct (bloom_Test (t_filter tbl) (list_byte_of_string key)); cbn [negb];
    [|reflexivity].
  destruct (range_ok bs tbl es key Hh Hne Hk)
    as (pre & seg & post & E & Hseg & Hlo & Hhi & Hrange).
  subst es. rewrite Hrange. cbn [bind].
  rewrite (scanIndex_ok bs tbl pre seg post _ Hh Hseg).
  rewrite scanResult_absent; [reflexivity|].
  intros Hin. apply Hno. rewrite !map_app. apply in_or_app. right.
  apply in_or_app. left. exact Hin.
Qed.

(** ** A whole table: [NewSSTable], the writes, [Build] *)

Lemma wrote_new (numElements : Z) (root name : string) :
  wrote (NewWithEstimates numElements) defaultSparseIndexBlockSize
    (mkSSTableBuilder (NewWithEstimates numElements) [] 0 [] 0 []
       defaultSparseIndexBlockSize false "" root name (mkMeta 0)) [].
Proof. constructor; try reflexivity. left. split; reflexivity. Qed.

(** The table that the three steps produce, on a file system that does not
    fail. *)
Lemma buildTable_ok (numElements : Z) (root name : string) (es : list record)
  (fs : FS) :
  faults fs = [] ->
  ascending (map rkey es) -> ilen es < 2 ^ 63 -> dlen es < 2 ^ 63 ->
  exists fs' s,
    buildTable numElements root name es fs = (fs', Ok (loaded s))
    /\ faults fs' = []
    /\ wrote (NewWithEstimates numElements) defaultSparseIndexBlockSize s es
    /\ b_root s = root /\ b_name s = name.
Proof.
  intros Hf Hs Bi Bd. unfold buildTable, NewSSTable, mbind.
  rewrite os_Create_ok by exact Hf. rewrite os_Create_ok by reflexivity.
  unfold ret, lift.
  destruct (writeAll_wrote _ _ es [] _ (wrote_new numElements root name))
    as (s & E & W & Hr & Hn); try assumption.
  rewrite E.
  match goal with |- context [SSTableBuilder_Build s ?fs0] =>
    destruct (Build_ok s fs0 eq_refl (wr_built _ _ _ _ W)) as (fs' & Hf' & EB)
  end.
  rewrite EB. exists fs', s. split; [reflexivity|]. split; [exact Hf'|].
  split; [exact W|]. split; assumption.
Qed.

Lemma loaded_holds (f0 : bloom) (bs : Z) (s : SSTableBuilder) (es : list record) :
  wrote f0 bs s es ->
  ascending (map rkey es) -> ilen es < 2 ^ 63 -> dlen es < 2 ^ 63 ->
  holds bs (loaded s) es.
Proof.
  intros W Hs Bi Bd. destruct W. constructor; cbn [loaded t_index t_data t_sparseIndex];
    try assumption; congruence.
Qed.


(** ** The filter *)

Hypothesis bloom_Add_Test : forall f k, bloom_Test (bloom_Add f k) k = true.
Hypothesis bloom_Add_keeps :
  forall f k k', bloom_Test f k = true -> bloom_Test (bloom_Add f k') k = true.

Lemma filter_accepts (kbs : list (list byte)) :
  forall (f0 : bloom) (kb : list byte),
    In kb kbs \/ bloom_Test f0 kb = true ->
    bloom_Test (fold_left bloom_Add kbs f0) kb = true.
Proof.
  induction kbs as [|k kbs IH]; intros f0 kb H; cbn [fold_left].
  - destruct H as [[]|H]. exact H.
  - apply IH. destruct H as [[->|H]|H].
    + right. apply bloom_Add_Test.
    + left. exact H.
    + right. apply bloom_Add_keeps. exact H.
Qed.


(** [NumEntries] of a built table is the number of records written, and
    [Size] is the length of the data file: 9 bytes and the data of every
    record. *)
Theorem a_built_table_counts_what_was_written
  (numElements : Z) (root name : string) (es : list record) (fs : FS) :
  faults fs = [] ->
  ascending (map rkey es) -> ilen es < 2 ^ 63 -> dlen es < 2 ^ 63 ->
  exists fs' tbl,
    buildTable numElements root name es fs = (fs', Ok tbl)
    /\ SSTable_NumEntries tbl = len es
    /\ SSTable_Size tbl = dlen es.
Proof.
  intros Hf Hs Bi Bd.
  destruct (buildTable_ok numElements root name es fs Hf Hs Bi Bd)
    as (fs' & s & E & _ & W & _).
  exists fs', (loaded s). split; [exact E|]. split.
  - unfold SSTable_NumEntries. cbn [loaded t_meta]. rewrite (wr_meta _ _ _ _ W).
    cbn [NumEntries]. apply int64_small.
    pose proof (length_le_ilen es). unfold len. lia.
  - unfold SSTable_Size. cbn [loaded t_data]. rewrite (wr_data _ _ _ _ W).
    rewrite Len_mmap_of. apply len_dataBytes.
Qed.


(** [Iterator] on a built table is positioned on the first record written;
    on a table without records it returns [io.EOF]. *)
Theorem Iterator_starts_at_the_first_record
  (numElements : Z) (root name : string) (es : list record) (fs : FS) :
  faults fs = [] ->
  ascending (map rkey es) -> ilen es < 2 ^ 63 -> dlen es < 2 ^ 63 ->
  Forall (fun e => 0 <= rkind e < 2 ^ 64) es ->
  exists fs' tbl,
    buildTable numElements root name es fs = (fs', Ok tbl)
    /\ match es with
       | [] => SSTable_Iterator tbl = Err ErrEOF
       | e :: _ => exists it, SSTable_Iterator tbl = Ok it
                              /\ SSTableIterator_Value it = e
       end.
Proof.
  intros Hf Hs Bi Bd Hk.
  destruct (buildTable_ok numElements root name es fs Hf Hs Bi Bd)
    as (fs' & s & E & _ & W & _).
  exists fs', (loaded s). split; [exact E|].
  pose proof (wr_index _ _ _ _ W) as Hi. pose proof (wr_data _ _ _ _ W) as Hd.
  destruct es as [|[[kind key] data] rest].
  - unfold SSTable_Iterator, SSTableIterator_Next.
    cbn [it_tbl it_nextIndexOffset loaded t_index]. rewrite Hi. reflexivity.
  - inversion Hk as [|? ? Hk0 _]; subst. cbn [rkind fst] in Hk0.
    cbn [indexBytes dataBytes] in Hi, Hd.
    eexists. split.
    + unfold SSTable_Iterator.
      apply (Next_ok _ [] (indexBytes rest (0 + len (encD data))) []
               (dataBytes rest) kind (list_byte_of_string key) data).
      * cbn [it_tbl loaded t_index app]. rewrite Hi. reflexivity.
      * cbn [it_tbl loaded t_data app]. rewrite Hd. reflexivity.
      * reflexivity.
      * exact Hk0.
      * cbn [app]. change (len (@nil byte)) with 0.
        rewrite len_app, len_encI, len_indexBytes.
        cbn [ilen rkey fst snd] in Bi. lia.
      * cbn [app]. rewrite len_app, len_encD, len_dataBytes.
        cbn [dlen rdata snd] in Bd. lia.
    + unfold SSTableIterator_Value. cbn [it_kind it_key it_value].
      rewrite string_of_list_byte_of_string. reflexivity.
Qed.


(** ** Deleting a table *)

(** The five files of a table. *)
Definition artifacts (s : SSTable) : list string :=
  map (artifact (t_root s) (t_name s))
    [bloomFilterFileExtension; dataFileExtension; indexFileExtension;
     sparseIndexFileExtension; metadataFileExtension].

Lemma lookup_unlink (p q : string) (l : list (string * file)) :
  lookup q (unlink p l) = if String.eqb q p then None else lookup q l.
Proof.
  induction l as [|[r g] l IH]; cbn [unlink lookup].
  - destruct (String.eqb q p); reflexivity.
  - destruct (String.eqb_spec r p) as [->|Hrp].
    + rewrite IH. destruct (String.eqb_spec q p) as [->|Hqp]; [reflexivity|].
      destruct (String.eqb_spec p q); [congruence|reflexivity].
    + cbn [lookup]. rewrite IH.
      destruct (String.eqb_spec r q) as [->|Hrq]; [|reflexivity].
      destruct (String.eqb_spec q p); [congruence|reflexivity].
Qed.

Lemma remove_step (p : string) (fs : FS) :
  faults fs = [] ->
  exists fs',
    ignore_err (os_Remove p) fs = (fs', Ok tt)
    /\ faults fs' = []
    /\ forall q, lookup q (files fs')
                 = if String.eqb q p then None else lookup q (files fs).
Proof.
  intros Hf. unfold ignore_err, os_Remove. rewrite (faulty_none _ _ _ Hf).
  destruct (lookup p (files fs)) as [f|] eqn:E.
  - eexists. split; [reflexivity|]. split; [exact Hf|].
    intros q. cbn [files]. apply lookup_unlink.
  - exists fs. split; [reflexivity|]. split; [exact Hf|].
    intros q. destruct (String.eqb_spec q p) as [->|]; [exact E|reflexivity].
Qed.

(** [Delete] without I/O failures: it returns nil and the closed table, the
    five files of the table are gone, every other file is left as it was,
    and the table cannot be loaded again. *)
Theorem Delete_removes_the_files_of_a_table (s : SSTable) (fs : FS) :
  faults fs = [] ->
  exists fs',
    SSTable_Delete s fs = (fs', Ok (SSTable_Close s))
    /\ (forall q, lookup q (files fs')
                  = if existsb (String.eqb q) (artifacts s) then None
                    else lookup q (files fs))
    /\ LoadSSTable (t_root s) (t_name s) fs' = Err ErrNotExist.
Proof.
  intros Hf. unfold SSTable_Delete, mbind.
  destruct (remove_step (artifact (t_root s) (t_name s) bloomFilterFileExtension) fs Hf)
    as (fs1 & E1 & Hf1 & L1). rewrite E1.
  destruct (remove_step (artifact (t_root s) (t_name s) dataFileExtension) fs1 Hf1)
    as (fs2 & E2 & Hf2 & L2). rewrite E2.
  destruct (remove_step (artifact (t_root s) (t_name s) indexFileExtension) fs2 Hf2)
    as (fs3 & E3 & Hf3 & L3). rewrite E3.
  destruct (remove_step (artifact (t_root s) (t_name s) sparseIndexFileExtension) fs3 Hf3)
    as (fs4 & E4 & Hf4 & L4). rewrite E4.
  destruct (remove_step (artifact (t_root s) (t_name s) metadataFileExtension) fs4 Hf4)
    as (fs5 & E5 & Hf5 & L5). rewrite E5.
  assert (HL : forall q, lookup q (files fs5)
                         = if existsb (String.eqb q) (artifacts s) then None
                           else lookup q (files fs)).
  { intros q. rewrite L5, L4, L3, L2, L1. unfold artifacts. cbn [map existsb].
    destruct (String.eqb q (artifact (t_root s) (t_name s) bloomFilterFileExtension)),
             (String.eqb q (artifact (t_root s) (t_name s) dataFileExtension)),
             (String.eqb q (artifact (t_root s) (t_name s) indexFileExtension)),
             (String.eqb q (artifact (t_root s) (t_name s) sparseIndexFileExtension)),
             (String.eqb q (artifact (t_root s) (t_name s) metadataFileExtension));
      reflexivity. }
  exists fs5. split; [reflexivity|]. split; [exact HL|].
  unfold LoadSSTable, loadBloomFilter, os_Open.
  rewrite (faulty_none _ _ _ Hf5), HL. unfold artifacts. cbn [map existsb].
  rewrite String.eqb_refl. reflexivity.
Qed.


(** ** What the builder refuses *)

Lemma last_cons_default {A : Type} (ks : list A) :
  forall k d, last (k :: ks) d = last ks k.
Proof.
  induction ks as [|a r IH]; intros k d; [reflexivity|].
  change (last (k :: a :: r) d) with (last (a :: r) d).
  rewrite (IH a d), (IH a k). reflexivity.
Qed.

(** [Write] takes the keys in non-descending order: a run of [Write]s goes
    through when no key is smaller than the one before it (an equal key
    is taken), and otherwise stops at the first smaller key with the error
    "must add keys in ascending order to SSTable". *)
Theorem writeAll_takes_keys_in_non_descending_order (es : list record) :
  forall s : SSTableBuilder,
    b_built s = false ->
    b_indexPosition s = len (b_index s) ->
    b_dataPosition s = len (b_data s) ->
    len (b_index s) + ilen es < 2 ^ 63 ->
    len (b_data s) + dlen es < 2 ^ 63 ->
    (accepted (b_previousKey s) (map rkey es)
     /\ exists s', writeAll s es = Ok s' /\ b_built s' = false
                   /\ b_previousKey s' = last (map rkey es) (b_previousKey s))
    \/ (~ accepted (b_previousKey s) (map rkey es)
        /\ writeAll s es = Err ErrOrder).
Proof.
  induction es as [|[[kind key] data] es IH]; intros s Hb Hi Hd Bi Bd.
  - left. split; [exact I|]. exists s. repeat split. exact Hb.
  - cbn [ilen dlen rkey rdata fst snd] in Bi, Bd.
    pose proof (len_nonneg (b_index s)). pose proof (len_nonneg (b_data s)).
    pose proof (ilen_nonneg es). pose proof (dlen_nonneg es).
    pose proof (len_nonneg (list_byte_of_string key)). pose proof (len_nonneg data).
    cbn [map rkey fst snd accepted writeAll].
    destruct (String.ltb key (b_previousKey s)) eqn:Hk.
    + right. split; [intros [Hc _]; discriminate|].
      unfold SSTableBuilder_Write. rewrite Hb, Hk. reflexivity.
    + destruct (Write_ok s key kind data) as
        (s1 & E & Ei & Ed & Pi & Pd & Hb1 & Hp1 & _); try assumption; try lia.
      rewrite E. cbn [bind].
      destruct (IH s1) as [(Ha & s' & E' & Hb' & Hp')|(Hna & E')]; try assumption.
      * rewrite Pi, Ei, len_app, len_encI. lia.
      * rewrite Pd, Ed, len_app, len_encD. lia.
      * rewrite Ei, len_app, len_encI. lia.
      * rewrite Ed, len_app, len_encD. lia.
      * left. rewrite Hp1 in Ha, Hp'. split; [split; [reflexivity|exact Ha]|].
        exists s'. split; [exact E'|]. split; [exact Hb'|].
        rewrite Hp'. symmetry. apply last_cons_default.
      * right. rewrite Hp1 in Hna. split; [intros [_ Hc]; exact (Hna Hc)|exact E'].
Qed.

(** After [Build] the builder is immutable: [Write] returns "cannot write to a
    built SSTable", and a second [Build] returns "sstable already built"
    without touching a file. *)
Theorem Build_makes_the_builder_immutable
  (s s' : SSTableBuilder) (tbl : SSTable) (fs fs' : FS) :
  SSTableBuilder_Build s fs = (fs', Ok (s', tbl)) ->
  (forall key kind data, SSTableBuilder_Write s' key kind data = Err ErrBuiltWrite)
  /\ (forall fs'', SSTableBuilder_Build s' fs'' = (fs'', Err ErrAlreadyBuilt)).
Proof.
  intros H.
  assert (Hb : b_built s' = true).
  { unfold SSTableBuilder_Build in H.
    destruct (b_built s); [discriminate|].
    unfold mbind in H.
    repeat match type of H with
           | (let (_, _) := ?c in _) = _ =>
               destruct c as [? [[]| | |]]; try discriminate
           end.
    unfold lift, ret in H.
    repeat match type of H with
           | context [match ?c with Ok _ => _ | Err _ => _ | Panic => _ | OutOfFuel => _ end] =>
               destruct c; try discriminate
           end.
    injection H as _ <- _. reflexivity. }
  split.
  - intros key kind data. unfold SSTableBuilder_Write. rewrite Hb. reflexivity.
  - intros fs''. unfold SSTableBuilder_Build. rewrite Hb. reflexivity.
Qed.


(** ** Compaction: the merge into a new table *)

Section Compaction.

Context {I : Type} {CI : ChunkIterator I}.

Lemma feed_writeAll (rs : list record) : forall b b',
  writeAll b rs = Ok b' -> feed b rs = Ok b'.
Proof.
  induction rs as [|[[kind key] data] rs IH]; intros b b' E; cbn [writeAll feed] in *;
    [exact E|].
  destruct (SSTableBuilder_Write b key kind data) as [b1| | |]; cbn [bind] in *;
    try discriminate.
  apply IH. exact E.
Qed.

Lemma filter_key_unique (l : list entry) (e : entry) :
  ascending (map en_key l) -> In e l ->
  filter (has_key (en_key e)) l = [e].
Proof.
  induction l as [|x l IH]; intros Hs He; [contradiction|].
  cbn [map] in Hs. apply StronglySorted_inv in Hs. destruct Hs as [Hs Hx].
  rewrite Forall_forall in Hx. cbn [filter]. unfold has_key at 1.
  destruct He as [<-|He].
  - rewrite String.eqb_refl. f_equal.
    assert (G : forall y, In y l -> has_key (en_key x) y = false).
    { intros y Hy. unfold has_key. apply String.eqb_neq. intros E.
      specialize (Hx (en_key y) (in_map en_key l y Hy)). unfold key_lt in Hx.
      rewrite E, ltb_irrefl in Hx. discriminate. }
    clear - G. induction l as [|y l IH]; [reflexivity|]. cbn [filter].
    rewrite (G y (or_introl eq_refl)). apply IH. intros z Hz. apply G. right. exact Hz.
  - replace (String.eqb (en_key x) (en_key e)) with false; [apply IH; assumption|].
    symmetry. apply String.eqb_neq. intros E.
    specialize (Hx (en_key e) (in_map en_key l e He)). unfold key_lt in Hx.
    rewrite E, ltb_irrefl in Hx. discriminate.
Qed.

Lemma filter_lacks_key (k : string) (l : list entry) :
  ~ In k (map en_key l) -> filter (has_key k) l = [].
Proof.
  induction l as [|x l IH]; intros H; [reflexivity|]. cbn [filter]. unfold has_key at 1.
  destruct (String.eqb_spec (en_key x) k) as [E|_].
  - exfalso. apply H. left. exact E.
  - apply IH. intros Hin. apply H. right. exact Hin.
Qed.

Lemma first_holder (ls : list (list entry)) : forall (i : nat) (l : list entry) (e : entry),
  nth_error ls i = Some l -> In e l -> ascending (map en_key l) ->
  (forall j l', (j < i)%nat -> nth_error ls j = Some l' ->
                ~ In (en_key e) (map en_key l')) ->
  hd_error (flat_map (filter (has_key (en_key e))) ls) = Some e.
Proof.
  induction ls as [|l0 ls IH]; intros [|i] l e Hn He Hs Hj; try discriminate;
    cbn [flat_map nth_error] in *.
  - injection Hn as ->. rewrite (filter_key_unique l e Hs He). reflexivity.
  - rewrite (filter_lacks_key _ l0 (Hj 0%nat l0 (Nat.lt_0_succ i) eq_refl)).
    cbn [app]. apply (IH i l e Hn He Hs).
    intros j l' Hlt Hl'. apply (Hj (S j) l'); [lia|exact Hl'].
Qed.

Lemma fed_complete (stream : list entry) : forall prev k e,
  hd_error (filter (has_key k) stream) = Some e -> k <> prev ->
  In (RecordKindWrite, k, en_data e) (fedToBuilder prev stream).
Proof.
  induction stream as [|x xs IH]; intros prev k e Hhd Hk; [discriminate|].
  cbn [filter fedToBuilder] in *. unfold has_key at 1 in Hhd.
  destruct (String.eqb_spec (en_key x) k) as [E|E].
  - cbn [hd_error] in Hhd. injection Hhd as ->. subst k.
    destruct (String.eqb_spec (en_key e) prev) as [|_]; [contradiction|].
    cbn [negb app]. left. reflexivity.
  - apply in_or_app. right. apply IH; [exact Hhd|]. intros ->. apply E. reflexivity.
Qed.


End Compaction.

End TableProofs.


Lemma twoRecords_ascending : ascending (map rkey twoRecords).
Proof. repeat constructor. Qed.

Lemma exactFilter_Add_Test (f : @bloom exactFilter) (k : list byte) :
  @bloom_Test exactFilter (@bloom_Add exactFilter f k) k = true.
Proof.
  cbn. replace (bytes_eqb k k) with true; [reflexivity|].
  symmetry. apply bytes_eqb_eq. reflexivity.
Qed.

Lemma exactFilter_Add_keeps (f : @bloom exactFilter) (k k' : list byte) :
  @bloom_Test exactFilter f k = true ->
  @bloom_Test exactFilter (@bloom_Add exactFilter f k') k = true.
Proof. cbn. intros ->. apply orb_true_r. Qed.



Lemma a_built_table_counts_witness :
  ascending (map rkey twoRecords)
  /\ exists fs' tbl,
       buildTable (BF := exactFilter) 2 "db" "t" twoRecords (mkFS [] []) = (fs', Ok tbl)
       /\ SSTable_NumEntries tbl = len twoRecords
       /\ SSTable_Size tbl = dlen twoRecords.
Proof.
  split; [exact twoRecords_ascending|].
  apply (a_built_table_counts_what_was_written (BF := exactFilter) 2 "db" "t"
           twoRecords (mkFS [] []) eq_refl twoRecords_ascending).
  - vm_compute. reflexivity.
  - vm_compute. reflexivity.
Defined.


Lemma Iterator_starts_witness :
  ascending (map rkey twoRecords)
  /\ exists fs' tbl,
       buildTable (BF := exactFilter) 2 "db" "t" twoRecords (mkFS [] []) = (fs', Ok tbl)
       /\ exists it, SSTable_Iterator tbl = Ok it
                     /\ SSTableIterator_Value it
                        = (RecordKindWrite, "a"%string, bytes "1").
Proof.
  split; [exact twoRecords_ascending|].
  apply (Iterator_starts_at_the_first_record (BF := exactFilter) 2 "db" "t"
           twoRecords (mkFS [] []) eq_refl twoRecords_ascending).
  - vm_compute. reflexivity.
  - vm_compute. reflexivity.
  - repeat constructor; vm_compute; congruence.
Defined.

Lemma Delete_removes_the_files_witness :
  map fst (files builtFiles)
  = ["db/t.data"; "db/t.index"; "db/t.bloom"; "db/t.spindex"; "db/t.meta"]%string
  /\ exists fs',
       SSTable_Delete builtTable builtFiles = (fs', Ok (SSTable_Close builtTable))
       /\ (forall q, lookup q (files fs')
                     = if existsb (String.eqb q) (artifacts builtTable) then None
                       else lookup q (files builtFiles))
       /\ LoadSSTable "db" "t" fs' = Err ErrNotExist.
Proof.
  split; [vm_compute; reflexivity|].
  apply (Delete_removes_the_files_of_a_table (BF := exactFilter) builtTable builtFiles).
  vm_compute. reflexivity.
Defined.

Lemma writeAll_takes_keys_witness :
  (accepted "" (map rkey descendingRecords)
   /\ exists s', writeAll (emptyBuilder (BF := exactFilter)) descendingRecords = Ok s'
                 /\ b_built s' = false
                 /\ b_previousKey s' = last (map rkey descendingRecords) ""%string)
  \/ (~ accepted "" (map rkey descendingRecords)
      /\ writeAll (emptyBuilder (BF := exactFilter)) descendingRecords = Err ErrOrder).
Proof.
  apply (writeAll_takes_keys_in_non_descending_order (BF := exactFilter)
           descendingRecords emptyBuilder).
  - reflexivity.
  - reflexivity.
  - reflexivity.
  - vm_compute. reflexivity.
  - vm_compute. reflexivity.
Defined.

Lemma Build_makes_the_builder_immutable_witness :
  (forall key kind data,
     SSTableBuilder_Write builtBuilder key kind data = Err ErrBuiltWrite)
  /\ (forall fs'',
        SSTableBuilder_Build builtBuilder fs'' = (fs'', Err ErrAlreadyBuilt)).
Proof.
  apply (Build_makes_the_builder_immutable (BF := exactFilter) filledBuilder
           builtBuilder builtTable (mkFS [] [])
           (fst (SSTableBuilder_Build filledBuilder (mkFS [] [])))).
  vm_compute. reflexivity.
Defined.

Lemma inputs_yield :
  Forall2 yields [Some newerInput; Some olderInput] [newerInput; olderInput].
Proof.
  repeat constructor;
    (eapply yields_cons; [reflexivity|reflexivity|];
     eapply yields_cons; [reflexivity|reflexivity|]; constructor).
Qed.


(** * The tree *)

Section TreeProofs.

Context {BF : BloomFilter} {J : Json}.

Lemma nth_error_set_nth_eq {A : Type} (l : list A) (p : nat) (x y : A) :
  nth_error l p = Some y -> nth_error (set_nth l p x) p = Some x.
Proof. apply nth_error_set_nth_same. Qed.

(** [Set] of a key that the memtable does not hold, when the log accepts the
    write and the memtable stays within [maxRootChunkSize]: [Set] succeeds,
    the layers are left alone, and [Get] then returns the data, whatever the
    layers hold for the key. *)
Theorem Get_returns_what_Set_stored
  (key : string) (data : list byte) (s : State)
  (name : string) (c : skiplistChunk) (ct : chunkType) :
  nth_error (st_heap s) (rootChunk (st_tree s)) = Some (mkChunk name (SkiplistData c) ct) ->
  sound c -> w_open (sc_wal c) = true ->
  faulty (w_fs (st_world s)) IoWrite (w_fileName (sc_wal c)) = false ->
  skiplistChunk_get c key = Ok (0, [], false) ->
  uint64 (sc_dataSize c + uint64 (len data)) <= maxRootChunkSize (st_tree s) ->
  exists s',
    LsmTree_Set key data s = (s', Ok tt)
    /\ LsmTree_Get key s' = (s', Ok (data, true))
    /\ st_tree s' = st_tree s.
Proof.
  intros Hroot Hs Ho Hf HG Hsize.
  destruct (set_new c key RecordKindWrite data (st_world s) Hs Ho Hf
              (get_absent_listGet c key Hs HG))
    as (w' & c' & E & _ & _ & _ & _ & Hg & _ & Hd & _).
  set (p := rootChunk (st_tree s)) in *.
  set (s' := mkState w' (set_nth (st_heap s) p (mkChunk name (SkiplistData c') ct))
               (st_tree s)).
  assert (Hroot' : nth_error (st_heap s') p = Some (mkChunk name (SkiplistData c') ct)).
  { subst s'. cbn [st_heap]. eapply nth_error_set_nth_eq. exact Hroot. }
  assert (ES : rootSet key data s = (s', Ok tt)).
  { unfold rootSet, mbind, get_tree, deref. fold p. rewrite Hroot.
    unfold in_world. cbn [c_data chunkData_set]. unfold mbind. rewrite E.
    unfold ret, assign. reflexivity. }
  exists s'. split; [|split; [|reflexivity]].
  - unfold LsmTree_Set, mbind, ignore_err. rewrite ES.
    unfold get_tree, deref. cbn [st_tree s']. fold p.
    change (st_heap (mkState w' (set_nth (st_heap s) p
                                   (mkChunk name (SkiplistData c') ct)) (st_tree s)))
      with (st_heap s').
    rewrite Hroot'. cbn [c_data chunkData_size]. unfold skiplistChunk_size.
    rewrite Hd. destruct (Z.ltb_spec (maxRootChunkSize (st_tree s))
                            (uint64 (sc_dataSize c + uint64 (len data)))); [lia|].
    reflexivity.
  - unfold LsmTree_Get, mbind, get_tree, deref. cbn [st_tree s']. fold p.
    change (st_heap (mkState w' (set_nth (st_heap s) p
                                   (mkChunk name (SkiplistData c') ct)) (st_tree s)))
      with (st_heap s').
    rewrite Hroot'. unfold lift. cbn [c_data chunkData_get].
    rewrite get_of_listGet, Hg. cbn [bind se_kind se_data]. reflexivity.
Qed.

Lemma log_is_not_the_manifest (rootDir name : string) :
  String.eqb (path_Join rootDir ("wal-" ++ name ++ ".log"))
    (path_Join rootDir "lsm.json") = false.
Proof.
  apply String.eqb_neq. unfold path_Join. intros E.
  apply string_append_inj in E. cbn in E. discriminate.
Qed.

Lemma get_of_a_new_chunk (fileName key : string) :
  skiplistChunk_get (mkSkiplistChunk (NewSkipList 16) (mkWAL true fileName) 0) key
  = Ok (0, [], false).
Proof.
  rewrite get_of_listGet. cbn [sc_list]. rewrite listGet_new by lia. reflexivity.
Qed.

Lemma newSkipListChunk_new (fileName : string) (fs : FS) (r : Rand) :
  faults fs = [] -> lookup fileName (files fs) = None ->
  newSkipListChunk fileName (mkWorld fs r)
  = (mkWorld (mkFS (store fileName (FBytes []) (files fs)) (faults fs)) r,
     Ok (mkSkiplistChunk (NewSkipList 16) (mkWAL true fileName) 0)).
Proof.
  intros Hf Hl. unfold newSkipListChunk, LoadWAL, os_Open. cbn [w_fs].
  rewrite (faulty_none fs _ _ Hf), Hl. cbn [bind].
  unfold mbind, in_fs, NewWAL. cbn [w_fs w_rand].
  rewrite (faulty_none fs _ _ Hf), Hl. reflexivity.
Qed.

(** [NewLsmTree] on a directory without a manifest: a tree of four empty
    layers over an empty memtable whose log is created, in which [Get] finds
    no key.  The manifest is not written: it appears with the first
    rotation of the memtable. *)
Theorem NewLsmTree_on_a_directory_without_a_manifest (rootDir : string) (w : World) :
  let log := path_Join rootDir ("wal-" ++ fst (randomString 6 (w_rand w)) ++ ".log") in
  lookup (path_Join rootDir "lsm.json") (files (w_fs w)) = None ->
  lookup log (files (w_fs w)) = None ->
  faults (w_fs w) = [] ->
  exists w' s,
    NewLsmTree rootDir w = (w', Ok s)
    /\ layers (st_tree s)
       = [mkLayer "layer-0" 4 []; mkLayer "layer-1" 8 [];
          mkLayer "layer-2" 4 []; mkLayer "layer-3" 0 []]
    /\ maxRootChunkSize (st_tree s) = 16 * Megabyte
    /\ (forall key, LsmTree_Get key s = (s, Ok ([], false)))
    /\ lookup (path_Join rootDir "lsm.json") (files (w_fs (st_world s))) = None
    /\ lookup log (files (w_fs (st_world s))) = Some (FBytes []).
Proof.
  intros log Hman Hlog Hf. destruct w as [fs r]. cbn [w_fs w_rand] in *.
  unfold NewLsmTree, load, mbind, in_fs, lift. cbn [w_fs w_rand].
  unfold os_Open. rewrite (faulty_none fs _ _ Hf), Hman. cbn [w_fs w_rand].
  destruct (randomString 6 r) as [name r'] eqn:Er. cbn [fst] in log.
  unfold createChunkData, mbind. cbn [Z.eqb chunkTypeSkiplist Pos.eqb].
  fold log. rewrite (newSkipListChunk_new log fs r' Hf Hlog). unfold ret.
  eexists. eexists. split; [reflexivity|].
  cbn [st_tree st_world layers maxRootChunkSize w_fs files].
  split; [reflexivity|]. split; [reflexivity|]. split; [|split].
  - intros key. unfold LsmTree_Get, mbind, get_tree, deref, lift.
    cbn [st_tree st_heap rootChunk nth_error c_data chunkData_get].
    rewrite get_of_a_new_chunk. reflexivity.
  - rewrite lookup_store_other by apply log_is_not_the_manifest. exact Hman.
  - apply lookup_store_same.
Qed.

(** ** Chunk names *)

Lemma randomString_length (n : nat) :
  forall r, String.length (fst (randomString n r)) = n.
Proof.
  induction n as [|n IH]; intros r; cbn [randomString]; [reflexivity|].
  destruct (rand_Intn (String.length randomFileChars) r) as [i r1].
  specialize (IH r1). destruct (randomString n r1) as [s r2].
  cbn [fst String.length] in *. rewrite IH. reflexivity.
Qed.

Lemma anyName_pure (cs : list nat) (name : string) (s : State) :
  fst (anyName cs name s) = s.
Proof.
  induction cs as [|p cs IH]; cbn [anyName]; [reflexivity|].
  unfold mbind, deref. destruct (nth_error (st_heap s) p) as [c|]; [|reflexivity].
  destruct (String.eqb (c_name c) name); [reflexivity|exact IH].
Qed.

Lemma hasChunkWithName_pure (layer : nat) (name : string) (s : State) :
  fst (hasChunkWithName layer name s) = s.
Proof.
  unfold hasChunkWithName, mbind, get_tree.
  destruct (nth_error (layers (st_tree s)) layer); [apply anyName_pure|reflexivity].
Qed.



(** ** Retiring the memtable *)

(** What [save] writes for the chunks at [cs] and for the layers [ls]. *)
Definition jsonOfChunks (heap : list chunk) (cs : list nat) : list lsmChunkJson :=
  map (fun p => match nth_error heap p with
                | Some c => mkChunkJson (c_name c) (c_chunkType c)
                | None => mkChunkJson "" 0
                end) cs.

Definition jsonOfLayers (heap : list chunk) (ls : list layer) : list lsmLayerJson :=
  map (fun l => mkLayerJson (l_name l) (l_maxChunks l) (jsonOfChunks heap (l_chunks l))) ls.

Definition allocated (heap : list chunk) (ls : list layer) : Prop :=
  Forall (fun l => Forall (fun q => (q < List.length heap)%nat) (l_chunks l)) ls.

Lemma chunksJson_ok (cs : list nat) (s : State) :
  Forall (fun q => (q < List.length (st_heap s))%nat) cs ->
  chunksJson cs s = (s, Ok (jsonOfChunks (st_heap s) cs)).
Proof.
  induction cs as [|p cs IH]; intros H; cbn [chunksJson jsonOfChunks map];
    [reflexivity|].
  inversion H as [|? ? Hp Hcs]; subst.
  unfold mbind, deref.
  destruct (nth_error (st_heap s) p) as [c|] eqn:E;
    [|apply nth_error_None in E; lia].
  rewrite (IH Hcs). reflexivity.
Qed.

Lemma layersJson_ok (ls : list layer) (s : State) :
  allocated (st_heap s) ls ->
  layersJson ls s = (s, Ok (jsonOfLayers (st_heap s) ls)).
Proof.
  induction ls as [|l ls IH]; intros H; cbn [layersJson jsonOfLayers map];
    [reflexivity|].
  inversion H as [|? ? Hl Hls]; subst.
  unfold mbind. rewrite (chunksJson_ok _ _ Hl), (IH Hls). reflexivity.
Qed.

Lemma save_ok (s : State) (root : chunk) :
  faults (w_fs (st_world s)) = [] ->
  allocated (st_heap s) (layers (st_tree s)) ->
  nth_error (st_heap s) (rootChunk (st_tree s)) = Some root ->
  exists s',
    save s = (s', Ok tt)
    /\ st_heap s' = st_heap s /\ st_tree s' = st_tree s
    /\ lookup (path_Join (rootDir (st_tree s)) "lsm.json") (files (w_fs (st_world s')))
       = Some (FManifest
                 (mkTreeJson (jsonOfLayers (st_heap s) (layers (st_tree s)))
                    (mkChunkJson (c_name root) (c_chunkType root))
                    (maxRootChunkSize (st_tree s))))
    /\ faults (w_fs (st_world s')) = []
    /\ (forall q, String.eqb (path_Join (rootDir (st_tree s)) "lsm.json") q = false ->
                  lookup q (files (w_fs (st_world s')))
                  = lookup q (files (w_fs (st_world s)))).
Proof.
  intros Hf Ha Hr. unfold save, mbind, get_tree, in_world, in_fs.
  rewrite (os_Create_ok _ _ _ Hf). cbn [st_heap st_tree st_world w_fs w_rand].
  set (s1 := mkState _ (st_heap s) (st_tree s)).
  rewrite (layersJson_ok (layers (st_tree s)) s1 Ha).
  unfold deref. cbn [s1 st_heap st_tree st_world w_fs w_rand]. rewrite Hr.
  rewrite os_Write_ok by reflexivity.
  eexists. split; [reflexivity|]. cbn [st_heap st_tree st_world w_fs files faults].
  split; [reflexivity|]. split; [reflexivity|]. split; [apply lookup_store_same|].
  split; [reflexivity|].
  intros q Hq. rewrite !lookup_store_other by exact Hq. reflexivity.
Qed.

Lemma Set_rotates
  (key : string) (data : list byte) (s : State)
  (name : string) (c : skiplistChunk) (ct : chunkType) (l0 : layer) (ls : list layer) :
  let p := rootChunk (st_tree s) in
  let s1 := fst (rootSet key data s) in
  let suffix := fst (randomString 6 (w_rand (st_world s1))) in
  let log := path_Join (rootDir (st_tree s)) ("wal-" ++ suffix ++ ".log") in
  nth_error (st_heap s) p = Some (mkChunk name (SkiplistData c) ct) ->
  sound c -> w_open (sc_wal c) = true ->
  faults (w_fs (st_world s)) = [] ->
  skiplistChunk_get c key = Ok (0, [], false) ->
  maxRootChunkSize (st_tree s) < uint64 (sc_dataSize c + uint64 (len data)) ->
  layers (st_tree s) = l0 :: ls ->
  allocated (st_heap s) (l0 :: ls) ->
  lookup log (files (w_fs (st_world s1))) = None ->
  exists s',
    LsmTree_Set key data s = (s', Ok tt)
    /\ layers (st_tree s')
       = mkLayer (l_name l0) (l_maxChunks l0) (p :: l_chunks l0) :: ls
    /\ rootChunk (st_tree s') = List.length (st_heap s)
    /\ nth_error (st_heap s') (rootChunk (st_tree s'))
       = Some (mkChunk suffix
                 (SkiplistData (mkSkiplistChunk (NewSkipList 16) (mkWAL true log) 0))
                 chunkTypeSkiplist)
    /\ LsmTree_Get key s' = (s', Ok (data, true))
    /\ lookup (path_Join (rootDir (st_tree s)) "lsm.json") (files (w_fs (st_world s')))
       = Some (FManifest
                 (mkTreeJson (jsonOfLayers (st_heap s') (layers (st_tree s')))
                    (mkChunkJson suffix chunkTypeSkiplist)
                    (maxRootChunkSize (st_tree s))))
    /\ faults (w_fs (st_world s')) = []
    /\ lookup log (files (w_fs (st_world s'))) = Some (FBytes [])
    /\ (forall q, String.eqb (path_Join (rootDir (st_tree s)) "lsm.json") q = false ->
                  String.eqb log q = false ->
                  lookup q (files (w_fs (st_world s')))
                  = lookup q (files (w_fs (st_world s1))))
    /\ st_heap s' = set_nth (st_heap s) p (mkChunk name (SkiplistData
                        (match snd (skiplistChunk_set c key RecordKindWrite data (st_world s)) with
                         | Ok c' => c'
                         | _ => c
                         end)) ct)
                    ++ [mkChunk suffix
                          (SkiplistData (mkSkiplistChunk (NewSkipList 16) (mkWAL true log) 0))
                          chunkTypeSkiplist]
    /\ rootDir (st_tree s') = rootDir (st_tree s)
    /\ maxRootChunkSize (st_tree s') = maxRootChunkSize (st_tree s).
Proof.
  intros p s1 suffix log. subst log suffix s1.
  intros Hroot Hs Ho Hf HG Hsize Hlay Hall Hlog.
  destruct (set_new c key RecordKindWrite data (st_world s) Hs Ho
              (faulty_none _ _ _ Hf) (get_absent_listGet c key Hs HG))
    as (w' & c' & E & _ & _ & Hf' & _ & Hg & _ & Hd & _).
  rewrite Hf in Hf'.
  set (root' := mkChunk name (SkiplistData c') ct).
  assert (ES : rootSet key data s
               = (mkState w' (set_nth (st_heap s) p root') (st_tree s), Ok tt)).
  { unfold rootSet, mbind, get_tree, deref. fold p. rewrite Hroot.
    unfold in_world. cbn [c_data chunkData_set]. unfold mbind. rewrite E.
    unfold ret, assign. reflexivity. }
  assert (Hp : (p < List.length (st_heap s))%nat)
    by (apply nth_error_Some; rewrite Hroot; discriminate).
  rewrite ES in *. cbn [fst st_world] in *.
  destruct w' as [fs' r']. cbn [w_fs w_rand] in *.
  destruct (randomString 6 r') as [sfx r''] eqn:Er. cbn [fst] in *.
  set (log := path_Join (rootDir (st_tree s)) ("wal-" ++ sfx ++ ".log")) in *.
  set (h1 := set_nth (st_heap s) p root') in *.
  assert (Hroot1 : nth_error h1 p = Some root')
    by (eapply nth_error_set_nth_eq; exact Hroot).
  assert (Hl1 : List.length h1 = List.length (st_heap s))
    by apply set_nth_length.
  set (new := mkChunk sfx
                (SkiplistData (mkSkiplistChunk (NewSkipList 16) (mkWAL true log) 0))
                chunkTypeSkiplist).
  set (layer0 := mkLayer (l_name l0) (l_maxChunks l0) (p :: l_chunks l0)).
  set (t2 := mkLsmTree (layer0 :: ls) (List.length (st_heap s))
               (maxRootChunkSize (st_tree s)) (rootDir (st_tree s))).
  set (w2 := mkWorld (mkFS (store log (FBytes []) (files fs')) (faults fs')) r'').
  set (s2 := mkState w2 (h1 ++ [new]) t2).
  assert (Hnew : nth_error (h1 ++ [new]) (List.length (st_heap s)) = Some new).
  { rewrite nth_error_snoc, Hl1, Nat.eqb_refl. reflexivity. }
  assert (Hall2 : allocated (st_heap s2) (layers (st_tree s2))).
  { cbn [s2 st_heap st_tree t2 layers]. unfold allocated in *.
    inversion Hall as [|? ? H0 Hls]; subst.
    constructor.
    - cbn [layer0 l_chunks]. rewrite length_app, Hl1. constructor; [simpl; lia|].
      eapply Forall_impl; [|exact H0]. simpl. intros; lia.
    - eapply Forall_impl; [|exact Hls]. intros l Hl.
      eapply Forall_impl; [|exact Hl]. rewrite length_app, Hl1. simpl. intros; lia. }
  destruct (save_ok s2 new) as (s' & ESave & Hh' & Ht' & Hman & Hfs' & Hframe).
  { cbn [s2 st_world w2 w_fs faults]. exact Hf'. }
  { exact Hall2. }
  { cbn [s2 st_heap st_tree t2 rootChunk]. exact Hnew. }
  assert (ESet : LsmTree_Set key data s = (s', Ok tt)).
  { unfold LsmTree_Set, mbind, ignore_err. rewrite ES.
    unfold get_tree, deref. cbn [st_tree st_heap]. fold p. rewrite Hroot1.
    cbn [c_data chunkData_size root']. unfold skiplistChunk_size.
    rewrite Hd. destruct (Z.ltb_spec (maxRootChunkSize (st_tree s))
                            (uint64 (sc_dataSize c + uint64 (len data)))); [|lia].
    unfold lift, at_. rewrite Hlay. change (0 <? 0) with false.
    cbn [Z.to_nat nth_error]. unfold set_chunks. rewrite Hlay.
    cbn [nth_error set_nth]. unfold put_tree, rand_string, in_world.
    cbn [st_world st_heap st_tree w_rand w_fs]. rewrite Er.
    cbn [rootDir]. unfold createChunkData, mbind.
    cbn [Z.eqb chunkTypeSkiplist Pos.eqb]. fold log.
    cbn [st_world st_heap st_tree].
    rewrite (newSkipListChunk_new log fs' r'' Hf' Hlog). unfold ret, alloc.
    cbn [st_world st_heap st_tree layers maxRootChunkSize rootDir].
    rewrite Hl1. exact ESave. }
  assert (Hold : nth_error (h1 ++ [new]) p = Some root').
  { rewrite nth_error_app1 by lia. exact Hroot1. }
  exists s'. split; [exact ESet|]. rewrite Ht', Hh'.
  cbn [s2 st_heap st_tree t2 layers rootChunk].
  split; [reflexivity|]. split; [reflexivity|]. split; [exact Hnew|].
  split; [|split; [exact Hman|]].
  2:{ split; [exact Hfs'|]. cbn [s2 st_world w2 w_fs files t2 rootDir] in Hframe.
      split; [|split; [|split; [|split; reflexivity]]].
      - rewrite Hframe by (rewrite String.eqb_sym; apply log_is_not_the_manifest).
        apply lookup_store_same.
      - intros q Hq1 Hq2. rewrite (Hframe q Hq1).
        apply lookup_store_other. exact Hq2.
      - unfold h1, root'. rewrite E. reflexivity. }
  unfold LsmTree_Get, mbind, get_tree, deref. rewrite Ht', Hh'.
  cbn [s2 st_heap st_tree t2 layers rootChunk]. rewrite Hnew.
  unfold lift. cbn [new c_data chunkData_get]. rewrite get_of_a_new_chunk.
  change (0 =? RecordKindDelete) with false. cbn [getLayers]. unfold mbind.
  cbn [layer0 l_chunks getChunks]. unfold mbind, deref. rewrite Hh'.
  cbn [s2 st_heap]. rewrite Hold. unfold lift.
  cbn [root' c_data chunkData_get]. rewrite get_of_listGet, Hg.
  cbn [bind se_kind se_data]. reflexivity.
Qed.

(** [Set] of a key that the memtable does not hold, when the write makes the
    memtable larger than [maxRootChunkSize]: the memtable moves to the front
    of layer 0, a new empty memtable with a log of its own takes its place,
    the manifest is written with the new structure, and [Get] still returns
    the data, now from layer 0. *)
Theorem Set_retires_a_full_memtable
  (key : string) (data : list byte) (s : State)
  (name : string) (c : skiplistChunk) (ct : chunkType) (l0 : layer) (ls : list layer) :
  let p := rootChunk (st_tree s) in
  let s1 := fst (rootSet key data s) in
  let suffix := fst (randomString 6 (w_rand (st_world s1))) in
  let log := path_Join (rootDir (st_tree s)) ("wal-" ++ suffix ++ ".log") in
  nth_error (st_heap s) p = Some (mkChunk name (SkiplistData c) ct) ->
  sound c -> w_open (sc_wal c) = true ->
  faults (w_fs (st_world s)) = [] ->
  skiplistChunk_get c key = Ok (0, [], false) ->
  maxRootChunkSize (st_tree s) < uint64 (sc_dataSize c + uint64 (len data)) ->
  layers (st_tree s) = l0 :: ls ->
  allocated (st_heap s) (l0 :: ls) ->
  lookup log (files (w_fs (st_world s1))) = None ->
  exists s',
    LsmTree_Set key data s = (s', Ok tt)
    /\ layers (st_tree s')
       = mkLayer (l_name l0) (l_maxChunks l0) (p :: l_chunks l0) :: ls
    /\ rootChunk (st_tree s') = List.length (st_heap s)
    /\ nth_error (st_heap s') (rootChunk (st_tree s'))
       = Some (mkChunk suffix
                 (SkiplistData (mkSkiplistChunk (NewSkipList 16) (mkWAL true log) 0))
                 chunkTypeSkiplist)
    /\ LsmTree_Get key s' = (s', Ok (data, true))
    /\ lookup (path_Join (rootDir (st_tree s)) "lsm.json") (files (w_fs (st_world s')))
       = Some (FManifest
                 (mkTreeJson (jsonOfLayers (st_heap s') (layers (st_tree s')))
                    (mkChunkJson suffix chunkTypeSkiplist)
                    (maxRootChunkSize (st_tree s)))).
Proof.
  intros p s1 suffix log Hroot Hs Ho Hf HG Hsize Hlay Hall Hlog.
  destruct (Set_rotates key data s name c ct l0 ls Hroot Hs Ho Hf HG Hsize Hlay Hall Hlog)
    as (s' & H1 & H2 & H3 & H4 & H5 & H6 & _).
  exists s'. repeat (split; [assumption|]). assumption.
Qed.


(** ** Opening the directory again *)

Lemma newSkipListChunk_replays (fileName : string) (es : list WALEntry)
  (fs : FS) (r : Rand) :
  faults fs = [] -> Forall well_formed es -> NoDup (map Key es) ->
  lookup fileName (files fs) = Some (FBytes (logOf es)) ->
  exists r' l,
    newSkipListChunk fileName (mkWorld fs r)
    = (mkWorld fs r', Ok (mkSkiplistChunk l (mkWAL true fileName) 0))
    /\ built String.ltb String.eqb l
    /\ answers l es (listGet (NewSkipList 16)).
Proof.
  intros Hf Hes Hnd Hl. unfold newSkipListChunk. cbn [w_fs].
  rewrite (LoadWAL_logOf es fileName fs Hes (faulty_none _ _ _ Hf)
             (faulty_none _ _ _ Hf) Hl).
  unfold mbind, in_fs, NewWAL. cbn [w_fs w_rand].
  rewrite (faulty_none _ _ _ Hf), Hl.
  destruct (replay_answers es (NewSkipList 16) (mkWorld fs r))
    as (w' & l' & ER & Hfs & Hb & Ha & _).
  - constructor. lia.
  - exact Hnd.
  - intros e _. apply listGet_new. lia.
  - rewrite ER. destruct w' as [fs' r']. cbn [w_fs] in Hfs. subst fs'.
    exists r', l'. split; [reflexivity|]. split; assumption.
Qed.

Lemma loadLayers_empty (dir : string) (h heap : list chunk) (ls : list layer) (w : World) :
  Forall (fun l => l_chunks l = []) ls ->
  loadLayers dir (jsonOfLayers h ls) heap w = (w, Ok (ls, heap)).
Proof.
  induction ls as [|l ls IH]; intros H; cbn [jsonOfLayers map loadLayers];
    [reflexivity|].
  inversion H as [|? ? Hl Hls]; subst. rewrite Hl.
  cbn [jsonOfChunks map]. unfold mbind, ret.
  cbn [lj_Chunks lj_Name lj_MaxChunks loadChunks]. unfold ret.
  fold (jsonOfLayers h ls). rewrite (IH Hls).
  destruct l as [n m cs]. cbn in Hl. subst cs. reflexivity.
Qed.

Lemma logOf_snoc (es : list WALEntry) (e : WALEntry) :
  logOf (es ++ [e]) = logOf es ++ Marshal e ++ [entrySeparator].
Proof.
  unfold logOf. rewrite flat_map_app. cbn [flat_map]. rewrite app_nil_r.
  reflexivity.
Qed.

Lemma find_snoc (es : list WALEntry) (e : WALEntry) :
  ~ In (Key e) (map Key es) ->
  find (fun x => String.eqb (Key x) (Key e)) (es ++ [e]) = Some e.
Proof.
  induction es as [|a es IH]; intros H; cbn [app find].
  - rewrite String.eqb_refl. reflexivity.
  - destruct (String.eqb_spec (Key a) (Key e)) as [Ha|_].
    + exfalso. apply H. left. exact Ha.
    + apply IH. intros Hin. apply H. right. exact Hin.
Qed.

(** A key that was [Set] survives the rotation of the memtable and a
    restart.  When [Set] retires the only chunk of the tree, a memtable
    whose log holds the records [es], and the directory is opened again
    with [NewLsmTree], the new tree is loaded from the manifest, the
    retired memtable is rebuilt from its log, and [Get] returns the data. *)
Theorem a_key_survives_rotation_and_restart
  (key : string) (data : list byte) (s : State)
  (name : string) (c : skiplistChunk) (l0 : layer) (ls : list layer)
  (es : list WALEntry) :
  let p := rootChunk (st_tree s) in
  let dir := rootDir (st_tree s) in
  let s1 := fst (rootSet key data s) in
  let suffix := fst (randomString 6 (w_rand (st_world s1))) in
  let log := path_Join dir ("wal-" ++ suffix ++ ".log") in
  let oldLog := path_Join dir ("wal-" ++ name ++ ".log") in
  nth_error (st_heap s) p = Some (mkChunk name (SkiplistData c) chunkTypeSkiplist) ->
  sound c -> sc_wal c = mkWAL true oldLog ->
  faults (w_fs (st_world s)) = [] ->
  skiplistChunk_get c key = Ok (0, [], false) ->
  maxRootChunkSize (st_tree s) < uint64 (sc_dataSize c + uint64 (len data)) ->
  layers (st_tree s) = l0 :: ls ->
  Forall (fun l => l_chunks l = []) (l0 :: ls) ->
  lookup log (files (w_fs (st_world s1))) = None ->
  lookup oldLog (files (w_fs (st_world s))) = Some (FBytes (logOf es)) ->
  Forall well_formed (es ++ [mkWALEntry RecordKindWrite key data]) ->
  NoDup (map Key es) -> ~ In key (map Key es) ->
  exists s' w'' s'',
    LsmTree_Set key data s = (s', Ok tt)
    /\ NewLsmTree dir (st_world s') = (w'', Ok s'')
    /\ LsmTree_Get key s'' = (s'', Ok (data, true))
    /\ map l_name (layers (st_tree s'')) = map l_name (layers (st_tree s))
    /\ maxRootChunkSize (st_tree s'') = maxRootChunkSize (st_tree s).
Proof.
  intros p dir s1 suffix log oldLog.
  intros Hroot Hs Hwal Hf HG Hsize Hlay Hempty Hlog Hold Hes Hnd Hkey.
  assert (Ho : w_open (sc_wal c) = true) by (rewrite Hwal; reflexivity).
  assert (Hall : allocated (st_heap s) (l0 :: ls)).
  { unfold allocated. eapply Forall_impl; [|exact Hempty].
    intros l Hl. cbn beta in Hl. rewrite Hl. constructor. }
  destruct (Set_rotates key data s name c chunkTypeSkiplist l0 ls
              Hroot Hs Ho Hf HG Hsize Hlay Hall Hlog)
    as (s' & ESet & Hlay' & Hrc' & Hnew' & _ & Hman & Hf' & Hlog' & Hframe & Hheap
        & Hdir' & Hmax').
  fold p s1 suffix log dir in ESet, Hlay', Hrc', Hnew', Hman, Hf', Hlog', Hframe, Hheap.
  destruct (set_new c key RecordKindWrite data (st_world s) Hs Ho
              (faulty_none _ _ _ Hf) (get_absent_listGet c key Hs HG))
    as (w1 & c' & E & _ & _ & _ & Hl1 & _).
  rewrite Hwal in Hl1. cbn [w_fileName] in Hl1. specialize (Hl1 _ Hold).
  assert (ES : st_world s1 = w1).
  { unfold s1, rootSet, mbind, get_tree, deref. fold p. rewrite Hroot.
    unfold in_world. cbn [c_data chunkData_set]. unfold mbind. rewrite E.
    reflexivity. }
  rewrite ES in *. clear ES.
  fold log in Hnew', Hlog', Hframe, Hheap.
  set (e := mkWALEntry RecordKindWrite key data) in *.
  assert (Hne : String.eqb log oldLog = false).
  { destruct (String.eqb_spec log oldLog) as [Heq|]; [|reflexivity].
    rewrite Heq in Hlog. rewrite Hl1 in Hlog. discriminate. }
  assert (Hold' : lookup oldLog (files (w_fs (st_world s')))
                  = Some (FBytes (logOf (es ++ [e])))).
  { rewrite Hframe.
    - rewrite Hl1, logOf_snoc. reflexivity.
    - rewrite String.eqb_sym. apply log_is_not_the_manifest.
    - exact Hne. }
  assert (Hp : (p < List.length (st_heap s))%nat)
    by (apply nth_error_Some; rewrite Hroot; discriminate).
  inversion Hempty as [|? ? Hl0 Hls]; subst.
  assert (Hjson : jsonOfLayers (st_heap s') (layers (st_tree s'))
                  = mkLayerJson (l_name l0) (l_maxChunks l0)
                      [mkChunkJson name chunkTypeSkiplist]
                    :: jsonOfLayers (st_heap s') ls).
  { rewrite Hlay'. cbn [jsonOfLayers map l_name l_maxChunks l_chunks].
    rewrite Hl0. cbn [jsonOfChunks map]. rewrite Hheap.
    rewrite nth_error_app1 by (rewrite set_nth_length; lia).
    erewrite nth_error_set_nth_eq by exact Hroot. reflexivity. }
  rewrite Hjson in Hman. clear Hjson.
  destruct (st_world s') as [fs r] eqn:Ew. cbn [w_fs] in *.
  destruct (newSkipListChunk_replays log [] fs r Hf' (Forall_nil _) (NoDup_nil _) Hlog')
    as (r1 & lroot & E1 & Hb1 & Ha1).
  assert (Hnd' : NoDup (map Key (es ++ [e]))).
  { rewrite map_app. cbn [map].
    apply (NoDup_Add (Add_app (Key e) (map Key es) [])).
    rewrite app_nil_r. split; [exact Hnd|exact Hkey]. }
  destruct (newSkipListChunk_replays oldLog (es ++ [e]) fs r1 Hf' Hes Hnd' Hold')
    as (r2 & lold & E2 & Hb2 & Ha2).
  set (root2 := mkChunk suffix (SkiplistData (mkSkiplistChunk lroot (mkWAL true log) 0))
                  chunkTypeSkiplist).
  set (old2 := mkChunk name (SkiplistData (mkSkiplistChunk lold (mkWAL true oldLog) 0))
                 chunkTypeSkiplist).
  set (s2 := mkState (mkWorld fs r2) [root2; old2]
               (mkLsmTree (mkLayer (l_name l0) (l_maxChunks l0) [1%nat] :: ls) 0%nat
                  (maxRootChunkSize (st_tree s)) dir)).
  assert (EL : load dir (mkWorld fs r) = (mkWorld fs r2, Ok s2)).
  { unfold load, mbind, in_fs, lift. cbn [w_fs w_rand].
    rewrite (os_Open_ok _ _ _ Hf' Hman).
    cbn [tj_Root tj_Layers tj_MaxRootChunkSize cj_Name cj_ChunkType].
    unfold createChunkData at 1, mbind. cbn [Z.eqb chunkTypeSkiplist Pos.eqb].
    fold log. rewrite E1. unfold ret.
    cbn [loadLayers lj_Chunks lj_Name lj_MaxChunks loadChunks cj_Name cj_ChunkType].
    unfold mbind. unfold createChunkData at 1, mbind.
    cbn [Z.eqb chunkTypeSkiplist Pos.eqb]. fold oldLog. rewrite E2. unfold ret.
    rewrite (loadLayers_empty dir (st_heap s') _ ls _ Hls). reflexivity. }
  exists s', (mkWorld fs r2), s2. split; [exact ESet|]. split.
  { rewrite Ew. unfold NewLsmTree. rewrite EL. reflexivity. }
  split; [|split].
  - unfold LsmTree_Get, mbind, get_tree, deref, lift.
    cbn [s2 st_tree st_heap rootChunk nth_error root2 c_data chunkData_get layers].
    rewrite get_of_listGet. cbn [sc_list]. rewrite (Ha1 key). cbn [find].
    rewrite listGet_new by lia. cbn [bind].
    change (0 =? RecordKindDelete) with false. cbn [getLayers l_chunks getChunks].
    unfold mbind, deref, lift. change (st_heap s2) with [root2; old2].
    cbn [nth_error old2 c_data chunkData_get].
    rewrite get_of_listGet. cbn [sc_list]. rewrite (Ha2 key).
    change key with (Key e) at 1. rewrite (find_snoc es e Hkey).
    cbn [bind entryOf e Kind Data se_kind se_data].
    change (RecordKindWrite =? RecordKindDelete) with false. reflexivity.
  - cbn [s2 st_tree layers map l_name]. rewrite Hlay. reflexivity.
  - reflexivity.
Qed.


(** ** The order in which [Get] asks the chunks *)

(** What [Get] makes of one chunk's answer: a tombstone and a found record
    end the search. *)
Definition decisive (r : Z * list byte * bool) : option (list byte * bool) :=
  let '(kind, data, exists_) := r in
  if kind =? RecordKindDelete then Some ([], false)
  else if exists_ then Some (data, true)
  else None.

Fixpoint firstDecisive (rs : list (Z * list byte * bool)) : option (list byte * bool) :=
  match rs with
  | [] => None
  | r :: rs' =>
      match decisive r with
      | Some a => Some a
      | None => firstDecisive rs'
      end
  end.

Definition firstAnswer (rs : list (Z * list byte * bool)) : list byte * bool :=
  match firstDecisive rs with
  | Some a => a
  | None => ([], false)
  end.

(** The chunk at [p] answers [r] for the key. *)
Definition asked (s : State) (key : string) (p : nat) (r : Z * list byte * bool) : Prop :=
  exists c, nth_error (st_heap s) p = Some c /\ chunkData_get (c_data c) key = Ok r.

Lemma firstDecisive_app (a b : list (Z * list byte * bool)) :
  firstDecisive (a ++ b)
  = match firstDecisive a with
    | Some x => Some x
    | None => firstDecisive b
    end.
Proof.
  induction a as [|r a IH]; cbn [app firstDecisive]; [reflexivity|].
  destruct (decisive r); [reflexivity|exact IH].
Qed.

Lemma getChunks_first (s : State) (key : string) (cs : list nat) :
  forall rs, Forall2 (asked s key) cs rs ->
             getChunks cs key s = (s, Ok (firstDecisive rs)).
Proof.
  induction cs as [|p cs IH]; intros rs H; inversion H as [|? r ? rs' Hp Hcs]; subst;
    cbn [getChunks firstDecisive]; [reflexivity|].
  destruct Hp as (c & Hc & Hr). unfold mbind, deref, lift. rewrite Hc, Hr.
  destruct r as [[kind data] ex]. cbn [decisive].
  destruct (kind =? RecordKindDelete); [reflexivity|].
  destruct ex; [reflexivity|]. apply IH. exact Hcs.
Qed.

Lemma getLayers_first (s : State) (key : string) (ls : list layer) :
  forall rs, Forall2 (asked s key) (List.concat (map l_chunks ls)) rs ->
             getLayers ls key s = (s, Ok (firstAnswer rs)).
Proof.
  induction ls as [|l ls IH]; intros rs H; cbn [map List.concat getLayers] in *.
  - inversion H; subst. reflexivity.
  - apply Forall2_app_inv_l in H. destruct H as (r1 & r2 & H1 & H2 & ->).
    unfold mbind. rewrite (getChunks_first s key _ r1 H1).
    unfold firstAnswer. rewrite firstDecisive_app.
    destruct (firstDecisive r1); [reflexivity|].
    apply (IH r2 H2).
Qed.

(** [Get] asks the memtable, then the chunks of layer 0, of layer 1 and so on,
    each layer from its first chunk; the first chunk that holds a record for
    the key decides: its data for a write, "not found" for a tombstone, and
    "not found" when no chunk holds the key.  [Get] changes nothing. *)
Theorem Get_returns_the_first_decisive_answer
  (s : State) (key : string) (rs : list (Z * list byte * bool)) :
  Forall2 (asked s key)
    (rootChunk (st_tree s) :: List.concat (map l_chunks (layers (st_tree s)))) rs ->
  LsmTree_Get key s = (s, Ok (firstAnswer rs)).
Proof.
  intros H. inversion H as [|? r ? rs' Hp Hcs]; subst.
  destruct Hp as (c & Hc & Hr).
  unfold LsmTree_Get, mbind, get_tree, deref, lift. rewrite Hc, Hr.
  destruct r as [[kind data] ex]. unfold firstAnswer. cbn [firstDecisive decisive].
  destruct (kind =? RecordKindDelete); [reflexivity|].
  destruct ex; [reflexivity|].
  apply (getLayers_first s key _ rs' Hcs).
Qed.

End TreeProofs.


Lemma Get_returns_what_Set_stored_witness :
  nth_error (st_heap newTree) (rootChunk (st_tree newTree))
  = Some (mkChunk "aaaaaa" (SkiplistData newRoot) chunkTypeSkiplist)
  /\ skiplistChunk_get newRoot "k" = Ok (0, [], false)
  /\ exists s',
       LsmTree_Set (BF := exactFilter) (J := goJson) "k" (bytes "1") newTree
       = (s', Ok tt)
       /\ LsmTree_Get (BF := exactFilter) "k" s' = (s', Ok (bytes "1", true))
       /\ st_tree s' = st_tree newTree.
Proof.
  assert (H1 : nth_error (st_heap newTree) (rootChunk (st_tree newTree))
               = Some (mkChunk "aaaaaa" (SkiplistData newRoot) chunkTypeSkiplist))
    by (vm_compute; reflexivity).
  assert (H2 : skiplistChunk_get newRoot "k" = Ok (0, [], false))
    by (vm_compute; reflexivity).
  split; [exact H1|]. split; [exact H2|].
  apply (Get_returns_what_Set_stored (BF := exactFilter) (J := goJson) "k" (bytes "1")
           newTree "aaaaaa" newRoot chunkTypeSkiplist H1).
  - constructor. lia.
  - reflexivity.
  - vm_compute. reflexivity.
  - exact H2.
  - vm_compute. congruence.
Defined.

Lemma NewLsmTree_without_a_manifest_witness :
  lookup "db/lsm.json" (files (w_fs (emptyWorld (BF := exactFilter)))) = None
  /\ exists w' s,
       NewLsmTree (BF := exactFilter) (J := goJson) "db" emptyWorld = (w', Ok s)
       /\ layers (st_tree s)
          = [mkLayer "layer-0" 4 []; mkLayer "layer-1" 8 [];
             mkLayer "layer-2" 4 []; mkLayer "layer-3" 0 []]
       /\ maxRootChunkSize (st_tree s) = 16 * Megabyte
       /\ (forall key, LsmTree_Get (BF := exactFilter) key s = (s, Ok ([], false)))
       /\ lookup "db/lsm.json" (files (w_fs (st_world s))) = None
       /\ lookup "db/wal-aaaaaa.log" (files (w_fs (st_world s))) = Some (FBytes []).
Proof.
  split; [reflexivity|].
  apply (NewLsmTree_on_a_directory_without_a_manifest (BF := exactFilter)
           (J := goJson) "db" emptyWorld); reflexivity.
Defined.



Lemma Set_retires_a_full_memtable_witness :
  exists s',
    LsmTree_Set (BF := exactFilter) (J := goJson) "k" (bytes "1") smallTree = (s', Ok tt)
    /\ layers (st_tree s') = [mkLayer "layer-0" 0 [0%nat]; mkLayer "layer-1" 0 []]
    /\ rootChunk (st_tree s') = 1%nat
    /\ nth_error (st_heap s') (rootChunk (st_tree s'))
       = Some (mkChunk "aaaaaa" (SkiplistData newRoot) chunkTypeSkiplist)
    /\ LsmTree_Get (BF := exactFilter) "k" s' = (s', Ok (bytes "1", true))
    /\ lookup "db/lsm.json" (files (w_fs (st_world s')))
       = Some (FManifest
                 (mkTreeJson (jsonOfLayers (st_heap s') (layers (st_tree s')))
                    (mkChunkJson "aaaaaa" chunkTypeSkiplist) 0)).
Proof.
  apply (Set_retires_a_full_memtable (BF := exactFilter) (J := goJson) "k" (bytes "1")
           smallTree "root" freshChunk chunkTypeSkiplist
           (mkLayer "layer-0" 0 []) [mkLayer "layer-1" 0 []]).
  - vm_compute. reflexivity.
  - constructor. lia.
  - reflexivity.
  - reflexivity.
  - vm_compute. reflexivity.
  - vm_compute. reflexivity.
  - reflexivity.
  - repeat constructor.
  - vm_compute. reflexivity.
Defined.

Lemma goJson_k_well_formed :
  Forall (well_formed (J := goJson)) ([] ++ [mkWALEntry RecordKindWrite "k" (bytes "1")]).
Proof.
  repeat constructor; vm_compute; intuition congruence.
Qed.

Lemma a_key_survives_rotation_and_restart_witness :
  exists s' w'' s'',
    LsmTree_Set (BF := exactFilter) (J := goJson) "k" (bytes "1") smallTree = (s', Ok tt)
    /\ NewLsmTree (J := goJson) "db" (st_world s') = (w'', Ok s'')
    /\ LsmTree_Get (BF := exactFilter) "k" s'' = (s'', Ok (bytes "1", true))
    /\ map l_name (layers (st_tree s'')) = ["layer-0"; "layer-1"]%string
    /\ maxRootChunkSize (st_tree s'') = 0.
Proof.
  apply (a_key_survives_rotation_and_restart (BF := exactFilter) (J := goJson)
           "k" (bytes "1") smallTree "root" freshChunk
           (mkLayer "layer-0" 0 []) [mkLayer "layer-1" 0 []] []).
  - vm_compute. reflexivity.
  - constructor. lia.
  - reflexivity.
  - reflexivity.
  - vm_compute. reflexivity.
  - vm_compute. reflexivity.
  - reflexivity.
  - repeat constructor.
  - vm_compute. reflexivity.
  - vm_compute. reflexivity.
  - exact goJson_k_well_formed.
  - constructor.
  - intros [].
Defined.

Lemma Get_returns_the_first_decisive_answer_witness :
  Forall2 (asked shadowTree "key1")
    (rootChunk (st_tree shadowTree)
     :: List.concat (map l_chunks (layers (st_tree shadowTree))))
    [(RecordKindWrite, bytes "new", true); (RecordKindWrite, bytes "data1", true)]
  /\ LsmTree_Get (BF := exactFilter) "key1" shadowTree
     = (shadowTree, Ok (bytes "new", true)).
Proof.
  assert (H : Forall2 (asked shadowTree "key1")
                (rootChunk (st_tree shadowTree)
                 :: List.concat (map l_chunks (layers (st_tree shadowTree))))
                [(RecordKindWrite, bytes "new", true);
                 (RecordKindWrite, bytes "data1", true)]).
  { repeat constructor;
      (eexists; split; [vm_compute; reflexivity|vm_compute; reflexivity]). }
  split; [exact H|].
  apply (Get_returns_the_first_decisive_answer (BF := exactFilter) shadowTree "key1" _ H).
Defined.

(** * The linked list *)

Lemma nth_error_insert_at {A : Type} (l : list A) (x : A) (i j : nat) :
  (i <= List.length l)%nat ->
  nth_error (firstn i l ++ x :: skipn i l) j =
  if (j <? i)%nat then nth_error l j
  else if (j =? i)%nat then Some x else nth_error l (j - 1).
Proof.
  intros Hi. destruct (Nat.ltb_spec j i) as [Hlt|Hge].
  - rewrite nth_error_app1 by (rewrite length_firstn; lia).
    rewrite nth_error_firstn.
    destruct (Nat.ltb_spec j i); [reflexivity|lia].
  - rewrite nth_error_app2 by (rewrite length_firstn; lia).
    rewrite length_firstn, Nat.min_l by lia.
    destruct (Nat.eqb_spec j i) as [->|Hne].
    + rewrite Nat.sub_diag. reflexivity.
    + destruct (j - i)%nat as [|d] eqn:E; [lia|]. simpl.
      rewrite nth_error_skipn. f_equal. lia.
Qed.

Lemma nth_error_remove_at {A : Type} (l : list A) (i j : nat) :
  (i < List.length l)%nat ->
  nth_error (firstn i l ++ skipn (S i) l) j =
  if (j <? i)%nat then nth_error l j else nth_error l (S j).
Proof.
  intros Hi. destruct (Nat.ltb_spec j i) as [Hlt|Hge].
  - rewrite nth_error_app1 by (rewrite length_firstn; lia).
    rewrite nth_error_firstn.
    destruct (Nat.ltb_spec j i); [reflexivity|lia].
  - rewrite nth_error_app2 by (rewrite length_firstn; lia).
    rewrite length_firstn, Nat.min_l by lia.
    rewrite nth_error_skipn. f_equal. lia.
Qed.

Section LinkedListProofs.

Context {T : Type}.

(** The nodes at [addrs], in this order, hold [vs]; each one's [next] is the
    address after it and its [prev] the address before it ([prev] for the
    first one). *)
Fixpoint chain (ns : list (@Node T)) (prev : option nat) (addrs : list nat)
  (vs : list T) : Prop :=
  match addrs, vs with
  | [], [] => True
  | a :: addrs', v :: vs' =>
      nth_error ns a = Some (mkNode v (hd_error addrs') prev) /\
      chain ns (Some a) addrs' vs'
  | _, _ => False
  end.

(** The list [l] over the store [ns] is the chain of the distinct nodes
    [addrs], which hold the values [vs]. *)
Definition represents (ns : list (@Node T)) (l : LinkedList) (addrs : list nat)
  (vs : list T) : Prop :=
  ll_first l = hd_error addrs /\ NoDup addrs /\ chain ns None addrs vs.

Definition before (prev : option nat) (addrs : list nat) (i : nat) : option nat :=
  match i with
  | O => prev
  | S j => nth_error addrs j
  end.

Definition points_to (p : option nat) (a : nat) : bool :=
  match p with
  | Some b => Nat.eqb b a
  | None => false
  end.

Lemma chain_pointwise ns prev addrs vs :
  chain ns prev addrs vs <->
  List.length vs = List.length addrs /\
  forall i a, nth_error addrs i = Some a ->
    exists v, nth_error vs i = Some v /\
      nth_error ns a = Some (mkNode v (nth_error addrs (S i)) (before prev addrs i)).
Proof.
  revert prev vs. induction addrs as [|a addrs IH]; intros prev [|v vs]; simpl.
  - split; [intros _; split; [reflexivity|intros [|i] b; discriminate]|auto].
  - split; [tauto|intros [H _]; discriminate].
  - split; [tauto|intros [H _]; discriminate].
  - rewrite IH. split.
    + intros (Ha & Hlen & Hp). split; [lia|]. intros [|i] b Hb; simpl in *.
      * inversion Hb; subst. exists v. split; [reflexivity|].
        rewrite Ha. destruct addrs; reflexivity.
      * destruct (Hp i b Hb) as (w & Hw & Hn). exists w. split; [exact Hw|].
        rewrite Hn. destruct i; reflexivity.
    + intros (Hlen & Hp). split; [|split; [lia|]].
      * destruct (Hp 0%nat a eq_refl) as (w & Hw & Hn). simpl in Hw.
        inversion Hw; subst. rewrite Hn. destruct addrs; reflexivity.
      * intros i b Hb. destruct (Hp (S i) b Hb) as (w & Hw & Hn).
        exists w. split; [exact Hw|]. rewrite Hn. destruct i; reflexivity.
Qed.

Lemma represents_node ns l addrs vs i a :
  represents ns l addrs vs -> nth_error addrs i = Some a ->
  exists v, nth_error vs i = Some v /\
    nth_error ns a = Some (mkNode v (nth_error addrs (S i)) (before None addrs i)).
Proof.
  intros (_ & _ & Hl) Ha. apply chain_pointwise in Hl. apply Hl. exact Ha.
Qed.

Lemma represents_length ns l addrs vs :
  represents ns l addrs vs -> List.length vs = List.length addrs.
Proof. intros (_ & _ & Hl). apply chain_pointwise in Hl. apply Hl. Qed.

Lemma represents_valid ns l addrs vs i a :
  represents ns l addrs vs -> nth_error addrs i = Some a ->
  (a < List.length ns)%nat.
Proof.
  intros H Ha. destruct (represents_node _ _ _ _ _ _ H Ha) as (v & _ & Hn).
  apply nth_error_Some. rewrite Hn. discriminate.
Qed.

Lemma represents_first ns l addrs vs :
  represents ns l addrs vs -> ll_first l = nth_error addrs 0.
Proof. intros (H & _). rewrite H. destruct addrs; reflexivity. Qed.

Lemma is_nth addrs j b k :
  NoDup addrs -> nth_error addrs j = Some b ->
  points_to (nth_error addrs k) b = (k =? j)%nat.
Proof.
  intros Hnd Hj. pose proof (proj1 (NoDup_nth_error addrs) Hnd) as Hinj.
  assert (Hjl : (j < List.length addrs)%nat)
    by (apply nth_error_Some; rewrite Hj; discriminate).
  destruct (nth_error addrs k) as [c|] eqn:E; simpl.
  - destruct (Nat.eqb_spec c b) as [->|Hne].
    + symmetry. apply Nat.eqb_eq. symmetry. apply Hinj; [exact Hjl|congruence].
    + symmetry. apply Nat.eqb_neq. intros ->. congruence.
  - symmetry. apply Nat.eqb_neq. intros ->. congruence.
Qed.

Lemma is_before addrs j b i :
  NoDup addrs -> nth_error addrs j = Some b ->
  points_to (before None addrs i) b = match i with O => false | S k => (k =? j)%nat end.
Proof.
  intros Hnd Hj. destruct i as [|k]; [reflexivity|]. simpl.
  apply is_nth; assumption.
Qed.

Lemma is_fresh ns l addrs vs k :
  represents ns l addrs vs -> points_to (nth_error addrs k) (List.length ns) = false.
Proof.
  intros H. destruct (nth_error addrs k) as [c|] eqn:E; [|reflexivity]. simpl.
  apply Nat.eqb_neq. pose proof (represents_valid _ _ _ _ _ _ H E). lia.
Qed.

Lemma before_insert addrs n i j :
  (i <= List.length addrs)%nat ->
  before None (firstn i addrs ++ n :: skipn i addrs) j =
  if (j <=? i)%nat then before None addrs j
  else if (j =? S i)%nat then Some n else before None addrs (j - 1).
Proof.
  intros Hi. destruct j as [|j]; [reflexivity|]. cbn [before].
  rewrite nth_error_insert_at by exact Hi.
  destruct (Nat.ltb_spec j i), (Nat.leb_spec (S j) i); try lia; [reflexivity|].
  change (S j =? S i)%nat with (j =? i)%nat.
  destruct (Nat.eqb_spec j i); [reflexivity|].
  destruct j as [|j]; [lia|]. cbn [Nat.sub before]. rewrite Nat.sub_0_r.
  reflexivity.
Qed.

(** The store after a new node went in at position [i]. *)
Lemma splice ns l addrs vs i v ns' l' :
  represents ns l addrs vs -> (i <= List.length addrs)%nat ->
  nth_error ns' (List.length ns) =
    Some (mkNode v (nth_error addrs i) (before None addrs i)) ->
  (forall a x, nth_error ns a = Some x ->
     nth_error ns' a =
       Some (mkNode (n_value x)
               (if points_to (before None addrs i) a then Some (List.length ns) else n_next x)
               (if points_to (nth_error addrs i) a then Some (List.length ns) else n_prev x))) ->
  ll_first l' = match i with O => Some (List.length ns) | S _ => ll_first l end ->
  represents ns' l' (firstn i addrs ++ List.length ns :: skipn i addrs)
    (firstn i vs ++ v :: skipn i vs).
Proof.
  intros H Hi Hnew Hold Hfirst.
  pose proof (represents_length _ _ _ _ H) as Hlen.
  destruct H as (Hf & Hnd & Hl). assert (H : represents ns l addrs vs) by (split; auto).
  split; [|split].
  - rewrite Hfirst. destruct i as [|i]; [reflexivity|].
    rewrite Hf. destruct addrs; [simpl in Hi; lia|reflexivity].
  - apply (NoDup_Add (Add_app (List.length ns) (firstn i addrs) (skipn i addrs))).
    rewrite firstn_skipn. split; [exact Hnd|].
    intros Hin. apply In_nth_error in Hin. destruct Hin as (k & Hk).
    pose proof (represents_valid _ _ _ _ _ _ H Hk). lia.
  - apply chain_pointwise. split.
    + rewrite !length_app. simpl. rewrite !length_firstn, !length_skipn. lia.
    + intros j b Hb. rewrite nth_error_insert_at in Hb by exact Hi.
      rewrite (nth_error_insert_at vs) by lia.
      rewrite (nth_error_insert_at addrs) by exact Hi.
      rewrite before_insert by exact Hi.
      destruct (Nat.ltb_spec j i) as [Hji|Hji].
      * destruct (represents_node _ _ _ _ _ _ H Hb) as (w & Hw & Hn).
        exists w. split; [exact Hw|]. rewrite (Hold _ _ Hn). cbn [n_value n_next n_prev].
        rewrite (is_before _ _ _ _ Hnd Hb), (is_nth _ _ _ _ Hnd Hb).
        destruct (Nat.eqb_spec i j); [lia|].
        destruct (Nat.leb_spec j i); [|lia].
        destruct (Nat.ltb_spec (S j) i) as [Hs|Hs].
        -- destruct i as [|k]; [lia|]. destruct (Nat.eqb_spec k j); [lia|]. reflexivity.
        -- destruct (Nat.eqb_spec (S j) i); [|lia]. subst i.
           rewrite Nat.eqb_refl. reflexivity.
      * destruct (Nat.eqb_spec j i) as [->|Hne].
        -- inversion Hb; subst b. exists v. split; [reflexivity|].
           rewrite Hnew. destruct (Nat.ltb_spec (S i) i); [lia|].
           destruct (Nat.eqb_spec (S i) i); [lia|].
           destruct (Nat.leb_spec i i); [|lia].
           replace (S i - 1)%nat with i by lia. reflexivity.
        -- destruct (represents_node _ _ _ _ _ _ H Hb) as (w & Hw & Hn).
           exists w. split; [exact Hw|]. rewrite (Hold _ _ Hn). cbn [n_value n_next n_prev].
           rewrite (is_before _ _ _ _ Hnd Hb), (is_nth _ _ _ _ Hnd Hb).
           destruct (Nat.ltb_spec (S j) i); [lia|].
           destruct (Nat.eqb_spec (S j) i); [lia|].
           destruct (Nat.leb_spec j i); [lia|].
           replace (match i with O => false | S k => (k =? j - 1)%nat end) with false
             by (destruct i as [|k]; [reflexivity|];
                 symmetry; apply Nat.eqb_neq; lia).
           replace (S (j - 1)) with (S j - 1)%nat by lia.
           destruct (Nat.eqb_spec i (j - 1)), (Nat.eqb_spec j (S i)); try lia;
             reflexivity.
Qed.


Lemma set_node_next_reads (ns : list (@Node T)) p q :
  (p < List.length ns)%nat ->
  exists ns', set_node_next ns p q = Ok ns' /\
    List.length ns' = List.length ns /\
    forall a, nth_error ns' a =
      option_map (fun x => mkNode (n_value x)
                             (if points_to (Some p) a then q else n_next x)
                             (n_prev x))
        (nth_error ns a).
Proof.
  intros Hp. destruct (nth_error ns p) as [x|] eqn:E;
    [|apply nth_error_None in E; lia].
  unfold set_node_next, node_at. rewrite E. cbn [bind].
  eexists. split; [reflexivity|]. split; [apply set_nth_length|].
  intros a. rewrite nth_error_set_nth by exact Hp. cbn [points_to].
  destruct (Nat.eqb_spec a p) as [->|Hne].
  - rewrite E, Nat.eqb_refl. reflexivity.
  - destruct (Nat.eqb_spec p a); [congruence|].
    destruct (nth_error ns a) as [[]|]; reflexivity.
Qed.

Lemma set_node_prev_reads (ns : list (@Node T)) p q :
  (p < List.length ns)%nat ->
  exists ns', set_node_prev ns p q = Ok ns' /\
    List.length ns' = List.length ns /\
    forall a, nth_error ns' a =
      option_map (fun x => mkNode (n_value x) (n_next x)
                             (if points_to (Some p) a then q else n_prev x))
        (nth_error ns a).
Proof.
  intros Hp. destruct (nth_error ns p) as [x|] eqn:E;
    [|apply nth_error_None in E; lia].
  unfold set_node_prev, node_at. rewrite E. cbn [bind].
  eexists. split; [reflexivity|]. split; [apply set_nth_length|].
  intros a. rewrite nth_error_set_nth by exact Hp. cbn [points_to].
  destruct (Nat.eqb_spec a p) as [->|Hne].
  - rewrite E, Nat.eqb_refl. reflexivity.
  - destruct (Nat.eqb_spec p a); [congruence|].
    destruct (nth_error ns a) as [[]|]; reflexivity.
Qed.

Lemma opt_set_prev_reads (ns : list (@Node T)) (node : option nat) q :
  (forall b, node = Some b -> (b < List.length ns)%nat) ->
  exists ns',
    match node with
    | Some p => set_node_prev ns p q
    | None => Ok ns
    end = Ok ns' /\
    List.length ns' = List.length ns /\
    forall a, nth_error ns' a =
      option_map (fun x => mkNode (n_value x) (n_next x)
                             (if points_to node a then q else n_prev x))
        (nth_error ns a).
Proof.
  intros Hv. destruct node as [b|].
  - apply set_node_prev_reads. apply Hv. reflexivity.
  - exists ns. split; [reflexivity|]. split; [reflexivity|].
    intros a. cbn [points_to]. destruct (nth_error ns a) as [[]|]; reflexivity.
Qed.

Lemma before_valid ns l addrs vs i b :
  represents ns l addrs vs -> before None addrs i = Some b ->
  (b < List.length ns)%nat.
Proof.
  intros H Hb. destruct i as [|k]; [discriminate|].
  eapply represents_valid; eauto.
Qed.

Lemma before_none addrs i :
  (i <= List.length addrs)%nat -> before None addrs i = None -> i = 0%nat.
Proof.
  intros Hi Hb. destruct i as [|k]; [reflexivity|]. simpl in Hb.
  apply nth_error_None in Hb. lia.
Qed.

Lemma points_to_fresh_before ns l addrs vs k :
  represents ns l addrs vs -> points_to (before None addrs k) (List.length ns) = false.
Proof.
  intros H. destruct k as [|k]; [reflexivity|]. eapply is_fresh; eauto.
Qed.

(** The loop of [Insert] stops at the position [index], or returns early when
    the list is shorter. *)
Lemma seek_to ns l addrs vs count j :
  represents ns l addrs vs -> (j + count <= List.length addrs)%nat ->
  seek count ns (before None addrs j) (nth_error addrs j) =
  Ok (Some (before None addrs (j + count), nth_error addrs (j + count))).
Proof.
  intros H. revert j. induction count as [|count IH]; intros j Hj.
  - simpl. rewrite Nat.add_0_r. reflexivity.
  - replace (j + S count)%nat with (S j + count)%nat by lia. cbn [seek].
    destruct (nth_error addrs j) as [p|] eqn:E;
      [|apply nth_error_None in E; lia].
    destruct (represents_node _ _ _ _ _ _ H E) as (w & _ & Hn).
    unfold Node_Next, node_at. rewrite Hn. cbn [bind n_next].
    rewrite <- E. change (nth_error addrs j) with (before None addrs (S j)).
    rewrite (IH (S j)) by lia. reflexivity.
Qed.

Lemma seek_past ns l addrs vs count j :
  represents ns l addrs vs -> (j <= List.length addrs < j + count)%nat ->
  seek count ns (before None addrs j) (nth_error addrs j) = Ok None.
Proof.
  intros H. revert j. induction count as [|count IH]; intros j Hj; [lia|].
  cbn [seek]. destruct (nth_error addrs j) as [p|] eqn:E; [|reflexivity].
  destruct (represents_node _ _ _ _ _ _ H E) as (w & _ & Hn).
  unfold Node_Next, node_at. rewrite Hn. cbn [bind n_next].
  rewrite <- E. change (nth_error addrs j) with (before None addrs (S j)).
  assert (j < List.length addrs)%nat by (apply nth_error_Some; rewrite E; discriminate).
  apply (IH (S j)). lia.
Qed.

Lemma skipn_nth_cons {A : Type} (l : list A) (j : nat) (x : A) :
  nth_error l j = Some x -> skipn j l = x :: skipn (S j) l.
Proof.
  revert j. induction l as [|a l IH]; intros [|j] Hj; try discriminate.
  - inversion Hj. reflexivity.
  - simpl in Hj. apply (IH _ Hj).
Qed.

Lemma toArrayFrom_represents ns l addrs vs fuel j :
  represents ns l addrs vs -> (List.length addrs - j <= fuel)%nat ->
  toArrayFrom fuel ns (nth_error addrs j) = Ok (skipn j vs).
Proof.
  intros H. pose proof (represents_length _ _ _ _ H) as Hlen.
  revert j. induction fuel as [|fuel IH]; intros j Hj.
  - assert (Hn : nth_error addrs j = None) by (apply nth_error_None; lia).
    rewrite Hn. simpl. rewrite skipn_all2 by lia. reflexivity.
  - destruct (nth_error addrs j) as [p|] eqn:E.
    + destruct (represents_node _ _ _ _ _ _ H E) as (w & Hw & Hn).
      simpl. unfold Node_Value, Node_Next, node_at. rewrite Hn.
      cbn [bind n_value n_next]. rewrite IH by lia. cbn [bind].
      rewrite (skipn_nth_cons _ _ _ Hw). reflexivity.
    + apply nth_error_None in E. simpl. rewrite skipn_all2 by lia. reflexivity.
Qed.

Lemma represents_fits ns l addrs vs :
  represents ns l addrs vs -> (List.length addrs <= List.length ns)%nat.
Proof.
  intros H. pose proof H as (_ & Hnd & _).
  rewrite <- (length_seq (List.length ns) 0).
  apply NoDup_incl_length; [exact Hnd|].
  intros a Ha. apply In_nth_error in Ha. destruct Ha as (k & Hk).
  apply in_seq. pose proof (represents_valid _ _ _ _ _ _ H Hk). lia.
Qed.

Lemma toArray_represents ns l addrs vs :
  represents ns l addrs vs -> LinkedList_toArray ns l = Ok vs.
Proof.
  intros H. unfold LinkedList_toArray, LinkedList_First.
  rewrite (represents_first _ _ _ _ H).
  rewrite (toArrayFrom_represents _ _ _ _ _ _ H)
    by (pose proof (represents_fits _ _ _ _ H); lia).
  reflexivity.
Qed.

Lemma NewLinkedList_represents : represents [] NewLinkedList [] [].
Proof. repeat split. constructor. Qed.

(** The store that the three insertion methods leave behind. *)
Lemma spliced ns l addrs vs i v ns1 ns2 ns3 l' :
  represents ns l addrs vs -> (i <= List.length addrs)%nat ->
  ns1 = ns ++ [mkNode v (nth_error addrs i) (before None addrs i)] ->
  (forall a, nth_error ns2 a =
      option_map (fun x => mkNode (n_value x)
                             (if points_to (before None addrs i) a
                              then Some (List.length ns) else n_next x)
                             (n_prev x))
        (nth_error ns1 a)) ->
  (forall a, nth_error ns3 a =
      option_map (fun x => mkNode (n_value x) (n_next x)
                             (if points_to (nth_error addrs i) a
                              then Some (List.length ns) else n_prev x))
        (nth_error ns2 a)) ->
  ll_first l' = match i with O => Some (List.length ns) | S _ => ll_first l end ->
  represents ns3 l' (firstn i addrs ++ List.length ns :: skipn i addrs)
    (firstn i vs ++ v :: skipn i vs).
Proof.
  intros H Hi -> H2 H3 Hfirst.
  apply (splice ns l addrs vs i v ns3 l' H Hi).
  - rewrite H3, H2, nth_error_snoc, Nat.eqb_refl. cbn [option_map n_value n_next n_prev].
    rewrite (points_to_fresh_before _ _ _ _ _ H), (is_fresh _ _ _ _ _ H).
    reflexivity.
  - intros a x Hx. rewrite H3, H2, nth_error_snoc.
    assert (Ha : (a < List.length ns)%nat)
      by (apply nth_error_Some; rewrite Hx; discriminate).
    destruct (Nat.eqb_spec a (List.length ns)); [lia|].
    rewrite Hx. reflexivity.
  - exact Hfirst.
Qed.

(** Like [spliced], with the two pointer updates in the other order. *)
Lemma spliced' ns l addrs vs i v ns1 ns2 ns3 l' :
  represents ns l addrs vs -> (i <= List.length addrs)%nat ->
  ns1 = ns ++ [mkNode v (nth_error addrs i) (before None addrs i)] ->
  (forall a, nth_error ns2 a =
      option_map (fun x => mkNode (n_value x) (n_next x)
                             (if points_to (nth_error addrs i) a
                              then Some (List.length ns) else n_prev x))
        (nth_error ns1 a)) ->
  (forall a, nth_error ns3 a =
      option_map (fun x => mkNode (n_value x)
                             (if points_to (before None addrs i) a
                              then Some (List.length ns) else n_next x)
                             (n_prev x))
        (nth_error ns2 a)) ->
  ll_first l' = match i with O => Some (List.length ns) | S _ => ll_first l end ->
  represents ns3 l' (firstn i addrs ++ List.length ns :: skipn i addrs)
    (firstn i vs ++ v :: skipn i vs).
Proof.
  intros H Hi -> H2 H3 Hfirst.
  apply (splice ns l addrs vs i v ns3 l' H Hi).
  - rewrite H3, H2, nth_error_snoc, Nat.eqb_refl. cbn [option_map n_value n_next n_prev].
    rewrite (points_to_fresh_before _ _ _ _ _ H), (is_fresh _ _ _ _ _ H).
    reflexivity.
  - intros a x Hx. rewrite H3, H2, nth_error_snoc.
    assert (Ha : (a < List.length ns)%nat)
      by (apply nth_error_Some; rewrite Hx; discriminate).
    destruct (Nat.eqb_spec a (List.length ns)); [lia|].
    rewrite Hx. reflexivity.
  - exact Hfirst.
Qed.

Lemma Insert_at ns l addrs vs i index v :
  represents ns l addrs vs -> i = Z.to_nat index -> (i <= List.length addrs)%nat ->
  exists ns' l',
    LinkedList_Insert ns l index v = Ok (ns', l', None) /\
    represents ns' l' (firstn i addrs ++ List.length ns :: skipn i addrs)
      (firstn i vs ++ v :: skipn i vs).
Proof.
  intros H -> Hi. set (i := Z.to_nat index) in *.
  unfold LinkedList_Insert. fold i.
  rewrite (represents_first _ _ _ _ H).
  change None with (before None addrs 0) at 1.
  rewrite (seek_to _ _ _ _ _ _ H) by (simpl; exact Hi).
  cbn [bind Nat.add].
  set (ns1 := ns ++ [mkNode v (nth_error addrs i) (before None addrs i)]).
  assert (Hl1 : List.length ns1 = S (List.length ns))
    by (unfold ns1; rewrite length_app; simpl; lia).
  destruct (opt_set_prev_reads ns1 (nth_error addrs i) (Some (List.length ns)))
    as (ns2 & E2 & Hl2 & R2).
  { intros b Hb. pose proof (represents_valid _ _ _ _ _ _ H Hb). lia. }
  rewrite E2. cbn [bind].
  destruct (before None addrs i) as [p|] eqn:Ep.
  - pose proof (before_valid _ _ _ _ _ _ H Ep) as Hp.
    destruct (set_node_next_reads ns2 p (Some (List.length ns))) as (ns3 & E3 & Hl3 & R3);
      [lia|].
    rewrite E3. cbn [bind]. exists ns3, l. split; [reflexivity|].
    apply (spliced' ns l addrs vs i v ns1 ns2 ns3 l H Hi).
    + unfold ns1. rewrite Ep. reflexivity.
    + exact R2.
    + rewrite Ep. exact R3.
    + destruct i; [discriminate|reflexivity].
  - exists ns2, (mkLinkedList (Some (List.length ns))). split; [reflexivity|].
    apply (spliced' ns l addrs vs i v ns1 ns2 ns2 _ H Hi).
    + unfold ns1. rewrite Ep. reflexivity.
    + exact R2.
    + intros a. rewrite Ep. cbn [points_to].
      destruct (nth_error ns2 a) as [[]|]; reflexivity.
    + rewrite (before_none _ _ Hi Ep). reflexivity.
Qed.

Lemma Insert_past ns l addrs vs index v :
  represents ns l addrs vs -> (List.length addrs < Z.to_nat index)%nat ->
  LinkedList_Insert ns l index v = Ok (ns, l, Some ErrInvalidIndex).
Proof.
  intros H Hi. unfold LinkedList_Insert.
  rewrite (represents_first _ _ _ _ H).
  change None with (before None addrs 0) at 1.
  rewrite (seek_past _ _ _ _ _ _ H) by (simpl; lia).
  reflexivity.
Qed.


Lemma InsertAfter_at ns l addrs vs i p v :
  represents ns l addrs vs -> nth_error addrs i = Some p ->
  exists ns',
    LinkedList_InsertAfter ns l (Some p) v = Ok (ns', l) /\
    represents ns' l (firstn (S i) addrs ++ List.length ns :: skipn (S i) addrs)
      (firstn (S i) vs ++ v :: skipn (S i) vs).
Proof.
  intros H Hp. destruct (represents_node _ _ _ _ _ _ H Hp) as (w & Hw & Hn).
  pose proof (represents_valid _ _ _ _ _ _ H Hp) as Hv.
  assert (Hi : (S i <= List.length addrs)%nat).
  { assert (i < List.length addrs)%nat; [|lia].
    apply nth_error_Some. rewrite Hp. discriminate. }
  unfold LinkedList_InsertAfter, node_at. rewrite Hn. cbn [bind n_next].
  set (ns1 := ns ++ [mkNode v (nth_error addrs (S i)) (Some p)]).
  assert (Hl1 : List.length ns1 = S (List.length ns))
    by (unfold ns1; rewrite length_app; simpl; lia).
  destruct (set_node_next_reads ns1 p (Some (List.length ns)))
    as (ns2 & E2 & Hl2 & R2); [lia|].
  rewrite E2. cbn [bind]. unfold Node_Next, node_at.
  rewrite R2. unfold ns1 at 1. rewrite nth_error_snoc, Nat.eqb_refl.
  cbn [option_map bind n_next points_to].
  destruct (Nat.eqb_spec p (List.length ns)); [lia|].
  destruct (opt_set_prev_reads ns2 (nth_error addrs (S i)) (Some (List.length ns)))
    as (ns3 & E3 & Hl3 & R3).
  { intros b Hb. pose proof (represents_valid _ _ _ _ _ _ H Hb). lia. }
  rewrite E3. cbn [bind]. exists ns3. split; [reflexivity|].
  apply (spliced ns l addrs vs (S i) v ns1 ns2 ns3 l H Hi).
  - unfold ns1. cbn [before]. rewrite Hp. reflexivity.
  - cbn [before]. rewrite Hp. exact R2.
  - exact R3.
  - reflexivity.
Qed.

Lemma InsertBefore_at ns l addrs vs i p v :
  represents ns l addrs vs -> nth_error addrs i = Some p ->
  exists ns' l',
    LinkedList_InsertBefore ns l (Some p) v = Ok (ns', l') /\
    represents ns' l' (firstn i addrs ++ List.length ns :: skipn i addrs)
      (firstn i vs ++ v :: skipn i vs).
Proof.
  intros H Hp. destruct (represents_node _ _ _ _ _ _ H Hp) as (w & Hw & Hn).
  pose proof (represents_valid _ _ _ _ _ _ H Hp) as Hv.
  assert (Hi : (i <= List.length addrs)%nat).
  { assert (i < List.length addrs)%nat; [|lia].
    apply nth_error_Some. rewrite Hp. discriminate. }
  unfold LinkedList_InsertBefore, node_at. rewrite Hn. cbn [bind n_prev].
  remember (ns ++ [mkNode v (Some p) (before None addrs i)]) as ns1 eqn:E1.
  assert (Hl1 : List.length ns1 = S (List.length ns))
    by (rewrite E1, length_app; simpl; lia).
  assert (Hn1 : nth_error ns1 p = nth_error ns p).
  { rewrite E1, nth_error_snoc. destruct (Nat.eqb_spec p (List.length ns)); [lia|].
    reflexivity. }
  rewrite <- Hp in E1.
  unfold Node_Prev, node_at. rewrite Hn1, Hn. cbn [bind n_prev].
  destruct (before None addrs i) as [q|] eqn:Eb.
  - pose proof (before_valid _ _ _ _ _ _ H Eb) as Hq.
    destruct (set_node_next_reads ns1 q (Some (List.length ns)))
      as (ns2 & E2 & Hl2 & R2); [lia|].
    rewrite E2. cbn [bind].
    destruct (set_node_prev_reads ns2 p (Some (List.length ns)))
      as (ns3 & E3 & Hl3 & R3); [lia|].
    rewrite E3. cbn [bind]. exists ns3, l. split; [reflexivity|].
    apply (spliced ns l addrs vs i v ns1 ns2 ns3 l H Hi).
    + rewrite Eb. exact E1.
    + rewrite Eb. exact R2.
    + rewrite Hp. exact R3.
    + destruct i; [discriminate|reflexivity].
  - cbn [bind].
    destruct (set_node_prev_reads ns1 p (Some (List.length ns)))
      as (ns3 & E3 & Hl3 & R3); [lia|].
    rewrite E3. cbn [bind].
    exists ns3, (mkLinkedList (Some (List.length ns))). split; [reflexivity|].
    apply (spliced ns l addrs vs i v ns1 ns1 ns3 _ H Hi).
    + rewrite Eb. exact E1.
    + intros a. rewrite Eb. cbn [points_to].
      destruct (nth_error ns1 a) as [[]|]; reflexivity.
    + rewrite Hp. exact R3.
    + rewrite (before_none _ _ Hi Eb). reflexivity.
Qed.

Lemma split_at {A : Type} (l : list A) (i : nat) (x : A) :
  nth_error l i = Some x -> l = firstn i l ++ x :: skipn (S i) l.
Proof.
  revert i. induction l as [|a l IH]; intros [|i] H; try discriminate.
  - inversion H. reflexivity.
  - simpl in H. cbn [firstn skipn app]. f_equal. apply IH. exact H.
Qed.

Lemma before_remove addrs i j :
  (i < List.length addrs)%nat ->
  before None (firstn i addrs ++ skipn (S i) addrs) j =
  if (j <=? i)%nat then before None addrs j else before None addrs (S j).
Proof.
  intros Hi. destruct j as [|j]; [reflexivity|]. cbn [before].
  rewrite nth_error_remove_at by exact Hi.
  destruct (Nat.ltb_spec j i), (Nat.leb_spec (S j) i); try lia; reflexivity.
Qed.

(** The store after the node at position [i] was taken out. *)
Lemma unsplice ns l addrs vs i p ns' l' :
  represents ns l addrs vs -> nth_error addrs i = Some p ->
  (forall a x, nth_error ns a = Some x ->
     nth_error ns' a =
       Some (mkNode (n_value x)
               (if points_to (before None addrs i) a
                then nth_error addrs (S i) else n_next x)
               (if points_to (nth_error addrs (S i)) a
                then before None addrs i else n_prev x))) ->
  ll_first l' = match i with O => nth_error addrs 1 | S _ => ll_first l end ->
  represents ns' l' (firstn i addrs ++ skipn (S i) addrs)
    (firstn i vs ++ skipn (S i) vs).
Proof.
  intros H Hp Hold Hfirst.
  pose proof (represents_length _ _ _ _ H) as Hlen.
  assert (Hi : (i < List.length addrs)%nat)
    by (apply nth_error_Some; rewrite Hp; discriminate).
  destruct H as (Hf & Hnd & Hl). assert (H : represents ns l addrs vs) by (split; auto).
  split; [|split].
  - rewrite Hfirst. destruct i as [|i].
    + destruct addrs as [|a [|b r]]; reflexivity.
    + rewrite Hf. destruct addrs; [simpl in Hi; lia|reflexivity].
  - pose proof Hnd as Hnd'. rewrite (split_at addrs i p Hp) in Hnd'.
    apply NoDup_remove_1 in Hnd'. exact Hnd'.
  - apply chain_pointwise. split.
    + rewrite !length_app, !length_firstn, !length_skipn. lia.
    + intros j b Hb. rewrite nth_error_remove_at in Hb by exact Hi.
      rewrite (nth_error_remove_at vs) by lia.
      rewrite (nth_error_remove_at addrs) by exact Hi.
      rewrite before_remove by exact Hi.
      destruct (Nat.ltb_spec j i) as [Hji|Hji].
      * destruct (represents_node _ _ _ _ _ _ H Hb) as (w & Hw & Hn).
        exists w. split; [exact Hw|]. rewrite (Hold _ _ Hn).
        cbn [n_value n_next n_prev].
        rewrite (is_before _ _ _ _ Hnd Hb), (is_nth _ _ _ _ Hnd Hb).
        destruct (Nat.eqb_spec (S i) j); [lia|].
        destruct (Nat.leb_spec j i); [|lia].
        destruct (Nat.ltb_spec (S j) i) as [Hs|Hs].
        -- destruct i as [|k]; [lia|]. destruct (Nat.eqb_spec k j); [lia|]. reflexivity.
        -- destruct i as [|k]; [lia|]. destruct (Nat.eqb_spec k j); [|lia].
           subst k. reflexivity.
      * destruct (represents_node _ _ _ _ _ _ H Hb) as (w & Hw & Hn).
        exists w. split; [exact Hw|]. rewrite (Hold _ _ Hn).
        cbn [n_value n_next n_prev].
        rewrite (is_before _ _ _ _ Hnd Hb), (is_nth _ _ _ _ Hnd Hb).
        replace (match i with O => false | S k => (k =? S j)%nat end) with false
          by (destruct i as [|k]; [reflexivity|];
              symmetry; apply Nat.eqb_neq; lia).
        destruct (Nat.ltb_spec (S j) i); [lia|].
        change (S i =? S j)%nat with (i =? j)%nat.
        destruct (Nat.eqb_spec i j) as [->|Hne].
        -- destruct (Nat.leb_spec j j); [|lia]. reflexivity.
        -- destruct (Nat.leb_spec j i); [lia|]. reflexivity.
Qed.

Lemma Remove_at ns l addrs vs i p :
  represents ns l addrs vs -> nth_error addrs i = Some p ->
  exists ns' l',
    LinkedList_Remove ns l (Some p) = Ok (ns', l') /\
    represents ns' l' (firstn i addrs ++ skipn (S i) addrs)
      (firstn i vs ++ skipn (S i) vs).
Proof.
  intros H Hp. destruct (represents_node _ _ _ _ _ _ H Hp) as (w & Hw & Hn).
  pose proof H as (_ & Hnd & _).
  assert (Hi : (i <= List.length addrs)%nat).
  { assert (i < List.length addrs)%nat; [|lia].
    apply nth_error_Some. rewrite Hp. discriminate. }
  unfold LinkedList_Remove, node_at. rewrite Hn. cbn [bind n_next n_prev].
  destruct (opt_set_prev_reads ns (nth_error addrs (S i)) (before None addrs i))
    as (ns1 & E1 & Hl1 & R1).
  { intros b Hb. apply (represents_valid _ _ _ _ _ _ H Hb). }
  rewrite E1. cbn [bind]. rewrite R1, Hn.
  cbn [option_map bind n_value n_next n_prev].
  rewrite (is_nth _ _ _ (S i) Hnd Hp).
  destruct (Nat.eqb_spec (S i) i); [lia|].
  destruct (before None addrs i) as [q|] eqn:Eb.
  - pose proof (before_valid _ _ _ _ _ _ H Eb) as Hq.
    destruct (set_node_next_reads ns1 q (nth_error addrs (S i)))
      as (ns2 & E2 & Hl2 & R2); [lia|].
    rewrite E2. cbn [bind]. exists ns2, l. split; [reflexivity|].
    apply (unsplice ns l addrs vs i p ns2 l H Hp).
    + intros a x Hx. rewrite R2, R1, Hx, Eb. reflexivity.
    + destruct i; [discriminate|reflexivity].
  - unfold Node_Next, node_at. rewrite R1, Hn.
    cbn [option_map bind n_value n_next n_prev].
    exists ns1, (mkLinkedList (nth_error addrs (S i))). split; [reflexivity|].
    apply (unsplice ns l addrs vs i p ns1 _ H Hp).
    + intros a x Hx. rewrite R1, Hx, Eb. reflexivity.
    + rewrite (before_none _ _ Hi Eb). reflexivity.
Qed.

(** *** [Insert] with an index inside the list.

    On a well-formed list of [n] values, [Insert(index, value)] with
    [index <= n] returns no error and puts the value at position [index]
    (at the front for a negative index); the nodes that were there keep their
    addresses, and [toArray] returns the values in the new order. *)
Theorem Insert_puts_the_value_at_the_index ns l addrs vs index v :
  represents ns l addrs vs ->
  (index <= Z.of_nat (List.length vs))%Z ->
  let i := Z.to_nat index in
  let vs' := firstn i vs ++ v :: skipn i vs in
  exists ns' l',
    LinkedList_Insert ns l index v = Ok (ns', l', None) /\
    represents ns' l' (firstn i addrs ++ List.length ns :: skipn i addrs) vs' /\
    LinkedList_toArray ns' l' = Ok vs'.
Proof.
  intros H Hi i vs'. pose proof (represents_length _ _ _ _ H) as Hlen.
  destruct (Insert_at ns l addrs vs i index v H eq_refl) as (ns' & l' & E & R);
    [unfold i; lia|].
  exists ns', l'. split; [exact E|]. split; [exact R|].
  apply (toArray_represents _ _ _ _ R).
Qed.

(** *** [Insert] with an index past the end.

    On a well-formed list of [n] values, [Insert(index, value)] with
    [index > n] returns the error "invalid index" and changes nothing. *)
Theorem Insert_past_the_end_is_refused ns l addrs vs index v :
  represents ns l addrs vs ->
  (Z.of_nat (List.length vs) < index)%Z ->
  LinkedList_Insert ns l index v = Ok (ns, l, Some ErrInvalidIndex).
Proof.
  intros H Hi. pose proof (represents_length _ _ _ _ H) as Hlen.
  apply (Insert_past ns l addrs vs index v H). lia.
Qed.

(** *** [InsertAfter].

    [InsertAfter(node, value)] for the node at position [i] of a well-formed
    list puts the value at position [i + 1] and leaves the list head as it
    is. *)
Theorem InsertAfter_puts_the_value_behind_the_node ns l addrs vs i p v :
  represents ns l addrs vs ->
  nth_error addrs i = Some p ->
  let vs' := firstn (S i) vs ++ v :: skipn (S i) vs in
  exists ns',
    LinkedList_InsertAfter ns l (Some p) v = Ok (ns', l) /\
    represents ns' l (firstn (S i) addrs ++ List.length ns :: skipn (S i) addrs) vs' /\
    LinkedList_toArray ns' l = Ok vs'.
Proof.
  intros H Hp vs'.
  destruct (InsertAfter_at ns l addrs vs i p v H Hp) as (ns' & E & R).
  exists ns'. split; [exact E|]. split; [exact R|].
  apply (toArray_represents _ _ _ _ R).
Qed.

(** *** [InsertBefore].

    [InsertBefore(node, value)] for the node at position [i] of a well-formed
    list puts the value at position [i], in front of the node; before the
    first node the new node becomes the head of the list. *)
Theorem InsertBefore_puts_the_value_in_front_of_the_node ns l addrs vs i p v :
  represents ns l addrs vs ->
  nth_error addrs i = Some p ->
  let vs' := firstn i vs ++ v :: skipn i vs in
  exists ns' l',
    LinkedList_InsertBefore ns l (Some p) v = Ok (ns', l') /\
    represents ns' l' (firstn i addrs ++ List.length ns :: skipn i addrs) vs' /\
    LinkedList_toArray ns' l' = Ok vs' /\
    (i = 0%nat -> LinkedList_First l' = Some (List.length ns)).
Proof.
  intros H Hp vs'.
  destruct (InsertBefore_at ns l addrs vs i p v H Hp) as (ns' & l' & E & R).
  exists ns', l'. split; [exact E|]. split; [exact R|].
  split; [apply (toArray_represents _ _ _ _ R)|].
  intros ->. unfold LinkedList_First. rewrite (represents_first _ _ _ _ R).
  reflexivity.
Qed.

(** *** [Remove].

    [Remove(node)] for the node at position [i] of a well-formed list takes
    out this one value; the other nodes keep their order and addresses, and
    the list stays well formed. *)
Theorem Remove_takes_out_the_node ns l addrs vs i p :
  represents ns l addrs vs ->
  nth_error addrs i = Some p ->
  let vs' := firstn i vs ++ skipn (S i) vs in
  exists ns' l',
    LinkedList_Remove ns l (Some p) = Ok (ns', l') /\
    represents ns' l' (firstn i addrs ++ skipn (S i) addrs) vs' /\
    LinkedList_toArray ns' l' = Ok vs'.
Proof.
  intros H Hp vs'.
  destruct (Remove_at ns l addrs vs i p H Hp) as (ns' & l' & E & R).
  exists ns', l'. split; [exact E|]. split; [exact R|].
  apply (toArray_represents _ _ _ _ R).
Qed.

End LinkedListProofs.

Lemma threeList_represents :
  represents threeNodes threeList [0; 1; 2]%nat [1; 2; 3].
Proof.
  split; [reflexivity|]. split.
  - repeat constructor; simpl; intuition discriminate.
  - vm_compute. repeat split.
Qed.

Lemma Insert_puts_the_value_at_the_index_witness :
  exists ns' l',
    LinkedList_Insert threeNodes threeList 1 9 = Ok (ns', l', None) /\
    represents ns' l' [0; 3; 1; 2]%nat [1; 9; 2; 3] /\
    LinkedList_toArray ns' l' = Ok [1; 9; 2; 3].
Proof.
  apply (Insert_puts_the_value_at_the_index threeNodes threeList
           [0; 1; 2]%nat [1; 2; 3] 1 9 threeList_represents).
  simpl. lia.
Defined.

Lemma Insert_past_the_end_is_refused_witness :
  LinkedList_Insert threeNodes threeList 4 9
  = Ok (threeNodes, threeList, Some ErrInvalidIndex).
Proof.
  apply (Insert_past_the_end_is_refused threeNodes threeList
           [0; 1; 2]%nat [1; 2; 3] 4 9 threeList_represents).
  simpl. lia.
Defined.

Lemma InsertAfter_puts_the_value_witness :
  exists ns',
    LinkedList_InsertAfter threeNodes threeList (Some 0%nat) 9 = Ok (ns', threeList) /\
    represents ns' threeList [0; 3; 1; 2]%nat [1; 9; 2; 3] /\
    LinkedList_toArray ns' threeList = Ok [1; 9; 2; 3].
Proof.
  apply (InsertAfter_puts_the_value_behind_the_node threeNodes threeList
           [0; 1; 2]%nat [1; 2; 3] 0 0 9 threeList_represents).
  reflexivity.
Defined.

Lemma InsertBefore_puts_the_value_witness :
  exists ns' l',
    LinkedList_InsertBefore threeNodes threeList (Some 0%nat) 9 = Ok (ns', l') /\
    represents ns' l' [3; 0; 1; 2]%nat [9; 1; 2; 3] /\
    LinkedList_toArray ns' l' = Ok [9; 1; 2; 3] /\
    (0 = 0 -> LinkedList_First l' = Some 3)%nat.
Proof.
  apply (InsertBefore_puts_the_value_in_front_of_the_node threeNodes threeList
           [0; 1; 2]%nat [1; 2; 3] 0 0 9 threeList_represents).
  reflexivity.
Defined.

Lemma Remove_takes_out_the_node_witness :
  exists ns' l',
    LinkedList_Remove threeNodes threeList (Some 1%nat) = Ok (ns', l') /\
    represents ns' l' [0; 2]%nat [1; 3] /\
    LinkedList_toArray ns' l' = Ok [1; 3].
Proof.
  apply (Remove_takes_out_the_node threeNodes threeList
           [0; 1; 2]%nat [1; 2; 3] 1 1 threeList_represents).
  reflexivity.
Defined.

(** * The claims settled by running the code *)

Section Runs.

Local Open Scope string_scope.

(** ** C1, C2: the skiplist under an overwrite *)

(** C2 (fails on the code).  [Insert] of a key that is already present
    neither overwrites its entry nor returns its previous value: in a list
    holding only key 1, [Insert(1, 20)] returns nil and [Get(1)] still gives
    10; the new value went to [node], the predecessor found by the search
    (here the head), whose old value is what is returned. *)
Theorem Insert_present_key_keeps_old_value :
  ('(l, old1, r) <- SkipList_Insert Z.ltb Z.eqb (NewSkipList 4) 1 10 flatRand ;;
   '(l, old2, r) <- SkipList_Insert Z.ltb Z.eqb l 1 20 r ;;
   got <- SkipList_Get Z.ltb Z.eqb l 1 ;;
   Ok (old1, old2, got, SkipList_Len l))
  = Ok (None, None, (Some 10, true), 1).
Proof. vm_compute. reflexivity. Qed.

(** With a smaller key in the list the overwrite lands on that key's entry:
    after [Insert(1, 10)], [Insert(2, 20)], the call [Insert(2, 21)] returns
    10, leaves key 2 at 20 and sets key 1 to 21. *)
Lemma Insert_present_key_overwrites_predecessor :
  ('(l, _, r) <- SkipList_Insert Z.ltb Z.eqb (NewSkipList 4) 1 10 flatRand ;;
   '(l, _, r) <- SkipList_Insert Z.ltb Z.eqb l 2 20 r ;;
   '(l, old, r) <- SkipList_Insert Z.ltb Z.eqb l 2 21 r ;;
   got2 <- SkipList_Get Z.ltb Z.eqb l 2 ;;
   got1 <- SkipList_Get Z.ltb Z.eqb l 1 ;;
   Ok (old, got2, got1))
  = Ok (Some 10, (Some 20, true), (Some 21, true)).
Proof. vm_compute. reflexivity. Qed.

(** C1 (fails on the code).  On a freshly opened tree, [Set("k", "1")] then
    [Set("k", "2")] then [Get("k")] returns ["1"], the value of the first
    [Set], with found = true. *)
Theorem Get_after_two_Sets_returns_first_value :
  forall (BF : BloomFilter) (J : Json),
    answer (onTree emptyWorld
              (_ <~ LsmTree_Set "k" (bytes "1") ;;
               _ <~ LsmTree_Set "k" (bytes "2") ;;
               LsmTree_Get "k"))
    = Ok (bytes "1", true).
Proof. intros. vm_compute. reflexivity. Qed.

(** Read-your-writes does hold while every key is set once. *)
Lemma Get_after_Sets_of_distinct_keys :
  forall (BF : BloomFilter) (J : Json),
    answer (onTree emptyWorld
              (_ <~ LsmTree_Set "a" (bytes "1") ;;
               _ <~ LsmTree_Set "b" (bytes "2") ;;
               a <~ LsmTree_Get "a" ;;
               b <~ LsmTree_Get "b" ;;
               c <~ LsmTree_Get "c" ;;
               ret (a, b, c)))
    = Ok ((bytes "1", true), (bytes "2", true), ([], false)).
Proof. intros. vm_compute. reflexivity. Qed.

(** ** C3: the iterator of a built table *)

(** C3 (fails on the code).  A table built from the two ascending entries
    [("a", "1")] and [("b", "2")] iterates as the single entry [("a", "1")]:
    [Next] advances [nextIndexOffset] by [8 + keyLen + 8], the index entry is
    [8 + 8 + keyLen + 8] bytes long, and the misaligned second read ends in
    [io.EOF]. *)
Theorem iterator_yields_first_of_two_entries :
  forall (BF : BloomFilter),
    (tbl <- snd (buildTable 2 "db" "t"
                   [(RecordKindWrite, "a", bytes "1"); (RecordKindWrite, "b", bytes "2")]
                   (mkFS [] [])) ;;
     entries <- iterateAll tbl ;;
     Ok (SSTable_NumEntries tbl, entries))
    = Ok (2, [(RecordKindWrite, "a", bytes "1")]).
Proof. intros. vm_compute. reflexivity. Qed.

(** A table with a single entry does iterate as that entry. *)
Lemma iterator_yields_a_single_entry :
  forall (BF : BloomFilter),
    (tbl <- snd (buildTable 1 "db" "t" [(RecordKindWrite, "a", bytes "1")]
                   (mkFS [] [])) ;;
     iterateAll tbl)
    = Ok [(RecordKindWrite, "a", bytes "1")].
Proof. intros. vm_compute. reflexivity. Qed.

(** ** C8: a table with one entry *)

(** C8 (fails on the code).  A table built from the single entry
    [("b", "2")] has the one anchor [("b", 0)]; [Read("b")] finds the entry and
    [Read("c")] returns not found; [Read("a")], of a smaller key that the
    filter accepts, panics: [getIndexRange] ends with [min = max = 0] and
    evaluates [sparseIndex[min+1]]. *)
Theorem Read_below_the_single_anchor_panics :
  match snd (buildTable (BF := saturatedFilter) 1 "db" "t"
               [(RecordKindWrite, "b", bytes "2")] (mkFS [] [])) with
  | Ok tbl =>
      t_sparseIndex tbl = [mkIndexEntry "b" 0]
      /\ SSTable_Read tbl "b" = Ok (RecordKindWrite, bytes "2", true)
      /\ SSTable_Read tbl "c" = Ok (0, [], false)
      /\ bloom_Test (t_filter tbl) (bytes "a") = true
      /\ SSTable_Read tbl "a" = Panic
  | _ => False
  end.
Proof. vm_compute. repeat split. Qed.

(** With a filter that has no false positive the same lookup is rejected
    before the index is consulted. *)
Lemma Read_below_the_single_anchor_rejected_by_filter :
  (tbl <- snd (buildTable (BF := exactFilter) 1 "db" "t"
                 [(RecordKindWrite, "b", bytes "2")] (mkFS [] [])) ;;
   SSTable_Read tbl "a")
  = Ok (0, [], false).
Proof. vm_compute. reflexivity. Qed.

(** ** C9: a failing log append *)

(** C9 (fails on the code).  When the append to the root chunk's log fails,
    the chunk's [set] returns the I/O error, and [LsmTree.Set], which drops
    what [set] returns, reports success; the key is not found afterwards. *)
Theorem Set_reports_success_when_the_log_append_fails :
  forall (BF : BloomFilter) (J : Json),
    answer (onTree brokenLogWorld (rootSet "k" (bytes "1"))) = Err ErrIO
    /\ answer (onTree brokenLogWorld
                 (r <~ LsmTree_Set "k" (bytes "1") ;;
                  got <~ LsmTree_Get "k" ;;
                  ret (r, got)))
       = Ok (tt, ([], false)).
Proof. intros. split; vm_compute; reflexivity. Qed.

(** ** C4: [mergeLayer] *)

(** C4 (fails on the code).  With a rotation threshold of zero,
    [Set("k", "1")] retires the memtable [root] into layer 0.
    [mergeLayer(0)] then succeeds, puts the new table at the head of layer 1
    and removes [wal-root.log], but layer 0 of the tree still lists [root]:
    [l.chunks = nil] cleared the copy [l := tree.layers[layerIdx]]. *)
Theorem mergeLayer_leaves_the_source_layer_listed :
  forall (BF : BloomFilter) (J : Json),
    answer (onTree smallWorld
              (_ <~ LsmTree_Set "k" (bytes "1") ;;
               before <~ observe (fun s => (layerNames s, fileNames s)) ;;
               _ <~ mergeLayer 1 0 ;;
               after <~ observe (fun s => (layerNames s, fileNames s)) ;;
               ret (before, after)))
    = Ok (([["root"]; []],
           ["db/lsm.json"; "db/wal-root.log"; "db/wal-aaaaaa.log"]),
          ([["root"]; ["layer-1-aaaaaa"]],
           ["db/lsm.json"; "db/wal-aaaaaa.log"; "db/layer-1-aaaaaa.data";
            "db/layer-1-aaaaaa.index"; "db/layer-1-aaaaaa.bloom";
            "db/layer-1-aaaaaa.spindex"; "db/layer-1-aaaaaa.meta"])).
Proof. intros. vm_compute. reflexivity. Qed.

(** ** C5: a tombstone through compaction *)

(** C5 (fails on the code).  Layer 0 holds a retired memtable whose newest
    record for ["k"] is a DELETE tombstone, so [Get("k")] is not found.
    [mergeLayer(0)] writes the record into the merged table with kind WRITE
    ([parallellMerge] passes the constant [RecordKindWrite]); once the
    directory is opened again, [Get("k")] returns found. *)
Theorem compaction_turns_a_tombstone_into_a_write :
  let compacted :=
    onTree (BF := exactFilter) (J := goJson) (retiredWorld tombstoneLog)
      (before <~ LsmTree_Get "k" ;;
       _ <~ mergeLayer 1 0 ;;
       merged <~ observe (fun s => option_map
                            (fun c => chunkData_get (c_data c) "k") (chunkAt s 1 0)) ;;
       ret (before, merged)) in
  answer compacted = Ok (([], false), Some (Ok (RecordKindWrite, [], true)))
  /\ reopened (BF := exactFilter) (J := goJson) compacted (LsmTree_Get "k")
     = Ok ([], true).
Proof. split; vm_compute; reflexivity. Qed.

End Runs.
